(** * cif: a reader and a writer for the Crystallographic Information File format

    A shallow embedding of the Go package [cif] (scanner, document builder,
    value model and writer) and the properties of its specification.

    Conventions of the embedding.
    - A Go [string] is a byte string: Rocq's [string], one [ascii] per byte.
      The scanner reads its input byte by byte ([rune(lx.input[lx.pos])]), so
      a [rune] is an [ascii] and [eof] is the byte 0.
    - A Go [int] used as a position in the input is a [nat]; line numbers and
      counters that are printed are [Z].
    - A Go [map] is a [gmap]; a pointer to a [Loop] is an address into the
      [heap] of the document, so that two tags bound to the same table are
      bound to the same address.
    - A Go [panic] is the [Panic] outcome of the state-and-panic monad [M];
      loops that Go writes with [for] take a [fuel] argument, and running
      out of it is the third outcome, [OutOfFuel]. *)

From Stdlib Require Import ZArith String Ascii List Bool Lia.
From Stdlib Require Import Floats.SpecFloat.
From stdpp Require Import gmap strings list fin_maps.

Local Open Scope string_scope.
Local Open Scope Z_scope.

(** ** Panics, outcomes and the state monad *)

(** What a Go [panic] carries: the package's two error types, or anything
    else (a plain string, a run-time error). *)
Inductive panic : Type :=
| cifError (msg : string)
| writeError (msg : string)
| goPanic (msg : string).

Inductive Res (A : Type) : Type :=
| Ok (a : A)
| Panic (e : panic)
| OutOfFuel.
Arguments Ok {A} a.
Arguments Panic {A} e.
Arguments OutOfFuel {A}.

Definition M (S A : Type) : Type := S -> Res (A * S).

Definition ret {S A} (a : A) : M S A := fun s => Ok (a, s).

Definition bind {S A B} (c : M S A) (k : A -> M S B) : M S B :=
  fun s => match c s with
           | Ok (a, s') => k a s'
           | Panic e => Panic e
           | OutOfFuel => OutOfFuel
           end.

Definition raise {S A} (e : panic) : M S A := fun _ => Panic e.
Definition outOfFuel {S A} : M S A := fun _ => OutOfFuel.
Definition gets {S A} (f : S -> A) : M S A := fun s => Ok (f s, s).
Definition modify {S} (f : S -> S) : M S unit := fun s => Ok (tt, f s).

Declare Scope go_scope.
Delimit Scope go_scope with go.
Notation "x <- c1 ;; c2" := (bind c1 (fun x => c2))
  (at level 100, c1 at next level, right associativity) : go_scope.
Notation "c1 ;; c2" := (bind c1 (fun _ => c2))
  (at level 100, right associativity) : go_scope.
Local Open Scope go_scope.

(** ** Runes and character classes (the constants and predicates of the scanner) *)

Definition rune : Type := ascii.

Definition eof : rune := "000"%char.
Definition tagPrefix : rune := "_"%char.
Definition commentStart : rune := "#"%char.
Definition dataOmitted : rune := "."%char.
Definition dataMissing : rune := "?"%char.
Definition newline : rune := "010"%char.
Definition carriage : rune := "013"%char.
Definition tab : rune := "009"%char.
Definition dquote : rune := "034"%char.
Definition squote : rune := "'"%char.

Definition req (a b : rune) : bool := Ascii.eqb a b.
Arguments req (a b)%_char_scope.

(** [lo <= r && r <= hi] on code points. *)
Definition between (lo hi r : rune) : bool :=
  (N_of_ascii lo <=? N_of_ascii r)%N && (N_of_ascii r <=? N_of_ascii hi)%N.
Arguments between (lo hi r)%_char_scope.

Definition isOrdinaryChar (r : rune) : bool :=
  between "A" "Z" r || between "a" "z" r || between "0" "9" r ||
  req r "!" || req r "%" || req r "&" ||
  req r "(" || req r ")" || req r "*" || req r "+" || req r "," ||
  req r "-" || req r "." || req r "/" || req r ":" || req r "<" ||
  req r "=" || req r ">" || req r "?" || req r "@" || req r "\" ||
  req r "^" || req r "`" || req r "{" || req r "|" || req r "}" || req r "~".

Definition isNonBlankChar (r : rune) : bool :=
  isOrdinaryChar r || req r dquote || req r "#" || req r "$" ||
  req r squote || req r "_" || req r ";" || req r "[" || req r "]".

Definition isTextLeadChar (r : rune) : bool :=
  isOrdinaryChar r || req r dquote || req r "#" || req r "$" ||
  req r squote || req r "_" || req r " " || req r tab || req r "[" || req r "]".

Definition isPrintChar (r : rune) : bool :=
  isTextLeadChar r || req r ";".

Definition isNL (r : rune) : bool := req r newline || req r carriage.

Definition isWhiteSpace (r : rune) : bool :=
  req r " " || req r tab || isNL r.

Definition isDigit (r : rune) : bool := between "0" "9" r.

(** ** Strings: the pieces of Go's [strings], [strconv] and [fmt] that the package calls *)

Definition str1 (r : rune) : string := String r EmptyString.

(** [strings.ToLower] on a byte string of ASCII characters: the package
    applies it to names made of non-blank characters and to look-ahead
    windows that are compared with ASCII keywords. *)
Definition lowerRune (r : rune) : rune :=
  if between "A" "Z" r then ascii_of_N (N_of_ascii r + 32) else r.

Fixpoint ToLower (s : string) : string :=
  match s with
  | EmptyString => EmptyString
  | String c s' => String (lowerRune c) (ToLower s')
  end.

Definition streq (a b : string) : bool := String.eqb a b.

(** [s[i:]], which panics when [i] is beyond the end. *)
Definition sliceFrom {S} (s : string) (i : nat) : M S string :=
  if (i <=? String.length s)%nat
  then ret (substring i (String.length s - i) s)
  else raise (goPanic "runtime error: slice bounds out of range").

(** Decimal digits of a non-negative number, least significant last. *)
Fixpoint digitsOf (fuel : nat) (n : Z) (acc : string) : string :=
  match fuel with
  | O => acc
  | S f =>
      let acc' := String (ascii_of_N (Z.to_N (48 + n mod 10))) acc in
      if n / 10 =? 0 then acc' else digitsOf f (n / 10) acc'
  end.

(** [fmt.Sprintf("%d", n)]. *)
Definition itoa (n : Z) : string :=
  if n <? 0 then "-" +:+ digitsOf (S (Z.to_nat (Z.log2 (- n)))) (- n) ""
  else digitsOf (S (Z.to_nat (Z.log2 n))) n "".

(** ** The scanner: items, states and the lexer record *)

Inductive itemType : Type :=
| itemError | itemEOF | itemVersion | itemComment | itemGlobal | itemStop
| itemDataBlockStart | itemSaveFrameStart | itemSaveFrameEnd | itemLoop
| itemDataTag | itemDataOmitted | itemDataMissing | itemDataInteger
| itemDataFloat | itemDataString
| itemDataNone.

Definition itemType_eqb (a b : itemType) : bool :=
  match a, b with
  | itemError, itemError | itemEOF, itemEOF | itemVersion, itemVersion
  | itemComment, itemComment | itemGlobal, itemGlobal | itemStop, itemStop
  | itemDataBlockStart, itemDataBlockStart
  | itemSaveFrameStart, itemSaveFrameStart
  | itemSaveFrameEnd, itemSaveFrameEnd | itemLoop, itemLoop
  | itemDataTag, itemDataTag | itemDataOmitted, itemDataOmitted
  | itemDataMissing, itemDataMissing | itemDataInteger, itemDataInteger
  | itemDataFloat, itemDataFloat | itemDataString, itemDataString
  | itemDataNone, itemDataNone => true
  | _, _ => false
  end.

(** [itemType.String]: the method has no case for [itemDataNone]; the
    message of the panic that follows its [switch] formats the type with
    [%s], which calls the method again, so for [itemDataNone] the call
    never returns (the stack overflows, which no [recover] catches). The
    answer [None] stands for this. *)
Definition itemTypeString (t : itemType) : option string :=
  match t with
  | itemError => Some "Error"
  | itemEOF => Some "EOF"
  | itemVersion => Some "Version"
  | itemComment => Some "Comment"
  | itemGlobal => Some "Global"
  | itemStop => Some "Stop"
  | itemDataBlockStart => Some "DataBlockStart"
  | itemSaveFrameStart => Some "SaveFrameStart"
  | itemSaveFrameEnd => Some "SaveFrameEnd"
  | itemLoop => Some "Loop"
  | itemDataTag => Some "DataTag"
  | itemDataOmitted => Some "DataOmitted"
  | itemDataMissing => Some "DataMissing"
  | itemDataInteger => Some "DataInteger"
  | itemDataFloat => Some "DataFloat"
  | itemDataString => Some "DataString"
  | itemDataNone => None
  end.

Record item : Type := mkItem { typ : itemType; val : string; line : Z }.

(** The state functions of the scanner as values: [St.lexCif] is the Go
    function value [lexCif], whose body is the definition [lexCif] below.
    [St.lexValueQuoted] is the closure over the quote character that ends
    the string. *)
Module St.
Inductive stateFn : Type :=
| lexCifInitial | lexCif | lexDataBlockHeading | lexSaveFrameHeading
| lexDataBlocks | lexFirstSaveDataItem | lexSaveDataItems | lexDataItem
| lexLoopStartWhiteSpace | lexLoopStart | lexLoopTags | lexLoopStartValue
| lexLoopValues | lexDataTag | lexOneOrMore | lexPred | lexVersion
| lexSpaceOrEofContinue | lexWhiteSpaceContinue | lexComment
| lexValue | lexValueEnd | lexValueIntegerStart | lexValueInteger
| lexValueExponentFirst | lexValueExponent | lexValueFloatAfterDecimal
| lexValueTextFieldFirstLine | lexValueTextField | lexValueUnquotedEnd
| lexValueQuoted (quote : rune).
End St.
Abbreviation stateFn := St.stateFn.

(** The two predicates ever stored in the package variable [pred]. *)
Inductive predFn : Type := predNonBlankChar | predPrintChar.

Definition applyPred (p : predFn) (r : rune) : bool :=
  match p with
  | predNonBlankChar => isNonBlankChar r
  | predPrintChar => isPrintChar r
  end.

(** The lexer. A nil state function is [None]; the stack holds what was
    pushed, nil included, with its top at the head of the list. [pred] is
    the package-level variable that [chars] sets. *)
Record lexer : Type := mkLexer {
  input : string;
  start : nat;
  pos : nat;
  width : nat;
  lx_line : Z;
  state : option stateFn;
  emitted : option item;
  stack : list (option stateFn);
  pred : predFn
}.

Definition L (A : Type) : Type := M lexer A.

Definition set_start (n : nat) (lx : lexer) : lexer :=
  mkLexer (input lx) n (pos lx) (width lx) (lx_line lx) (state lx) (emitted lx) (stack lx) (pred lx).
Definition set_pos (n : nat) (lx : lexer) : lexer :=
  mkLexer (input lx) (start lx) n (width lx) (lx_line lx) (state lx) (emitted lx) (stack lx) (pred lx).
Definition set_width (n : nat) (lx : lexer) : lexer :=
  mkLexer (input lx) (start lx) (pos lx) n (lx_line lx) (state lx) (emitted lx) (stack lx) (pred lx).
Definition set_line (n : Z) (lx : lexer) : lexer :=
  mkLexer (input lx) (start lx) (pos lx) (width lx) n (state lx) (emitted lx) (stack lx) (pred lx).
Definition set_state (s : option stateFn) (lx : lexer) : lexer :=
  mkLexer (input lx) (start lx) (pos lx) (width lx) (lx_line lx) s (emitted lx) (stack lx) (pred lx).
Definition set_emitted (e : option item) (lx : lexer) : lexer :=
  mkLexer (input lx) (start lx) (pos lx) (width lx) (lx_line lx) (state lx) e (stack lx) (pred lx).
Definition set_stack (st : list (option stateFn)) (lx : lexer) : lexer :=
  mkLexer (input lx) (start lx) (pos lx) (width lx) (lx_line lx) (state lx) (emitted lx) st (pred lx).
Definition set_pred (p : predFn) (lx : lexer) : lexer :=
  mkLexer (input lx) (start lx) (pos lx) (width lx) (lx_line lx) (state lx) (emitted lx) (stack lx) p.

Definition lex (inp : string) : lexer :=
  {| input := inp; start := 0; pos := 0; width := 0; lx_line := 1;
     state := Some St.lexCifInitial; emitted := None; stack := []; pred := predNonBlankChar |}.

(** [string(r)] for the rune of one byte: the UTF-8 encoding of the code
    point, which is the byte itself below 128 and two bytes from there
    on. *)
Definition runeString (r : rune) : string :=
  let n := N_of_ascii r in
  if (n <? 128)%N then str1 r
  else String (ascii_of_N (192 + n / 64))
              (String (ascii_of_N (128 + n mod 64)) EmptyString).

(** The run-time conversion of [errf]: a rune argument is shown as [\n],
    as [EOF] or as itself. *)
Definition showRune (r : rune) : string :=
  if req r newline then "\n" else if req r eof then "EOF" else runeString r.

(** [lx.errf]: stores an error item and returns the nil state. *)
Definition errf (msg : string) : L (option stateFn) :=
  fun lx => Ok (None, set_emitted (Some (mkItem itemError msg (lx_line lx))) lx).

Definition push (s : option stateFn) : L unit :=
  modify (fun lx => set_stack (s :: stack lx) lx).

Definition pop : L (option stateFn) :=
  fun lx => match stack lx with
            | [] => errf "BUG in lexer: no states to pop." lx
            | last :: rest => Ok (last, set_stack rest lx)
            end.

(** [lx.input[lx.start:lx.pos]]; the slice expression panics when the
    bounds are out of order. *)
Definition current : L string :=
  fun lx => if (start lx <=? pos lx)%nat && (pos lx <=? String.length (input lx))%nat
            then Ok (substring (start lx) (pos lx - start lx) (input lx), lx)
            else Panic (goPanic "runtime error: slice bounds out of range").

Definition emit (t : itemType) : L unit :=
  fun lx => match emitted lx with
            | Some _ => Panic (goPanic "BUG in lexer: a state may only emit a single token")
            | None =>
                (cur <- current ;;
                 modify (fun lx => set_start (pos lx)
                                     (set_emitted (Some (mkItem t cur (lx_line lx))) lx))) lx
            end.

Definition next : L rune :=
  fun lx => match String.get (pos lx) (input lx) with
            | None => Ok (eof, set_width 0 lx)
            | Some c =>
                let lx1 := if req c newline then set_line (lx_line lx + 1) lx else lx in
                Ok (c, set_pos (pos lx + 1) (set_width 1 lx1))
            end.

Definition ignore : L unit := modify (fun lx => set_start (pos lx) lx).

Definition backup : L unit :=
  modify (fun lx =>
    let lx1 := set_pos (pos lx - width lx) lx in
    match String.get (pos lx1) (input lx1) with
    | Some c => if req c newline then set_line (lx_line lx1 - 1) lx1 else lx1
    | None => lx1
    end).

Definition accept (valid : rune) : L bool :=
  r <- next ;;
  if req r valid then ret true else (backup ;; ret false).

Definition peek : L rune :=
  gets (fun lx => match String.get (pos lx) (input lx) with
                  | None => eof
                  | Some c => c
                  end).

Definition peekAt (length : nat) : L string :=
  gets (fun lx => substring (pos lx) length (input lx)).

(** The later revision of [aheadMatch]: a plain comparison, although its
    comment says "case insensitive". *)
Definition aheadMatch (s : string) : L bool :=
  p <- peekAt (String.length s) ;; ret (streq p s).

Fixpoint acceptRunes (rs whole : string) : L bool :=
  match rs with
  | EmptyString => ret true
  | String r rest =>
      ok <- accept r ;;
      if ok then acceptRunes rest whole
      else (p <- peek ;;
            errf ("Expected '" +:+ showRune r +:+ "' but got '" +:+ showRune p +:+
                  "' instead (in '" +:+ whole +:+ "').") ;;
            ret false)
  end.

Definition acceptStr (s : string) (nextState : option stateFn) : L (option stateFn) :=
  ok <- acceptRunes s s ;;
  if ok then (ignore ;; ret nextState) else ret None.

Definition stop : L (option stateFn) :=
  ignore ;; emit itemEOF ;; ret None.

Definition chars (oneOrMore : bool) (predFn : predFn) : L (option stateFn) :=
  modify (set_pred predFn) ;;
  ret (Some (if oneOrMore then St.lexOneOrMore else St.lexPred)).

(** ** The scanner: state functions (top level, blocks, items and loops) *)

Definition lexCifInitial : L (option stateFn) :=
  r <- next ;;
  if req r commentStart then ret (Some St.lexVersion)
  else (backup ;; ret (Some St.lexCif)).

Definition lexCif : L (option stateFn) :=
  r <- peek ;;
  if req r eof then stop
  else if req r commentStart || isWhiteSpace r then
    (push (Some St.lexCif) ;; ignore ;; ret (Some St.lexWhiteSpaceContinue))
  else
    s <- peekAt 5 ;;
    if streq (ToLower s) "data_" then
      (push (Some St.lexDataBlockHeading) ;;
       nx <- chars true predNonBlankChar ;;
       acceptStr s nx)
    else ret None.

Definition lexSpaceOrEof (nextState : option stateFn) : L (option stateFn) :=
  push nextState ;; ret (Some St.lexSpaceOrEofContinue).

Definition lexSpaceOrEofContinue : L (option stateFn) :=
  r <- peek ;;
  if negb (isWhiteSpace r) && negb (req r eof) then
    errf ("Expected whitespace or EOF, but got '" +:+ showRune r +:+ "' instead.")
  else if req r eof then stop
  else pop.

Definition lexWhiteSpace (nextState : option stateFn) : L (option stateFn) :=
  r <- next ;;
  if negb (isWhiteSpace r) then
    errf ("Expected white space, but got '" +:+ showRune r +:+ "' instead.")
  else (push nextState ;; ret (Some St.lexWhiteSpaceContinue)).

Definition lexComment : L (option stateFn) :=
  r <- peek ;;
  if isNL r || req r eof then
    (emit itemComment ;; ret (Some St.lexWhiteSpaceContinue))
  else (accept r ;; ret (Some St.lexComment)).

Definition lexWhiteSpaceContinue : L (option stateFn) :=
  r <- next ;;
  if req r commentStart then (ignore ;; ret (Some St.lexComment))
  else if negb (isWhiteSpace r) then (backup ;; ignore ;; pop)
  else (ignore ;; ret (Some St.lexWhiteSpaceContinue)).

Definition lexDataBlockHeading : L (option stateFn) :=
  emit itemDataBlockStart ;; lexSpaceOrEof (Some St.lexDataBlocks).

Definition lexSaveFrameHeading : L (option stateFn) :=
  emit itemSaveFrameStart ;; lexWhiteSpace (Some St.lexFirstSaveDataItem).

Definition lexSaveFrameEnd : L (option stateFn) :=
  s <- peekAt 5 ;;
  if streq (ToLower s) "save_" then
    (emit itemSaveFrameEnd ;;
     nx <- lexSpaceOrEof (Some St.lexDataBlocks) ;;
     acceptStr s nx)
  else
    errf ("Expected 'save_' at end of save frame, but got '" +:+ s +:+ "' instead.").

Definition lexDataBlocks : L (option stateFn) :=
  r <- peek ;;
  if isWhiteSpace r then lexWhiteSpace (Some St.lexDataBlocks)
  else if req r eof then stop
  else
    g <- aheadMatch "global_" ;;
    if g then errf "global_ is not supported in the CIF format."
    else
      st <- aheadMatch "stop_" ;;
      if st then errf "stop_ is not supported in the CIF format."
      else
        s <- peekAt 5 ;;
        if streq (ToLower s) "data_" then
          (push (Some St.lexDataBlockHeading) ;;
           nx <- chars true predNonBlankChar ;;
           acceptStr s nx)
        else if streq (ToLower s) "save_" then
          (push (Some St.lexSaveFrameHeading) ;;
           nx <- chars true predNonBlankChar ;;
           acceptStr s nx)
        else (push (Some St.lexDataBlocks) ;; ret (Some St.lexDataItem)).

Definition lexFirstSaveDataItem : L (option stateFn) :=
  push (Some St.lexSaveDataItems) ;; ret (Some St.lexDataItem).

Definition lexSaveDataItems : L (option stateFn) :=
  sv <- aheadMatch "save_" ;;
  if sv then lexSaveFrameEnd
  else
    r <- peek ;;
    lp <- (if req r tagPrefix then ret true else aheadMatch "loop_") ;;
    if lp then (push (Some St.lexSaveDataItems) ;; ret (Some St.lexDataItem))
    else errf ("Expected either a data item or the end of a save frame, " +:+
               "but got '" +:+ showRune r +:+ "' instead.").

Definition lexDataItem : L (option stateFn) :=
  s <- peekAt 5 ;;
  if streq (ToLower s) "loop_" then
    (ignore ;; emit itemLoop ;; acceptStr s (Some St.lexLoopStartWhiteSpace))
  else
    r <- next ;;
    if negb (req r tagPrefix) then
      errf ("Expected data item name starting with '" +:+ showRune tagPrefix +:+
            "' but got '" +:+ showRune r +:+ "' instead. (Strings with spaces " +:+
            "must be quoted and all data keys must begin with an underscore.)")
    else
      (ignore ;; push (Some St.lexValue) ;; push (Some St.lexDataTag) ;;
       chars true predNonBlankChar).

Definition lexLoopStartWhiteSpace : L (option stateFn) :=
  lexWhiteSpace (Some St.lexLoopStart).

Definition lexLoopStart : L (option stateFn) :=
  r <- next ;;
  if negb (req r tagPrefix) then
    errf ("Every 'loop_' section must have at least one data " +:+
          "tag defined (starting with a '_'), but found '" +:+ showRune r +:+
          "' instead.")
  else
    (ignore ;; push (Some St.lexLoopTags) ;; push (Some St.lexDataTag) ;;
     chars true predNonBlankChar).

Definition lexLoopStartValue : L (option stateFn) :=
  push (Some St.lexLoopValues) ;; ret (Some St.lexValue).

Definition lexLoopTags : L (option stateFn) :=
  r <- peek ;;
  if req r tagPrefix then
    (next ;; ignore ;; push (Some St.lexLoopTags) ;; push (Some St.lexDataTag) ;;
     chars true predNonBlankChar)
  else ret (Some St.lexLoopStartValue).

Definition lexLoopValues : L (option stateFn) :=
  r <- peek ;;
  pk <- peekAt 5 ;;
  if req r tagPrefix then pop
  else if (req r "d" || req r "s" || req r "l") &&
          (streq pk "data_" || streq pk "save_" || streq pk "loop_") then pop
  else if req r eof then stop
  else (push (Some St.lexLoopValues) ;; ret (Some St.lexValue)).

Definition lexDataTag : L (option stateFn) :=
  emit itemDataTag ;;
  nx <- pop ;;
  lexWhiteSpace nx.

Definition lexOneOrMore : L (option stateFn) :=
  r <- next ;;
  p <- gets pred ;;
  if negb (applyPred p r) then
    errf ("Expected at least one character, but got '" +:+ showRune r +:+ "' instead.")
  else ret (Some St.lexPred).

Definition lexPred : L (option stateFn) :=
  r <- next ;;
  p <- gets pred ;;
  if negb (applyPred p r) then (backup ;; pop)
  else ret (Some St.lexPred).

(** The letters that [lexVersion] expects after the first [#]. *)
Definition versionLetters : list rune :=
  ["\"; "#"; "C"; "I"; "F"; "_"; "1"; "."; "1"]%char.

Fixpoint lexVersionLetters (letters : list rune) : L (option stateFn) :=
  match letters with
  | [] => emit itemVersion ;; ret (Some St.lexCif)
  | letter :: rest =>
      r <- next ;;
      if negb (req r letter) then (push (Some St.lexCif) ;; ret (Some St.lexComment))
      else lexVersionLetters rest
  end.

Definition lexVersion : L (option stateFn) := lexVersionLetters versionLetters.

(** ** The scanner: state functions for values *)

Definition lexValueEnd : L (option stateFn) :=
  nx <- pop ;; lexWhiteSpace nx.

(** The common tail "fall back to unquoted string". *)
Definition fallBackUnquoted : L (option stateFn) :=
  push (Some St.lexValueUnquotedEnd) ;; chars false predNonBlankChar.

Definition lexValue : L (option stateFn) :=
  backup ;;
  previous <- next ;;
  d <- aheadMatch "data_" ;;
  if d then errf "data_ cannot be used in the beginning of an unquoted value."
  else
    sv <- aheadMatch "save_" ;;
    if sv then errf "save_ cannot be used in the beginning of an unquoted value."
    else
      r <- next ;;
      pk <- peek ;;
      if req r dataOmitted && (isWhiteSpace pk || req pk eof) then
        (emit itemDataOmitted ;; lexSpaceOrEof (Some St.lexValueEnd))
      else if req r dataMissing then
        (emit itemDataMissing ;; lexSpaceOrEof (Some St.lexValueEnd))
      else if req r "+" || req r "-" then ret (Some St.lexValueIntegerStart)
      else if isDigit r then ret (Some St.lexValueInteger)
      else if req r "." then ret (Some St.lexValueFloatAfterDecimal)
      else if req r squote || req r dquote then
        (ignore ;; ret (Some (St.lexValueQuoted r)))
      else if isNL previous && req r ";" then
        (ignore ;; ret (Some St.lexValueTextFieldFirstLine))
      else if isNL previous && isOrdinaryChar r then fallBackUnquoted
      else if negb (isNL previous) && (isOrdinaryChar r || req r ";") then fallBackUnquoted
      else errf ("Expected a value ('.', '?', numeric or string), but got '" +:+
                 showRune r +:+ "'.").

Definition lexValueIntegerStart : L (option stateFn) :=
  r <- peek ;;
  if isDigit r then (accept r ;; ret (Some St.lexValueInteger))
  else if req r "." then (accept r ;; ret (Some St.lexValueFloatAfterDecimal))
  else fallBackUnquoted.

Definition lexValueInteger : L (option stateFn) :=
  r <- peek ;;
  if isDigit r then (accept r ;; ret (Some St.lexValueInteger))
  else if req r "." then (accept r ;; ret (Some St.lexValueFloatAfterDecimal))
  else if req r "e" || req r "E" then (accept r ;; ret (Some St.lexValueExponentFirst))
  else if isWhiteSpace r || req r eof then
    (emit itemDataInteger ;; lexSpaceOrEof (Some St.lexValueEnd))
  else fallBackUnquoted.

Definition lexValueExponentFirst : L (option stateFn) :=
  r <- peek ;;
  (if req r "+" || req r "-" then (accept r ;; ret tt) else ret tt) ;;
  ret (Some St.lexValueExponent).

Definition lexValueExponent : L (option stateFn) :=
  r <- peek ;;
  if isDigit r then (accept r ;; ret (Some St.lexValueExponent))
  else if isWhiteSpace r || req r eof then
    (emit itemDataFloat ;; lexSpaceOrEof (Some St.lexValueEnd))
  else fallBackUnquoted.

Definition lexValueFloatAfterDecimal : L (option stateFn) :=
  r <- peek ;;
  if isDigit r then (accept r ;; ret (Some St.lexValueFloatAfterDecimal))
  else if req r "e" || req r "E" then (accept r ;; ret (Some St.lexValueExponentFirst))
  else if isWhiteSpace r || req r eof then
    (emit itemDataFloat ;; lexSpaceOrEof (Some St.lexValueEnd))
  else fallBackUnquoted.

Definition lexValueTextFieldFirstLine : L (option stateFn) :=
  push (Some St.lexValueTextField) ;; chars false predPrintChar.

(** Note the [errf] whose result is dropped: the state function goes on
    after storing the error item. *)
Definition lexValueTextField : L (option stateFn) :=
  s <- peekAt 2 ;;
  match s with
  | String c0 (String c1 EmptyString) =>
      if isNL c0 && req c1 ";" then
        (emit itemDataString ;;
         nx <- lexSpaceOrEof (Some St.lexValueEnd) ;;
         acceptStr s nx)
      else
        r <- next ;;
        (if negb (isNL r) then
           errf ("Expected at a new line before end of semi-colon text field, " +:+
                 "but got '" +:+ showRune r +:+ "' instead.")
         else ret None) ;;
        pk <- peek ;;
        if isNL pk then ret (Some St.lexValueTextField)
        else (push (Some St.lexValueTextField) ;; chars true predPrintChar)
  | _ => errf "Expected a semi-colon terminator, but got EOF."
  end.

Definition reservedUnquoted : list string := ["loop_"; "stop_"; "global_"].

Definition lexValueUnquotedEnd : L (option stateFn) :=
  cur <- current ;;
  match List.find (fun word => streq word (ToLower cur)) reservedUnquoted with
  | Some word => errf (word +:+ " cannot be used as an unquoted string value.")
  | None => emit itemDataString ;; lexSpaceOrEof (Some St.lexValueEnd)
  end.

(** The loop of the closure returned by [lexValueQuoted]; every turn reads
    one byte, so the length of the input bounds it. *)
Fixpoint lexValueQuotedLoop (fuel : nat) (quote : rune) : L (option stateFn) :=
  match fuel with
  | O => outOfFuel
  | S f =>
      r <- next ;;
      if isNL r then errf "Quoted strings may not contain new lines."
      else if req r eof then errf "Expected end of quoted string, but got EOF."
      else
        pk <- peekAt 1 ;;
        let closes := match pk with
                      | EmptyString => true
                      | String c _ => isWhiteSpace c
                      end in
        if req r quote && closes then
          (backup ;; emit itemDataString ;; accept r ;; ignore ;;
           lexSpaceOrEof (Some St.lexValueEnd))
        else lexValueQuotedLoop f quote
  end.

Definition lexValueQuoted (quote : rune) : L (option stateFn) :=
  len <- gets (fun lx => String.length (input lx)) ;;
  lexValueQuotedLoop (S len) quote.

(** ** The scanner: running it *)

(** Calling a state function value. *)
Definition call (s : stateFn) : L (option stateFn) :=
  match s with
  | St.lexCifInitial => lexCifInitial
  | St.lexCif => lexCif
  | St.lexDataBlockHeading => lexDataBlockHeading
  | St.lexSaveFrameHeading => lexSaveFrameHeading
  | St.lexDataBlocks => lexDataBlocks
  | St.lexFirstSaveDataItem => lexFirstSaveDataItem
  | St.lexSaveDataItems => lexSaveDataItems
  | St.lexDataItem => lexDataItem
  | St.lexLoopStartWhiteSpace => lexLoopStartWhiteSpace
  | St.lexLoopStart => lexLoopStart
  | St.lexLoopTags => lexLoopTags
  | St.lexLoopStartValue => lexLoopStartValue
  | St.lexLoopValues => lexLoopValues
  | St.lexDataTag => lexDataTag
  | St.lexOneOrMore => lexOneOrMore
  | St.lexPred => lexPred
  | St.lexVersion => lexVersion
  | St.lexSpaceOrEofContinue => lexSpaceOrEofContinue
  | St.lexWhiteSpaceContinue => lexWhiteSpaceContinue
  | St.lexComment => lexComment
  | St.lexValue => lexValue
  | St.lexValueEnd => lexValueEnd
  | St.lexValueIntegerStart => lexValueIntegerStart
  | St.lexValueInteger => lexValueInteger
  | St.lexValueExponentFirst => lexValueExponentFirst
  | St.lexValueExponent => lexValueExponent
  | St.lexValueFloatAfterDecimal => lexValueFloatAfterDecimal
  | St.lexValueTextFieldFirstLine => lexValueTextFieldFirstLine
  | St.lexValueTextField => lexValueTextField
  | St.lexValueUnquotedEnd => lexValueUnquotedEnd
  | St.lexValueQuoted q => lexValueQuoted q
  end.

(** [lx.state = lx.state(lx)]. *)
Definition runState (s : stateFn) : L unit :=
  nx <- call s ;; modify (set_state nx).

(** [nextItem]: run state functions until one has emitted or the state is
    nil; a nil state answers [itemEOF] (line 0) whatever was emitted. *)
Fixpoint nextItem (fuel : nat) : L item :=
  fun lx =>
    match emitted lx, state lx with
    | None, Some s =>
        match fuel with
        | O => OutOfFuel
        | S f => (runState s ;; nextItem f) lx
        end
    | _, None => Ok (mkItem itemEOF "" 0, lx)
    | Some it, Some _ => Ok (it, set_emitted None lx)
    end.

(** All the items of an input, for inspection: the scanner is driven until
    the first [itemEOF] (or for [n] items). *)
Fixpoint lexAll (fuel n : nat) (lx : lexer) : list item :=
  match n with
  | O => []
  | S n' =>
      match nextItem fuel lx with
      | Ok (it, lx') =>
          it :: (if itemType_eqb (typ it) itemEOF then [] else lexAll fuel n' lx')
      | _ => []
      end
  end.

(** ** Numbers: [strconv.Atoi], [strconv.ParseFloat] and [%f] *)

(** A [float64] is an IEEE 754 binary64 number in the Standard Library's
    specification of floating-point arithmetic. *)
Definition float64 : Type := spec_float.
Definition prec64 : Z := 53.
Definition emax64 : Z := 1024.

Definition digitVal (c : rune) : Z := Z.of_N (N_of_ascii c) - 48.

(** Reads a run of decimal digits: its value, its length and the rest. *)
Fixpoint readDigits (s : string) (acc : Z) (n : nat) : Z * nat * string :=
  match s with
  | String c rest =>
      if isDigit c then readDigits rest (10 * acc + digitVal c) (S n)
      else (acc, n, s)
  | EmptyString => (acc, n, s)
  end.

(** An optional sign: [true] for [-]. *)
Definition readSign (s : string) : bool * string :=
  match s with
  | String c rest =>
      if req c "-" then (true, rest)
      else if req c "+" then (false, rest)
      else (false, s)
  | EmptyString => (false, s)
  end.

Definition minInt64 : Z := - 2 ^ 63.
Definition maxInt64 : Z := 2 ^ 63 - 1.

(** [strconv.Atoi] for a 64-bit [int]: an optional sign and one or more
    digits, within range; [None] is the error result. *)
Definition Atoi (s : string) : option Z :=
  let '(neg, s1) := readSign s in
  let '(v, n, rest) := readDigits s1 0 0 in
  match n, rest with
  | S _, EmptyString =>
      let z := if neg then - v else v in
      if (minInt64 <=? z) && (z <=? maxInt64) then Some z else None
  | _, _ => None
  end.

(** A decimal literal [sign digits [. digits] [e sign digits]] as
    sign, mantissa and power of ten; [None] on a syntax error. *)
Definition readDecimal (s : string) : option (bool * Z * Z) :=
  let '(neg, s1) := readSign s in
  let '(ip, n1, s2) := readDigits s1 0 0 in
  let '(m, n2, s3) :=
    match s2 with
    | String c rest => if req c "." then readDigits rest ip 0 else (ip, O, s2)
    | EmptyString => (ip, O, s2)
    end in
  match (n1 + n2)%nat with
  | O => None
  | S _ =>
      match s3 with
      | EmptyString => Some (neg, m, - Z.of_nat n2)
      | String c rest =>
          if req c "e" || req c "E" then
            let '(eneg, s4) := readSign rest in
            let '(e, n3, s5) := readDigits s4 0 0 in
            match n3, s5 with
            | S _, EmptyString =>
                Some (neg, m, (if eneg then - e else e) - Z.of_nat n2)
            | _, _ => None
            end
          else None
      end
  end.

(** The binary64 number nearest to [(-1)^neg * m * 10^e], ties to even. *)
Definition roundDecimal (neg : bool) (m e : Z) : float64 :=
  if m <=? 0 then S754_zero neg
  else if 0 <=? e then
    binary_normalize prec64 emax64 ((if neg then -1 else 1) * (m * 10 ^ e)) 0 neg
  else
    let d := 10 ^ (- e) in
    let s := Z.max 0 (prec64 + 2 + Zdigits2 d - Zdigits2 m) in
    let num := Z.shiftl m s in
    let q := num / d in
    let r := num mod d in
    let l := if r =? 0 then loc_Exact else loc_Inexact (2 * r ?= d) in
    binary_round_aux prec64 emax64 neg q (- s) l.

(** [strconv.ParseFloat(s, 64)] on decimal literals: [None] is the error
    result (a syntax error, or a value out of range). The other forms
    that [strconv] reads (hexadecimal literals, digit separators, [Inf]
    and [NaN]) hold a character that no numeric token of the scanner
    holds; on them the answer here is the syntax error. *)
Definition ParseFloat (s : string) : option float64 :=
  match readDecimal s with
  | None => None
  | Some (neg, m, e) =>
      match roundDecimal neg m e with
      | S754_infinity _ => None
      | f => Some f
      end
  end.

Definition padZeros (n : nat) (s : string) : string :=
  Nat.iter (n - String.length s) (String "0"%char) s.

(** [fmt.Sprintf("%f", f)]: six digits after the point, the exact value
    rounded to nearest, ties to even. *)
Definition formatFloat (f : float64) : string :=
  match f with
  | S754_nan => "NaN"
  | S754_infinity s => if s then "-Inf" else "+Inf"
  | S754_zero s => if s then "-0.000000" else "0.000000"
  | S754_finite s m e =>
      let num := Zpos m * 1000000 in
      let scaled :=
        if 0 <=? e then Z.shiftl num e
        else
          let d := Z.shiftl 1 (- e) in
          let q := num / d in
          let r := num mod d in
          match 2 * r ?= d with
          | Lt => q
          | Gt => q + 1
          | Eq => if Z.even q then q else q + 1
          end in
      (if s then "-" else "") +:+ itoa (scaled / 1000000) +:+ "." +:+
      padZeros 6 (itoa (scaled mod 1000000))
  end.

(** ** The value model and the document *)

(** A Go value passed as [interface{}], by its dynamic type; [anyOther]
    carries the name that [%T] prints. *)
Inductive any : Type :=
| anyString (s : string)
| anyInt (n : Z)
| anyFloat64 (f : float64)
| anyStrings (l : list string)
| anyInts (l : list Z)
| anyFloat64s (l : list float64)
| anyOther (typeName : string).

(** [Value] is an interface: besides the package's three implementations
    a caller may supply one of its own, [foreignValue]. *)
Inductive Value : Type :=
| cifString (s : string)
| cifInt (n : Z)
| cifFloat (f : float64)
| foreignValue (typeName : string).

Inductive ValueLoop : Type :=
| cifStrings (l : list string)
| cifInts (l : list Z)
| cifFloats (l : list float64)
| foreignValues (typeName : string).

Definition AsValue {S} (v : any) : M S Value :=
  match v with
  | anyString s => ret (cifString s)
  | anyInt n => ret (cifInt n)
  | anyFloat64 f => ret (cifFloat f)
  | anyStrings _ => raise (goPanic "Type '[]string' cannot be represented as a CIF value.")
  | anyInts _ => raise (goPanic "Type '[]int' cannot be represented as a CIF value.")
  | anyFloat64s _ => raise (goPanic "Type '[]float64' cannot be represented as a CIF value.")
  | anyOther t => raise (goPanic ("Type '" +:+ t +:+ "' cannot be represented as a CIF value."))
  end.

Definition AsValues {S} (v : any) : M S ValueLoop :=
  match v with
  | anyStrings l => ret (cifStrings l)
  | anyInts l => ret (cifInts l)
  | anyFloat64s l => ret (cifFloats l)
  | anyString _ => raise (goPanic "Type 'string' cannot be represented as a CIF loop column.")
  | anyInt _ => raise (goPanic "Type 'int' cannot be represented as a CIF loop column.")
  | anyFloat64 _ => raise (goPanic "Type 'float64' cannot be represented as a CIF loop column.")
  | anyOther t => raise (goPanic ("Type '" +:+ t +:+ "' cannot be represented as a CIF loop column."))
  end.

(** The length of a column, whatever its type. *)
Definition columnLen (v : ValueLoop) : nat :=
  match v with
  | cifStrings l => length l
  | cifInts l => length l
  | cifFloats l => length l
  | foreignValues _ => 0
  end.

(** The address of a [Loop] on the heap of the document. *)
Definition loc : Type := nat.

Record Loop : Type := mkLoop {
  Columns : gmap string Z;
  Values : list ValueLoop
}.

Record Block : Type := mkBlock {
  Name : string;
  Items : gmap string Value;
  Loops : gmap string loc
}.

Record SaveFrame : Type := mkSaveFrame { frameBlock : Block }.

Record DataBlock : Type := mkDataBlock {
  dataBlock : Block;
  Frames : gmap string SaveFrame
}.

(** The document. [Blocks] and [Frames] hold their blocks by key, which
    stands for the Go pointer; [heap] holds every [Loop] that was
    allocated, in order of allocation. *)
Record CIF : Type := mkCIF {
  Version : string;
  Blocks : gmap string DataBlock;
  heap : list Loop
}.

(** [lp.Values[lp.Columns[name]]]: a missing key reads as index 0, and an
    index out of range panics ([None]). *)
Definition Get (lp : Loop) (name : string) : option ValueLoop :=
  let i := default 0 (Columns lp !! name) in
  if i <? 0 then None else Values lp !! Z.to_nat i.

(** A block as the parser holds it: the data block [dblock.Block] or the
    save frame [frame.Block], named by the keys under which it is stored. *)
Inductive blockRef : Type :=
| inData (bname : string)
| inFrame (bname fname : string).

Definition emptyBlock (name : string) : Block :=
  {| Name := name; Items := ∅; Loops := ∅ |}.

Definition getBlock (b : blockRef) (c : CIF) : Block :=
  match b with
  | inData bn =>
      match Blocks c !! bn with
      | Some db => dataBlock db
      | None => emptyBlock ""
      end
  | inFrame bn fn =>
      match Blocks c !! bn with
      | Some db =>
          match Frames db !! fn with
          | Some fr => frameBlock fr
          | None => emptyBlock ""
          end
      | None => emptyBlock ""
      end
  end.

Definition alterDataBlock (f : Block -> Block) (db : DataBlock) : DataBlock :=
  {| dataBlock := f (dataBlock db); Frames := Frames db |}.

Definition alterFrame (f : Block -> Block) (fn : string) (db : DataBlock) : DataBlock :=
  {| dataBlock := dataBlock db;
     Frames := alter (fun fr => mkSaveFrame (f (frameBlock fr))) fn (Frames db) |}.

Definition alterBlock (f : Block -> Block) (b : blockRef) (c : CIF) : CIF :=
  {| Version := Version c;
     Blocks := match b with
               | inData bn => alter (alterDataBlock f) bn (Blocks c)
               | inFrame bn fn => alter (alterFrame f fn) bn (Blocks c)
               end;
     heap := heap c |}.

Definition setItem (name : string) (v : Value) (b : Block) : Block :=
  {| Name := Name b; Items := <[name := v]> (Items b); Loops := Loops b |}.

Definition setLoop (name : string) (l : loc) (b : Block) : Block :=
  {| Name := Name b; Items := Items b; Loops := <[name := l]> (Loops b) |}.

Definition set_Version (v : string) (c : CIF) : CIF :=
  {| Version := v; Blocks := Blocks c; heap := heap c |}.

Definition set_Blocks (bs : gmap string DataBlock) (c : CIF) : CIF :=
  {| Version := Version c; Blocks := bs; heap := heap c |}.

(** [&Loop{...}]: the new table goes to the end of the heap. *)
Definition allocLoop (lp : Loop) (c : CIF) : loc * CIF :=
  (length (heap c),
   {| Version := Version c; Blocks := Blocks c; heap := heap c ++ [lp] |}).

(** The text of the error that [strconv] returns for [s] (a [*NumError]);
    the literal is quoted as [strconv.Quote] does for the characters of a
    numeric token. *)
Definition numErrorText (fn s : string) (syntaxOk : bool) : string :=
  "strconv." +:+ fn +:+ ": parsing " +:+ str1 dquote +:+ s +:+ str1 dquote +:+ ": " +:+
  (if syntaxOk then "value out of range" else "invalid syntax").

Definition AtoiError (s : string) : string :=
  let '(_, s1) := readSign s in
  let '(_, n, rest) := readDigits s1 0 0 in
  numErrorText "Atoi" s (match n, rest with S _, EmptyString => true | _, _ => false end).

Definition ParseFloatError (s : string) : string :=
  numErrorText "ParseFloat" s (match readDecimal s with Some _ => true | None => false end).

(** ** The document builder *)

Record loopValues : Type := mkLoopValues {
  lv_name : string;
  lv_strs : list string;
  lv_typ : itemType
}.

Record parser : Type := mkParser {
  cif : CIF;
  lx : lexer;
  p_line : Z
}.

Definition isValueType (t : itemType) : bool :=
  itemType_eqb t itemDataOmitted || itemType_eqb t itemDataMissing ||
  itemType_eqb t itemDataInteger || itemType_eqb t itemDataFloat ||
  itemType_eqb t itemDataString.

Definition isNull (t : itemType) : bool :=
  itemType_eqb t itemDataOmitted || itemType_eqb t itemDataMissing.

Definition isInteger (t : itemType) : bool := itemType_eqb t itemDataInteger.

Definition isFloat (t : itemType) : bool := itemType_eqb t itemDataFloat.

(** The update of [vals[column].typ] in the value loop of [parseLoop],
    for the column's type so far and the type of the next token. *)
Definition mergeTyp (cur t : itemType) : itemType :=
  if itemType_eqb cur itemDataNone then t
  else if negb (itemType_eqb cur t) && negb (isNull t) then
    if (isInteger cur && isFloat t) || (isFloat cur && isInteger t)
    then itemDataFloat
    else itemDataString
  else cur.

Module Parser.

Definition P (A : Type) : Type := M parser A.

Definition set_cif (c : CIF) (p : parser) : parser := mkParser c (lx p) (p_line p).
Definition set_lx (l : lexer) (p : parser) : parser := mkParser (cif p) l (p_line p).
Definition set_p_line (n : Z) (p : parser) : parser := mkParser (cif p) (lx p) n.

(** Running a lexer step on [p.lx]. *)
Definition onLexer {A} (c : L A) : P A :=
  fun p => match c (lx p) with
           | Ok (a, l') => Ok (a, set_lx l' p)
           | Panic e => Panic e
           | OutOfFuel => OutOfFuel
           end.

Definition errf {A} (msg : string) : P A :=
  fun p => Panic (cifError ("CIF parse error (line " +:+ itoa (p_line p) +:+ "): " +:+ msg)).

(** [%s] of an [itemType]; for [itemDataNone] the call of [String] does
    not return, and neither does the parser. *)
Definition typeName (t : itemType) : P string :=
  match itemTypeString t with
  | Some s => ret s
  | None => outOfFuel
  end.

Fixpoint next (fuel : nat) : P item :=
  match fuel with
  | O => outOfFuel
  | S f =>
      t <- onLexer (nextItem fuel) ;;
      if itemType_eqb (typ t) itemComment then next f
      else if itemType_eqb (typ t) itemError then errf (val t)
      else (modify (set_p_line (line t)) ;; ret t)
  end.

Definition parseValue (t : item) (bname name : string) : P Value :=
  match typ t with
  | itemDataOmitted => AsValue (anyString ".")
  | itemDataMissing => AsValue (anyString "?")
  | itemDataInteger =>
      match Atoi (val t) with
      | Some n => AsValue (anyInt n)
      | None => errf ("Could not parse '" +:+ val t +:+ "' as integer: " +:+ AtoiError (val t))
      end
  | itemDataFloat =>
      match ParseFloat (val t) with
      | Some f => AsValue (anyFloat64 f)
      | None => errf ("Could not parse '" +:+ val t +:+ "' as float: " +:+ ParseFloatError (val t))
      end
  | itemDataString => AsValue (anyString (val t))
  | other =>
      tn <- typeName other ;;
      errf ("Expected value for data tag '" +:+ name +:+ "' in block '" +:+ bname +:+
            "', but got a '" +:+ tn +:+ "' instead.")
  end.

Definition assertUniqueTag (b : blockRef) (name : string) : P unit :=
  blk <- gets (fun p => getBlock b (cif p)) ;;
  let iok := bool_decide (is_Some (Items blk !! name)) in
  let lok := bool_decide (is_Some (Loops blk !! name)) in
  if iok || lok then
    errf ("Data item with name '" +:+ name +:+ "' already exists in block '" +:+
          Name blk +:+ "'.")
  else ret tt.

Definition parseItemValue (fuel : nat) (b : blockRef) (name : string) : P unit :=
  assertUniqueTag b name ;;
  t <- next fuel ;;
  bname <- gets (fun p => Name (getBlock b (cif p))) ;;
  v <- parseValue t bname name ;;
  modify (fun p => set_cif (alterBlock (setItem name v) b (cif p)) p).

(** One column of [convertLoopValues]. *)
Definition convertInts (strs : list string) : P (list Z) :=
  fold_right (fun str rest =>
      n <- (if streq str "." || streq str "?" then ret 0
            else match Atoi str with
                 | Some n => ret n
                 | None => errf ("Could not parse '" +:+ str +:+ "' as integer: " +:+
                                 AtoiError str)
                 end) ;;
      ns <- rest ;;
      ret (n :: ns))
    (ret []) strs.

Definition convertFloats (strs : list string) : P (list float64) :=
  fold_right (fun str rest =>
      n <- (if streq str "." || streq str "?" then ret (S754_zero false)
            else match ParseFloat str with
                 | Some n => ret n
                 | None => errf ("Could not parse '" +:+ str +:+ "' as float: " +:+
                                 ParseFloatError str)
                 end) ;;
      ns <- rest ;;
      ret (n :: ns))
    (ret []) strs.

Definition convertColumn (bname : string) (v : loopValues) : P ValueLoop :=
  match lv_typ v with
  | itemDataOmitted | itemDataMissing | itemDataString =>
      AsValues (anyStrings (lv_strs v))
  | itemDataInteger => nums <- convertInts (lv_strs v) ;; AsValues (anyInts nums)
  | itemDataFloat => nums <- convertFloats (lv_strs v) ;; AsValues (anyFloat64s nums)
  | other =>
      tn <- typeName other ;;
      errf ("Expected value for data tag '" +:+ lv_name v +:+ "' in block '" +:+ bname +:+
            "', but got a '" +:+ tn +:+ "' instead.")
  end.

Fixpoint convertColumns (bname : string) (vals : list loopValues) : P (list ValueLoop) :=
  match vals with
  | [] => ret []
  | v :: rest =>
      c <- convertColumn bname v ;;
      cs <- convertColumns bname rest ;;
      ret (c :: cs)
  end.

(** The second loop of [convertLoopValues]: [lp.Columns[val.name] = i]. *)
Fixpoint columnIndex (i : Z) (vals : list loopValues) (m : gmap string Z) : gmap string Z :=
  match vals with
  | [] => m
  | v :: rest => columnIndex (i + 1) rest (<[lv_name v := i]> m)
  end.

(** ... and [b.Loops[val.name] = lp]. *)
Definition bindLoop (l : loc) (vals : list loopValues) (blk : Block) : Block :=
  fold_left (fun b v => setLoop (lv_name v) l b) vals blk.

Definition convertLoopValues (b : blockRef) (vals : list loopValues) : P loc :=
  bname <- gets (fun p => Name (getBlock b (cif p))) ;;
  cols <- convertColumns bname vals ;;
  let lp := {| Columns := columnIndex 0 vals ∅; Values := cols |} in
  l <- (fun p => let '(l, c) := allocLoop lp (cif p) in Ok (l, set_cif c p)) ;;
  modify (fun p => set_cif (alterBlock (bindLoop l vals) b (cif p)) p) ;;
  ret l.

(** The first loop of [parseLoop]: the data tags. *)
Fixpoint parseLoopTags (fuel : nat) (b : blockRef) (t : item) (i : Z)
    (vals : list loopValues) : P (item * list loopValues) :=
  if itemType_eqb (typ t) itemDataTag then
    match fuel with
    | O => outOfFuel
    | S f =>
        let name := ToLower (val t) in
        assertUniqueTag b name ;;
        let vals' := (vals ++ [mkLoopValues name [] itemDataNone])%list in
        t' <- next f ;;
        parseLoopTags f b t' (i + 1) vals'
    end
  else ret (t, vals).

(** The body of the second loop: the value [t] goes to column
    [i % len(vals)]. *)
Definition addValue (t : item) (i : nat) (vals : list loopValues) : P (list loopValues) :=
  match length vals with
  | O => raise (goPanic "runtime error: integer divide by zero")
  | S _ =>
      let column := (i mod length vals)%nat in
      match vals !! column with
      | None => raise (goPanic "runtime error: index out of range")
      | Some v =>
          ret (<[column := mkLoopValues (lv_name v) (lv_strs v ++ [val t])%list
                                        (mergeTyp (lv_typ v) (typ t))]> vals)
      end
  end.

(** The second loop of [parseLoop]: the values. *)
Fixpoint parseLoopValues (fuel : nat) (t : item) (i count : nat)
    (vals : list loopValues) : P (item * nat * list loopValues) :=
  if isValueType (typ t) then
    match fuel with
    | O => outOfFuel
    | S f =>
        vals' <- addValue t i vals ;;
        t' <- next f ;;
        parseLoopValues f t' (S i) (S count) vals'
    end
  else ret (t, count, vals).

Definition parseLoop (fuel : nat) (b : blockRef) : P item :=
  loopLine <- gets p_line ;;
  t <- next fuel ;;
  (if negb (itemType_eqb (typ t) itemDataTag) then
     tn <- typeName (typ t) ;;
     errf ("After 'loop_' declaration, there must be at least one " +:+
           "data tag, but found '" +:+ tn +:+ "' instead.")
   else ret tt) ;;
  r <- parseLoopTags fuel b t 0 [] ;;
  let '(t, vals) := r in
  (if negb (isValueType (typ t)) then
     tn <- typeName (typ t) ;;
     errf ("After 'loop_' declaration, there must be at least one " +:+
           "data tag and at least one value, but found '" +:+ tn +:+
           "' instead of a value.")
   else ret tt) ;;
  r <- parseLoopValues fuel t 0 0 vals ;;
  let '(t, count, vals) := r in
  match length vals with
  | O => raise (goPanic "runtime error: integer divide by zero")
  | S _ =>
      (if negb ((count mod length vals)%nat =? 0)%nat then
         errf ("There are " +:+ itoa (Z.of_nat count) +:+ " values in loop (starting on line " +:+
               itoa loopLine +:+ "), which is not a multiple of the number of columns " +:+
               "in the loop (" +:+ itoa (Z.of_nat (length vals)) +:+ ").")
       else ret tt) ;;
      convertLoopValues b vals ;;
      ret t
  end.

Definition unexpectedInBlock {A} (t : item) : P A :=
  tn <- typeName (typ t) ;;
  errf ("Expected comments, whitespace or a data block heading, " +:+
        "but got a '" +:+ tn +:+ "' instead.").

(** The loop of [parseSaveFrame], entered with the token [t]. *)
Fixpoint parseSaveFrameLoop (fuel : nat) (frame : blockRef) (t : item) : P unit :=
  match fuel with
  | O => outOfFuel
  | S f =>
      match typ t with
      | itemSaveFrameEnd => ret tt
      | itemLoop =>
          t' <- parseLoop f frame ;;
          parseSaveFrameLoop f frame t'
      | itemDataTag =>
          parseItemValue f frame (ToLower (val t)) ;;
          t' <- next f ;;
          parseSaveFrameLoop f frame t'
      | other =>
          tn <- typeName other ;;
          errf ("Expected a data item or end of save frame delimiter, " +:+
                "but got a '" +:+ tn +:+ "' instead.")
      end
  end.

Definition insertFrame (name : string) (frame : SaveFrame) (db : DataBlock) : DataBlock :=
  {| dataBlock := dataBlock db; Frames := <[name := frame]> (Frames db) |}.

Definition parseSaveFrame (fuel : nat) (dblock : string) (name : string) : P unit :=
  db <- gets (fun p => Blocks (cif p) !! dblock) ;;
  let frames := match db with Some d => Frames d | None => ∅ end in
  let dname := match db with Some d => Name (dataBlock d) | None => "" end in
  (if bool_decide (is_Some (frames !! name)) then
     errf ("Save frame with name '" +:+ name +:+ "' already exists in data block '" +:+
           dname +:+ "'.")
   else ret tt) ;;
  let frame := mkSaveFrame (emptyBlock name) in
  modify (fun p => set_cif (set_Blocks (alter (insertFrame name frame) dblock
                                               (Blocks (cif p))) (cif p)) p) ;;
  t <- next fuel ;;
  parseSaveFrameLoop fuel (inFrame dblock name) t.

(** The loop of [parseDataBlock], entered with the token [t]. *)
Fixpoint parseDataBlockLoop (fuel : nat) (dblock : string) (t : item) : P item :=
  match fuel with
  | O => outOfFuel
  | S f =>
      match typ t with
      | itemEOF | itemDataBlockStart => ret t
      | itemSaveFrameStart =>
          parseSaveFrame f dblock (ToLower (val t)) ;;
          t' <- next f ;;
          parseDataBlockLoop f dblock t'
      | itemLoop =>
          t' <- parseLoop f (inData dblock) ;;
          parseDataBlockLoop f dblock t'
      | itemDataTag =>
          parseItemValue f (inData dblock) (ToLower (val t)) ;;
          t' <- next f ;;
          parseDataBlockLoop f dblock t'
      | _ => unexpectedInBlock t
      end
  end.

Definition parseDataBlock (fuel : nat) (name : string) : P item :=
  blocks <- gets (fun p => Blocks (cif p)) ;;
  (if bool_decide (is_Some (blocks !! name)) then
     errf ("Data block with name '" +:+ name +:+ "' already exists.")
   else ret tt) ;;
  let dblock := {| dataBlock := emptyBlock name; Frames := ∅ |} in
  modify (fun p => set_cif (set_Blocks (<[name := dblock]> (Blocks (cif p))) (cif p)) p) ;;
  t <- next fuel ;;
  parseDataBlockLoop fuel name t.

(** The loop of [parse], entered with the token [t]; it returns [p.CIF]. *)
Fixpoint parseLoopTop (fuel : nat) (t : item) : P CIF :=
  match fuel with
  | O => outOfFuel
  | S f =>
      match typ t with
      | itemEOF => gets cif
      | itemDataBlockStart =>
          t' <- parseDataBlock f (ToLower (val t)) ;;
          parseLoopTop f t'
      | itemVersion =>
          v <- sliceFrom (val t) 3 ;;
          modify (fun p => set_cif (set_Version v (cif p)) p) ;;
          t' <- next f ;;
          parseLoopTop f t'
      | _ => unexpectedInBlock t
      end
  end.

(** The body of [parse], before the deferred [recover]. *)
Definition parseBody (fuel : nat) (inp : string) : P CIF :=
  modify (set_lx (lex inp)) ;;
  t <- next fuel ;;
  parseLoopTop fuel t.

(** What a call returns: Go's pair of a [*CIF] and an [error], the error
    by its text. *)
Definition result : Type := (option CIF * option string)%type.

(** [parse] with its deferred function: a [cifError] panic is returned as
    the error; any other panic is recovered too, and the named results
    keep their zero values. [None] is for a call that does not return:
    a lack of fuel, or [String] on [itemDataNone]. *)
Definition parse (fuel : nat) (inp : string) (p : parser) : option result :=
  match parseBody fuel inp p with
  | Ok (c, _) => Some (Some c, None)
  | Panic (cifError e) => Some (None, Some e)
  | Panic _ => Some (None, None)
  | OutOfFuel => None
  end.

End Parser.

(** [Read] on a reader that delivers the bytes [inp]; for a reader that
    fails see [ReadFrom]. *)
Definition Read (fuel : nat) (inp : string) : option Parser.result :=
  let c := {| Version := ""; Blocks := ∅; heap := [] |} in
  Parser.parse fuel inp {| cif := c; lx := lex ""; p_line := 0 |}.

(** ** Regular expressions: what [regexp.MatchString] decides *)

Inductive regex : Type :=
| Empty                         (* matches nothing *)
| Eps                           (* the empty string *)
| Chr (c : rune)
| Range (lo hi : rune)          (* [lo-hi] *)
| Alt (r1 r2 : regex)
| Cat (r1 r2 : regex)
| Star (r : regex).
Arguments Chr c%_char_scope.
Arguments Range (lo hi)%_char_scope.

Definition Opt (r : regex) : regex := Alt Eps r.
Definition Plus (r : regex) : regex := Cat r (Star r).

Fixpoint nullable (r : regex) : bool :=
  match r with
  | Empty => false
  | Eps => true
  | Chr _ => false
  | Range _ _ => false
  | Alt r1 r2 => nullable r1 || nullable r2
  | Cat r1 r2 => nullable r1 && nullable r2
  | Star _ => true
  end.

(** The derivative of [r] by the character [c]. *)
Fixpoint deriv (c : rune) (r : regex) : regex :=
  match r with
  | Empty => Empty
  | Eps => Empty
  | Chr d => if req c d then Eps else Empty
  | Range lo hi => if between lo hi c then Eps else Empty
  | Alt r1 r2 => Alt (deriv c r1) (deriv c r2)
  | Cat r1 r2 =>
      if nullable r1 then Alt (Cat (deriv c r1) r2) (deriv c r2)
      else Cat (deriv c r1) r2
  | Star r1 => Cat (deriv c r1) (Star r1)
  end.

(** Some prefix of [s] matches [r]. *)
Fixpoint matchPrefix (r : regex) (s : string) : bool :=
  nullable r ||
  match s with
  | EmptyString => false
  | String c rest => matchPrefix (deriv c r) rest
  end.

(** [re.MatchString(s)]: [s] contains a match of [r]; the expression is
    not anchored. *)
Fixpoint MatchString (r : regex) (s : string) : bool :=
  matchPrefix r s ||
  match s with
  | EmptyString => false
  | String _ rest => MatchString r rest
  end.

(** The whole of [s] matches [r]. *)
Fixpoint fullMatch (r : regex) (s : string) : bool :=
  match s with
  | EmptyString => nullable r
  | String c rest => fullMatch (deriv c r) rest
  end.

Definition reSign : regex := Opt (Alt (Chr "+") (Chr "-")).
Definition reDigit : regex := Range "0" "9".
Definition reExponent : regex :=
  Cat (Alt (Chr "e") (Chr "E")) (Cat reSign (Plus reDigit)).

(** [(\+|-)?[0-9]+(\.[0-9]*([eE](\+|-)?[0-9]+)?)?] *)
Definition matchNumeric1 : regex :=
  Cat reSign (Cat (Plus reDigit)
                  (Opt (Cat (Chr ".") (Cat (Star reDigit) (Opt reExponent))))).

(** [(\+|-)?\.[0-9]+([eE](\+|-)?[0-9]+)?] *)
Definition matchNumeric2 : regex :=
  Cat reSign (Cat (Chr ".") (Cat (Plus reDigit) (Opt reExponent))).

(** ** The writer *)

Inductive quoting : Type := unquoted | single | double | text.

(** The loop of [formatStr] over the characters of the string, from the
    current [which], [seenDouble] and [seenSingle]; a [break] ends it. The
    cases are tried in the order of the [switch]. *)
Fixpoint scanStr (s : string) (which : quoting) (seenDouble seenSingle : bool)
    : Res quoting :=
  match s with
  | EmptyString => Ok which
  | String r rest =>
      if isNL r then Ok text
      else if req r dquote then
        if seenSingle then Ok text else scanStr rest single true seenSingle
      else if req r squote then
        if seenDouble then Ok text else scanStr rest double seenDouble true
      else if negb (isOrdinaryChar r) then
        if seenDouble && seenSingle then Ok text
        else if seenDouble then scanStr rest single seenDouble seenSingle
        else scanStr rest double seenDouble seenSingle
      else if negb (isPrintChar r) then
        Panic (writeError ("CIF write: The character '" +:+ str1 r +:+
                           "' is not a valid printable character " +:+
                           "in the CIF 1.1 specification."))
      else scanStr rest which seenDouble seenSingle
  end.

Definition formatStr (s : string) : Res string :=
  if MatchString matchNumeric1 s || MatchString matchNumeric2 s then
    Ok (str1 dquote +:+ s +:+ str1 dquote)
  else
    match scanStr s unquoted false false with
    | Ok unquoted => Ok s
    | Ok single => Ok ("'" +:+ s +:+ "'")
    | Ok double => Ok (str1 dquote +:+ s +:+ str1 dquote)
    | Ok text => Ok (str1 newline +:+ ";" +:+ s +:+ str1 newline +:+ ";")
    | Panic e => Panic e
    | OutOfFuel => OutOfFuel
    end.

(** [loopEqual]: some tag of [lp1] is a tag of [lp2]. *)
Definition loopEqual (lp1 lp2 : Loop) : bool :=
  existsb (fun '(tag, _) => bool_decide (is_Some (Columns lp2 !! tag)))
          (map_to_list (Columns lp1)).

Definition loopWritten (written : list Loop) (test : Loop) : bool :=
  existsb (fun lp => loopEqual lp test) written.

Module Writer.
Section Sink.

(** The output sink: any state [S] with a write operation that returns
    the new state and, when it fails, the text of its error. The sink
    lives outside the writer, so its state survives a panic. *)
Context {S : Type} (sinkWrite : string -> S -> S * option string).

Definition W (A : Type) : Type := S -> S * Res A.

Definition wret {A} (a : A) : W A := fun s => (s, Ok a).

Definition wbind {A B} (c : W A) (k : A -> W B) : W B :=
  fun s => match c s with
           | (s', Ok a) => k a s'
           | (s', Panic e) => (s', Panic e)
           | (s', OutOfFuel) => (s', OutOfFuel)
           end.

Definition wraise {A} (e : panic) : W A := fun s => (s, Panic e).

Definition ofRes {A} (r : Res A) : W A := fun s => (s, r).

Declare Scope writer_scope.
Notation "x <- c1 ;; c2" := (wbind c1 (fun x => c2))
  (at level 100, c1 at next level, right associativity) : writer_scope.
Notation "c1 ;; c2" := (wbind c1 (fun _ => c2))
  (at level 100, right associativity) : writer_scope.
Local Open Scope writer_scope.

Definition errf {A} (msg : string) : W A :=
  wraise (writeError ("CIF write: " +:+ msg)).

(** [w.pf] with its format already applied to its arguments. *)
Definition pf (s : string) : W unit :=
  fun st => match sinkWrite s st with
            | (st', None) => (st', Ok tt)
            | (st', Some err) => errf err st'
            end.

Fixpoint forEach {A} (l : list A) (body : A -> W unit) : W unit :=
  match l with
  | [] => wret tt
  | a :: rest => body a ;; forEach rest body
  end.

Definition valToStr (v : Value) : W string :=
  match v with
  | cifString s => ofRes (formatStr s)
  | cifInt n => wret (itoa n)
  | cifFloat f => wret (formatFloat f)
  | foreignValue t => errf ("CIF does not support value of type '" +:+ t +:+ "'.")
  end.

Fixpoint formatStrs (l : list string) : Res (list string) :=
  match l with
  | [] => Ok []
  | s :: rest =>
      match formatStr s with
      | Ok s' => match formatStrs rest with
                 | Ok rest' => Ok (s' :: rest')
                 | Panic e => Panic e
                 | OutOfFuel => OutOfFuel
                 end
      | Panic e => Panic e
      | OutOfFuel => OutOfFuel
      end
  end.

(** The type switch of [writeLoop] on one column; a column of a foreign
    type leaves its slot of [strs] nil. *)
Definition columnStrs (v : ValueLoop) : Res (list string) :=
  match v with
  | cifStrings vals => formatStrs vals
  | cifInts vals => Ok (List.map itoa vals)
  | cifFloats vals => Ok (List.map formatFloat vals)
  | foreignValues _ => Ok []
  end.

Fixpoint allColumnStrs (vs : list ValueLoop) : Res (list (list string)) :=
  match vs with
  | [] => Ok []
  | v :: rest =>
      match columnStrs v with
      | Ok c => match allColumnStrs rest with
                | Ok cs => Ok (c :: cs)
                | Panic e => Panic e
                | OutOfFuel => OutOfFuel
                end
      | Panic e => Panic e
      | OutOfFuel => OutOfFuel
      end
  end.

(** One row: [strs[column][row]] for each column in turn. *)
Fixpoint writeRow (strs : list (list string)) (row : nat) (before : string) : W unit :=
  match strs with
  | [] => wret tt
  | col :: rest =>
      match col !! row with
      | None => wraise (goPanic "runtime error: index out of range")
      | Some s => pf (before +:+ s) ;; writeRow rest row "  "
      end
  end.

Definition writeLoop (lp : Loop) : W unit :=
  pf ("loop_" +:+ str1 newline) ;;
  let order : gmap Z string :=
    fold_left (fun o '(column, i) => <[i := column]> o) (map_to_list (Columns lp)) ∅ in
  forEach (seq 0 (length (Values lp)))
          (fun i => pf ("_" +:+ default "" (order !! Z.of_nat i) +:+ str1 newline)) ;;
  strs <- ofRes (allColumnStrs (Values lp)) ;;
  match strs with
  | [] => wraise (goPanic "runtime error: index out of range")
  | col0 :: _ =>
      forEach (seq 0 (length col0))
              (fun row => writeRow strs row "" ;; pf (str1 newline))
  end.

Definition nilDereference : string :=
  "runtime error: invalid memory address or nil pointer dereference".

(** The loop over [b.Loops] with its list of tables already written; a
    table is reached through its address on the heap [h]. An address that
    is not on the heap stands for a nil table: [loopEqual] dereferences
    it as soon as a table already written has a column name to look up,
    and otherwise [writeLoop] does, after it has written [loop_]. *)
Fixpoint writeLoops (h : list Loop) (ls : list (string * loc)) (written : list Loop)
    : W unit :=
  match ls with
  | [] => wret tt
  | (_, l) :: rest =>
      match h !! l with
      | None =>
          if existsb (fun lp => negb (bool_decide (Columns lp = ∅))) written
          then wraise (goPanic nilDereference)
          else (pf ("loop_" +:+ str1 newline) ;; wraise (goPanic nilDereference))
      | Some lp =>
          if loopWritten written lp then writeLoops h rest written
          else (writeLoop lp ;; writeLoops h rest (written ++ [lp]))
      end
  end.

(** Go leaves the order of a [range] over a map unspecified; the model
    ranges in the order of [map_to_list]. *)
Definition writeBlock (h : list Loop) (b : Block) : W unit :=
  forEach (map_to_list (Items b))
          (fun '(tag, val) =>
             s <- valToStr val ;;
             pf ("_" +:+ tag +:+ "    " +:+ s +:+ str1 newline)) ;;
  writeLoops h (map_to_list (Loops b)) [].

Definition writeDataBlock (h : list Loop) (b : DataBlock) : W unit :=
  pf ("data_" +:+ Name (dataBlock b) +:+ str1 newline) ;;
  forEach (map_to_list (Frames b))
          (fun '(_, frame) =>
             pf ("save_" +:+ Name (frameBlock frame) +:+ str1 newline) ;;
             writeBlock h (frameBlock frame) ;;
             pf ("save_" +:+ str1 newline)) ;;
  writeBlock h (dataBlock b).

(** The body of [write], before the deferred [recover]. *)
Definition writeBody (c : CIF) : W unit :=
  (if (0 <? String.length (Version c))%nat
   then pf ("#\#" +:+ Version c +:+ str1 newline) else wret tt) ;;
  forEach (map_to_list (Blocks c)) (fun '(_, b) => writeDataBlock (heap c) b).

(** [write] with its deferred function, which returns a recovered panic
    as the error only when it is a [cifError]. The result is the sink
    after the call and the error returned ([None] for nil). *)
Definition write (c : CIF) (st : S) : S * option string :=
  match writeBody c st with
  | (st', Ok _) => (st', None)
  | (st', Panic (cifError e)) => (st', Some e)
  | (st', Panic _) => (st', None)
  | (st', OutOfFuel) => (st', None)
  end.

End Sink.
End Writer.

(** [cif.Write(w)]. *)
Definition Write {S : Type} (sinkWrite : string -> S -> S * option string)
    (c : CIF) (st : S) : S * option string :=
  Writer.write sinkWrite c st.

(** A [bytes.Buffer] as the sink: it appends and never fails. *)
Definition bufferWrite (s : string) (buf : string) : string * option string :=
  (buf +:+ s, None).

(** * Properties *)

(** ** Reasoning about monadic code *)

Lemma bind_Ok {S A B} (c : M S A) (k : A -> M S B) (s : S) (r : B * S) :
  bind c k s = Ok r -> exists a s1, c s = Ok (a, s1) /\ k a s1 = Ok r.
Proof.
  unfold bind. destruct (c s) as [[a s1]| |]; intros H; try discriminate.
  exists a, s1. split; [reflexivity | exact H].
Qed.

Lemma bind_Panic {S A B} (c : M S A) (k : A -> M S B) (s : S) (e : panic) :
  c s = Panic e -> bind c k s = Panic e.
Proof. unfold bind. intros ->. reflexivity. Qed.

Lemma bind_step {S A B} (c : M S A) (k : A -> M S B) (s s1 : S) (a : A) :
  c s = Ok (a, s1) -> bind c k s = k a s1.
Proof. unfold bind. intros ->. reflexivity. Qed.

Lemma ret_Ok {S A} (a b : A) (s s' : S) :
  ret a s = Ok (b, s') -> b = a /\ s' = s.
Proof. unfold ret. intros H. injection H as -> ->. split; reflexivity. Qed.

Lemma gets_Ok {S A} (f : S -> A) (b : A) (s s' : S) :
  gets f s = Ok (b, s') -> b = f s /\ s' = s.
Proof. unfold gets. intros H. injection H as <- <-. split; reflexivity. Qed.

Lemma modify_Ok {S} (f : S -> S) (u : unit) (s s' : S) :
  modify f s = Ok (u, s') -> s' = f s.
Proof. unfold modify. intros H. injection H as _ <-. reflexivity. Qed.

(** Takes a hypothesis [c s = Ok r] apart along the binds of [c]. *)
Ltac inv_monad :=
  repeat match goal with
    | H : bind _ _ _ = Ok _ |- _ =>
        let a := fresh "a" in let s := fresh "s" in let H1 := fresh "H" in
        apply bind_Ok in H; destruct H as (a & s & H1 & H)
    | H : ret _ _ = Ok (_, _) |- _ => apply ret_Ok in H; destruct H; subst
    | H : gets _ _ = Ok (_, _) |- _ => apply gets_Ok in H; destruct H; subst
    | H : modify _ _ = Ok (_, _) |- _ => apply modify_Ok in H; subst
    | H : raise _ _ = Ok _ |- _ => discriminate H
    | H : outOfFuel _ = Ok _ |- _ => discriminate H
    | H : Parser.errf _ _ = Ok _ |- _ => discriminate H
    | H : Panic _ = Ok _ |- _ => discriminate H
    | H : OutOfFuel = Ok _ |- _ => discriminate H
    | H : Ok _ = Ok _ |- _ => injection H as H; subst
    | H : (_, _) = (_, _) |- _ => injection H as H; subst
    end.

Tactic Notation "bind_inv" hyp(H) "as" simple_intropattern(pat) :=
  apply bind_Ok in H; destruct H as pat.

(** ** Character classes *)

Lemma isPrintChar_of_ordinary (r : rune) :
  isOrdinaryChar r = true -> isPrintChar r = true.
Proof.
  intros H. unfold isPrintChar, isTextLeadChar. rewrite H. reflexivity.
Qed.

Lemma itemType_eqb_eq (a b : itemType) : itemType_eqb a b = true <-> a = b.
Proof. split; [destruct a, b; simpl; congruence | intros ->; destruct b; reflexivity]. Qed.

Lemma itemType_eqb_refl (a : itemType) : itemType_eqb a a = true.
Proof. destruct a; reflexivity. Qed.

Lemma itemType_eqb_neq (a b : itemType) : itemType_eqb a b = false <-> a <> b.
Proof.
  split.
  - intros H ->. rewrite itemType_eqb_refl in H. discriminate.
  - intros H. destruct (itemType_eqb a b) eqn:E; [|reflexivity].
    apply itemType_eqb_eq in E. contradiction.
Qed.

(** ** The parser leaves the document alone while it reads tokens *)

Lemma onLexer_cif {A} (c : L A) (p p' : parser) (a : A) :
  Parser.onLexer c p = Ok (a, p') -> cif p' = cif p /\ p_line p' = p_line p.
Proof.
  unfold Parser.onLexer. destruct (c (lx p)) as [[x l]| |]; intros H; try discriminate.
  injection H as <- <-. split; reflexivity.
Qed.

Lemma next_cif (fuel : nat) (p p' : parser) (t : item) :
  Parser.next fuel p = Ok (t, p') -> cif p' = cif p.
Proof.
  revert p. induction fuel as [|f IH]; intros p H; simpl in H; [discriminate|].
  inv_monad. apply onLexer_cif in H0 as [Hc _].
  destruct (itemType_eqb (typ a) itemComment).
  - rewrite (IH _ H). exact Hc.
  - destruct (itemType_eqb (typ a) itemError); inv_monad. exact Hc.
Qed.

(** [next] records the line of the token that it returns, which is
    neither a comment nor an error. *)
Lemma next_line (fuel : nat) (p p' : parser) (t : item) :
  Parser.next fuel p = Ok (t, p') ->
  p_line p' = line t /\ typ t <> itemComment /\ typ t <> itemError.
Proof.
  revert p. induction fuel as [|f IH]; intros p H; simpl in H; [discriminate|].
  inv_monad.
  destruct (itemType_eqb (typ a) itemComment) eqn:E1; [exact (IH _ H)|].
  destruct (itemType_eqb (typ a) itemError) eqn:E2; inv_monad.
  split; [reflexivity|]. split; apply itemType_eqb_neq; assumption.
Qed.

(** ** Blocks addressed by key *)

#[global] Instance blockRef_eq_dec : EqDecision blockRef.
Proof. solve_decision. Defined.

(** The reference [b] names a block that is stored in the document. *)
Definition validRef (b : blockRef) (c : CIF) : Prop :=
  match b with
  | inData bn => is_Some (Blocks c !! bn)
  | inFrame bn fn => exists db, Blocks c !! bn = Some db /\ is_Some (Frames db !! fn)
  end.

Lemma getBlock_alterBlock (f : Block -> Block) (b : blockRef) (c : CIF) :
  validRef b c -> getBlock b (alterBlock f b c) = f (getBlock b c).
Proof.
  destruct b as [bn|bn fn]; simpl.
  - intros [db Hdb]. rewrite lookup_alter_eq, Hdb. reflexivity.
  - intros (db & Hdb & [fr Hfr]). rewrite lookup_alter_eq, Hdb. simpl.
    rewrite lookup_alter_eq, Hfr. reflexivity.
Qed.

Lemma getBlock_alterBlock_ne (f : Block -> Block) (b b' : blockRef) (c : CIF) :
  b' <> b -> getBlock b' (alterBlock f b c) = getBlock b' c.
Proof.
  intros Hne. destruct b as [bn|bn fn], b' as [bn'|bn' fn']; simpl.
  - rewrite lookup_alter_ne by congruence. reflexivity.
  - destruct (decide (bn = bn')) as [->|Hn].
    + rewrite lookup_alter_eq. destruct (Blocks c !! bn'); reflexivity.
    + rewrite lookup_alter_ne by congruence. reflexivity.
  - destruct (decide (bn = bn')) as [->|Hn].
    + rewrite lookup_alter_eq. destruct (Blocks c !! bn'); reflexivity.
    + rewrite lookup_alter_ne by congruence. reflexivity.
  - destruct (decide (bn = bn')) as [->|Hn].
    + rewrite lookup_alter_eq. destruct (Blocks c !! bn') as [db|]; [|reflexivity].
      simpl. rewrite lookup_alter_ne by congruence. reflexivity.
    + rewrite lookup_alter_ne by congruence. reflexivity.
Qed.

Lemma validRef_alterBlock (f : Block -> Block) (b b' : blockRef) (c : CIF) :
  validRef b' (alterBlock f b c) <-> validRef b' c.
Proof.
  destruct b as [bn|bn fn], b' as [bn'|bn' fn']; simpl.
  - rewrite lookup_alter_is_Some. reflexivity.
  - destruct (decide (bn = bn')) as [->|Hn].
    + rewrite lookup_alter_eq. destruct (Blocks c !! bn') as [db|]; simpl.
      * split; intros (d & Hd & Hf); injection Hd as <-; eauto.
      * split; intros (d & Hd & _); discriminate.
    + rewrite lookup_alter_ne by congruence. reflexivity.
  - rewrite lookup_alter_is_Some. reflexivity.
  - destruct (decide (bn = bn')) as [->|Hn].
    + rewrite lookup_alter_eq. destruct (Blocks c !! bn') as [db|]; simpl.
      * split; intros (d & Hd & Hf); injection Hd as <-.
        -- simpl in Hf. rewrite lookup_alter_is_Some in Hf. eauto.
        -- eexists; split; [reflexivity|]. simpl. rewrite lookup_alter_is_Some. exact Hf.
      * split; intros (d & Hd & _); discriminate.
    + rewrite lookup_alter_ne by congruence. reflexivity.
Qed.

(** The tags of the columns of a loop while it is being read. *)
Definition names (vals : list loopValues) : list string := List.map lv_name vals.

Lemma bindLoop_Name (l : loc) (vals : list loopValues) (blk : Block) :
  Name (Parser.bindLoop l vals blk) = Name blk.
Proof.
  unfold Parser.bindLoop. revert blk. induction vals as [|v vals IH]; intros blk; simpl; [reflexivity|].
  rewrite IH. reflexivity.
Qed.

Lemma bindLoop_Items (l : loc) (vals : list loopValues) (blk : Block) :
  Items (Parser.bindLoop l vals blk) = Items blk.
Proof.
  unfold Parser.bindLoop. revert blk. induction vals as [|v vals IH]; intros blk; simpl; [reflexivity|].
  rewrite IH. reflexivity.
Qed.

Lemma bindLoop_lookup_in (l : loc) (vals : list loopValues) (blk : Block) (tag : string) :
  In tag (names vals) -> Loops (Parser.bindLoop l vals blk) !! tag = Some l.
Proof.
  unfold Parser.bindLoop. revert blk.
  induction vals as [|v vals IH] using rev_ind; intros blk Hin; [destruct Hin|].
  unfold names in Hin. rewrite List.map_app in Hin. apply in_app_or in Hin.
  rewrite fold_left_app. simpl.
  destruct (decide (lv_name v = tag)) as [->|Hne].
  - apply lookup_insert_eq.
  - rewrite lookup_insert_ne by exact Hne. apply IH.
    destruct Hin as [Hin|[Hin|[]]]; [exact Hin | contradiction].
Qed.

Lemma bindLoop_lookup_out (l : loc) (vals : list loopValues) (blk : Block) (tag : string) :
  ~ In tag (names vals) -> Loops (Parser.bindLoop l vals blk) !! tag = Loops blk !! tag.
Proof.
  unfold Parser.bindLoop. revert blk. induction vals as [|v vals IH]; intros blk Hout; simpl; [reflexivity|].
  rewrite IH by (intros Hin; apply Hout; right; exact Hin).
  simpl. apply lookup_insert_ne. intros Heq. apply Hout. left. exact Heq.
Qed.

Lemma columnIndex_lookup (vals : list loopValues) (i : Z) (m : gmap string Z)
    (tag : string) (j : Z) :
  Parser.columnIndex i vals m !! tag = Some j ->
  m !! tag = Some j \/ (In tag (names vals) /\ i <= j < i + Z.of_nat (length vals)).
Proof.
  revert i m. induction vals as [|v vals IH]; intros i m H; simpl in *; [left; exact H|].
  apply IH in H as [H|[Hin Hr]].
  - destruct (decide (lv_name v = tag)) as [E|Hne].
    + rewrite E, lookup_insert_eq in H. injection H as <-.
      right. split; [left; exact E | lia].
    + rewrite lookup_insert_ne in H by exact Hne. left. exact H.
  - right. split; [right; exact Hin | lia].
Qed.

Lemma columnIndex_is_Some (vals : list loopValues) (i : Z) (m : gmap string Z) (tag : string) :
  is_Some (Parser.columnIndex i vals m !! tag) <-> In tag (names vals) \/ is_Some (m !! tag).
Proof.
  revert i m. induction vals as [|v vals IH]; intros i m; simpl.
  - split; [intros H; right; exact H | intros [[]|H]; exact H].
  - rewrite IH, lookup_insert_is_Some. split.
    + intros [H|[H|[_ H]]]; [left; right; exact H | left; left; exact H | right; exact H].
    + intros [[H|H]|H]; [right; left; exact H | left; exact H |].
      destruct (decide (lv_name v = tag)); [right; left; assumption | right; right; split; assumption].
Qed.

(** ** The invariant of the document under construction *)

(** Every tag of the table [lp] is bound, in the block [blk], to the
    address [l]. *)
Definition boundTo (blk : Block) (l : loc) (lp : Loop) : Prop :=
  forall tag, is_Some (Columns lp !! tag) -> Loops blk !! tag = Some l.

(** The columns of a table have one common length, at least 1; there is
    at least one column, and the column map points into the columns. *)
Definition tableShape (lp : Loop) : Prop :=
  (exists L : nat, (1 <= L)%nat /\ Forall (fun col => columnLen col = L) (Values lp)) /\
  Values lp <> [] /\
  (forall tag i, Columns lp !! tag = Some i -> 0 <= i < Z.of_nat (length (Values lp))).

Record wfDoc (c : CIF) : Prop := mk_wfDoc {
  wf_shape : forall l lp, heap c !! l = Some lp -> tableShape lp;
  wf_bound : forall b tag l,
    validRef b c -> Loops (getBlock b c) !! tag = Some l ->
    exists lp, heap c !! l = Some lp /\ is_Some (Columns lp !! tag) /\
               boundTo (getBlock b c) l lp;
  wf_owner : forall l lp,
    heap c !! l = Some lp -> exists b, validRef b c /\ boundTo (getBlock b c) l lp
}.

Definition emptyCIF : CIF := {| Version := ""; Blocks := ∅; heap := [] |}.

Lemma wfDoc_empty : wfDoc emptyCIF.
Proof.
  split; simpl.
  - intros l lp H. discriminate.
  - intros [bn|bn fn] tag l; simpl.
    + intros [x Hx]. rewrite lookup_empty in Hx. discriminate.
    + intros (db & Hdb & _). rewrite lookup_empty in Hdb. discriminate.
  - intros l lp H. discriminate.
Qed.

(** A step that allocates no table and touches no [Loops] map, except
    for adding blocks without tables, keeps the invariant. *)
Lemma wfDoc_frame (c c' : CIF) :
  heap c' = heap c ->
  (forall b, validRef b c -> validRef b c' /\ Loops (getBlock b c') = Loops (getBlock b c)) ->
  (forall b, validRef b c' -> validRef b c \/ Loops (getBlock b c') = ∅) ->
  wfDoc c -> wfDoc c'.
Proof.
  intros Hh Hold Hnew [Hs Hb Ho]. split.
  - intros l lp H. rewrite Hh in H. eauto.
  - intros b tag l Hv Hl. destruct (Hnew b Hv) as [Hv0|He].
    + destruct (Hold b Hv0) as [_ HL]. rewrite HL in Hl.
      destruct (Hb b tag l Hv0 Hl) as (lp & H1 & H2 & H3).
      exists lp. rewrite Hh. split; [exact H1|]. split; [exact H2|].
      intros tag' Ht. unfold boundTo in H3. rewrite HL. auto.
    + rewrite He, lookup_empty in Hl. discriminate.
  - intros l lp H. rewrite Hh in H. destruct (Ho l lp H) as (b & Hv & Hbd).
    destruct (Hold b Hv) as [Hv' HL]. exists b. split; [exact Hv'|].
    intros tag Ht. rewrite HL. auto.
Qed.

Lemma wfDoc_set_Version (v : string) (c : CIF) : wfDoc c -> wfDoc (set_Version v c).
Proof.
  apply wfDoc_frame; [reflexivity | |].
  - intros b Hv. split; [|reflexivity]. destruct b; exact Hv.
  - intros b Hv. left. destruct b; exact Hv.
Qed.

Definition newDataBlock (name : string) : DataBlock :=
  {| dataBlock := emptyBlock name; Frames := ∅ |}.

Lemma wfDoc_new_block (name : string) (c : CIF) :
  Blocks c !! name = None ->
  wfDoc c -> wfDoc (set_Blocks (<[name := newDataBlock name]> (Blocks c)) c).
Proof.
  intros Hfresh. apply wfDoc_frame; [reflexivity | |].
  - intros [bn|bn fn]; simpl.
    + intros [db Hdb]. assert (name <> bn) by congruence.
      rewrite lookup_insert_ne by assumption. rewrite Hdb. split; [eauto | reflexivity].
    + intros (db & Hdb & Hf). assert (name <> bn) by congruence.
      rewrite lookup_insert_ne by assumption. rewrite Hdb. split; [eauto | reflexivity].
  - intros [bn|bn fn]; simpl.
    + destruct (decide (name = bn)) as [->|Hne].
      * rewrite lookup_insert_eq. intros _. right. reflexivity.
      * rewrite lookup_insert_ne by assumption. intros H. left. exact H.
    + destruct (decide (name = bn)) as [->|Hne].
      * rewrite lookup_insert_eq. intros (db & Hdb & [x Hx]). injection Hdb as <-.
        simpl in Hx. rewrite lookup_empty in Hx. discriminate.
      * rewrite lookup_insert_ne by assumption. intros H. left. exact H.
Qed.

Lemma wfDoc_new_frame (dblock name : string) (db : DataBlock) (c : CIF) :
  Blocks c !! dblock = Some db -> Frames db !! name = None ->
  wfDoc c ->
  wfDoc (set_Blocks (alter (Parser.insertFrame name (mkSaveFrame (emptyBlock name)))
                           dblock (Blocks c)) c).
Proof.
  intros Hdb Hfresh. apply wfDoc_frame; [reflexivity | |].
  - intros [bn|bn fn]; simpl.
    + intros Hv. rewrite lookup_alter_is_Some. split; [exact Hv|].
      destruct (decide (dblock = bn)) as [->|Hne].
      * rewrite lookup_alter_eq, Hdb. reflexivity.
      * rewrite lookup_alter_ne by assumption. reflexivity.
    + intros (d & Hd & Hf). destruct (decide (dblock = bn)) as [->|Hne].
      * rewrite lookup_alter_eq, Hdb. rewrite Hdb in Hd. injection Hd as <-. simpl.
        assert (name <> fn) by (intros ->; rewrite Hfresh in Hf; destruct Hf; discriminate).
        rewrite lookup_insert_ne by assumption. split; [|reflexivity].
        eexists. split; [reflexivity|]. simpl. rewrite lookup_insert_ne by assumption. exact Hf.
      * rewrite lookup_alter_ne by assumption. rewrite Hd. split; [eauto | reflexivity].
  - intros [bn|bn fn]; simpl.
    + rewrite lookup_alter_is_Some. intros H. left. exact H.
    + destruct (decide (dblock = bn)) as [->|Hne].
      * rewrite lookup_alter_eq, Hdb. simpl. intros (d & Hd & Hf). injection Hd as <-.
        simpl in Hf. destruct (decide (name = fn)) as [->|Hnf].
        -- right. rewrite lookup_insert_eq. reflexivity.
        -- rewrite lookup_insert_ne in Hf by assumption. left. eauto.
      * rewrite lookup_alter_ne by assumption. intros H. left. exact H.
Qed.

Lemma wfDoc_setItem (name : string) (v : Value) (b : blockRef) (c : CIF) :
  wfDoc c -> wfDoc (alterBlock (setItem name v) b c).
Proof.
  apply wfDoc_frame; [reflexivity | |].
  - intros b' Hv. split; [apply validRef_alterBlock; exact Hv|].
    destruct (decide (b' = b)) as [->|Hne].
    + rewrite getBlock_alterBlock by exact Hv. reflexivity.
    + rewrite getBlock_alterBlock_ne by exact Hne. reflexivity.
  - intros b' Hv. left. apply validRef_alterBlock in Hv. exact Hv.
Qed.

(** Installing a new table: it is allocated at the end of the heap and
    every one of its tags is bound to its address, in a block where none
    of these tags was bound before. *)
Lemma wfDoc_install (b : blockRef) (vals : list loopValues) (lp : Loop) (c : CIF) :
  wfDoc c -> validRef b c -> tableShape lp ->
  (forall tag, is_Some (Columns lp !! tag) <-> In tag (names vals)) ->
  (forall tag, In tag (names vals) -> Loops (getBlock b c) !! tag = None) ->
  wfDoc (alterBlock (Parser.bindLoop (length (heap c)) vals) b (snd (allocLoop lp c))).
Proof.
  intros [Hs Hb Ho] Hvb Hshape Hcols Hfresh.
  set (l := length (heap c)).
  set (c1 := snd (allocLoop lp c)).
  assert (Hheap : heap (alterBlock (Parser.bindLoop l vals) b c1) = (heap c ++ [lp])%list)
    by reflexivity.
  assert (Hvalid : forall b0, validRef b0 (alterBlock (Parser.bindLoop l vals) b c1) <->
                              validRef b0 c).
  { intros b0. rewrite validRef_alterBlock. destruct b0; reflexivity. }
  assert (Hget1 : forall b0, getBlock b0 c1 = getBlock b0 c) by (intros [?|? ?]; reflexivity).
  assert (Hvb1 : validRef b c1) by (destruct b; exact Hvb).
  assert (Hsame : Loops (getBlock b (alterBlock (Parser.bindLoop l vals) b c1)) =
                  Loops (Parser.bindLoop l vals (getBlock b c))).
  { rewrite getBlock_alterBlock by exact Hvb1. rewrite Hget1. reflexivity. }
  assert (Hother : forall b0, b0 <> b ->
            getBlock b0 (alterBlock (Parser.bindLoop l vals) b c1) = getBlock b0 c).
  { intros b0 Hne. rewrite getBlock_alterBlock_ne by exact Hne. apply Hget1. }
  (* an old binding of [b] survives: its tag is not one of the new tags *)
  assert (Hkeep : forall tag l0, Loops (getBlock b c) !! tag = Some l0 ->
            Loops (Parser.bindLoop l vals (getBlock b c)) !! tag = Some l0).
  { intros tag l0 H. rewrite bindLoop_lookup_out; [exact H|].
    intros Hin. rewrite (Hfresh _ Hin) in H. discriminate. }
  assert (Hbound : forall b0 l0 lp0, validRef b0 c -> boundTo (getBlock b0 c) l0 lp0 ->
            boundTo (getBlock b0 (alterBlock (Parser.bindLoop l vals) b c1)) l0 lp0).
  { intros b0 l0 lp0 Hv0 Hbd tag Ht. destruct (decide (b0 = b)) as [->|Hne].
    - rewrite Hsame. apply Hkeep. apply Hbd. exact Ht.
    - rewrite (Hother _ Hne). apply Hbd. exact Ht. }
  assert (Hnewbound : boundTo (getBlock b (alterBlock (Parser.bindLoop l vals) b c1)) l lp).
  { intros tag Ht. rewrite Hsame. apply bindLoop_lookup_in. apply Hcols. exact Ht. }
  assert (Hold : forall l0 lp0, heap c !! l0 = Some lp0 -> (heap c ++ [lp])%list !! l0 = Some lp0).
  { intros l0 lp0 H. rewrite lookup_app_l; [exact H|]. eapply lookup_lt_Some. exact H. }
  assert (Hl : (heap c ++ [lp])%list !! l = Some lp).
  { unfold l. rewrite lookup_app_r by lia. rewrite Nat.sub_diag. reflexivity. }
  split.
  - intros l0 lp0. rewrite Hheap. intros H. apply lookup_snoc_Some in H as [[_ H]|[_ <-]].
    + eauto.
    + exact Hshape.
  - intros b0 tag l0 Hv0 Hl0. rewrite Hheap. apply Hvalid in Hv0.
    destruct (decide (b0 = b)) as [->|Hne].
    + rewrite Hsame in Hl0. destruct (in_dec string_dec tag (names vals)) as [Hin|Hout].
      * rewrite bindLoop_lookup_in in Hl0 by exact Hin.
        assert (E : l0 = l) by congruence. rewrite E.
        exists lp. split; [exact Hl|]. split; [apply Hcols; exact Hin | exact Hnewbound].
      * rewrite bindLoop_lookup_out in Hl0 by exact Hout.
        destruct (Hb b tag l0 Hv0 Hl0) as (lp0 & H1 & H2 & H3).
        exists lp0. split; [apply Hold; exact H1|]. split; [exact H2|].
        apply Hbound; assumption.
    + rewrite (Hother _ Hne) in Hl0.
      destruct (Hb b0 tag l0 Hv0 Hl0) as (lp0 & H1 & H2 & H3).
      exists lp0. split; [apply Hold; exact H1|]. split; [exact H2|].
      apply Hbound; assumption.
  - intros l0 lp0. rewrite Hheap. intros H. apply lookup_snoc_Some in H as [[_ H]|[E <-]].
    + destruct (Ho l0 lp0 H) as (b0 & Hv0 & Hbd). exists b0.
      split; [apply Hvalid; exact Hv0 | apply Hbound; assumption].
    + rewrite E. exists b. split; [apply Hvalid; exact Hvb | exact Hnewbound].
Qed.

(** ** What each step of the parser does to the document *)

(** The later document keeps every block of the earlier one. *)
Definition ext (c c' : CIF) : Prop := forall b, validRef b c -> validRef b c'.

Lemma ext_refl (c : CIF) : ext c c.
Proof. intros b H. exact H. Qed.

Lemma ext_trans (c1 c2 c3 : CIF) : ext c1 c2 -> ext c2 c3 -> ext c1 c3.
Proof. intros H1 H2 b H. apply H2, H1, H. Qed.

Lemma assertUniqueTag_Ok (b : blockRef) (name : string) (p p' : parser) (u : unit) :
  Parser.assertUniqueTag b name p = Ok (u, p') ->
  p' = p /\ Items (getBlock b (cif p)) !! name = None /\
  Loops (getBlock b (cif p)) !! name = None.
Proof.
  unfold Parser.assertUniqueTag. intros H.
  bind_inv H as (blk & p1 & Hg & H). apply gets_Ok in Hg as [-> ->].
  destruct (bool_decide (is_Some (Items (getBlock b (cif p)) !! name))) eqn:E1;
    [discriminate H|].
  destruct (bool_decide (is_Some (Loops (getBlock b (cif p)) !! name))) eqn:E2;
    [discriminate H|].
  simpl in H. apply ret_Ok in H as [_ ->].
  apply bool_decide_eq_false in E1. apply bool_decide_eq_false in E2.
  apply eq_None_not_Some in E1. apply eq_None_not_Some in E2. auto.
Qed.

Lemma AsValue_Ok {S} (v : any) (s s' : S) (r : Value) :
  AsValue v s = Ok (r, s') -> s' = s.
Proof. destruct v; simpl; intros H; inv_monad; reflexivity. Qed.

Lemma AsValues_Ok {S} (v : any) (s s' : S) (r : ValueLoop) :
  AsValues v s = Ok (r, s') -> s' = s.
Proof. destruct v; simpl; intros H; inv_monad; reflexivity. Qed.

Lemma typeName_Ok (t : itemType) (p p' : parser) (s : string) :
  Parser.typeName t p = Ok (s, p') -> p' = p.
Proof. unfold Parser.typeName. destruct (itemTypeString t); intros H; inv_monad; reflexivity. Qed.

(** A type name followed by [errf] never returns. *)
Lemma typeName_errf {A} (t : itemType) (k : string -> string) (p : parser) (r : A * parser) :
  bind (Parser.typeName t) (fun tn => Parser.errf (k tn)) p = Ok r -> False.
Proof.
  intros H. bind_inv H as (tn & p1 & _ & H). discriminate H.
Qed.

Lemma parseValue_Ok (t : item) (bname name : string) (p p' : parser) (v : Value) :
  Parser.parseValue t bname name p = Ok (v, p') -> p' = p.
Proof.
  unfold Parser.parseValue. intros H.
  destruct (typ t);
    try (exfalso; exact (typeName_errf _ _ _ _ H));
    try (apply AsValue_Ok in H; exact H).
  - destruct (Atoi (val t)); [apply AsValue_Ok in H; exact H | discriminate H].
  - destruct (ParseFloat (val t)); [apply AsValue_Ok in H; exact H | discriminate H].
Qed.

Lemma parseItemValue_spec (fuel : nat) (b : blockRef) (name : string)
    (p p' : parser) (u : unit) :
  Parser.parseItemValue fuel b name p = Ok (u, p') ->
  wfDoc (cif p) -> wfDoc (cif p') /\ ext (cif p) (cif p').
Proof.
  unfold Parser.parseItemValue. intros H Hwf.
  bind_inv H as (u1 & p1 & Hu & H). apply assertUniqueTag_Ok in Hu as (-> & _ & _).
  bind_inv H as (t & p2 & Hn & H). apply next_cif in Hn.
  bind_inv H as (bname & p3 & Hg & H). apply gets_Ok in Hg as [-> ->].
  bind_inv H as (v & p4 & Hv & H). apply parseValue_Ok in Hv as ->.
  apply modify_Ok in H as ->. simpl. rewrite Hn. split.
  - apply wfDoc_setItem. exact Hwf.
  - intros b' Hv. apply validRef_alterBlock. exact Hv.
Qed.

(** The conversions of [convertLoopValues] keep the length of a column. *)
Lemma convertInts_Ok (strs : list string) (p p' : parser) (nums : list Z) :
  Parser.convertInts strs p = Ok (nums, p') -> p' = p /\ length nums = length strs.
Proof.
  revert nums p'. induction strs as [|str strs IH]; intros nums p' H; simpl in H.
  - apply ret_Ok in H as [-> ->]. split; reflexivity.
  - bind_inv H as (n & p1 & Hn & H). bind_inv H as (ns & p2 & Hns & H).
    apply ret_Ok in H as [-> ->].
    assert (p1 = p) as ->.
    { destruct (streq str "." || streq str "?"); [apply ret_Ok in Hn as [_ ->]; reflexivity|].
      destruct (Atoi str); [apply ret_Ok in Hn as [_ ->]; reflexivity | discriminate Hn]. }
    destruct (IH _ _ Hns) as [-> Hlen].
    split; [reflexivity | simpl; rewrite Hlen; reflexivity].
Qed.

Lemma convertFloats_Ok (strs : list string) (p p' : parser) (nums : list float64) :
  Parser.convertFloats strs p = Ok (nums, p') -> p' = p /\ length nums = length strs.
Proof.
  revert nums p'. induction strs as [|str strs IH]; intros nums p' H; simpl in H.
  - apply ret_Ok in H as [-> ->]. split; reflexivity.
  - bind_inv H as (n & p1 & Hn & H). bind_inv H as (ns & p2 & Hns & H).
    apply ret_Ok in H as [-> ->].
    assert (p1 = p) as ->.
    { destruct (streq str "." || streq str "?"); [apply ret_Ok in Hn as [_ ->]; reflexivity|].
      destruct (ParseFloat str); [apply ret_Ok in Hn as [_ ->]; reflexivity | discriminate Hn]. }
    destruct (IH _ _ Hns) as [-> Hlen].
    split; [reflexivity | simpl; rewrite Hlen; reflexivity].
Qed.

Lemma convertColumn_Ok (bname : string) (v : loopValues) (p p' : parser) (col : ValueLoop) :
  Parser.convertColumn bname v p = Ok (col, p') ->
  p' = p /\ columnLen col = length (lv_strs v).
Proof.
  unfold Parser.convertColumn. intros H.
  destruct (lv_typ v);
    try (exfalso; exact (typeName_errf _ _ _ _ H));
    try (apply ret_Ok in H as [-> ->]; split; reflexivity).
  - bind_inv H as (nums & p1 & Hn & H). apply convertInts_Ok in Hn as [-> Hlen].
    apply ret_Ok in H as [-> ->]. split; [reflexivity | exact Hlen].
  - bind_inv H as (nums & p1 & Hn & H). apply convertFloats_Ok in Hn as [-> Hlen].
    apply ret_Ok in H as [-> ->]. split; [reflexivity | exact Hlen].
Qed.

Lemma convertColumns_Ok (bname : string) (vals : list loopValues) (p p' : parser)
    (cols : list ValueLoop) :
  Parser.convertColumns bname vals p = Ok (cols, p') ->
  p' = p /\ Forall2 (fun v col => columnLen col = length (lv_strs v)) vals cols.
Proof.
  revert cols p p'. induction vals as [|v vals IH]; intros cols p p' H; simpl in H.
  - apply ret_Ok in H as [-> ->]. split; [reflexivity | constructor].
  - bind_inv H as (c & p1 & Hc & H). bind_inv H as (cs & p2 & Hcs & H).
    apply ret_Ok in H as [-> ->].
    apply convertColumn_Ok in Hc as [-> Hc]. apply IH in Hcs as [-> Hcs].
    split; [reflexivity | constructor; assumption].
Qed.

(** The tags loop reads tokens and checks each tag against the block; it
    adds one empty column per tag. *)
Lemma parseLoopTags_spec (fuel : nat) (b : blockRef) (t t' : item) (i : Z)
    (vals vals' : list loopValues) (p p' : parser) :
  Parser.parseLoopTags fuel b t i vals p = Ok ((t', vals'), p') ->
  cif p' = cif p /\
  (exists new, vals' = (vals ++ new)%list /\
     (typ t = itemDataTag -> new <> []) /\
     Forall (fun v => lv_strs v = [] /\
                      Loops (getBlock b (cif p)) !! lv_name v = None) new).
Proof.
  revert t i vals p. induction fuel as [|f IH]; intros t i vals p H; simpl in H.
  - destruct (itemType_eqb (typ t) itemDataTag) eqn:E; [discriminate H|].
    apply ret_Ok in H as [H ->]. injection H as -> ->.
    split; [reflexivity|]. exists []. rewrite app_nil_r.
    split; [reflexivity|]. split; [|constructor].
    intros Ht. apply itemType_eqb_neq in E. contradiction.
  - destruct (itemType_eqb (typ t) itemDataTag) eqn:E.
    + bind_inv H as (u & p1 & Hu & H). apply assertUniqueTag_Ok in Hu as (-> & _ & Hl).
      bind_inv H as (t1 & p2 & Hn & H). apply next_cif in Hn.
      apply IH in H as (Hc & new & -> & _ & Hnew).
      split; [congruence|].
      exists (mkLoopValues (ToLower (val t)) [] itemDataNone :: new).
      split; [rewrite <- app_assoc; reflexivity|].
      split; [intros _; discriminate|].
      constructor; [split; [reflexivity | exact Hl]|].
      rewrite Hn in Hnew. exact Hnew.
    + apply ret_Ok in H as [H ->]. injection H as -> ->.
      split; [reflexivity|]. exists []. rewrite app_nil_r.
      split; [reflexivity|]. split; [|constructor].
      intros Ht. apply itemType_eqb_neq in E. contradiction.
Qed.

(** The values read so far are dealt to [n] columns in turn: [q] full
    rows and [r] values of the next row. *)
Definition dealt (n q r : nat) (vals : list loopValues) : Prop :=
  length vals = n /\ (r < n)%nat /\
  forall j v, vals !! j = Some v ->
              length (lv_strs v) = (q + (if (j <? r)%nat then 1 else 0))%nat.

Definition nextQ (n q r : nat) : nat := if (S r =? n)%nat then S q else q.
Definition nextR (n r : nat) : nat := if (S r =? n)%nat then O else S r.

Lemma addValue_spec (t : item) (i n q r : nat) (vals vals' : list loopValues)
    (p p' : parser) :
  Parser.addValue t i vals p = Ok (vals', p') ->
  dealt n q r vals -> i = (q * n + r)%nat ->
  p' = p /\ names vals' = names vals /\
  dealt n (nextQ n q r) (nextR n r) vals' /\
  S i = (nextQ n q r * n + nextR n r)%nat.
Proof.
  unfold Parser.addValue. intros H (Hlen & Hr & Hd) Hi.
  destruct (length vals) as [|m] eqn:El; [discriminate H|].
  rewrite Hlen in H. rewrite Hlen in El.
  assert (Hcol : (i mod n = r)%nat).
  { rewrite Hi, Nat.add_comm, Nat.Div0.mod_add. apply Nat.mod_small. exact Hr. }
  rewrite Hcol in H.
  destruct (vals !! r) as [v|] eqn:Ev; [|discriminate H].
  apply ret_Ok in H as [-> ->]. split; [reflexivity|].
  split.
  { unfold names. apply list_eq. intros j. rewrite !list_lookup_fmap.
    destruct (decide (j = r)) as [->|Hne].
    - rewrite list_lookup_insert_eq by lia. rewrite Ev. reflexivity.
    - rewrite list_lookup_insert_ne by congruence. reflexivity. }
  unfold nextQ, nextR. split.
  - split; [rewrite length_insert; exact El|].
    split; [destruct (S r =? n)%nat eqn:E; [lia | apply Nat.eqb_neq in E; lia]|].
    intros j w Hj.
    assert (Hjn : (j < n)%nat).
    { apply lookup_lt_Some in Hj. rewrite length_insert in Hj. lia. }
    destruct (decide (j = r)) as [->|Hne].
    + rewrite list_lookup_insert_eq in Hj by lia. injection Hj as <-. cbn [lv_strs].
      rewrite length_app. cbn [length]. rewrite (Hd _ _ Ev).
      destruct (Nat.eqb_spec (S r) n);
        repeat match goal with
               | |- context [(?a <? ?b)%nat] => destruct (Nat.ltb_spec a b)
               end; lia.
    + rewrite list_lookup_insert_ne in Hj by congruence. rewrite (Hd _ _ Hj).
      destruct (Nat.eqb_spec (S r) n);
        repeat match goal with
               | |- context [(?a <? ?b)%nat] => destruct (Nat.ltb_spec a b)
               end; lia.
  - destruct (S r =? n)%nat eqn:E.
    + apply Nat.eqb_eq in E. lia.
    + lia.
Qed.

Lemma parseLoopValues_count (fuel : nat) (t t' : item) (i count count' : nat)
    (vals vals' : list loopValues) (p p' : parser) :
  Parser.parseLoopValues fuel t i count vals p = Ok ((t', count', vals'), p') ->
  (count <= count')%nat.
Proof.
  revert t i count vals p. induction fuel as [|f IH]; intros t i count vals p H; simpl in H.
  - destruct (isValueType (typ t)); [discriminate H|].
    apply ret_Ok in H as [H _]. injection H as _ <- _. lia.
  - destruct (isValueType (typ t)).
    + bind_inv H as (v & p1 & _ & H). bind_inv H as (t1 & p2 & _ & H).
      apply IH in H. lia.
    + apply ret_Ok in H as [H _]. injection H as _ <- _. lia.
Qed.

Lemma parseLoopValues_spec (fuel : nat) (t t' : item) (i count count' n q r : nat)
    (vals vals' : list loopValues) (p p' : parser) :
  Parser.parseLoopValues fuel t i count vals p = Ok ((t', count', vals'), p') ->
  i = count -> dealt n q r vals -> count = (q * n + r)%nat ->
  cif p' = cif p /\ names vals' = names vals /\
  (exists q' r', dealt n q' r' vals' /\ count' = (q' * n + r')%nat) /\
  (isValueType (typ t) = true -> (count < count')%nat).
Proof.
  revert t i count q r vals p.
  induction fuel as [|f IH]; intros t i count q r vals p H Hi Hd Hc; simpl in H.
  - destruct (isValueType (typ t)) eqn:E; [discriminate H|].
    apply ret_Ok in H as [H ->]. injection H as -> -> ->.
    split; [reflexivity|]. split; [reflexivity|]. split; [eauto | discriminate].
  - destruct (isValueType (typ t)) eqn:E.
    + bind_inv H as (vals1 & p1 & Ha & H).
      destruct (addValue_spec _ _ _ _ _ _ _ _ _ Ha Hd (eq_trans Hi Hc)) as (-> & Hn & Hd1 & Hi1).
      bind_inv H as (t1 & p2 & Hnx & H). apply next_cif in Hnx.
      pose proof (parseLoopValues_count _ _ _ _ _ _ _ _ _ _ H) as Hle.
      apply (IH _ _ _ _ _ _ _ H) in Hd1 as (Hcif & Hn2 & Hex & _);
        [|rewrite Hi; reflexivity | rewrite <- Hi; exact Hi1].
      split; [congruence|]. split; [congruence|]. split; [exact Hex|].
      intros _. lia.
    + apply ret_Ok in H as [H ->]. injection H as -> -> ->.
      split; [reflexivity|]. split; [reflexivity|]. split; [eauto | discriminate].
Qed.

Lemma convertLoopValues_Ok (b : blockRef) (vals : list loopValues) (p p' : parser) (l : loc) :
  Parser.convertLoopValues b vals p = Ok (l, p') ->
  exists cols,
    Forall2 (fun v col => columnLen col = length (lv_strs v)) vals cols /\
    let lp := {| Columns := Parser.columnIndex 0 vals ∅; Values := cols |} in
    l = length (heap (cif p)) /\
    cif p' = alterBlock (Parser.bindLoop l vals) b (snd (allocLoop lp (cif p))).
Proof.
  unfold Parser.convertLoopValues. intros H.
  bind_inv H as (bname & p1 & Hg & H). apply gets_Ok in Hg as [-> ->].
  bind_inv H as (cols & p2 & Hc & H). apply convertColumns_Ok in Hc as [-> Hcols].
  bind_inv H as (l1 & p3 & Ha & H). simpl in Ha. injection Ha as <- <-.
  bind_inv H as (u & p4 & Hm & H). apply modify_Ok in Hm as ->.
  apply ret_Ok in H as [-> ->].
  exists cols. split; [exact Hcols|]. split; reflexivity.
Qed.

(** A successful [parseLoop], step by step: the tokens it read, and the
    table it installed at the end of the heap. *)
Lemma parseLoop_Ok (fuel : nat) (b : blockRef) (p p' : parser) (t' : item) :
  Parser.parseLoop fuel b p = Ok (t', p') ->
  exists t0 p0 t1 vals p1 count vals2 p2 lp,
    Parser.next fuel p = Ok (t0, p0) /\
    Parser.parseLoopTags fuel b t0 0 [] p0 = Ok ((t1, vals), p1) /\
    Parser.parseLoopValues fuel t1 0 0 vals p1 = Ok ((t', count, vals2), p2) /\
    cif p2 = cif p /\
    cif p' = alterBlock (Parser.bindLoop (length (heap (cif p))) vals2) b
                        (snd (allocLoop lp (cif p))) /\
    (forall tag, is_Some (Columns lp !! tag) <-> In tag (names vals2)) /\
    (forall tag, In tag (names vals2) -> Loops (getBlock b (cif p)) !! tag = None) /\
    length (Values lp) = length vals /\
    tableShape lp /\
    exists L : nat, (1 <= L)%nat /\ Forall (fun col => columnLen col = L) (Values lp) /\
                    count = (L * length (Values lp))%nat.
Proof.
  unfold Parser.parseLoop. intros H.
  bind_inv H as (loopLine & p0' & Hg & H). apply gets_Ok in Hg as [-> ->].
  bind_inv H as (t0 & p0 & Hn & H).
  bind_inv H as (u1 & p0'' & Hc1 & H).
  destruct (itemType_eqb (typ t0) itemDataTag) eqn:Et0; simpl in Hc1;
    [|exfalso; exact (typeName_errf _ _ _ _ Hc1)].
  apply ret_Ok in Hc1 as [_ ->].
  bind_inv H as ([t1 vals] & p1 & Htags & H).
  bind_inv H as (u2 & p1' & Hc2 & H).
  destruct (isValueType (typ t1)) eqn:Et1; simpl in Hc2;
    [|exfalso; exact (typeName_errf _ _ _ _ Hc2)].
  apply ret_Ok in Hc2 as [_ ->].
  bind_inv H as ([[t2 count] vals2] & p2 & Hvals & H).
  destruct (length vals2) as [|m] eqn:El; [discriminate H|].
  bind_inv H as (u3 & p2' & Hc3 & H).
  destruct ((count mod S m)%nat =? 0)%nat eqn:Emod; simpl in Hc3; [|discriminate Hc3].
  apply ret_Ok in Hc3 as [_ ->].
  bind_inv H as (l & p3 & Hconv & H). apply ret_Ok in H as [-> ->].
  (* the tags *)
  pose proof (next_cif _ _ _ _ Hn) as Hcif0.
  destruct (parseLoopTags_spec _ _ _ _ _ _ _ _ _ Htags) as (Hcif1 & new & Hnew & Hne & Hfresh).
  simpl in Hnew. subst new.
  apply itemType_eqb_eq in Et0. specialize (Hne Et0).
  (* the values *)
  assert (Hd0 : dealt (length vals) 0 0 vals).
  { split; [reflexivity|]. split; [destruct vals; [contradiction | simpl; lia]|].
    intros j v Hj. simpl. rewrite Forall_forall in Hfresh.
    apply list_elem_of_lookup_2 in Hj. apply Hfresh in Hj as [-> _]. reflexivity. }
  destruct (parseLoopValues_spec _ _ _ _ _ _ _ _ _ _ _ _ _ Hvals eq_refl Hd0 eq_refl)
    as (Hcif2 & Hnames & (q' & r' & (Hlen2 & Hr' & Hd2) & Hcount) & Hpos).
  specialize (Hpos Et1).
  assert (Hm : S m = length vals) by congruence.
  rewrite Hm in Emod. apply Nat.eqb_eq in Emod.
  assert (r' = 0)%nat as ->.
  { rewrite Hcount, Nat.add_comm, Nat.Div0.mod_add, Nat.mod_small in Emod by exact Hr'.
    exact Emod. }
  assert (Hq : (1 <= q')%nat) by (destruct q'; [simpl in Hcount; lia | lia]).
  (* the conversion *)
  destruct (convertLoopValues_Ok _ _ _ _ _ Hconv) as (cols & Hcols & -> & Hcif3).
  assert (Hlcols : length cols = length vals).
  { apply Forall2_length in Hcols. congruence. }
  assert (Hall : Forall (fun col => columnLen col = q') cols).
  { apply Forall_lookup. intros j col Hj.
    destruct (Forall2_lookup_r _ _ _ _ _ Hcols Hj) as (v & Hv & Hlenv).
    rewrite Hlenv, (Hd2 _ _ Hv). simpl. lia. }
  exists t0, p0, t1, vals, p1, count, vals2, p2,
    {| Columns := Parser.columnIndex 0 vals2 ∅; Values := cols |}.
  split; [exact Hn|]. split; [exact Htags|]. split; [exact Hvals|].
  split; [congruence|].
  assert (Hcp : cif p2 = cif p) by congruence.
  split; [rewrite Hcif3, Hcp; reflexivity|].
  split.
  { intros tag. simpl. rewrite columnIndex_is_Some. split; [intros [H|[x Hx]]|intros H].
    - exact H.
    - rewrite lookup_empty in Hx. discriminate.
    - left. exact H. }
  split.
  { intros tag Hin. rewrite Hnames in Hin. rewrite Forall_forall in Hfresh.
    unfold names in Hin. apply in_map_iff in Hin as (v & <- & Hv).
    apply list_elem_of_In in Hv. apply Hfresh in Hv as [_ Hv]. rewrite Hcif0 in Hv. exact Hv. }
  split; [exact Hlcols|].
  split.
  { split; [exists q'; split; assumption|].
    split; [simpl; destruct cols; [simpl in Hlcols; lia | discriminate]|].
    simpl. intros tag i Hi. apply columnIndex_lookup in Hi as [Hi|[_ Hi]].
    - rewrite lookup_empty in Hi. discriminate.
    - rewrite Hlcols, <- Hm, <- El. lia. }
  exists q'. split; [exact Hq|]. split; [exact Hall|].
  simpl. rewrite Hlcols, Hcount. lia.
Qed.

Lemma parseLoop_wf (fuel : nat) (b : blockRef) (p p' : parser) (t' : item) :
  Parser.parseLoop fuel b p = Ok (t', p') ->
  wfDoc (cif p) -> validRef b (cif p) ->
  wfDoc (cif p') /\ ext (cif p) (cif p').
Proof.
  intros H Hwf Hv.
  destruct (parseLoop_Ok _ _ _ _ _ H)
    as (t0 & p0 & t1 & vals & p1 & count & vals2 & p2 & lp & _ & _ & _ & _ & Hc & Hcols & Hfresh & _ & Hshape & _).
  rewrite Hc. split.
  - apply wfDoc_install; assumption.
  - intros b0 Hb0. apply validRef_alterBlock. destruct b0; exact Hb0.
Qed.

Lemma parseSaveFrameLoop_wf (fuel : nat) (frame : blockRef) (t : item)
    (p p' : parser) (u : unit) :
  Parser.parseSaveFrameLoop fuel frame t p = Ok (u, p') ->
  wfDoc (cif p) -> validRef frame (cif p) ->
  wfDoc (cif p') /\ ext (cif p) (cif p').
Proof.
  revert t p. induction fuel as [|f IH]; intros t p H Hwf Hv; simpl in H; [discriminate H|].
  destruct (typ t);
    try (exfalso; exact (typeName_errf _ _ _ _ H)).
  - apply ret_Ok in H as [_ ->]. split; [exact Hwf | apply ext_refl].
  - bind_inv H as (t1 & p1 & Hl & H).
    destruct (parseLoop_wf _ _ _ _ _ Hl Hwf Hv) as [Hwf1 Hext1].
    destruct (IH _ _ H Hwf1 (Hext1 _ Hv)) as [Hwf2 Hext2].
    split; [exact Hwf2 | eapply ext_trans; eassumption].
  - bind_inv H as (u1 & p1 & Hi & H).
    destruct (parseItemValue_spec _ _ _ _ _ _ Hi Hwf) as [Hwf1 Hext1].
    bind_inv H as (t1 & p2 & Hn & H). apply next_cif in Hn.
    rewrite <- Hn in Hwf1, Hext1.
    destruct (IH _ _ H Hwf1 (Hext1 _ Hv)) as [Hwf2 Hext2].
    split; [exact Hwf2 | eapply ext_trans; eassumption].
Qed.

Lemma parseSaveFrame_wf (fuel : nat) (dblock name : string) (p p' : parser) (u : unit) :
  Parser.parseSaveFrame fuel dblock name p = Ok (u, p') ->
  wfDoc (cif p) -> is_Some (Blocks (cif p) !! dblock) ->
  wfDoc (cif p') /\ ext (cif p) (cif p').
Proof.
  unfold Parser.parseSaveFrame. intros H Hwf [db Hdb].
  bind_inv H as (odb & p1 & Hg & H). apply gets_Ok in Hg as [-> ->].
  rewrite Hdb in H.
  bind_inv H as (u1 & p1 & Hc & H).
  destruct (bool_decide (is_Some (Frames db !! name))) eqn:E; [discriminate Hc|].
  apply ret_Ok in Hc as [_ ->].
  apply bool_decide_eq_false in E. apply eq_None_not_Some in E.
  bind_inv H as (u2 & p2 & Hm & H). apply modify_Ok in Hm as ->.
  bind_inv H as (t & p3 & Hn & H). apply next_cif in Hn. simpl in Hn.
  pose proof (wfDoc_new_frame dblock name db (cif p) Hdb E Hwf) as Hwf1.
  rewrite <- Hn in Hwf1.
  assert (Hext1 : ext (cif p) (cif p3)).
  { rewrite Hn. intros [bn|bn fn]; simpl.
    - rewrite lookup_alter_is_Some. auto.
    - intros (d & Hd & Hf). destruct (decide (dblock = bn)) as [->|Hne].
      + rewrite lookup_alter_eq, Hd. eexists. split; [reflexivity|].
        simpl. rewrite lookup_insert_is_Some'. right. exact Hf.
      + rewrite lookup_alter_ne by assumption. eauto. }
  assert (Hv : validRef (inFrame dblock name) (cif p3)).
  { rewrite Hn. simpl. rewrite lookup_alter_eq, Hdb. eexists. split; [reflexivity|].
    simpl. rewrite lookup_insert_eq. eauto. }
  destruct (parseSaveFrameLoop_wf _ _ _ _ _ _ H Hwf1 Hv) as [Hwf2 Hext2].
  split; [exact Hwf2 | eapply ext_trans; eassumption].
Qed.

Lemma unexpectedInBlock_Ok {A} (t : item) (p : parser) (r : A * parser) :
  Parser.unexpectedInBlock t p = Ok r -> False.
Proof. apply typeName_errf. Qed.

Lemma parseDataBlockLoop_wf (fuel : nat) (dblock : string) (t t' : item) (p p' : parser) :
  Parser.parseDataBlockLoop fuel dblock t p = Ok (t', p') ->
  wfDoc (cif p) -> is_Some (Blocks (cif p) !! dblock) ->
  wfDoc (cif p') /\ ext (cif p) (cif p').
Proof.
  revert t p. induction fuel as [|f IH]; intros t p H Hwf Hv; simpl in H; [discriminate H|].
  destruct (typ t);
    try (exfalso; exact (unexpectedInBlock_Ok _ _ _ H));
    try (apply ret_Ok in H as [_ ->]; split; [exact Hwf | apply ext_refl]).
  - bind_inv H as (u1 & p1 & Hs & H).
    destruct (parseSaveFrame_wf _ _ _ _ _ _ Hs Hwf Hv) as [Hwf1 Hext1].
    bind_inv H as (t1 & p2 & Hn & H). apply next_cif in Hn.
    rewrite <- Hn in Hwf1, Hext1.
    destruct (IH _ _ H Hwf1 (Hext1 (inData dblock) Hv)) as [Hwf2 Hext2].
    split; [exact Hwf2 | eapply ext_trans; eassumption].
  - bind_inv H as (t1 & p1 & Hl & H).
    destruct (parseLoop_wf _ _ _ _ _ Hl Hwf Hv) as [Hwf1 Hext1].
    destruct (IH _ _ H Hwf1 (Hext1 (inData dblock) Hv)) as [Hwf2 Hext2].
    split; [exact Hwf2 | eapply ext_trans; eassumption].
  - bind_inv H as (u1 & p1 & Hi & H).
    destruct (parseItemValue_spec _ _ _ _ _ _ Hi Hwf) as [Hwf1 Hext1].
    bind_inv H as (t1 & p2 & Hn & H). apply next_cif in Hn.
    rewrite <- Hn in Hwf1, Hext1.
    destruct (IH _ _ H Hwf1 (Hext1 (inData dblock) Hv)) as [Hwf2 Hext2].
    split; [exact Hwf2 | eapply ext_trans; eassumption].
Qed.

Lemma parseDataBlock_wf (fuel : nat) (name : string) (t' : item) (p p' : parser) :
  Parser.parseDataBlock fuel name p = Ok (t', p') ->
  wfDoc (cif p) -> wfDoc (cif p').
Proof.
  unfold Parser.parseDataBlock. intros H Hwf.
  bind_inv H as (blocks & p1 & Hg & H). apply gets_Ok in Hg as [-> ->].
  bind_inv H as (u1 & p1 & Hc & H).
  destruct (bool_decide (is_Some (Blocks (cif p) !! name))) eqn:E; [discriminate Hc|].
  apply ret_Ok in Hc as [_ ->].
  apply bool_decide_eq_false in E. apply eq_None_not_Some in E.
  bind_inv H as (u2 & p2 & Hm & H). apply modify_Ok in Hm as ->.
  bind_inv H as (t & p3 & Hn & H). apply next_cif in Hn.
  assert (Hwf1 : wfDoc (cif p3)).
  { rewrite Hn. exact (wfDoc_new_block name (cif p) E Hwf). }
  assert (Hv : is_Some (Blocks (cif p3) !! name)).
  { rewrite Hn. simpl. rewrite lookup_insert_eq. eauto. }
  exact (proj1 (parseDataBlockLoop_wf _ _ _ _ _ _ H Hwf1 Hv)).
Qed.

Lemma parseLoopTop_wf (fuel : nat) (t : item) (p p' : parser) (c : CIF) :
  Parser.parseLoopTop fuel t p = Ok (c, p') ->
  wfDoc (cif p) -> wfDoc c.
Proof.
  revert t p. induction fuel as [|f IH]; intros t p H Hwf; simpl in H; [discriminate H|].
  destruct (typ t);
    try (exfalso; exact (unexpectedInBlock_Ok _ _ _ H)).
  - apply gets_Ok in H as [-> _]. exact Hwf.
  - bind_inv H as (v & p1 & Hs & H).
    assert (p1 = p) as ->.
    { unfold sliceFrom in Hs. destruct (3 <=? String.length (val t))%nat;
        [apply ret_Ok in Hs as [_ ->]; reflexivity | discriminate Hs]. }
    bind_inv H as (u & p2 & Hm & H). apply modify_Ok in Hm as ->.
    bind_inv H as (t1 & p3 & Hn & H). apply next_cif in Hn.
    apply (IH _ _ H). rewrite Hn. exact (wfDoc_set_Version v _ Hwf).
  - bind_inv H as (t1 & p1 & Hd & H).
    apply (IH _ _ H). exact (parseDataBlock_wf _ _ _ _ _ Hd Hwf).
Qed.

(** Every document that [Read] returns satisfies the invariant. *)
Lemma Read_wf (fuel : nat) (inp : string) (c : CIF) (e : option string) :
  Read fuel inp = Some (Some c, e) -> wfDoc c.
Proof.
  unfold Read, Parser.parse.
  destruct (Parser.parseBody fuel inp _) as [[c' p']|[]|] eqn:E; intros H; try discriminate H.
  injection H as <- _.
  unfold Parser.parseBody in E.
  bind_inv E as (u & p1 & Hm & E). apply modify_Ok in Hm as ->.
  bind_inv E as (t & p2 & Hn & E). apply next_cif in Hn.
  apply (parseLoopTop_wf _ _ _ _ _ E). rewrite Hn. exact wfDoc_empty.
Qed.

(** ** Example inputs *)

Definition nl : string := str1 newline.

(** A table of two columns and three rows; its second column mixes
    omitted, float and missing values. *)
Definition tableInput : string :=
  "data_a" +:+ nl +:+ "loop_" +:+ nl +:+ "_x _y" +:+ nl +:+ "1 . 2 1.5 3 ?" +:+ nl.

Definition tableLoop : Loop :=
  {| Columns := {[ "x" := 0; "y" := 1 ]};
     Values := [cifInts [1; 2; 3]; cifStrings ["."; "1.5"; "?"]] |}.

Definition tableDoc : CIF :=
  {| Version := "";
     Blocks := {[ "a" := {| dataBlock := {| Name := "a"; Items := ∅;
                                            Loops := {[ "x" := 0%nat; "y" := 0%nat ]} |};
                            Frames := ∅ |} ]};
     heap := [tableLoop] |}.

Example Read_tableInput : Read 200 tableInput = Some (Some tableDoc, None).
Proof. vm_compute. reflexivity. Qed.

(** ** [Loop.Get] *)

(** C10. [Loop.Get] is total on parsed documents: for every table reached
    through a tag of a block of a document returned by a successful
    [Read], [Get] returns a column for every name (it does not panic), and
    for a name that is not a column name of the table it returns the
    column at index 0. *)
Theorem C10_Get_total (fuel : nat) (inp : string) (c : CIF)
    (b : blockRef) (tag : string) (l : loc) :
  Read fuel inp = Some (Some c, None) ->
  validRef b c -> Loops (getBlock b c) !! tag = Some l ->
  exists lp col0,
    heap c !! l = Some lp /\ Values lp !! 0%nat = Some col0 /\
    (forall name, is_Some (Get lp name)) /\
    (forall name, Columns lp !! name = None -> Get lp name = Some col0).
Proof.
  intros H Hv Hl. apply Read_wf in H as [Hs Hb _].
  destruct (Hb b tag l Hv Hl) as (lp & Hlp & _ & _).
  destruct (Hs l lp Hlp) as (_ & Hne & Hrange).
  destruct (Values lp) as [|col0 cols] eqn:EV; [contradiction|].
  exists lp, col0. split; [exact Hlp|]. split; [rewrite EV; reflexivity|]. split.
  - intros name. unfold Get. destruct (Columns lp !! name) as [i|] eqn:Ei; simpl.
    + apply Hrange in Ei. simpl in Ei.
      destruct (Z.ltb_spec i 0); [lia|]. rewrite EV.
      apply lookup_lt_is_Some. simpl. lia.
    + rewrite EV. simpl. eauto.
  - intros name Hn. unfold Get. rewrite Hn, EV. reflexivity.
Qed.

(** [Get] with an unknown name on the table of [tableInput]. *)
Lemma C10_witness :
  exists lp col0,
    heap tableDoc !! 0%nat = Some lp /\ Values lp !! 0%nat = Some col0 /\
    (forall name, is_Some (Get lp name)) /\
    (forall name, Columns lp !! name = None -> Get lp name = Some col0).
Proof.
  apply (C10_Get_total 200%nat tableInput tableDoc (inData "a") "x" 0%nat).
  - exact Read_tableInput.
  - vm_compute. eauto.
  - vm_compute. reflexivity.
Defined.

(** ** Fatal errors of the parser *)

(** The text of the [cifError] that [p.errf] raises on line [ln]. *)
Definition parseErrorText (ln : Z) (msg : string) : string :=
  "CIF parse error (line " +:+ itoa ln +:+ "): " +:+ msg.

Lemma errf_Panic {A} (msg : string) (p : parser) :
  @Parser.errf A msg p = Panic (cifError (parseErrorText (p_line p) msg)).
Proof. reflexivity. Qed.

Lemma assertUniqueTag_dup (b : blockRef) (name : string) (p : parser) :
  is_Some (Items (getBlock b (cif p)) !! name) \/
  is_Some (Loops (getBlock b (cif p)) !! name) ->
  Parser.assertUniqueTag b name p =
  Panic (cifError (parseErrorText (p_line p)
    ("Data item with name '" +:+ name +:+ "' already exists in block '" +:+
     Name (getBlock b (cif p)) +:+ "'."))).
Proof.
  intros H. unfold Parser.assertUniqueTag.
  rewrite (bind_step _ _ p p (getBlock b (cif p))) by reflexivity.
  destruct H as [H|H].
  - rewrite (bool_decide_eq_true_2 _ H). reflexivity.
  - rewrite (bool_decide_eq_true_2 _ H), orb_true_r. reflexivity.
Qed.

(** The three messages of the duplicate-name checks. *)
Definition dupBlockMsg (name : string) : string :=
  "Data block with name '" +:+ name +:+ "' already exists.".

Definition dupFrameMsg (name dname : string) : string :=
  "Save frame with name '" +:+ name +:+ "' already exists in data block '" +:+ dname +:+ "'.".

Definition dupTagMsg (name bname : string) : string :=
  "Data item with name '" +:+ name +:+ "' already exists in block '" +:+ bname +:+ "'.".

(** The checks for a name that is there already: (1) a data block heading
    whose lower-cased name is already a key of [Blocks], (2) a save frame
    heading whose lower-cased name is already a key of the [Frames] of its
    data block, and (3) a data tag whose lower-cased name is already a key
    of the [Items] or of the [Loops] of its block (met as an item of a
    data block, as an item of a save frame, or as a tag of a [loop_]) each
    make the parser panic with a [cifError] that names the identifier; and
    (4) [parse] returns a [cifError] panic as its error, with no
    document. *)
Lemma duplicate_names_panic :
  (forall (fuel : nat) (t : item) (p : parser),
     typ t = itemDataBlockStart ->
     is_Some (Blocks (cif p) !! ToLower (val t)) ->
     Parser.parseLoopTop (S fuel) t p =
     Panic (cifError (parseErrorText (p_line p) (dupBlockMsg (ToLower (val t)))))) /\
  (forall (fuel : nat) (dblock : string) (db : DataBlock) (t : item) (p : parser),
     typ t = itemSaveFrameStart ->
     Blocks (cif p) !! dblock = Some db ->
     is_Some (Frames db !! ToLower (val t)) ->
     Parser.parseDataBlockLoop (S fuel) dblock t p =
     Panic (cifError (parseErrorText (p_line p)
                        (dupFrameMsg (ToLower (val t)) (Name (dataBlock db)))))) /\
  (forall (fuel : nat) (b : blockRef) (t : item) (p : parser),
     typ t = itemDataTag ->
     is_Some (Items (getBlock b (cif p)) !! ToLower (val t)) \/
     is_Some (Loops (getBlock b (cif p)) !! ToLower (val t)) ->
     let e := cifError (parseErrorText (p_line p)
                          (dupTagMsg (ToLower (val t)) (Name (getBlock b (cif p))))) in
     (forall dblock, b = inData dblock ->
                     Parser.parseDataBlockLoop (S fuel) dblock t p = Panic e) /\
     Parser.parseSaveFrameLoop (S fuel) b t p = Panic e /\
     (forall i vals, Parser.parseLoopTags (S fuel) b t i vals p = Panic e)) /\
  (forall (fuel : nat) (inp : string) (p : parser) (e : string),
     Parser.parseBody fuel inp p = Panic (cifError e) ->
     Parser.parse fuel inp p = Some (None, Some e)).
Proof.
  split; [|split; [|split]].
  - intros fuel t p Ht Hdup. simpl. rewrite Ht.
    apply bind_Panic. unfold Parser.parseDataBlock.
    rewrite (bind_step _ _ p p (Blocks (cif p))) by reflexivity.
    apply bind_Panic. rewrite (bool_decide_eq_true_2 _ Hdup). reflexivity.
  - intros fuel dblock db t p Ht Hdb Hdup. simpl. rewrite Ht.
    apply bind_Panic. unfold Parser.parseSaveFrame.
    rewrite (bind_step _ _ p p (Some db)) by (unfold gets; rewrite Hdb; reflexivity).
    apply bind_Panic. rewrite (bool_decide_eq_true_2 _ Hdup). reflexivity.
  - intros fuel b t p Ht Hdup e.
    pose proof (assertUniqueTag_dup b (ToLower (val t)) p Hdup) as Ha.
    split; [|split].
    + intros dblock ->. simpl. rewrite Ht. apply bind_Panic.
      unfold Parser.parseItemValue. apply bind_Panic. exact Ha.
    + simpl. rewrite Ht. apply bind_Panic.
      unfold Parser.parseItemValue. apply bind_Panic. exact Ha.
    + intros i vals. simpl. rewrite Ht. simpl. apply bind_Panic. exact Ha.
  - intros fuel inp p e H. unfold Parser.parse. rewrite H. reflexivity.
Qed.

(** Two headings that differ only in case. *)
Definition dupBlockInput : string := "data_Foo" +:+ nl +:+ "data_foo" +:+ nl.

(** The parser after the first heading of [dupBlockInput], when the
    second has just been read. *)
Definition dupBlockParser : parser :=
  match (Parser.onLexer (nextItem 50) ;; Parser.parseDataBlock 50 "foo")
          {| cif := emptyCIF; lx := lex dupBlockInput; p_line := 0 |} with
  | Ok (_, p) => p
  | _ => {| cif := emptyCIF; lx := lex ""; p_line := 0 |}
  end.

Example duplicate_block_panics :
  Parser.parseLoopTop 1 (mkItem itemDataBlockStart "foo" 2) dupBlockParser =
  Panic (cifError "CIF parse error (line 2): Data block with name 'foo' already exists.").
Proof.
  refine (proj1 duplicate_names_panic 0%nat
            (mkItem itemDataBlockStart "foo" 2) dupBlockParser eq_refl _).
  vm_compute. eauto.
Qed.

Example Read_duplicate_block :
  Read 100 dupBlockInput =
  Some (None, Some "CIF parse error (line 2): Data block with name 'foo' already exists.").
Proof. vm_compute. reflexivity. Qed.

Example Read_duplicate_frame :
  Read 100 ("data_a" +:+ nl +:+ "save_f _x 1 save_ save_F _y 2 save_" +:+ nl) =
  Some (None, Some ("CIF parse error (line 2): Save frame with name 'f' already " +:+
                    "exists in data block 'a'.")).
Proof. vm_compute. reflexivity. Qed.

Example Read_duplicate_tag :
  Read 100 ("data_a" +:+ nl +:+ "_Entry.ID 1" +:+ nl +:+ "loop_ _b _entry.id 1 2" +:+ nl) =
  Some (None, Some ("CIF parse error (line 3): Data item with name 'entry.id' already " +:+
                    "exists in block 'a'.")).
Proof. vm_compute. reflexivity. Qed.

(** *** A tag that is repeated inside one [loop_] *)

(** One [loop_] that declares the tag [x] twice, the second time in
    capitals, with one row of values. *)
Definition repeatedTagInput : string :=
  "data_a" +:+ nl +:+ "loop_" +:+ nl +:+ "_x _X" +:+ nl +:+ "1 2" +:+ nl.

(** The document that [Read] makes of it: a table of two columns of which
    only the second has a name. *)
Definition repeatedTagLoop : Loop :=
  {| Columns := {[ "x" := 1 ]}; Values := [cifInts [1]; cifInts [2]] |}.

Definition repeatedTagDoc : CIF :=
  {| Version := "";
     Blocks := {[ "a" := {| dataBlock := {| Name := "a"; Items := ∅;
                                            Loops := {[ "x" := 0%nat ]} |};
                            Frames := ∅ |} ]};
     heap := [repeatedTagLoop] |}.

(** The same two tags as two items, as an item and a table, as two
    tables, and as a table and an item. *)
Definition repeatedItemsInput : string :=
  "data_a" +:+ nl +:+ "_x 1" +:+ nl +:+ "_X 2" +:+ nl.

Definition itemThenLoopInput : string :=
  "data_a" +:+ nl +:+ "_x 1" +:+ nl +:+ "loop_" +:+ nl +:+ "_X" +:+ nl +:+ "2" +:+ nl.

Definition twoLoopsInput : string :=
  "data_a" +:+ nl +:+ "loop_" +:+ nl +:+ "_x" +:+ nl +:+ "1" +:+ nl +:+
  "loop_" +:+ nl +:+ "_X" +:+ nl +:+ "2" +:+ nl.

Definition loopThenItemInput : string :=
  "data_a" +:+ nl +:+ "loop_" +:+ nl +:+ "_x" +:+ nl +:+ "1" +:+ nl +:+ "_X 2" +:+ nl.

Definition dupTagError (ln : Z) : string :=
  parseErrorText ln (dupTagMsg "x" "a").

(** C7. Duplicate-name rejection: a tag that is met twice in the tags of
    one [loop_] is not rejected. [assertUniqueTag] looks the tag up in the
    [Items] and the [Loops] of the block, and the tags of a [loop_] are
    entered there only when its values have been read: the tags loop goes
    on after a tag that is no key of these maps, whatever columns the
    loop has declared before. So [Read] of a table with the tags [_x] and
    [_X] returns a document and no error; the table has two columns, of
    which the name [x] leads to the second only. The same two tags are a
    fatal error when they are two items, an item and a table, two tables,
    or a table and an item. *)
Theorem C7_repeated_loop_tag_is_accepted :
  (forall (fuel : nat) (b : blockRef) (t : item) (i : Z) (vals : list loopValues)
          (p : parser),
     typ t = itemDataTag ->
     Items (getBlock b (cif p)) !! ToLower (val t) = None ->
     Loops (getBlock b (cif p)) !! ToLower (val t) = None ->
     Parser.parseLoopTags (S fuel) b t i vals p =
     (t' <- Parser.next fuel ;;
      Parser.parseLoopTags fuel b t' (i + 1)
        (vals ++ [mkLoopValues (ToLower (val t)) [] itemDataNone]))%go p) /\
  (Read 200 repeatedTagInput = Some (Some repeatedTagDoc, None) /\
   Get repeatedTagLoop "x" = Some (cifInts [2]) /\
   Get repeatedTagLoop "X" = Some (cifInts [1])) /\
  (Read 200 repeatedItemsInput = Some (None, Some (dupTagError 3)) /\
   Read 200 itemThenLoopInput = Some (None, Some (dupTagError 4)) /\
   Read 200 twoLoopsInput = Some (None, Some (dupTagError 6)) /\
   Read 200 loopThenItemInput = Some (None, Some (dupTagError 5))).
Proof.
  split; [|split].
  - intros fuel b t i vals p Ht Hi Hl. cbn [Parser.parseLoopTags]. rewrite Ht. cbn [itemType_eqb].
    assert (Hu : Parser.assertUniqueTag b (ToLower (val t)) p = Ok (tt, p)).
    { unfold Parser.assertUniqueTag.
      rewrite (bind_step _ _ p p (getBlock b (cif p))) by reflexivity.
      rewrite !bool_decide_eq_false_2
        by (intros [x Hx]; rewrite ?Hi, ?Hl in Hx; discriminate Hx).
      reflexivity. }
    rewrite (bind_step _ _ _ _ _ Hu). reflexivity.
  - repeat split; vm_compute; reflexivity.
  - repeat split; vm_compute; reflexivity.
Qed.

(** The message of the arity check of [parseLoop]. *)
Definition arityMsg (count : nat) (loopLine : Z) (ncols : nat) : string :=
  "There are " +:+ itoa (Z.of_nat count) +:+ " values in loop (starting on line " +:+
  itoa loopLine +:+ "), which is not a multiple of the number of columns " +:+
  "in the loop (" +:+ itoa (Z.of_nat ncols) +:+ ").".

Lemma parseLoopTags_length (fuel : nat) (b : blockRef) (t t' : item) (i : Z)
    (vals vals' : list loopValues) (p p' : parser) :
  Parser.parseLoopTags fuel b t i vals p = Ok ((t', vals'), p') ->
  typ t = itemDataTag -> (1 <= length vals')%nat.
Proof.
  intros H Ht. destruct (parseLoopTags_spec _ _ _ _ _ _ _ _ _ H) as (_ & new & -> & Hne & _).
  specialize (Hne Ht). rewrite length_app. destruct new; [contradiction | simpl; lia].
Qed.

Lemma addValue_length (t : item) (i : nat) (vals vals' : list loopValues) (p p' : parser) :
  Parser.addValue t i vals p = Ok (vals', p') -> length vals' = length vals.
Proof.
  unfold Parser.addValue. intros H. destruct (length vals) eqn:E; [discriminate H|].
  destruct (vals !! _); [|discriminate H].
  apply ret_Ok in H as [-> _]. rewrite length_insert. exact E.
Qed.

Lemma parseLoopValues_length (fuel : nat) (t t' : item) (i count count' : nat)
    (vals vals' : list loopValues) (p p' : parser) :
  Parser.parseLoopValues fuel t i count vals p = Ok ((t', count', vals'), p') ->
  length vals' = length vals.
Proof.
  revert t i count vals p. induction fuel as [|f IH]; intros t i count vals p H; simpl in H.
  - destruct (isValueType (typ t)); [discriminate H|].
    apply ret_Ok in H as [H _]. injection H as _ _ <-. reflexivity.
  - destruct (isValueType (typ t)).
    + bind_inv H as (v & p1 & Ha & H). bind_inv H as (t1 & p2 & _ & H).
      apply IH in H. apply addValue_length in Ha. congruence.
    + apply ret_Ok in H as [H _]. injection H as _ _ <-. reflexivity.
Qed.

(** C8. Table arity check. When the parser has just read the [loop_]
    token [tl] (so that its line is the current line), the tags loop has
    declared the columns [vals] and the values loop has consumed [count]
    values, and [count] is not a multiple of the number of columns, then
    [parseLoop] panics with a [cifError] whose message cites the line of
    the [loop_] token; the enclosing loops of a data block and of a save
    frame pass the panic on, and [parse] returns it as the error of
    [Read], with no document. *)
Theorem C8_table_arity_is_checked
    (fl fuel : nat) (b : blockRef) (pl p p0 p1 p2 : parser) (tl t0 t1 t2 : item)
    (vals vals2 : list loopValues) (count : nat) :
  Parser.next fl pl = Ok (tl, p) -> typ tl = itemLoop ->
  Parser.next fuel p = Ok (t0, p0) -> typ t0 = itemDataTag ->
  Parser.parseLoopTags fuel b t0 0 [] p0 = Ok ((t1, vals), p1) ->
  isValueType (typ t1) = true ->
  Parser.parseLoopValues fuel t1 0 0 vals p1 = Ok ((t2, count, vals2), p2) ->
  (count mod length vals)%nat <> 0%nat ->
  let e := cifError (parseErrorText (p_line p2) (arityMsg count (line tl) (length vals))) in
  Parser.parseLoop fuel b p = Panic e /\
  (forall dblock, b = inData dblock ->
                  Parser.parseDataBlockLoop (S fuel) dblock tl p = Panic e) /\
  Parser.parseSaveFrameLoop (S fuel) b tl p = Panic e /\
  (forall f inp q, Parser.parseBody f inp q = Panic e ->
                   Parser.parse f inp q = Some (None, Some (parseErrorText (p_line p2)
                                            (arityMsg count (line tl) (length vals))))).
Proof.
  intros Hl Htl Hn Ht0 Htags Ht1 Hvals Hmod e.
  assert (Hline : p_line p = line tl) by exact (proj1 (next_line _ _ _ _ Hl)).
  assert (Hlen : length vals2 = length vals) by exact (parseLoopValues_length _ _ _ _ _ _ _ _ _ _ Hvals).
  assert (Hpos : (1 <= length vals)%nat) by exact (parseLoopTags_length _ _ _ _ _ _ _ _ _ Htags Ht0).
  assert (Hloop : Parser.parseLoop fuel b p = Panic e).
  { unfold Parser.parseLoop.
    rewrite (bind_step _ _ p p (p_line p)) by reflexivity.
    rewrite (bind_step _ _ _ _ _ Hn).
    rewrite Ht0. simpl negb. cbv iota.
    rewrite (bind_step _ _ p0 p0 tt) by reflexivity.
    rewrite (bind_step _ _ _ _ _ Htags).
    rewrite Ht1. simpl negb. cbv iota.
    rewrite (bind_step _ _ p1 p1 tt) by reflexivity.
    rewrite (bind_step _ _ _ _ _ Hvals).
    rewrite Hlen. destruct (length vals) as [|m] eqn:Em; [lia|].
    apply bind_Panic.
    destruct (Nat.eqb_spec (count mod S m) 0) as [E|E]; [contradiction|].
    change (negb false) with true. cbv iota.
    rewrite errf_Panic. unfold e. rewrite Hline. reflexivity. }
  split; [exact Hloop|]. split; [|split].
  - intros dblock ->. simpl. rewrite Htl. apply bind_Panic. exact Hloop.
  - simpl. rewrite Htl. apply bind_Panic. exact Hloop.
  - intros f inp q H. unfold Parser.parse. rewrite H. reflexivity.
Qed.

(** Five values for two columns, in a table that starts on line 2. *)
Definition arityInput : string :=
  "data_a" +:+ nl +:+ "loop_" +:+ nl +:+ "_x _y" +:+ nl +:+ "1 . 2 1.5 3" +:+ nl.

(** The result of a run that is known to return, [d] otherwise. *)
Definition runOr {S A : Type} (c : M S A) (s : S) (d : A * S) : A * S :=
  match c s with
  | Ok r => r
  | _ => d
  end.

Definition noItem : item := mkItem itemError "" 0.
Definition noParser : parser := {| cif := emptyCIF; lx := lex ""; p_line := 0 |}.

(** The parser on [arityInput] inside the data block, and its run through
    [parseLoop]: the [loop_] token, the first tag, the tags loop and the
    values loop. *)
Definition arityParser : parser :=
  snd (runOr (Parser.next 50)
         {| cif := set_Blocks {[ "a" := newDataBlock "a" ]} emptyCIF;
            lx := lex arityInput; p_line := 0 |} (noItem, noParser)).

Definition arityRun1 : item * parser :=
  runOr (Parser.next 50) arityParser (noItem, noParser).

Definition arityRun2 : item * parser :=
  runOr (Parser.next 50) (snd arityRun1) (noItem, noParser).

Definition arityRun3 : item * list loopValues * parser :=
  runOr (Parser.parseLoopTags 50 (inData "a") (fst arityRun2) 0 []) (snd arityRun2)
        ((noItem, []), noParser).

Definition arityRun4 : item * nat * list loopValues * parser :=
  runOr (Parser.parseLoopValues 50 (fst (fst arityRun3)) 0 0 (snd (fst arityRun3)))
        (snd arityRun3) ((noItem, O, []), noParser).

Definition arityError : string :=
  "CIF parse error (line 0): There are 5 values in loop (starting on line 2), " +:+
  "which is not a multiple of the number of columns in the loop (2).".

Lemma C8_witness :
  fst arityRun1 = mkItem itemLoop "" 2 /\
  Parser.parseLoop 50 (inData "a") (snd arityRun1) = Panic (cifError arityError).
Proof.
  split; [vm_compute; reflexivity|].
  etransitivity.
  - refine (proj1 (C8_table_arity_is_checked 50 50 (inData "a")
                     arityParser (snd arityRun1) (snd arityRun2) (snd arityRun3)
                     (snd arityRun4) (fst arityRun1) (fst arityRun2)
                     (fst (fst arityRun3)) (fst (fst (fst arityRun4)))
                     (snd (fst arityRun3)) (snd (fst arityRun4))
                     (snd (fst (fst arityRun4))) _ _ _ _ _ _ _ _)).
    + vm_compute. reflexivity.
    + vm_compute. reflexivity.
    + vm_compute. reflexivity.
    + vm_compute. reflexivity.
    + vm_compute. reflexivity.
    + vm_compute. reflexivity.
    + vm_compute. reflexivity.
    + vm_compute. discriminate.
  - vm_compute. reflexivity.
Defined.

Example Read_arityInput : Read 100 arityInput = Some (None, Some arityError).
Proof. vm_compute. reflexivity. Qed.

(** ** The version token is only ever the first token *)

(** A state other than the two that lead to the version token. *)
Definition lateState (o : option stateFn) : Prop :=
  match o with
  | Some St.lexCifInitial | Some St.lexVersion => False
  | _ => True
  end.

Definition lateItem (o : option item) : Prop :=
  match o with
  | Some it => typ it <> itemVersion
  | None => True
  end.

(** The lexer is past the start of the input: no state on its stack
    leads to the version token, and no version token is pending. *)
Definition lateLexer (lx : lexer) : Prop :=
  Forall lateState (stack lx) /\ lateItem (emitted lx).

(** A step of the lexer keeps it late, and its result satisfies [Q]. *)
Definition keepsLate {A} (c : L A) (Q : A -> Prop) : Prop :=
  forall lx a lx', lateLexer lx -> c lx = Ok (a, lx') -> lateLexer lx' /\ Q a.

Definition anything {A} (a : A) : Prop := True.

Lemma keepsLate_ret {A} (a : A) (Q : A -> Prop) : Q a -> keepsLate (ret a) Q.
Proof. intros HQ lx b lx' Hl H. apply ret_Ok in H as [-> ->]. auto. Qed.

Lemma keepsLate_bind {A B} (c : L A) (k : A -> L B) (Q1 : A -> Prop) (Q : B -> Prop) :
  keepsLate c Q1 -> (forall a, Q1 a -> keepsLate (k a) Q) -> keepsLate (bind c k) Q.
Proof.
  intros Hc Hk lx b lx' Hl H. bind_inv H as (a & lx1 & Ha & H).
  destruct (Hc _ _ _ Hl Ha) as [Hl1 HQ1]. exact (Hk a HQ1 _ _ _ Hl1 H).
Qed.

Lemma keepsLate_weaken {A} (c : L A) (Q1 Q : A -> Prop) :
  keepsLate c Q1 -> (forall a, Q1 a -> Q a) -> keepsLate c Q.
Proof. intros Hc HQ lx a lx' Hl H. destruct (Hc _ _ _ Hl H). auto. Qed.

Lemma keepsLate_gets {A} (f : lexer -> A) : keepsLate (gets f) anything.
Proof. intros lx a lx' Hl H. apply gets_Ok in H as [-> ->]. split; [exact Hl | exact I]. Qed.

(** A change of the lexer that touches neither the stack nor the pending
    item. *)
Lemma keepsLate_modify (f : lexer -> lexer) :
  (forall lx, stack (f lx) = stack lx /\ emitted (f lx) = emitted lx) ->
  keepsLate (modify f) anything.
Proof.
  intros Hf lx a lx' [Hs He] H. apply modify_Ok in H as ->.
  split; [|exact I]. unfold lateLexer. destruct (Hf lx) as [-> ->]. split; assumption.
Qed.

Lemma keepsLate_next : keepsLate next anything.
Proof.
  intros lx a lx' [Hs He] H. unfold next in H.
  destruct (String.get (pos lx) (input lx)) as [c|]; injection H as <- <-;
    [destruct (req c newline)|]; (split; [split; assumption | exact I]).
Qed.

Lemma keepsLate_backup : keepsLate backup anything.
Proof.
  apply keepsLate_modify. intros lx. simpl.
  destruct (String.get (pos lx - width lx) (input lx)) as [c|]; [destruct (req c newline)|];
    split; reflexivity.
Qed.

Lemma keepsLate_ignore : keepsLate ignore anything.
Proof. apply keepsLate_modify. intros lx. split; reflexivity. Qed.

Lemma keepsLate_peek : keepsLate peek anything.
Proof. apply keepsLate_gets. Qed.

Lemma keepsLate_peekAt (n : nat) : keepsLate (peekAt n) anything.
Proof. apply keepsLate_gets. Qed.

Lemma keepsLate_aheadMatch (s : string) : keepsLate (aheadMatch s) anything.
Proof.
  unfold aheadMatch. eapply keepsLate_bind; [apply keepsLate_peekAt|].
  intros p _. apply keepsLate_ret. exact I.
Qed.

Lemma keepsLate_accept (valid : rune) : keepsLate (accept valid) anything.
Proof.
  unfold accept. eapply keepsLate_bind; [apply keepsLate_next|]. intros r _.
  destruct (req r valid); [apply keepsLate_ret; exact I|].
  eapply keepsLate_bind; [apply keepsLate_backup|]. intros _ _. apply keepsLate_ret. exact I.
Qed.

Lemma keepsLate_current : keepsLate current anything.
Proof.
  intros lx a lx' Hl H. unfold current in H.
  destruct ((start lx <=? pos lx)%nat && (pos lx <=? String.length (input lx))%nat);
    [|discriminate H].
  injection H as <- <-. split; [exact Hl | exact I].
Qed.

Lemma keepsLate_errf (msg : string) : keepsLate (errf msg) lateState.
Proof.
  intros lx a lx' [Hs He] H. unfold errf in H. injection H as <- <-.
  split; [split; [exact Hs | simpl; discriminate] | exact I].
Qed.

Lemma keepsLate_push (o : option stateFn) : lateState o -> keepsLate (push o) anything.
Proof.
  intros Ho lx a lx' [Hs He] H. apply modify_Ok in H as ->.
  split; [split; [constructor; assumption | exact He] | exact I].
Qed.

Lemma keepsLate_pop : keepsLate pop lateState.
Proof.
  intros lx a lx' Hl H. unfold pop in H. destruct (stack lx) as [|o rest] eqn:E.
  - exact (keepsLate_errf _ _ _ _ Hl H).
  - injection H as <- <-. destruct Hl as [Hs He]. rewrite E in Hs.
    apply Forall_cons in Hs as [Ho Hrest]. split; [split; assumption | exact Ho].
Qed.

Lemma keepsLate_emit (t : itemType) : t <> itemVersion -> keepsLate (emit t) anything.
Proof.
  intros Ht lx a lx' Hl H. unfold emit in H.
  destruct (emitted lx) eqn:E; [discriminate H|].
  bind_inv H as (cur & lx1 & Hc & H).
  destruct (keepsLate_current _ _ _ Hl Hc) as [[Hs He] _].
  apply modify_Ok in H as ->. split; [split; [exact Hs | exact Ht] | exact I].
Qed.

Lemma keepsLate_stop : keepsLate stop lateState.
Proof.
  unfold stop. eapply keepsLate_bind; [apply keepsLate_ignore|]. intros _ _.
  eapply keepsLate_bind; [apply keepsLate_emit; discriminate|]. intros _ _.
  apply keepsLate_ret. exact I.
Qed.

Lemma keepsLate_chars (oneOrMore : bool) (pr : predFn) :
  keepsLate (chars oneOrMore pr) lateState.
Proof.
  unfold chars. eapply keepsLate_bind.
  - apply keepsLate_modify. intros lx. split; reflexivity.
  - intros _ _. apply keepsLate_ret. destruct oneOrMore; exact I.
Qed.

Lemma keepsLate_acceptRunes (rs whole : string) : keepsLate (acceptRunes rs whole) anything.
Proof.
  induction rs as [|r rest IH]; simpl.
  - apply keepsLate_ret. exact I.
  - eapply keepsLate_bind; [apply keepsLate_accept|]. intros ok _. destruct ok; [exact IH|].
    eapply keepsLate_bind; [apply keepsLate_peek|]. intros p _.
    eapply keepsLate_bind; [apply keepsLate_errf|]. intros _ _.
    apply keepsLate_ret. exact I.
Qed.

Lemma keepsLate_acceptStr (s : string) (nx : option stateFn) :
  lateState nx -> keepsLate (acceptStr s nx) lateState.
Proof.
  intros Hnx. unfold acceptStr.
  eapply keepsLate_bind; [apply keepsLate_acceptRunes|]. intros ok _. destruct ok.
  - eapply keepsLate_bind; [apply keepsLate_ignore|]. intros _ _. apply keepsLate_ret. exact Hnx.
  - apply keepsLate_ret. exact I.
Qed.

Lemma keepsLate_lexSpaceOrEof (nx : option stateFn) :
  lateState nx -> keepsLate (lexSpaceOrEof nx) lateState.
Proof.
  intros Hnx. unfold lexSpaceOrEof.
  eapply keepsLate_bind; [apply keepsLate_push; exact Hnx|]. intros _ _.
  apply keepsLate_ret. exact I.
Qed.

Lemma keepsLate_lexWhiteSpace (nx : option stateFn) :
  lateState nx -> keepsLate (lexWhiteSpace nx) lateState.
Proof.
  intros Hnx. unfold lexWhiteSpace.
  eapply keepsLate_bind; [apply keepsLate_next|]. intros r _.
  destruct (negb (isWhiteSpace r)); [apply keepsLate_errf|].
  eapply keepsLate_bind; [apply keepsLate_push; exact Hnx|]. intros _ _.
  apply keepsLate_ret. exact I.
Qed.

(** Proves [keepsLate c Q] by following the structure of [c]: [late_any]
    when nothing is asked of the result, [late] when the result is the
    next state. *)
Ltac late_any :=
  lazymatch goal with
  | |- keepsLate (ret _) _ => apply keepsLate_ret; exact I
  | |- keepsLate (bind _ _) _ =>
      eapply (keepsLate_bind _ _ anything); [late_any | intros ? _; late_any]
  | |- keepsLate (if ?b then _ else _) _ => destruct b; late_any
  | |- keepsLate next _ => apply keepsLate_next
  | |- keepsLate backup _ => apply keepsLate_backup
  | |- keepsLate ignore _ => apply keepsLate_ignore
  | |- keepsLate peek _ => apply keepsLate_peek
  | |- keepsLate (peekAt _) _ => apply keepsLate_peekAt
  | |- keepsLate (aheadMatch _) _ => apply keepsLate_aheadMatch
  | |- keepsLate (accept _) _ => apply keepsLate_accept
  | |- keepsLate current _ => apply keepsLate_current
  | |- keepsLate (gets _) _ => apply keepsLate_gets
  | |- keepsLate (push _) _ => apply keepsLate_push; exact I
  | |- keepsLate (emit _) _ => apply keepsLate_emit; discriminate
  | |- keepsLate (errf _) _ =>
      eapply keepsLate_weaken; [apply keepsLate_errf | intros; exact I]
  end.

Ltac late :=
  lazymatch goal with
  | |- keepsLate (ret _) _ => apply keepsLate_ret; solve [exact I | assumption]
  | |- keepsLate (bind pop _) _ =>
      eapply keepsLate_bind; [apply keepsLate_pop | intros ? ?; late]
  | |- keepsLate (bind (chars _ _) _) _ =>
      eapply keepsLate_bind; [apply keepsLate_chars | intros ? ?; late]
  | |- keepsLate (bind (lexSpaceOrEof _) _) _ =>
      eapply keepsLate_bind; [apply keepsLate_lexSpaceOrEof; exact I | intros ? ?; late]
  | |- keepsLate (bind _ _) _ =>
      eapply (keepsLate_bind _ _ anything); [late_any | intros ? _; late]
  | |- keepsLate (if ?b then _ else _) _ => destruct b; late
  | |- keepsLate (match ?x with _ => _ end) _ => destruct x; late
  | |- keepsLate (errf _) _ => apply keepsLate_errf
  | |- keepsLate pop _ => apply keepsLate_pop
  | |- keepsLate stop _ => apply keepsLate_stop
  | |- keepsLate (chars _ _) _ => apply keepsLate_chars
  | |- keepsLate (acceptStr _ _) _ =>
      apply keepsLate_acceptStr; solve [exact I | assumption]
  | |- keepsLate (lexSpaceOrEof _) _ => apply keepsLate_lexSpaceOrEof; exact I
  | |- keepsLate (lexWhiteSpace _) _ =>
      apply keepsLate_lexWhiteSpace; solve [exact I | assumption]
  end.

Lemma keepsLate_fallBackUnquoted : keepsLate fallBackUnquoted lateState.
Proof. unfold fallBackUnquoted. late. Qed.

Lemma keepsLate_lexSaveFrameEnd : keepsLate lexSaveFrameEnd lateState.
Proof. unfold lexSaveFrameEnd. late. Qed.

Lemma keepsLate_lexValueQuotedLoop (fuel : nat) (quote : rune) :
  keepsLate (lexValueQuotedLoop fuel quote) lateState.
Proof.
  induction fuel as [|f IH]; simpl.
  - intros lx a lx' _ H. discriminate H.
  - eapply (keepsLate_bind _ _ anything); [late_any|]. intros r _.
    destruct (isNL r); [apply keepsLate_errf|].
    destruct (req r eof); [apply keepsLate_errf|].
    eapply (keepsLate_bind _ _ anything); [late_any|]. intros pk _.
    destruct (req r quote && _); [late | exact IH].
Qed.

(** Every state function but the first two keeps the lexer late and
    returns such a state. *)
Lemma call_late (s : stateFn) :
  lateState (Some s) -> keepsLate (call s) lateState.
Proof.
  destruct s; simpl; intros Hs; try contradiction.
  - unfold lexCif. late.
  - unfold lexDataBlockHeading. late.
  - unfold lexSaveFrameHeading. late.
  - unfold lexDataBlocks. late.
  - unfold lexFirstSaveDataItem. late.
  - unfold lexSaveDataItems.
    eapply (keepsLate_bind _ _ anything); [late_any|]. intros sv _.
    destruct sv; [apply keepsLate_lexSaveFrameEnd | late].
  - unfold lexDataItem. late.
  - unfold lexLoopStartWhiteSpace. late.
  - unfold lexLoopStart. late.
  - unfold lexLoopTags. late.
  - unfold lexLoopStartValue. late.
  - unfold lexLoopValues. late.
  - unfold lexDataTag. late.
  - unfold lexOneOrMore. late.
  - unfold lexPred. late.
  - unfold lexSpaceOrEofContinue. late.
  - unfold lexWhiteSpaceContinue. late.
  - unfold lexComment. late.
  - unfold lexValue.
    repeat (eapply (keepsLate_bind _ _ anything); [late_any|]; intros ? _;
            try match goal with |- keepsLate (if ?b then errf _ else _) _ =>
                  destruct b; [apply keepsLate_errf|] end).
    repeat match goal with
           | |- keepsLate (if ?b then _ else _) _ => destruct b
           end;
      first [apply keepsLate_fallBackUnquoted | late].
  - unfold lexValueEnd. late.
  - unfold lexValueIntegerStart.
    eapply (keepsLate_bind _ _ anything); [late_any|]; intros ? _.
    repeat match goal with
           | |- keepsLate (if ?b then _ else _) _ => destruct b
           end;
      first [apply keepsLate_fallBackUnquoted | late].
  - unfold lexValueInteger.
    eapply (keepsLate_bind _ _ anything); [late_any|]; intros ? _.
    repeat match goal with
           | |- keepsLate (if ?b then _ else _) _ => destruct b
           end;
      first [apply keepsLate_fallBackUnquoted | late].
  - unfold lexValueExponentFirst. late.
  - unfold lexValueExponent.
    eapply (keepsLate_bind _ _ anything); [late_any|]; intros ? _.
    repeat match goal with
           | |- keepsLate (if ?b then _ else _) _ => destruct b
           end;
      first [apply keepsLate_fallBackUnquoted | late].
  - unfold lexValueFloatAfterDecimal.
    eapply (keepsLate_bind _ _ anything); [late_any|]; intros ? _.
    repeat match goal with
           | |- keepsLate (if ?b then _ else _) _ => destruct b
           end;
      first [apply keepsLate_fallBackUnquoted | late].
  - unfold lexValueTextFieldFirstLine. late.
  - unfold lexValueTextField. late.
  - unfold lexValueUnquotedEnd. late.
  - unfold lexValueQuoted.
    eapply (keepsLate_bind _ _ anything); [late_any|]; intros ? _.
    apply keepsLate_lexValueQuotedLoop.
Qed.

(** Once the lexer is late, [nextItem] never answers the version token. *)
Lemma nextItem_late (fuel : nat) (l l' : lexer) (it : item) :
  lateLexer l -> lateState (state l) ->
  nextItem fuel l = Ok (it, l') ->
  lateLexer l' /\ lateState (state l') /\ typ it <> itemVersion.
Proof.
  revert l. induction fuel as [|f IH]; intros l Hl Hs H.
  - simpl in H. destruct (emitted l) as [e|] eqn:Ee, (state l) as [s|] eqn:Es;
      try discriminate H; injection H as <- <-.
    + destruct Hl as [Hst He]. rewrite Ee in He.
      split; [split; [exact Hst | exact I]|]. split; [simpl; rewrite Es; exact Hs | exact He].
    + split; [exact Hl|]. split; [rewrite Es; exact I | discriminate].
    + split; [exact Hl|]. split; [rewrite Es; exact I | discriminate].
  - simpl in H. destruct (emitted l) as [e|] eqn:Ee, (state l) as [s|] eqn:Es.
    + injection H as <- <-. destruct Hl as [Hst He]. rewrite Ee in He.
      split; [split; [exact Hst | exact I]|]. split; [simpl; rewrite Es; exact Hs | exact He].
    + injection H as <- <-. split; [exact Hl|]. split; [rewrite Es; exact I | discriminate].
    + bind_inv H as (u & l1 & Hr & H). unfold runState in Hr.
      bind_inv Hr as (nx & l2 & Hc & Hr). apply modify_Ok in Hr as ->.
      destruct (call_late s Hs _ _ _ Hl Hc) as [[Hst He] Hnx].
      exact (IH (set_state nx l2) (conj Hst He) Hnx H).
    + injection H as <- <-. split; [exact Hl|]. split; [rewrite Es; exact I | discriminate].
Qed.

(** The parser's view: the lexer is late. *)
Definition lateParser (p : parser) : Prop :=
  lateLexer (lx p) /\ lateState (state (lx p)).

Lemma onLexer_Ok {A} (c : L A) (p p' : parser) (a : A) :
  Parser.onLexer c p = Ok (a, p') ->
  exists l', c (lx p) = Ok (a, l') /\ p' = Parser.set_lx l' p.
Proof.
  unfold Parser.onLexer. destruct (c (lx p)) as [[x l]| |]; intros H; try discriminate H.
  injection H as <- <-. eauto.
Qed.

Lemma next_late (fuel : nat) (p p' : parser) (t : item) :
  Parser.next fuel p = Ok (t, p') -> lateParser p ->
  lateParser p' /\ typ t <> itemVersion.
Proof.
  revert p. induction fuel as [|f IH]; intros p H [Hl Hs]; simpl in H; [discriminate H|].
  bind_inv H as (it & p1 & Hn & H).
  apply onLexer_Ok in Hn as (l1 & E & ->).
  destruct (nextItem_late (S f) _ _ _ Hl Hs E) as (Hl1 & Hs1 & Ht).
  destruct (itemType_eqb (typ it) itemComment).
  - apply (IH _ H). split; assumption.
  - destruct (itemType_eqb (typ it) itemError); [discriminate H|].
    bind_inv H as (u & p2 & Hm & H). apply modify_Ok in Hm as ->.
    apply ret_Ok in H as [-> ->]. split; [split; assumption | exact Ht].
Qed.

(** A step of the parser that keeps the lexer late and the version as it
    is. *)
Definition keepsVersion {A} (c : Parser.P A) (Q : A -> Prop) : Prop :=
  forall p a p', lateParser p -> c p = Ok (a, p') ->
                 lateParser p' /\ Version (cif p') = Version (cif p) /\ Q a.

Definition notVersion (t : item) : Prop := typ t <> itemVersion.

Lemma keepsVersion_next (fuel : nat) : keepsVersion (Parser.next fuel) notVersion.
Proof.
  intros p t p' Hl H. destruct (next_late _ _ _ _ H Hl) as [Hl' Ht].
  split; [exact Hl'|]. split; [rewrite (next_cif _ _ _ _ H); reflexivity | exact Ht].
Qed.

Lemma keepsVersion_bind {A B} (c : Parser.P A) (k : A -> Parser.P B)
    (Q1 : A -> Prop) (Q : B -> Prop) :
  keepsVersion c Q1 -> (forall a, Q1 a -> keepsVersion (k a) Q) ->
  keepsVersion (bind c k) Q.
Proof.
  intros Hc Hk p b p' Hl H. bind_inv H as (a & p1 & Ha & H).
  destruct (Hc _ _ _ Hl Ha) as (Hl1 & Hv1 & HQ1).
  destruct (Hk a HQ1 _ _ _ Hl1 H) as (Hl2 & Hv2 & HQ).
  split; [exact Hl2|]. split; [congruence | exact HQ].
Qed.

(** A step that leaves the parser as it is. *)
Lemma keepsVersion_pure {A} (c : Parser.P A) :
  (forall p a p', c p = Ok (a, p') -> p' = p) -> keepsVersion c anything.
Proof.
  intros Hc p a p' Hl H. rewrite (Hc _ _ _ H). split; [exact Hl|]. split; [reflexivity | exact I].
Qed.

(** A change of the document inside [p.CIF] that keeps its version. *)
Lemma keepsVersion_modify (f : CIF -> CIF) :
  (forall c, Version (f c) = Version c) ->
  keepsVersion (modify (fun p => Parser.set_cif (f (cif p)) p)) anything.
Proof.
  intros Hf p a p' Hl H. apply modify_Ok in H as ->.
  split; [exact Hl|]. split; [apply Hf | exact I].
Qed.

Lemma keepsVersion_weaken {A} (c : Parser.P A) (Q1 Q : A -> Prop) :
  keepsVersion c Q1 -> (forall a, Q1 a -> Q a) -> keepsVersion c Q.
Proof.
  intros Hc HQ p a p' Hl H. destruct (Hc _ _ _ Hl H) as (H1 & H2 & H3). auto.
Qed.

Lemma keepsVersion_assertUniqueTag (b : blockRef) (name : string) :
  keepsVersion (Parser.assertUniqueTag b name) anything.
Proof.
  apply keepsVersion_pure. intros p a p' H. apply assertUniqueTag_Ok in H as [-> _]. reflexivity.
Qed.

Lemma keepsVersion_parseItemValue (fuel : nat) (b : blockRef) (name : string) :
  keepsVersion (Parser.parseItemValue fuel b name) anything.
Proof.
  unfold Parser.parseItemValue.
  eapply keepsVersion_bind; [apply keepsVersion_assertUniqueTag|]. intros _ _.
  eapply keepsVersion_bind; [apply keepsVersion_next|]. intros t _.
  eapply keepsVersion_bind.
  { apply keepsVersion_pure. intros p a p' H. apply gets_Ok in H as [_ ->]. reflexivity. }
  intros bname _.
  eapply keepsVersion_bind.
  { apply keepsVersion_pure. intros p a p' H. apply parseValue_Ok in H. exact H. }
  intros v _.
  apply (keepsVersion_modify (alterBlock (setItem name v) b)). reflexivity.
Qed.

Lemma keepsVersion_parseLoopTags (fuel : nat) (b : blockRef) (t : item) (i : Z)
    (vals : list loopValues) :
  notVersion t ->
  keepsVersion (Parser.parseLoopTags fuel b t i vals) (fun r => notVersion (fst r)).
Proof.
  revert t i vals. induction fuel as [|f IH]; intros t i vals Ht; simpl.
  - destruct (itemType_eqb (typ t) itemDataTag).
    + intros p a p' _ H. discriminate H.
    + intros p a p' Hl H. apply ret_Ok in H as [-> ->]. auto.
  - destruct (itemType_eqb (typ t) itemDataTag).
    + eapply keepsVersion_bind; [apply keepsVersion_assertUniqueTag|]. intros _ _.
      eapply keepsVersion_bind; [apply keepsVersion_next|]. intros t1 Ht1. apply IH. exact Ht1.
    + intros p a p' Hl H. apply ret_Ok in H as [-> ->]. auto.
Qed.

Lemma addValue_Ok (t : item) (i : nat) (vals vals' : list loopValues) (p p' : parser) :
  Parser.addValue t i vals p = Ok (vals', p') -> p' = p.
Proof.
  unfold Parser.addValue. intros H. destruct (length vals); [discriminate H|].
  destruct (vals !! _); [|discriminate H]. apply ret_Ok in H as [_ ->]. reflexivity.
Qed.

Lemma keepsVersion_parseLoopValues (fuel : nat) (t : item) (i count : nat)
    (vals : list loopValues) :
  notVersion t ->
  keepsVersion (Parser.parseLoopValues fuel t i count vals)
               (fun r => notVersion (fst (fst r))).
Proof.
  revert t i count vals. induction fuel as [|f IH]; intros t i count vals Ht; simpl.
  - destruct (isValueType (typ t)).
    + intros p a p' _ H. discriminate H.
    + intros p a p' Hl H. apply ret_Ok in H as [-> ->]. auto.
  - destruct (isValueType (typ t)).
    + eapply keepsVersion_bind.
      { apply keepsVersion_pure. intros p a p' H. exact (addValue_Ok _ _ _ _ _ _ H). }
      intros vals1 _.
      eapply keepsVersion_bind; [apply keepsVersion_next|]. intros t1 Ht1. apply IH. exact Ht1.
    + intros p a p' Hl H. apply ret_Ok in H as [-> ->]. auto.
Qed.

(** A check that raises an error when [b] holds. *)
Lemma guard_Ok (b : bool) (c : Parser.P unit) (p p' : parser) (u : unit) :
  (if b then c else ret tt) p = Ok (u, p') ->
  (forall r, c p = Ok r -> False) -> p' = p /\ b = false.
Proof.
  destruct b; intros H Hc.
  - exfalso. exact (Hc _ H).
  - apply ret_Ok in H as [_ ->]. split; reflexivity.
Qed.

Lemma errf_Ok {A} (msg : string) (p : parser) (r : A * parser) :
  Parser.errf msg p = Ok r -> False.
Proof. intros H. discriminate H. Qed.

Lemma keepsVersion_parseLoop (fuel : nat) (b : blockRef) :
  keepsVersion (Parser.parseLoop fuel b) notVersion.
Proof.
  intros p t' p' Hl H.
  destruct (parseLoop_Ok _ _ _ _ _ H)
    as (t0 & p0 & t1 & vals & p1 & count & vals2 & p2 & lp & H1 & H2 & H3 & _ & Hc & _).
  (* the lexer after the call is the lexer after the values loop *)
  assert (Hlx : lx p' = lx p2).
  { unfold Parser.parseLoop in H.
    rewrite (bind_step _ _ p p (p_line p)) in H by reflexivity.
    rewrite (bind_step _ _ _ _ _ H1) in H.
    bind_inv H as (u1 & q1 & Hq1 & H).
    apply guard_Ok in Hq1 as [-> _]; [|intros r; apply typeName_errf].
    rewrite (bind_step _ _ _ _ _ H2) in H.
    bind_inv H as (u2 & q2 & Hq2 & H).
    apply guard_Ok in Hq2 as [-> _]; [|intros r; apply typeName_errf].
    rewrite (bind_step _ _ _ _ _ H3) in H.
    destruct (length vals2); [discriminate H|].
    bind_inv H as (u3 & q3 & Hq3 & H).
    apply guard_Ok in Hq3 as [-> _]; [|intros r; apply errf_Ok].
    bind_inv H as (l & q4 & Hq4 & H). apply ret_Ok in H as [_ ->].
    unfold Parser.convertLoopValues in Hq4.
    bind_inv Hq4 as (bn & r1 & Hg & Hq4). apply gets_Ok in Hg as [_ ->].
    bind_inv Hq4 as (cols & r2 & Hcc & Hq4). apply convertColumns_Ok in Hcc as [-> _].
    bind_inv Hq4 as (l1 & r3 & Ha & Hq4). simpl in Ha. injection Ha as _ <-.
    bind_inv Hq4 as (u & r4 & Hm & Hq4). apply modify_Ok in Hm as ->.
    apply ret_Ok in Hq4 as [_ ->]. reflexivity. }
  destruct (keepsVersion_next _ _ _ _ Hl H1) as (Hl0 & Hv0 & Ht0).
  destruct (keepsVersion_parseLoopTags _ _ _ _ _ Ht0 _ _ _ Hl0 H2) as (Hl1 & Hv1 & Ht1).
  destruct (keepsVersion_parseLoopValues _ _ _ _ _ Ht1 _ _ _ Hl1 H3) as (Hl2 & Hv2 & Ht2).
  split; [unfold lateParser; rewrite Hlx; exact Hl2|].
  split; [rewrite Hc; reflexivity | exact Ht2].
Qed.

Lemma keepsVersion_parseSaveFrameLoop (fuel : nat) (frame : blockRef) (t : item) :
  keepsVersion (Parser.parseSaveFrameLoop fuel frame t) anything.
Proof.
  revert t. induction fuel as [|f IH]; intros t; simpl.
  - intros p a p' _ H. discriminate H.
  - destruct (typ t);
      try (intros p a p' _ H; exfalso; exact (typeName_errf _ _ _ _ H)).
    + apply keepsVersion_pure. intros p a p' H. apply ret_Ok in H as [_ ->]. reflexivity.
    + eapply keepsVersion_bind; [apply keepsVersion_parseLoop|]. intros t1 _. apply IH.
    + eapply keepsVersion_bind; [apply keepsVersion_parseItemValue|]. intros _ _.
      eapply keepsVersion_bind; [apply keepsVersion_next|]. intros t1 _. apply IH.
Qed.

Lemma keepsVersion_parseSaveFrame (fuel : nat) (dblock name : string) :
  keepsVersion (Parser.parseSaveFrame fuel dblock name) anything.
Proof.
  unfold Parser.parseSaveFrame.
  eapply keepsVersion_bind.
  { apply keepsVersion_pure. intros p a p' H. apply gets_Ok in H as [_ ->]. reflexivity. }
  intros db _.
  eapply keepsVersion_bind.
  { apply keepsVersion_pure. intros p a p' H.
    apply guard_Ok in H as [-> _]; [reflexivity | intros r; apply errf_Ok]. }
  intros _ _.
  eapply keepsVersion_bind.
  { apply (keepsVersion_modify
             (fun c => set_Blocks (alter (Parser.insertFrame name (mkSaveFrame (emptyBlock name)))
                                         dblock (Blocks c)) c)).
    reflexivity. }
  intros _ _.
  eapply keepsVersion_bind; [apply keepsVersion_next|]. intros t _.
  apply keepsVersion_parseSaveFrameLoop.
Qed.

Lemma keepsVersion_parseDataBlockLoop (fuel : nat) (dblock : string) (t : item) :
  notVersion t ->
  keepsVersion (Parser.parseDataBlockLoop fuel dblock t) notVersion.
Proof.
  revert t. induction fuel as [|f IH]; intros t Ht; simpl.
  - intros p a p' _ H. discriminate H.
  - destruct (typ t) eqn:Et;
      try (intros p a p' _ H; exfalso; exact (unexpectedInBlock_Ok _ _ _ H));
      try (intros p a p' Hl H; apply ret_Ok in H as [-> ->]; auto).
    + eapply keepsVersion_bind; [apply keepsVersion_parseSaveFrame|]. intros _ _.
      eapply keepsVersion_bind; [apply keepsVersion_next|]. intros t1 Ht1. apply IH. exact Ht1.
    + eapply keepsVersion_bind; [apply keepsVersion_parseLoop|]. intros t1 Ht1.
      apply IH. exact Ht1.
    + eapply keepsVersion_bind; [apply keepsVersion_parseItemValue|]. intros _ _.
      eapply keepsVersion_bind; [apply keepsVersion_next|]. intros t1 Ht1. apply IH. exact Ht1.
Qed.

Lemma keepsVersion_parseDataBlock (fuel : nat) (name : string) :
  keepsVersion (Parser.parseDataBlock fuel name) notVersion.
Proof.
  unfold Parser.parseDataBlock.
  eapply keepsVersion_bind.
  { apply keepsVersion_pure. intros p a p' H. apply gets_Ok in H as [_ ->]. reflexivity. }
  intros blocks _.
  eapply keepsVersion_bind.
  { apply keepsVersion_pure. intros p a p' H.
    apply guard_Ok in H as [-> _]; [reflexivity | intros r; apply errf_Ok]. }
  intros _ _.
  eapply keepsVersion_bind.
  { apply (keepsVersion_modify
             (fun c => set_Blocks (<[name := newDataBlock name]> (Blocks c)) c)).
    reflexivity. }
  intros _ _.
  eapply keepsVersion_bind; [apply keepsVersion_next|]. intros t Ht.
  apply keepsVersion_parseDataBlockLoop. exact Ht.
Qed.

(** Past the first token, the top-level loop returns the document with
    the version it had. *)
Lemma parseLoopTop_Version (fuel : nat) (t : item) (p p' : parser) (c : CIF) :
  Parser.parseLoopTop fuel t p = Ok (c, p') ->
  lateParser p -> notVersion t -> Version c = Version (cif p).
Proof.
  revert t p. induction fuel as [|f IH]; intros t p H Hl Ht; simpl in H; [discriminate H|].
  destruct (typ t) eqn:Et;
    try (exfalso; exact (unexpectedInBlock_Ok _ _ _ H)).
  - apply gets_Ok in H as [-> _]. reflexivity.
  - exfalso. apply Ht. exact Et.
  - bind_inv H as (t1 & p1 & Hd & H).
    destruct (keepsVersion_parseDataBlock _ _ _ _ _ Hl Hd) as (Hl1 & Hv1 & Ht1).
    rewrite (IH _ _ H Hl1 Ht1). exact Hv1.
Qed.

(** ** The version line *)

(** The only version line that the lexer recognises. *)
Definition versionLine : string := "#\#CIF_1.1".

Lemma prefix_app (p s : string) : String.prefix p s = true -> exists rest, s = p +:+ rest.
Proof.
  revert s. induction p as [|a p IH]; intros s H.
  - exists s. reflexivity.
  - destruct s as [|b s]; simpl in H; [discriminate H|].
    destruct (ascii_dec a b) as [->|]; [|discriminate H].
    destruct (IH _ H) as [rest ->]. exists rest. reflexivity.
Qed.

Lemma prefix_get (p s : string) :
  (forall i, (i < String.length p)%nat -> String.get i s = String.get i p) ->
  String.prefix p s = true.
Proof.
  revert s. induction p as [|a p IH]; intros s H; [destruct s; reflexivity|].
  destruct s as [|b s].
  - specialize (H 0%nat). simpl in H. discriminate H. lia.
  - pose proof (H 0%nat) as H0. simpl in H0. injection H0 as ->; [|lia].
    simpl. destruct (ascii_dec a a); [|contradiction].
    apply IH. intros i Hi. apply (H (S i)). simpl. lia.
Qed.

(** What [next] reads. *)
Lemma next_get (l l' : lexer) (r : rune) :
  next l = Ok (r, l') ->
  input l' = input l /\ stack l' = stack l /\ emitted l' = emitted l /\
  ((String.get (pos l) (input l) = Some r /\ pos l' = S (pos l)) \/
   (String.get (pos l) (input l) = None /\ r = eof /\ pos l' = pos l)).
Proof.
  unfold next. destruct (String.get (pos l) (input l)) as [c|]; intros H; injection H as <- <-.
  - destruct (req c newline); simpl;
      (split; [reflexivity|]; split; [reflexivity|]; split; [reflexivity|];
       left; split; [reflexivity | lia]).
  - simpl. split; [reflexivity|]. split; [reflexivity|]. split; [reflexivity|].
    right. split; [reflexivity|]. split; reflexivity.
Qed.

Lemma req_true (a b : rune) : req a b = true -> a = b.
Proof. apply Ascii.eqb_eq. Qed.

(** [lexVersion] either falls into a comment, which leaves the lexer
    late, or has read its letters from the input. *)
Lemma lexVersionLetters_spec (letters : list rune) (l l' : lexer) (nx : option stateFn) :
  Forall (fun c => c <> eof) letters ->
  lexVersionLetters letters l = Ok (nx, l') ->
  lateLexer l ->
  (lateLexer l' /\ lateState nx) \/
  (forall i c, letters !! i = Some c -> String.get (pos l + i) (input l) = Some c).
Proof.
  revert l. induction letters as [|letter rest IH]; intros l Hne H Hl.
  - right. intros i c Hi. discriminate Hi.
  - simpl in H. bind_inv H as (r & l1 & Hn & H).
    apply Forall_cons in Hne as [Hletter Hne].
    destruct (keepsLate_next _ _ _ Hl Hn) as [Hl1 _].
    destruct (req r letter) eqn:Er; simpl in H.
    + apply req_true in Er as ->.
      destruct (next_get _ _ _ Hn) as (Hin & _ & _ & [[Hg Hp]|[_ [He _]]]);
        [|contradiction].
      destruct (IH _ Hne H Hl1) as [Hlate|Hget]; [left; exact Hlate|].
      right. intros [|i] c Hi; simpl in Hi.
      * injection Hi as <-. rewrite Nat.add_0_r. exact Hg.
      * rewrite Hin, Hp in Hget. rewrite <- Nat.add_succ_comm. apply Hget. exact Hi.
    + left. bind_inv H as (u & l2 & Hp & H). apply ret_Ok in H as [-> ->].
      destruct (keepsLate_push (Some St.lexCif) I _ _ _ Hl1 Hp) as [Hl2 _].
      split; [exact Hl2 | exact I].
Qed.

(** Without the version line at its start, the input never yields the
    version token. *)
Lemma nextItem_first (fuel : nat) (inp : string) (it : item) (l' : lexer) :
  String.prefix versionLine inp = false ->
  nextItem fuel (lex inp) = Ok (it, l') ->
  lateLexer l' /\ lateState (state l') /\ typ it <> itemVersion.
Proof.
  intros Hpre H.
  assert (Hl0 : lateLexer (lex inp)) by (split; [constructor | exact I]).
  destruct fuel as [|f]; [discriminate H|].
  simpl in H. bind_inv H as (u & l1 & Hr & H). unfold runState in Hr.
  bind_inv Hr as (nx & l2 & Hc & Hr). apply modify_Ok in Hr as ->.
  simpl in Hc. unfold lexCifInitial in Hc.
  bind_inv Hc as (r & l3 & Hn & Hc).
  destruct (keepsLate_next _ _ _ Hl0 Hn) as [Hl3 _].
  destruct (req r commentStart) eqn:Er.
  - apply req_true in Er as ->. apply ret_Ok in Hc as [-> ->].
    destruct (next_get _ _ _ Hn) as (Hin & Hst & Hem & [[Hg Hp]|[_ [He _]]]);
      [|discriminate He].
    (* the second step runs [lexVersion] *)
    destruct f as [|f].
    { simpl in H. rewrite Hem in H. simpl in H. discriminate H. }
    simpl in H. rewrite Hem in H. simpl in H.
    bind_inv H as (u2 & l4 & Hr & H). unfold runState in Hr.
    bind_inv Hr as (nx & l5 & Hc & Hr). apply modify_Ok in Hr as ->.
    simpl in Hc. unfold lexVersion in Hc.
    assert (Hletters : Forall (fun c => c <> eof) versionLetters).
    { unfold versionLetters. repeat (constructor; [discriminate|]). constructor. }
    destruct (lexVersionLetters_spec _ _ _ _ Hletters Hc Hl3) as [[Hl5 Hnx]|Hget].
    + exact (nextItem_late f (set_state nx l5) _ _ Hl5 Hnx H).
    + exfalso. simpl in Hget. rewrite Hin, Hp in Hget. simpl in Hg.
      assert (Hfull : String.prefix versionLine inp = true).
      { apply prefix_get. intros [|i] Hi; [exact Hg|].
        simpl in Hi, Hget.
        do 9 (destruct i as [|i]; [cbn; apply Hget; reflexivity|]). lia. }
      rewrite Hfull in Hpre. discriminate Hpre.
  - bind_inv Hc as (u2 & l4 & Hb & Hc). apply ret_Ok in Hc as [-> ->].
    destruct (keepsLate_backup _ _ _ Hl3 Hb) as [Hl4 _].
    exact (nextItem_late f (set_state (Some St.lexCif) l4) _ _ Hl4 I H).
Qed.

(** With the version line at its start, the first token is the version
    token, and the lexer is late after it. *)
Definition versionItem : item := mkItem itemVersion versionLine 1.

Definition afterVersion (rest : string) : lexer :=
  {| input := versionLine +:+ rest; start := 10; pos := 10; width := 1; lx_line := 1;
     state := Some St.lexCif; emitted := None; stack := []; pred := predNonBlankChar |}.

Lemma nextItem_version (f : nat) (rest : string) :
  nextItem (S (S f)) (lex (versionLine +:+ rest)) = Ok (versionItem, afterVersion rest).
Proof. destruct f, rest; vm_compute; reflexivity. Qed.

Lemma nextItem_version_short (rest : string) (r : item * lexer) :
  nextItem 1 (lex (versionLine +:+ rest)) = Ok r -> False.
Proof. intros H. destruct rest; vm_compute in H; discriminate H. Qed.

Lemma parseLoopTop_version_step (f : nat) (t : item) (p : parser) :
  typ t = itemVersion ->
  Parser.parseLoopTop (S f) t p =
  bind (sliceFrom (val t) 3) (fun v =>
    bind (modify (fun p => Parser.set_cif (set_Version v (cif p)) p)) (fun _ =>
      bind (Parser.next f) (fun t' => Parser.parseLoopTop f t'))) p.
Proof. intros Ht. simpl. rewrite Ht. reflexivity. Qed.

(** One unfolding of the parser's [next]. *)
Lemma next_unfold (f : nat) (p : parser) :
  Parser.next (S f) p =
  bind (Parser.onLexer (nextItem (S f)))
       (fun t => if itemType_eqb (typ t) itemComment then Parser.next f
                 else if itemType_eqb (typ t) itemError then Parser.errf (val t)
                 else bind (modify (Parser.set_p_line (line t))) (fun _ => ret t)) p.
Proof. reflexivity. Qed.

Lemma onLexer_step {A} (c : L A) (p : parser) (l l' : lexer) (a : A) :
  lx p = l -> c l = Ok (a, l') -> Parser.onLexer c p = Ok (a, Parser.set_lx l' p).
Proof. intros <- H. unfold Parser.onLexer. rewrite H. reflexivity. Qed.

Lemma next_version (f : nat) (rest : string) (p : parser) :
  lx p = lex (versionLine +:+ rest) ->
  Parser.next (S (S f)) p =
  Ok (versionItem, Parser.set_p_line 1 (Parser.set_lx (afterVersion rest) p)).
Proof.
  intros Hl. rewrite next_unfold.
  rewrite (bind_step _ _ _ _ _ (onLexer_step _ _ _ _ _ Hl (nextItem_version f rest))).
  reflexivity.
Qed.

Lemma next_version_short (rest : string) (p : parser) (r : item * parser) :
  lx p = lex (versionLine +:+ rest) -> Parser.next 1 p = Ok r -> False.
Proof.
  intros Hl H. rewrite next_unfold in H. bind_inv H as (it & q & Ho & H).
  apply onLexer_Ok in Ho as (l1 & Ho & _). rewrite Hl in Ho.
  exact (nextItem_version_short rest _ Ho).
Qed.

(** [Read] on an input that starts with the version line. *)
Lemma Read_version_line (fuel : nat) (rest : string) (c : CIF) (e : option string) :
  Read fuel (versionLine +:+ rest) = Some (Some c, e) -> Version c = "CIF_1.1".
Proof.
  unfold Read, Parser.parse.
  destruct (Parser.parseBody fuel _ _) as [[c' p']|[]|] eqn:E; intros H; try discriminate H.
  injection H as <- _.
  unfold Parser.parseBody in E.
  bind_inv E as (u & p1 & Hm & E). apply modify_Ok in Hm as ->.
  bind_inv E as (t & p2 & Hn & E).
  match type of Hn with
  | Parser.next _ ?q = _ =>
      assert (Hl0 : lx q = lex (versionLine +:+ rest)) by reflexivity;
      generalize dependent q
  end.
  intros p0 Hn Hl0.
  destruct fuel as [|[|f]]; [discriminate Hn | |].
  - exfalso. exact (next_version_short _ _ _ Hl0 Hn).
  - (* the first token is the version line: it is stored, and kept from then on *)
    rewrite (next_version _ _ _ Hl0) in Hn. injection Hn as <- <-.
    rewrite parseLoopTop_version_step in E by reflexivity.
    bind_inv E as (v & q2 & Hs & E).
    assert (v = "CIF_1.1" /\ q2 = Parser.set_p_line 1 (Parser.set_lx (afterVersion rest) p0))
      as [-> ->].
    { unfold sliceFrom in Hs. change (val versionItem) with versionLine in Hs.
      change (3 <=? String.length versionLine)%nat with true in Hs. cbv iota in Hs.
      apply ret_Ok in Hs as [-> ->]. split; reflexivity. }
    bind_inv E as (u2 & q3 & Hm & E). apply modify_Ok in Hm as ->.
    bind_inv E as (t1 & q4 & Hn & E).
    match type of Hn with
    | Parser.next _ ?q = _ =>
        assert (Hlate : lateParser q) by (split; [split; [constructor | exact I] | exact I])
    end.
    destruct (keepsVersion_next _ _ _ _ Hlate Hn) as (H1 & H2 & H3).
    rewrite (parseLoopTop_Version _ _ _ _ _ E H1 H3). rewrite H2. reflexivity.
Qed.

(** [Read] on an input that does not start with the version line. *)
Lemma Read_no_version_line (fuel : nat) (inp : string) (c : CIF) (e : option string) :
  String.prefix versionLine inp = false ->
  Read fuel inp = Some (Some c, e) -> Version c = "".
Proof.
  intros Hpre. unfold Read, Parser.parse.
  destruct (Parser.parseBody fuel _ _) as [[c' p']|[]|] eqn:E; intros H; try discriminate H.
  injection H as <- _.
  unfold Parser.parseBody in E.
  bind_inv E as (u & p1 & Hm & E). apply modify_Ok in Hm as ->.
  bind_inv E as (t & p2 & Hn & E).
  assert (Hfirst : lateParser p2 /\ Version (cif p2) = "" /\ notVersion t).
  { clear E.
    match type of Hn with
    | Parser.next _ ?q = _ =>
        assert (Hp0 : lx q = lex inp) by reflexivity;
        assert (Hc0 : Version (cif q) = "") by reflexivity;
        generalize dependent q
    end.
    intros p0 Hn Hp0 Hc0.
    destruct fuel as [|f]; [discriminate Hn|].
    rewrite next_unfold in Hn. bind_inv Hn as (it & q & Ho & Hn).
    apply onLexer_Ok in Ho as (l1 & Ho & ->).
    rewrite Hp0 in Ho.
    destruct (nextItem_first (S f) _ _ _ Hpre Ho) as (Hl1 & Hs1 & Hit).
    assert (Hlq : lateParser (Parser.set_lx l1 p0)) by (split; assumption).
    destruct (itemType_eqb (typ it) itemComment).
    - destruct (keepsVersion_next _ _ _ _ Hlq Hn) as (H1 & H2 & H3).
      split; [exact H1|]. split; [rewrite H2; exact Hc0 | exact H3].
    - destruct (itemType_eqb (typ it) itemError); [discriminate Hn|].
      bind_inv Hn as (u1 & q1 & Hm & Hn). apply modify_Ok in Hm as ->.
      apply ret_Ok in Hn as [-> ->].
      split; [exact Hlq|]. split; [exact Hc0 | exact Hit]. }
  destruct Hfirst as (Hl & Hv & Ht).
  rewrite (parseLoopTop_Version _ _ _ _ _ E Hl Ht). exact Hv.
Qed.

(** ** Version handling *)

(** A document that starts with a version line other than 1.1. *)
Definition version2Input : string := "#\#CIF_2.0" +:+ nl +:+ "data_a" +:+ nl.

Definition version2Doc : CIF :=
  {| Version := ""; Blocks := {[ "a" := newDataBlock "a" ]}; heap := [] |}.

(** C9, as stated, fails: the suffix of a version line is not stored for
    any version string.  [lexVersion] compares the first bytes with the
    letters of [#\#CIF_1.1] only, and a line [#\#CIF_2.0] is lexed as a
    comment: the document is read, and its [Version] stays empty. *)
Lemma C9_counterexample :
  ~ (forall (fuel : nat) (v rest : string) (c : CIF),
       Read fuel ("#\#" +:+ v +:+ nl +:+ rest) = Some (Some c, None) ->
       Version c = v).
Proof.
  intros H.
  specialize (H 100%nat "CIF_2.0" ("data_a" +:+ nl) version2Doc).
  assert (E : Read 100 ("#\#" +:+ "CIF_2.0" +:+ nl +:+ ("data_a" +:+ nl))
              = Some (Some version2Doc, None)) by (vm_compute; reflexivity).
  specialize (H E). discriminate H.
Qed.

(** C9, amended. Version handling: whenever [Read] returns a document,
    its [Version] is ["CIF_1.1"] if the input starts with the ten bytes
    [#\#CIF_1.1], which are stored without their 3-byte prefix, and is
    empty otherwise; the line is optional, and it is recognised at the
    very start of the input only. *)
Theorem C9_version_line (fuel : nat) (inp : string) (c : CIF) (e : option string) :
  Read fuel inp = Some (Some c, e) ->
  Version c = if String.prefix versionLine inp then "CIF_1.1" else "".
Proof.
  intros H. destruct (String.prefix versionLine inp) eqn:Hp.
  - destruct (prefix_app _ _ Hp) as [rest ->].
    exact (Read_version_line _ _ _ _ H).
  - exact (Read_no_version_line _ _ _ _ Hp H).
Qed.

(** A document with a version line and one data block. *)
Definition version1Input : string := versionLine +:+ nl +:+ "data_a" +:+ nl.

Definition version1Doc : CIF :=
  {| Version := "CIF_1.1"; Blocks := {[ "a" := newDataBlock "a" ]}; heap := [] |}.

Lemma C9_witness :
  Read 100 version1Input = Some (Some version1Doc, None) /\
  Version version1Doc = "CIF_1.1".
Proof.
  assert (E : Read 100 version1Input = Some (Some version1Doc, None))
    by (vm_compute; reflexivity).
  split; [exact E|].
  exact (C9_version_line 100 version1Input version1Doc None E).
Defined.

(** ** What the writer returns *)

(** A result that is not a panic with a [cifError]: the only panic the
    deferred function of [write] turns into an error. *)
Definition quiet {A : Type} (r : Res A) : Prop :=
  match r with
  | Panic (cifError _) => False
  | _ => True
  end.

Definition wquiet {S A : Type} (c : @Writer.W S A) : Prop :=
  forall st, quiet (snd (c st)).

Section WriterPanics.
Context {S : Type} (sinkWrite : string -> S -> S * option string).

Lemma wquiet_ret {A} (a : A) : wquiet (@Writer.wret S A a).
Proof. intros st. exact I. Qed.

Lemma wquiet_bind {A B} (c : @Writer.W S A) (k : A -> @Writer.W S B) :
  wquiet c -> (forall a, wquiet (k a)) -> wquiet (Writer.wbind c k).
Proof.
  intros Hc Hk st. unfold Writer.wbind. specialize (Hc st).
  destruct (c st) as [st' [a|e|]]; simpl in *.
  - apply Hk.
  - exact Hc.
  - exact I.
Qed.

Lemma wquiet_ofRes {A} (r : Res A) : quiet r -> wquiet (@Writer.ofRes S A r).
Proof. intros H st. exact H. Qed.

Lemma wquiet_errf {A} (msg : string) : wquiet (@Writer.errf S A msg).
Proof. intros st. exact I. Qed.

Lemma wquiet_goPanic {A} (msg : string) : wquiet (@Writer.wraise S A (goPanic msg)).
Proof. intros st. exact I. Qed.

Lemma wquiet_pf (s : string) : wquiet (Writer.pf sinkWrite s).
Proof.
  intros st. unfold Writer.pf. destruct (sinkWrite s st) as [st' [err|]]; exact I.
Qed.

Lemma wquiet_forEach {A} (l : list A) (body : A -> @Writer.W S unit) :
  (forall a, wquiet (body a)) -> wquiet (Writer.forEach l body).
Proof.
  intros Hb. induction l as [|a l IH]; simpl.
  - apply wquiet_ret.
  - apply wquiet_bind; [apply Hb | intros _; exact IH].
Qed.

Lemma quiet_scanStr (s : string) (which : quoting) (d q : bool) :
  quiet (scanStr s which d q).
Proof.
  revert which d q.
  induction s as [|r s IH]; intros which d q; cbn [scanStr]; [exact I|].
  repeat match goal with
         | |- quiet (scanStr _ _ _ _) => apply IH
         | |- quiet (Ok _) => exact I
         | |- quiet (Panic _) => exact I
         | |- quiet (if ?b then _ else _) => destruct b
         end.
Qed.

Lemma quiet_formatStr (s : string) : quiet (formatStr s).
Proof.
  unfold formatStr.
  destruct (MatchString matchNumeric1 s || MatchString matchNumeric2 s); [exact I|].
  pose proof (quiet_scanStr s unquoted false false) as H.
  destruct (scanStr s unquoted false false) as [[]|e|]; try exact I. exact H.
Qed.

Lemma quiet_formatStrs (l : list string) : quiet (Writer.formatStrs l).
Proof.
  induction l as [|s l IH]; simpl; [exact I|].
  pose proof (quiet_formatStr s) as H.
  destruct (formatStr s) as [s'|e|]; [|exact H|exact I].
  destruct (Writer.formatStrs l) as [l'|e|]; [exact I|exact IH|exact I].
Qed.

Lemma quiet_columnStrs (v : ValueLoop) : quiet (Writer.columnStrs v).
Proof. destruct v; simpl; try exact I. apply quiet_formatStrs. Qed.

Lemma quiet_allColumnStrs (vs : list ValueLoop) : quiet (Writer.allColumnStrs vs).
Proof.
  induction vs as [|v vs IH]; simpl; [exact I|].
  pose proof (quiet_columnStrs v) as H.
  destruct (Writer.columnStrs v) as [c|e|]; [|exact H|exact I].
  destruct (Writer.allColumnStrs vs) as [cs|e|]; [exact I|exact IH|exact I].
Qed.

Lemma wquiet_valToStr (v : Value) : wquiet (@Writer.valToStr S v).
Proof.
  destruct v; simpl.
  - apply wquiet_ofRes, quiet_formatStr.
  - apply wquiet_ret.
  - apply wquiet_ret.
  - apply wquiet_errf.
Qed.

Lemma wquiet_writeRow (strs : list (list string)) (row : nat) (before : string) :
  wquiet (Writer.writeRow sinkWrite strs row before).
Proof.
  revert before. induction strs as [|col strs IH]; intros before; simpl.
  - apply wquiet_ret.
  - destruct (col !! row); [|apply wquiet_goPanic].
    apply wquiet_bind; [apply wquiet_pf | intros _; apply IH].
Qed.

Lemma wquiet_writeLoop (lp : Loop) : wquiet (Writer.writeLoop sinkWrite lp).
Proof.
  unfold Writer.writeLoop.
  apply wquiet_bind; [apply wquiet_pf | intros _].
  apply wquiet_bind; [apply wquiet_forEach; intros i; apply wquiet_pf | intros _].
  apply wquiet_bind; [apply wquiet_ofRes, quiet_allColumnStrs | intros strs].
  destruct strs as [|col0 strs]; [apply wquiet_goPanic|].
  apply wquiet_forEach. intros row.
  apply wquiet_bind; [apply wquiet_writeRow | intros _; apply wquiet_pf].
Qed.

Lemma wquiet_writeLoops (h : list Loop) (ls : list (string * loc)) (written : list Loop) :
  wquiet (Writer.writeLoops sinkWrite h ls written).
Proof.
  revert written. induction ls as [|[tag l] ls IH]; intros written; simpl.
  - apply wquiet_ret.
  - destruct (h !! l) as [lp|].
    2: { destruct (existsb _ written); [apply wquiet_goPanic|].
         apply wquiet_bind; [apply wquiet_pf | intros _; apply wquiet_goPanic]. }
    destruct (loopWritten written lp); [apply IH|].
    apply wquiet_bind; [apply wquiet_writeLoop | intros _; apply IH].
Qed.

Lemma wquiet_writeBlock (h : list Loop) (b : Block) :
  wquiet (Writer.writeBlock sinkWrite h b).
Proof.
  unfold Writer.writeBlock.
  apply wquiet_bind; [|intros _; apply wquiet_writeLoops].
  apply wquiet_forEach. intros [tag val].
  apply wquiet_bind; [apply wquiet_valToStr | intros s; apply wquiet_pf].
Qed.

Lemma wquiet_writeDataBlock (h : list Loop) (b : DataBlock) :
  wquiet (Writer.writeDataBlock sinkWrite h b).
Proof.
  unfold Writer.writeDataBlock.
  apply wquiet_bind; [apply wquiet_pf | intros _].
  apply wquiet_bind; [|intros _; apply wquiet_writeBlock].
  apply wquiet_forEach. intros [name frame].
  apply wquiet_bind; [apply wquiet_pf | intros _].
  apply wquiet_bind; [apply wquiet_writeBlock | intros _; apply wquiet_pf].
Qed.

Lemma wquiet_writeBody (c : CIF) : wquiet (Writer.writeBody sinkWrite c).
Proof.
  unfold Writer.writeBody.
  apply wquiet_bind.
  - destruct (0 <? String.length (Version c))%nat; [apply wquiet_pf | apply wquiet_ret].
  - intros _. apply wquiet_forEach. intros [name b]. apply wquiet_writeDataBlock.
Qed.

Lemma write_nil (c : CIF) (st : S) : snd (Writer.write sinkWrite c st) = None.
Proof.
  unfold Writer.write. pose proof (wquiet_writeBody c st) as H.
  destruct (Writer.writeBody sinkWrite c st) as [st' [u|[e|e|e]|]]; simpl in *;
    try reflexivity.
  destruct H.
Qed.

End WriterPanics.

(** ** What the numeric expressions match *)

Fixpoint anyChar (p : rune -> bool) (s : string) : bool :=
  match s with
  | EmptyString => false
  | String r rest => p r || anyChar p rest
  end.

Definition hasDigit (s : string) : bool := anyChar isDigit s.

(** [r] may match a string that has no digit. *)
Fixpoint digitFree (r : regex) : bool :=
  match r with
  | Empty => false
  | Eps => true
  | Chr c => negb (isDigit c)
  | Range lo hi => negb (isDigit lo && isDigit hi)
  | Alt r1 r2 => digitFree r1 || digitFree r2
  | Cat r1 r2 => digitFree r1 && digitFree r2
  | Star _ => true
  end.

Lemma digitFree_nullable (r : regex) : digitFree r = false -> nullable r = false.
Proof.
  induction r as [| | | |r1 IH1 r2 IH2|r1 IH1 r2 IH2|]; cbn [digitFree nullable];
    intros H; try discriminate H; try reflexivity.
  - apply orb_false_iff in H as [H1 H2]. rewrite IH1, IH2 by assumption. reflexivity.
  - apply andb_false_iff in H as [H|H].
    + rewrite IH1 by assumption. reflexivity.
    + rewrite IH2 by assumption. apply andb_false_r.
Qed.

Lemma between_digits (lo hi c : rune) :
  isDigit lo = true -> isDigit hi = true -> between lo hi c = true -> isDigit c = true.
Proof.
  unfold isDigit, between. intros H1 H2 H3.
  apply andb_true_iff in H1 as [H1 _]. apply andb_true_iff in H2 as [_ H2].
  apply andb_true_iff in H3 as [H3 H4].
  apply N.leb_le in H1, H2, H3, H4.
  apply andb_true_iff. split; apply N.leb_le; lia.
Qed.

Lemma digitFree_deriv (c : rune) (r : regex) :
  isDigit c = false -> digitFree r = false -> digitFree (deriv c r) = false.
Proof.
  intros Hc.
  induction r as [| |d|lo hi|r1 IH1 r2 IH2|r1 IH1 r2 IH2|]; cbn [digitFree deriv];
    intros H; try discriminate H; try reflexivity.
  - destruct (req c d) eqn:E; [|reflexivity].
    apply req_true in E. subst d. rewrite Hc in H. discriminate H.
  - destruct (between lo hi c) eqn:E; [|reflexivity].
    apply negb_false_iff, andb_true_iff in H as [H1 H2].
    rewrite (between_digits _ _ _ H1 H2 E) in Hc. discriminate Hc.
  - apply orb_false_iff in H as [H1 H2]. cbn [digitFree].
    rewrite IH1, IH2 by assumption. reflexivity.
  - apply andb_false_iff in H as [H|H].
    + rewrite (digitFree_nullable _ H). cbn [digitFree].
      rewrite IH1 by assumption. reflexivity.
    + destruct (nullable r1); cbn [digitFree]; rewrite ?IH2 by assumption;
        rewrite H, ?andb_false_r; reflexivity.
Qed.

Lemma matchPrefix_eq (r : regex) (s : string) :
  matchPrefix r s =
  nullable r || match s with
                | EmptyString => false
                | String c rest => matchPrefix (deriv c r) rest
                end.
Proof. destruct s; reflexivity. Qed.

Lemma MatchString_eq (r : regex) (s : string) :
  MatchString r s =
  matchPrefix r s || match s with
                     | EmptyString => false
                     | String _ rest => MatchString r rest
                     end.
Proof. destruct s; reflexivity. Qed.

Lemma matchPrefix_digitFree (s : string) (r : regex) :
  digitFree r = false -> hasDigit s = false -> matchPrefix r s = false.
Proof.
  revert r. induction s as [|c s IH]; intros r Hr Hs; rewrite matchPrefix_eq;
    rewrite (digitFree_nullable _ Hr); [reflexivity|].
  apply orb_false_iff in Hs as [Hc Hs].
  apply IH; [apply digitFree_deriv; assumption | exact Hs].
Qed.

Lemma fullMatch_digitFree (s : string) (r : regex) :
  digitFree r = false -> hasDigit s = false -> fullMatch r s = false.
Proof.
  revert r. induction s as [|c s IH]; intros r Hr Hs; cbn [fullMatch].
  - apply digitFree_nullable, Hr.
  - apply orb_false_iff in Hs as [Hc Hs].
    apply IH; [apply digitFree_deriv; assumption | exact Hs].
Qed.

Lemma MatchString_digitFree (s : string) (r : regex) :
  digitFree r = false -> hasDigit s = false -> MatchString r s = false.
Proof.
  intros Hr. induction s as [|c s IH]; intros Hs; rewrite MatchString_eq;
    rewrite (matchPrefix_digitFree _ _ Hr Hs); [reflexivity|].
  apply orb_false_iff in Hs as [_ Hs]. exact (IH Hs).
Qed.

(** One digit is already a match of the first expression. *)
Lemma nullable_deriv_digit (c : rune) :
  isDigit c = true -> nullable (deriv c matchNumeric1) = true.
Proof.
  destruct c as [[] [] [] [] [] [] [] []]; vm_compute; intros H;
    first [reflexivity | discriminate H].
Qed.

Lemma MatchString_digit (s : string) :
  hasDigit s = true -> MatchString matchNumeric1 s = true.
Proof.
  induction s as [|c s IH]; intros Hs; [discriminate Hs|].
  rewrite MatchString_eq. apply orb_true_iff in Hs as [Hc|Hs].
  - rewrite matchPrefix_eq, (matchPrefix_eq (deriv c matchNumeric1)).
    rewrite (nullable_deriv_digit _ Hc), orb_true_r. reflexivity.
  - rewrite (IH Hs). apply orb_true_r.
Qed.

(** The test of [formatStr]: the expressions are not anchored, so they
    match exactly the strings that have a digit. *)
Lemma looksNumeric_hasDigit (s : string) :
  MatchString matchNumeric1 s || MatchString matchNumeric2 s = hasDigit s.
Proof.
  destruct (hasDigit s) eqn:Hs.
  - rewrite (MatchString_digit _ Hs). reflexivity.
  - rewrite !MatchString_digitFree by (reflexivity || assumption). reflexivity.
Qed.

(** ** The quoting that [formatStr] chooses *)

Definition hasNL (s : string) : bool := anyChar isNL s.
Definition hasDouble (s : string) : bool := anyChar (fun r => req r dquote) s.
Definition hasSingle (s : string) : bool := anyChar (fun r => req r squote) s.
Definition hasOther (s : string) : bool := anyChar (fun r => negb (isOrdinaryChar r)) s.

(** The value of [which] after the loop of [formatStr]. *)
Definition quotingOf (s : string) : quoting :=
  if hasNL s || (hasDouble s && hasSingle s) then text
  else if hasDouble s then single
  else if hasSingle s then double
  else if hasOther s then double
  else unquoted.

Definition render (q : quoting) (s : string) : string :=
  match q with
  | unquoted => s
  | single => "'" +:+ s +:+ "'"
  | double => str1 dquote +:+ s +:+ str1 dquote
  | text => str1 newline +:+ ";" +:+ s +:+ str1 newline +:+ ";"
  end.

(** The decision of [formatStr]. *)
Definition chosenQuoting (s : string) : quoting :=
  if hasDigit s then double else quotingOf s.

Lemma scanStr_spec (s : string) (which : quoting) (d q : bool) :
  d && q = false ->
  scanStr s which d q =
  Ok (if hasNL s || ((d || hasDouble s) && (q || hasSingle s)) then text
      else if hasDouble s then single
      else if hasSingle s then double
      else if hasOther s then (if d then single else double)
      else which).
Proof.
  revert which d q. induction s as [|r s IH]; intros which d q Hdq.
  - cbn. rewrite !orb_false_r, Hdq. reflexivity.
  - cbn [scanStr].
    unfold hasNL, hasDouble, hasSingle, hasOther in *. cbn [anyChar].
    assert (Hr : (isNL r = true) \/
                 (isNL r = false /\ r = dquote) \/
                 (isNL r = false /\ r = squote) \/
                 (isNL r = false /\ req r dquote = false /\ req r squote = false)).
    { destruct (isNL r); [left; reflexivity | right].
      destruct (req r dquote) eqn:Ed; [left; split; [reflexivity | apply req_true, Ed]|].
      destruct (req r squote) eqn:Es; [right; left; split; [reflexivity | apply req_true, Es]|].
      right; right. repeat split. }
    destruct Hr as [Hnl|[[Hnl ->]|[[Hnl ->]|(Hnl & Ed & Es)]]]; rewrite Hnl;
      [reflexivity | | |].
    + change (req dquote dquote) with true. change (req dquote squote) with false.
      change (isOrdinaryChar dquote) with false.
      revert Hdq. destruct d, q; intros Hdq; try discriminate Hdq;
        cbn [andb orb negb]; rewrite ?IH by reflexivity; cbn [andb orb negb];
        generalize (anyChar isNL s) (anyChar (fun r => req r dquote) s)
                   (anyChar (fun r => req r squote) s)
                   (anyChar (fun r => negb (isOrdinaryChar r)) s);
        intros [] [] [] []; reflexivity.
    + change (req squote dquote) with false. change (req squote squote) with true.
      change (isOrdinaryChar squote) with false.
      revert Hdq. destruct d, q; intros Hdq; try discriminate Hdq;
        cbn [andb orb negb]; rewrite ?IH by reflexivity; cbn [andb orb negb];
        generalize (anyChar isNL s) (anyChar (fun r => req r dquote) s)
                   (anyChar (fun r => req r squote) s)
                   (anyChar (fun r => negb (isOrdinaryChar r)) s);
        intros [] [] [] []; reflexivity.
    + rewrite Ed, Es.
      destruct (isOrdinaryChar r) eqn:Eo;
        [rewrite (isPrintChar_of_ordinary _ Eo)|];
        revert Hdq; destruct d, q; intros Hdq; try discriminate Hdq;
        cbn [andb orb negb]; rewrite ?IH by reflexivity; cbn [andb orb negb];
        generalize (anyChar isNL s) (anyChar (fun r => req r dquote) s)
                   (anyChar (fun r => req r squote) s)
                   (anyChar (fun r => negb (isOrdinaryChar r)) s);
        intros [] [] [] []; reflexivity.
Qed.

(** [formatStr] returns for every string, with the quoting of
    [chosenQuoting]: its last [case], for a character that is not
    printable, is never reached, since such a character is not ordinary
    and is taken by the [case] before it. *)
Lemma formatStr_spec (s : string) : formatStr s = Ok (render (chosenQuoting s) s).
Proof.
  unfold formatStr, chosenQuoting. rewrite looksNumeric_hasDigit.
  destruct (hasDigit s); [reflexivity|].
  rewrite scanStr_spec by reflexivity. unfold quotingOf. cbn [orb].
  destruct (hasNL s || hasDouble s && hasSingle s); [reflexivity|].
  destruct (hasDouble s); [reflexivity|].
  destruct (hasSingle s); [reflexivity|].
  destruct (hasOther s); reflexivity.
Qed.

(** The quoting in the words of the specification: double quotes exactly
    when the whole content matches the numeric grammar; otherwise a text
    field for a newline or both quote characters, single quotes for a
    double quote and no single quote, double quotes for a single quote
    and no double quote, no quotes for neither quote character and only
    ordinary characters; nothing is said of the other strings. *)
Definition specQuoting (s : string) : option quoting :=
  if fullMatch matchNumeric1 s || fullMatch matchNumeric2 s then Some double
  else if hasNL s || (hasSingle s && hasDouble s) then Some text
  else if hasDouble s && negb (hasSingle s) then Some single
  else if hasSingle s && negb (hasDouble s) then Some double
  else if negb (hasDouble s) && negb (hasSingle s) && negb (hasOther s) then Some unquoted
  else None.

(** On a string without a digit, the choice of [formatStr] is the one of
    the specification wherever the specification makes one. *)
Lemma chosenQuoting_without_digit (s : string) (q : quoting) :
  hasDigit s = false -> specQuoting s = Some q -> chosenQuoting s = q.
Proof.
  intros Hd. unfold specQuoting, chosenQuoting, quotingOf. rewrite Hd.
  rewrite !fullMatch_digitFree by (reflexivity || assumption). cbn [orb].
  destruct (hasNL s), (hasDouble s), (hasSingle s), (hasOther s); cbn;
    intros H; congruence.
Qed.

Definition a1 : string := "a1".
Definition oneNewlineTwo : string := "1" +:+ nl +:+ "2".

(** C4. Quoting heuristic. [formatStr] returns for every string, and it
    double-quotes every string that has a digit anywhere, since its two
    numeric expressions are not anchored; a string without a digit gets
    the quoting of [quotingOf]. So the string [a1], which does not match
    the numeric grammar and has only ordinary characters, is written in
    double quotes and not unquoted, and the string of the two lines [1]
    and [2] is written in double quotes and not as a text field. *)
Theorem C4_quoting_heuristic :
  (forall s : string,
     formatStr s = Ok (render (if hasDigit s then double else quotingOf s) s)) /\
  (specQuoting a1 = Some unquoted /\
   formatStr a1 = Ok (str1 dquote +:+ a1 +:+ str1 dquote)) /\
  (specQuoting oneNewlineTwo = Some text /\
   formatStr oneNewlineTwo = Ok (str1 dquote +:+ oneNewlineTwo +:+ str1 dquote)).
Proof.
  split; [exact formatStr_spec|].
  split; split; vm_compute; reflexivity.
Qed.

(** ** What [Write] returns *)

(** A document with an item whose value is of a type of the caller's. *)
Definition foreignDoc : CIF :=
  {| Version := "";
     Blocks := {[ "a" := {| dataBlock := {| Name := "a";
                                             Items := {[ "x" := foreignValue "bool" ]};
                                             Loops := ∅ |};
                            Frames := ∅ |} ]};
     heap := [] |}.

(** A sink that fails on every write, as a closed file does. *)
Definition closedSink (s : string) (st : string) : string * option string :=
  (st, Some "write: file already closed").

(** The panic that [valToStr] raises for the item of [foreignDoc]. *)
Definition foreignPanic : panic :=
  writeError "CIF write: CIF does not support value of type 'bool'.".

(** C3. Write failure surfacing. [Write] returns no error, for every
    sink, document and state of the sink: the panics of the writer carry
    a [writeError], and the deferred function of [write] returns a
    recovered panic only when it is a [cifError]. So the write of a
    document with a value of an unsupported type stops after the block
    heading and returns nil, and so does a write to a sink that fails;
    and [formatStr] fails on no character, printable or not. *)
Theorem C3_Write_returns_no_error :
  (forall (S : Type) (sinkWrite : string -> S -> S * option string) (c : CIF) (st : S),
     snd (Write sinkWrite c st) = None) /\
  (forall s : string, exists out, formatStr s = Ok out) /\
  (Writer.writeBody bufferWrite foreignDoc "" = ("data_a" +:+ nl, Panic foreignPanic) /\
   Write bufferWrite foreignDoc "" = ("data_a" +:+ nl, None)) /\
  Write closedSink tableDoc "" = ("", None).
Proof.
  split; [intros S sinkWrite c st; apply write_nil|].
  split; [intros s; eexists; apply formatStr_spec|].
  split; [split|]; vm_compute; reflexivity.
Qed.

(** ** Reading back what was written *)

(** A document whose only item is the empty string, written in quotes. *)
Definition emptyValueInput : string := "data_a" +:+ nl +:+ "_x ''" +:+ nl.

Definition itemDoc (v : Value) : CIF :=
  {| Version := "";
     Blocks := {[ "a" := {| dataBlock := {| Name := "a";
                                             Items := {[ "x" := v ]};
                                             Loops := ∅ |};
                            Frames := ∅ |} ]};
     heap := [] |}.

Definition emptyValueOutput : string := "data_a" +:+ nl +:+ "_x    " +:+ nl.

Definition missingValueError : string :=
  "CIF parse error (line 0): Expected value for data tag 'x' in block 'a', " +:+
  "but got a 'EOF' instead.".

(** A text field of the two lines [1] and [2]. *)
Definition twoLinesInput : string :=
  "data_a" +:+ nl +:+ "_x" +:+ nl +:+ ";1" +:+ nl +:+ "2" +:+ nl +:+ ";" +:+ nl.

Definition twoLinesOutput : string :=
  "data_a" +:+ nl +:+ "_x    " +:+ str1 dquote +:+ oneNewlineTwo +:+ str1 dquote +:+ nl.

(** [Read], then [Write] to a buffer, then [Read] of the buffer. *)
Definition readWriteRead (fuel : nat) (inp : string)
    : option (CIF * string * Parser.result) :=
  match Read fuel inp with
  | Some (Some c, None) =>
      let out := fst (Write bufferWrite c "") in
      match Read fuel out with
      | Some r => Some (c, out, r)
      | None => None
      end
  | _ => None
  end.

(** C1. Round trip. The document of [emptyValueInput] is read with the
    empty string as the value of its item; [Write] writes the empty
    string without quotes, that is as nothing, and the text it has
    written is not read back: [Read] fails on it. The same happens to
    the text field of [twoLinesInput], which is written in double quotes
    over two lines. *)
Theorem C1_round_trip_fails :
  readWriteRead 200 emptyValueInput =
    Some (itemDoc (cifString ""), emptyValueOutput, (None, Some missingValueError)) /\
  readWriteRead 200 twoLinesInput =
    Some (itemDoc (cifString oneNewlineTwo), twoLinesOutput, (None, Some missingValueError)).
Proof. split; vm_compute; reflexivity. Qed.

(** ** The type of a column *)

Definition columnDoc (col : ValueLoop) : CIF :=
  {| Version := "";
     Blocks := {[ "a" := {| dataBlock := {| Name := "a"; Items := ∅;
                                             Loops := {[ "x" := 0%nat ]} |};
                            Frames := ∅ |} ]};
     heap := [ {| Columns := {[ "x" := 0 ]}; Values := [col] |} ] |}.

Definition columnInput (cells : string) : string :=
  "data_a" +:+ nl +:+ "loop_" +:+ nl +:+ "_x" +:+ nl +:+ cells +:+ nl.

(** C2. Per-column type inference. A column whose tokens are [.], [1]
    and [2] is resolved to a column of strings, not of integers: the type
    of the column starts as the type of its first token, and a later
    token of another type that is not null turns a column that started
    as null into a string column. With the null token in the middle the
    column is one of integers, with [0] in its place. *)
Theorem C2_leading_null_makes_strings :
  Read 200 (columnInput ". 1 2") =
    Some (Some (columnDoc (cifStrings ["."; "1"; "2"])), None) /\
  Read 200 (columnInput "1 . 2") =
    Some (Some (columnDoc (cifInts [1; 0; 2])), None) /\
  (forall t : itemType,
     isNull t = false ->
     mergeTyp (mergeTyp itemDataNone itemDataOmitted) t = itemDataString /\
     mergeTyp (mergeTyp itemDataNone itemDataMissing) t = itemDataString) /\
  (forall t : itemType,
     isInteger t || isFloat t = true ->
     mergeTyp (mergeTyp itemDataNone t) itemDataOmitted = t /\
     mergeTyp (mergeTyp itemDataNone t) itemDataMissing = t).
Proof.
  split; [vm_compute; reflexivity|].
  split; [vm_compute; reflexivity|].
  split; intros t; destruct t; intros H; try discriminate H; split; reflexivity.
Qed.

Lemma C2_witness :
  mergeTyp (mergeTyp itemDataNone itemDataOmitted) itemDataInteger = itemDataString /\
  mergeTyp (mergeTyp itemDataNone itemDataInteger) itemDataOmitted = itemDataInteger.
Proof.
  split.
  - exact (proj1 (proj1 (proj2 (proj2 C2_leading_null_makes_strings))
                        itemDataInteger eq_refl)).
  - exact (proj1 (proj2 (proj2 (proj2 C2_leading_null_makes_strings))
                        itemDataInteger eq_refl)).
Defined.

(** ** Reserved words *)

Definition globalInput : string := "data_a" +:+ nl +:+ "global_ " +:+ nl.

Definition blockDoc : CIF :=
  {| Version := ""; Blocks := {[ "a" := newDataBlock "a" ]}; heap := [] |}.

(** The item returned by the second call of [nextItem] on an input, with
    the pending item and the state of the scanner after it. *)
Definition secondItem (inp : string) : option (item * option item * option stateFn) :=
  match (nextItem 200 ;; nextItem 200) (lex inp) with
  | Ok (it, l) => Some (it, emitted l, state l)
  | _ => None
  end.

Definition globalError : item :=
  mkItem itemError "global_ is not supported in the CIF format." 2.

(** The scanner stopped in front of the keyword, in small letters and in
    capitals. *)
Definition keywordLexer : lexer := set_pos 7 (set_start 7 (lex globalInput)).

Definition capitalsLexer : lexer :=
  set_pos 7 (set_start 7 (lex ("data_a" +:+ nl +:+ "GLOBAL_ " +:+ nl))).

(** C5. Reserved-word policy. On [globalInput] the scanner does stop at
    [global_] with an error item, but [nextItem] hands out the end of
    input whenever the state is nil, so the error item is never returned
    and [Read] returns the document read so far and no error. And
    [aheadMatch] compares the bytes as they are: it does not find
    [global_] in [GLOBAL_]. *)
Theorem C5_reserved_word_is_not_an_error :
  Read 200 globalInput = Some (Some blockDoc, None) /\
  secondItem globalInput = Some (mkItem itemEOF "" 0, Some globalError, None) /\
  (forall (fuel : nat) (lx : lexer),
     nextItem fuel (set_state None lx) = Ok (mkItem itemEOF "" 0, set_state None lx)) /\
  (aheadMatch "global_" keywordLexer = Ok (true, keywordLexer) /\
   aheadMatch "global_" capitalsLexer = Ok (false, capitalsLexer)).
Proof.
  split; [vm_compute; reflexivity|].
  split; [vm_compute; reflexivity|].
  split; [|split; vm_compute; reflexivity].
  intros fuel lx. destruct fuel; cbn; destruct (emitted lx); reflexivity.
Qed.

(** * Further properties of the scanner *)

(** ** Stepping over the input *)

Lemma lexer_eq (a b : lexer) :
  input a = input b -> start a = start b -> pos a = pos b -> width a = width b ->
  lx_line a = lx_line b -> state a = state b -> emitted a = emitted b ->
  stack a = stack b -> pred a = pred b -> a = b.
Proof.
  destruct a, b; cbn. intros. subst. reflexivity.
Qed.

(** X1. [backup] undoes [next]: after a call of [next] followed by a call
    of [backup] the lexer is the one before, up to its [width]; the
    position is back, and so is the line count, also when the byte that
    was read is a newline or when the input is at its end. *)
Theorem next_backup_restores (lx : lexer) :
  exists w, (next ;; backup)%go lx = Ok (tt, set_width w lx).
Proof.
  unfold bind, next, backup, modify.
  destruct (String.get (pos lx) (input lx)) as [c|] eqn:E.
  - exists 1%nat. f_equal. f_equal.
    destruct (req c newline) eqn:Ec; cbn;
      replace (pos lx + 1 - 1)%nat with (pos lx) by lia; rewrite E, Ec;
      apply lexer_eq; cbn; try reflexivity; lia.
  - exists 0%nat. f_equal. f_equal. cbn.
    replace (pos lx - 0)%nat with (pos lx) by lia. rewrite E.
    apply lexer_eq; cbn; try reflexivity; lia.
Qed.

(** The byte in front of the lexer, [eof] at the end of the input. *)
Definition ahead (lx : lexer) : rune :=
  match String.get (pos lx) (input lx) with
  | None => eof
  | Some c => c
  end.

Lemma next_then_backup (lx : lexer) :
  exists lx1 w, next lx = Ok (ahead lx, lx1) /\ backup lx1 = Ok (tt, set_width w lx).
Proof.
  unfold next, backup, modify, ahead.
  destruct (String.get (pos lx) (input lx)) as [c|] eqn:E.
  - eexists. exists 1%nat. split; [reflexivity|]. f_equal. f_equal.
    destruct (req c newline) eqn:Ec; cbn;
      replace (pos lx + 1 - 1)%nat with (pos lx) by lia; rewrite E, Ec;
      apply lexer_eq; cbn; try reflexivity; lia.
  - eexists. exists 0%nat. split; [reflexivity|]. f_equal. f_equal. cbn.
    replace (pos lx - 0)%nat with (pos lx) by lia. rewrite E.
    apply lexer_eq; cbn; try reflexivity; lia.
Qed.

(** X2. [accept] consumes the byte in front of the lexer exactly when it
    is the expected one, and then leaves the lexer as [next] does;
    otherwise it returns [false] and the lexer is the one before, up to
    its [width]. [peek] returns that byte and changes nothing. *)
Theorem accept_consumes_expected (valid : rune) (lx : lexer) :
  peek lx = Ok (ahead lx, lx) /\
  if req (ahead lx) valid
  then exists lx', next lx = Ok (ahead lx, lx') /\ accept valid lx = Ok (true, lx')
  else exists w, accept valid lx = Ok (false, set_width w lx).
Proof.
  split; [reflexivity|].
  destruct (next_then_backup lx) as (lx1 & w & Hn & Hb).
  unfold accept, bind. rewrite Hn.
  destruct (req (ahead lx) valid).
  - exists lx1. split; reflexivity.
  - exists w. rewrite Hb. reflexivity.
Qed.

(** ** The line count *)

(** The number of newlines among the first [n] bytes of [s]. *)
Fixpoint newlinesIn (s : string) (n : nat) : Z :=
  match n, s with
  | S n', String c rest => (if req c newline then 1 else 0) + newlinesIn rest n'
  | _, _ => 0
  end.

(** The line count of the lexer is that of the bytes it has consumed. *)
Definition lineCounted (lx : lexer) : Prop :=
  lx_line lx = 1 + newlinesIn (input lx) (pos lx).

Lemma newlinesIn_step (s : string) (n : nat) (c : rune) :
  String.get n s = Some c ->
  newlinesIn s (n + 1) = newlinesIn s n + (if req c newline then 1 else 0).
Proof.
  revert n. induction s as [|a s IH]; intros n H; [destruct n; discriminate H|].
  destruct n as [|n]; cbn [newlinesIn Nat.add].
  - cbn in H. injection H as ->. destruct s; cbn [newlinesIn]; lia.
  - cbn in H. rewrite (IH _ H). lia.
Qed.

(** X3. The line count follows the input: [lex] starts a lexer whose
    line is 1 plus the number of newlines consumed, and [next] keeps it
    so, whether it consumes a byte or is at the end of the input. *)
Theorem next_counts_lines :
  (forall inp : string, lineCounted (lex inp)) /\
  (forall (lx lx' : lexer) (r : rune),
     lineCounted lx -> next lx = Ok (r, lx') ->
     lineCounted lx' /\ input lx' = input lx /\
     pos lx' = match String.get (pos lx) (input lx) with
               | Some _ => (pos lx + 1)%nat
               | None => pos lx
               end).
Proof.
  split.
  - intros inp. unfold lineCounted. cbn. destruct inp; reflexivity.
  - intros lx lx' r Hl. unfold next, lineCounted in *.
    destruct (String.get (pos lx) (input lx)) as [c|] eqn:E; intros H;
      injection H as <- <-.
    + split; [|split; destruct (req c newline); reflexivity].
      destruct (req c newline) eqn:Ec; cbn;
        rewrite (newlinesIn_step _ _ _ E), Ec; lia.
    + split; [exact Hl|]. split; reflexivity.
Qed.

Lemma next_counts_lines_witness :
  exists lx', next (lex nl) = Ok (newline, lx') /\ lx_line lx' = 2.
Proof.
  destruct (proj2 next_counts_lines (lex nl) (set_pos 1 (set_width 1 (set_line 2 (lex nl))))
              newline (proj1 next_counts_lines nl) eq_refl) as (H & _ & _).
  eexists. split; [reflexivity|]. exact H.
Defined.

(** * Further properties of the documents that [Read] returns *)

(** ** Tables are told apart by one common tag *)

Lemma loopEqual_true (lp1 lp2 : Loop) :
  loopEqual lp1 lp2 = true <->
  exists tag, is_Some (Columns lp1 !! tag) /\ is_Some (Columns lp2 !! tag).
Proof.
  unfold loopEqual. rewrite existsb_exists. split.
  - intros ([tag i] & Hin & Hd). apply bool_decide_eq_true in Hd.
    exists tag. split; [|exact Hd].
    exists i. apply elem_of_map_to_list, list_elem_of_In, Hin.
  - intros (tag & [i Hi] & H2). exists (tag, i). split.
    + apply list_elem_of_In, elem_of_map_to_list, Hi.
    + apply bool_decide_eq_true, H2.
Qed.

(** X4. [loopEqual] decides identity on the tables of one block of a
    document that [Read] returns: two tables bound in the same block have
    a tag in common exactly when they are one table, which is what
    [writeBlock] relies on to write every table once. *)
Theorem loopEqual_is_identity (fuel : nat) (inp : string) (c : CIF) (e : option string)
    (b : blockRef) (tag1 tag2 : string) (l1 l2 : loc) (lp1 lp2 : Loop) :
  Read fuel inp = Some (Some c, e) ->
  validRef b c ->
  Loops (getBlock b c) !! tag1 = Some l1 -> heap c !! l1 = Some lp1 ->
  Loops (getBlock b c) !! tag2 = Some l2 -> heap c !! l2 = Some lp2 ->
  (loopEqual lp1 lp2 = true <-> l1 = l2).
Proof.
  intros HR Hv H1 Hh1 H2 Hh2. apply Read_wf in HR. destruct HR as [_ Hb _].
  destruct (Hb b tag1 l1 Hv H1) as (lp1' & Hh1' & Ht1 & Hb1).
  destruct (Hb b tag2 l2 Hv H2) as (lp2' & Hh2' & Ht2 & Hb2).
  assert (lp1' = lp1) by congruence. assert (lp2' = lp2) by congruence. subst lp1' lp2'.
  rewrite loopEqual_true. split.
  - intros (tag & Ha & Hb'). apply Hb1 in Ha. apply Hb2 in Hb'. congruence.
  - intros <-. assert (lp2 = lp1) by congruence. subst lp2.
    exists tag1. split; exact Ht1.
Qed.

Lemma loopEqual_is_identity_witness :
  loopEqual tableLoop tableLoop = true <-> 0%nat = 0%nat.
Proof.
  exact (loopEqual_is_identity 200 tableInput tableDoc None (inData "a") "x" "y" 0%nat 0%nat
           tableLoop tableLoop Read_tableInput
           (ltac:(vm_compute; eexists; reflexivity))
           (ltac:(vm_compute; reflexivity)) eq_refl
           (ltac:(vm_compute; reflexivity)) eq_refl).
Defined.

(** ** The type of a column *)

(** The type of a column after values of the types [ts], in the order in
    which the values loop of [parseLoop] meets them. *)
Definition columnTyp (ts : list itemType) : itemType :=
  fold_left mergeTyp ts itemDataNone.

Definition numericOrNull (t : itemType) : bool := isInteger t || isFloat t || isNull t.
Definition integerOrNull (t : itemType) : bool := isInteger t || isNull t.

Lemma fold_mergeTyp_String (ts : list itemType) :
  fold_left mergeTyp ts itemDataString = itemDataString.
Proof. induction ts as [|t ts IH]; [reflexivity|]. destruct t; exact IH. Qed.

Lemma fold_mergeTyp_Float (ts : list itemType) :
  fold_left mergeTyp ts itemDataFloat =
  if forallb numericOrNull ts then itemDataFloat else itemDataString.
Proof.
  induction ts as [|t ts IH]; [reflexivity|].
  destruct t; cbn [fold_left forallb]; try exact IH; apply fold_mergeTyp_String.
Qed.

Lemma fold_mergeTyp_Integer (ts : list itemType) :
  fold_left mergeTyp ts itemDataInteger =
  if forallb integerOrNull ts then itemDataInteger
  else if forallb numericOrNull ts then itemDataFloat else itemDataString.
Proof.
  induction ts as [|t ts IH]; [reflexivity|].
  destruct t; cbn [fold_left forallb]; try exact IH;
    try apply fold_mergeTyp_String.
  change (mergeTyp itemDataInteger itemDataFloat) with itemDataFloat.
  apply fold_mergeTyp_Float.
Qed.

Lemma fold_mergeTyp_null (t0 : itemType) (ts : list itemType) :
  isNull t0 = true ->
  fold_left mergeTyp ts t0 = if forallb isNull ts then t0 else itemDataString.
Proof.
  intros H0. induction ts as [|t ts IH]; [reflexivity|].
  destruct t0; try discriminate H0;
    destruct t; cbn [fold_left forallb]; try exact IH; apply fold_mergeTyp_String.
Qed.

(** X5. The rule by which the values loop of [parseLoop] types a column
    whose first value has the type [t0] and whose later values have the
    types [rest]: a column that starts with a null value stays of that
    null type while all its values are null, and is a string column as
    soon as one is not; a column that starts otherwise is an integer
    column when all its values are integers or null, a float column when
    all are integers, floats or null, and a string column in every other
    case. *)
Theorem columnTyp_rule (t0 : itemType) (rest : list itemType) :
  isValueType t0 = true ->
  columnTyp (t0 :: rest) =
  if isNull t0 then (if forallb isNull rest then t0 else itemDataString)
  else if forallb numericOrNull (t0 :: rest) then
    (if forallb integerOrNull (t0 :: rest) then itemDataInteger else itemDataFloat)
  else itemDataString.
Proof.
  intros H0. unfold columnTyp. cbn [fold_left].
  destruct t0; try discriminate H0;
    change (mergeTyp itemDataNone ?t) with t; cbn [isNull forallb].
  - apply fold_mergeTyp_null. reflexivity.
  - apply fold_mergeTyp_null. reflexivity.
  - rewrite fold_mergeTyp_Integer. cbn.
    destruct (forallb integerOrNull rest) eqn:E; [|reflexivity].
    assert (forallb numericOrNull rest = true) as ->; [|reflexivity].
    apply forallb_forall. intros t Ht.
    pose proof (proj1 (forallb_forall _ _) E t Ht) as H. destruct t; try discriminate H; reflexivity.
  - rewrite fold_mergeTyp_Float. cbn. destruct (forallb numericOrNull rest); reflexivity.
  - apply fold_mergeTyp_String.
Qed.

Lemma columnTyp_rule_witness :
  columnTyp [itemDataOmitted; itemDataInteger; itemDataInteger] = itemDataString /\
  columnTyp [itemDataInteger; itemDataOmitted; itemDataFloat] = itemDataFloat.
Proof.
  split.
  - exact (columnTyp_rule itemDataOmitted [itemDataInteger; itemDataInteger] eq_refl).
  - exact (columnTyp_rule itemDataInteger [itemDataOmitted; itemDataFloat] eq_refl).
Defined.

(** ** The cells of a numeric column *)

(** The texts that [convertLoopValues] stores as zero. *)
Definition isNullText (s : string) : bool := streq s "." || streq s "?".

(** The integer that [convertLoopValues] stores for the text [s]. *)
Definition intCell (s : string) (n : Z) : Prop :=
  if isNullText s then n = 0 else Atoi s = Some n.

Definition floatCell (s : string) (f : float64) : Prop :=
  if isNullText s then f = S754_zero false else ParseFloat s = Some f.

Lemma convertInts_cons (s : string) (strs : list string) :
  Parser.convertInts (s :: strs) =
  (n <- (if isNullText s then ret 0
         else match Atoi s with
              | Some n => ret n
              | None => Parser.errf ("Could not parse '" +:+ s +:+ "' as integer: " +:+
                                     AtoiError s)
              end) ;;
   ns <- Parser.convertInts strs ;;
   ret (n :: ns))%go.
Proof. reflexivity. Qed.

Lemma convertFloats_cons (s : string) (strs : list string) :
  Parser.convertFloats (s :: strs) =
  (n <- (if isNullText s then ret (S754_zero false)
         else match ParseFloat s with
              | Some n => ret n
              | None => Parser.errf ("Could not parse '" +:+ s +:+ "' as float: " +:+
                                     ParseFloatError s)
              end) ;;
   ns <- Parser.convertFloats strs ;;
   ret (n :: ns))%go.
Proof. reflexivity. Qed.

Definition intError (ln : Z) (s : string) : panic :=
  cifError (parseErrorText ln ("Could not parse '" +:+ s +:+ "' as integer: " +:+ AtoiError s)).

Definition floatError (ln : Z) (s : string) : panic :=
  cifError (parseErrorText ln ("Could not parse '" +:+ s +:+ "' as float: " +:+
                               ParseFloatError s)).

Lemma convertInts_result (strs : list string) (p : parser) :
  match Parser.convertInts strs p with
  | Ok (nums, p') => p' = p /\ Forall2 intCell strs nums
  | Panic e => exists s, In s strs /\ isNullText s = false /\ Atoi s = None /\
                         e = intError (p_line p) s
  | OutOfFuel => False
  end.
Proof.
  induction strs as [|s strs IH]; [split; [reflexivity | constructor]|].
  rewrite convertInts_cons. unfold bind at 1.
  destruct (isNullText s) eqn:En.
  - unfold ret at 1. unfold bind.
    destruct (Parser.convertInts strs p) as [[nums p']|e|].
    + destruct IH as [-> IH]. split; [reflexivity|]. constructor; [|exact IH].
      unfold intCell. rewrite En. reflexivity.
    + destruct IH as (s' & Hin & H). exists s'. split; [right; exact Hin | exact H].
    + exact IH.
  - destruct (Atoi s) as [n|] eqn:Ea.
    + unfold ret at 1. unfold bind.
      destruct (Parser.convertInts strs p) as [[nums p']|e|].
      * destruct IH as [-> IH]. split; [reflexivity|]. constructor; [|exact IH].
        unfold intCell. rewrite En. exact Ea.
      * destruct IH as (s' & Hin & H). exists s'. split; [right; exact Hin | exact H].
      * exact IH.
    + rewrite errf_Panic. exists s. split; [left; reflexivity|]. repeat split; assumption.
Qed.

Lemma convertFloats_result (strs : list string) (p : parser) :
  match Parser.convertFloats strs p with
  | Ok (nums, p') => p' = p /\ Forall2 floatCell strs nums
  | Panic e => exists s, In s strs /\ isNullText s = false /\ ParseFloat s = None /\
                         e = floatError (p_line p) s
  | OutOfFuel => False
  end.
Proof.
  induction strs as [|s strs IH]; [split; [reflexivity | constructor]|].
  rewrite convertFloats_cons. unfold bind at 1.
  destruct (isNullText s) eqn:En.
  - unfold ret at 1. unfold bind.
    destruct (Parser.convertFloats strs p) as [[nums p']|e|].
    + destruct IH as [-> IH]. split; [reflexivity|]. constructor; [|exact IH].
      unfold floatCell. rewrite En. reflexivity.
    + destruct IH as (s' & Hin & H). exists s'. split; [right; exact Hin | exact H].
    + exact IH.
  - destruct (ParseFloat s) as [n|] eqn:Ea.
    + unfold ret at 1. unfold bind.
      destruct (Parser.convertFloats strs p) as [[nums p']|e|].
      * destruct IH as [-> IH]. split; [reflexivity|]. constructor; [|exact IH].
        unfold floatCell. rewrite En. exact Ea.
      * destruct IH as (s' & Hin & H). exists s'. split; [right; exact Hin | exact H].
      * exact IH.
    + rewrite errf_Panic. exists s. split; [left; reflexivity|]. repeat split; assumption.
Qed.

(** The column that [convertLoopValues] makes of the values read for it. *)
Definition converted (v : loopValues) (col : ValueLoop) : Prop :=
  match lv_typ v with
  | itemDataOmitted | itemDataMissing | itemDataString => col = cifStrings (lv_strs v)
  | itemDataInteger => exists nums, col = cifInts nums /\ Forall2 intCell (lv_strs v) nums
  | itemDataFloat => exists nums, col = cifFloats nums /\ Forall2 floatCell (lv_strs v) nums
  | _ => False
  end.

Lemma convertColumn_converted (bname : string) (v : loopValues) (p p' : parser)
    (col : ValueLoop) :
  Parser.convertColumn bname v p = Ok (col, p') -> converted v col.
Proof.
  unfold Parser.convertColumn, converted.
  destruct (lv_typ v) eqn:Et; intros H;
    try (cbn in H; injection H as <- _; reflexivity);
    try (unfold bind, Parser.typeName in H; cbn in H; discriminate H).
  - bind_inv H as (nums & p1 & Hc & H). cbn in H. injection H as <- _.
    pose proof (convertInts_result (lv_strs v) p) as Hr. rewrite Hc in Hr.
    exists nums. split; [reflexivity | exact (proj2 Hr)].
  - bind_inv H as (nums & p1 & Hc & H). cbn in H. injection H as <- _.
    pose proof (convertFloats_result (lv_strs v) p) as Hr. rewrite Hc in Hr.
    exists nums. split; [reflexivity | exact (proj2 Hr)].
Qed.

Fixpoint allChar (p : rune -> bool) (s : string) : bool :=
  match s with
  | EmptyString => true
  | String r rest => p r && allChar p rest
  end.






(** ** Integers, written and read back *)

Lemma digit_char (d : Z) :
  0 <= d < 10 ->
  let c := ascii_of_N (Z.to_N (48 + d)) in
  isDigit c = true /\ digitVal c = d.
Proof.
  intros H.
  assert (E : d = 0 \/ d = 1 \/ d = 2 \/ d = 3 \/ d = 4 \/ d = 5 \/ d = 6 \/ d = 7 \/
              d = 8 \/ d = 9) by lia.
  repeat (destruct E as [->|E]; [split; vm_compute; reflexivity|]).
  subst d. split; vm_compute; reflexivity.
Qed.

Lemma isDigit_plain (c : rune) :
  isDigit c = true ->
  req c "-" = false /\ req c "+" = false /\ req c "." = false /\ req c "?" = false.
Proof.
  destruct c as [[] [] [] [] [] [] [] []]; vm_compute; intros H;
    first [discriminate H | repeat split].
Qed.

Lemma readDigits_digit (c : rune) (s : string) (a : Z) (k : nat) :
  isDigit c = true ->
  readDigits (String c s) a k = readDigits s (10 * a + digitVal c) (S k).
Proof. intros H. cbn [readDigits]. rewrite H. reflexivity. Qed.

(** The digits of [n] are put in front of [acc], and [readDigits] reads
    [n] back from them. *)
Lemma digitsOf_readDigits (f : nat) (n : Z) (acc : string) :
  0 <= n < 2 ^ Z.of_nat (S f) ->
  exists c rest m P,
    digitsOf (S f) n acc = String c rest /\ isDigit c = true /\ (1 <= m)%nat /\
    forall a k, readDigits (digitsOf (S f) n acc) a k = readDigits acc (a * P + n) (k + m)%nat.
Proof.
  revert n acc. induction f as [|f IH]; intros n acc Hn.
  - assert (E : n = 0 \/ n = 1) by (change (2 ^ Z.of_nat 1) with 2 in Hn; lia).
    destruct E as [-> | ->]; cbn [digitsOf]; change (0 / 10 =? 0) with true;
      change (1 / 10 =? 0) with true; cbv iota.
    + eexists _, acc, 1%nat, 10. split; [reflexivity|]. split; [reflexivity|].
      split; [lia|]. intros a k. rewrite readDigits_digit by reflexivity.
      change (digitVal _) with 0. f_equal; lia.
    + eexists _, acc, 1%nat, 10. split; [reflexivity|]. split; [reflexivity|].
      split; [lia|]. intros a k. rewrite readDigits_digit by reflexivity.
      change (digitVal _) with 1. f_equal; lia.
  - assert (Hd : 0 <= n mod 10 < 10) by (apply Z.mod_pos_bound; lia).
    destruct (digit_char _ Hd) as [Hc Hv].
    change (digitsOf (S (S f)) n acc) with
      (let acc' := String (ascii_of_N (Z.to_N (48 + n mod 10))) acc in
       if n / 10 =? 0 then acc' else digitsOf (S f) (n / 10) acc').
    cbv zeta. destruct (Z.eqb_spec (n / 10) 0) as [E|E].
    + eexists _, acc, 1%nat, 10. split; [reflexivity|]. split; [exact Hc|].
      split; [lia|]. intros a k. rewrite readDigits_digit by exact Hc. rewrite Hv.
      assert (n = n mod 10) by (rewrite (Z.div_mod n 10) at 1 by lia; lia).
      f_equal; lia.
    + assert (Hq : 0 <= n / 10 < 2 ^ Z.of_nat (S f)).
      { split; [apply Z.div_pos; lia|].
        rewrite Nat2Z.inj_succ, Z.pow_succ_r in Hn by lia.
        apply Z.div_lt_upper_bound; lia. }
      destruct (IH (n / 10) (String (ascii_of_N (Z.to_N (48 + n mod 10))) acc) Hq)
        as (c & rest & m & P & E1 & E2 & E3 & E4).
      exists c, rest, (S m), (10 * P). split; [exact E1|]. split; [exact E2|].
      split; [lia|]. intros a k. rewrite E4, readDigits_digit by exact Hc. rewrite Hv.
      pose proof (Z.div_mod n 10 ltac:(lia)) as Hdm.
      f_equal; lia.
Qed.

Lemma log2_fuel (n : Z) : 0 <= n -> 0 <= n < 2 ^ Z.of_nat (S (Z.to_nat (Z.log2 n))).
Proof.
  intros H. split; [exact H|].
  rewrite Nat2Z.inj_succ, Z2Nat.id by apply Z.log2_nonneg.
  destruct (Z.eq_dec n 0) as [->|Hn]; [reflexivity|].
  apply Z.log2_spec. lia.
Qed.

Lemma Atoi_itoa (n : Z) : minInt64 <= n <= maxInt64 -> Atoi (itoa n) = Some n.
Proof.
  intros Hr. unfold itoa. destruct (Z.ltb_spec n 0) as [Hneg|Hpos].
  - destruct (digitsOf_readDigits _ (- n) "" (log2_fuel (- n) ltac:(lia)))
      as (c & rest & m & P & E1 & E2 & E3 & E4).
    unfold Atoi. change (readSign ("-" +:+ ?s)) with (true, s).
    cbv iota. rewrite E4. cbn [readDigits]. destruct m as [|m]; [lia|].
    replace (0 + S m)%nat with (S m) by lia. cbv iota.
    replace (- (0 * P + - n)) with n by lia.
    destruct (Z.leb_spec minInt64 n); [|lia]. destruct (Z.leb_spec n maxInt64); [|lia].
    reflexivity.
  - destruct (digitsOf_readDigits _ n "" (log2_fuel n Hpos))
      as (c & rest & m & P & E1 & E2 & E3 & E4).
    unfold Atoi.
    assert (Hs : readSign (digitsOf (S (Z.to_nat (Z.log2 n))) n "") =
                 (false, digitsOf (S (Z.to_nat (Z.log2 n))) n "")).
    { rewrite E1. destruct (isDigit_plain _ E2) as (H1 & H2 & _).
      unfold readSign. rewrite H1, H2. reflexivity. }
    rewrite Hs. cbv iota. rewrite E4. cbn [readDigits]. destruct m as [|m]; [lia|].
    replace (0 + S m)%nat with (S m) by lia. cbv iota.
    replace (0 * P + n) with n by lia.
    destruct (Z.leb_spec minInt64 n); [|lia]. destruct (Z.leb_spec n maxInt64); [|lia].
    reflexivity.
Qed.

Lemma itoa_not_null (n : Z) : isNullText (itoa n) = false.
Proof.
  unfold itoa. destruct (Z.ltb_spec n 0) as [Hneg|Hpos].
  - reflexivity.
  - destruct (digitsOf_readDigits _ n "" (log2_fuel n Hpos))
      as (c & rest & m & P & E1 & E2 & E3 & E4).
    rewrite E1. destruct (isDigit_plain _ E2) as (_ & _ & H3 & H4).
    unfold isNullText, streq. cbn [String.eqb]. unfold req in H3, H4.
    rewrite H3, H4. reflexivity.
Qed.

Lemma convertInts_itoa (ns : list Z) (p : parser) :
  Forall (fun n => minInt64 <= n <= maxInt64) ns ->
  Parser.convertInts (List.map itoa ns) p = Ok (ns, p).
Proof.
  induction 1 as [|n ns Hn _ IH]; [reflexivity|].
  cbn [List.map]. rewrite convertInts_cons, itoa_not_null, (Atoi_itoa _ Hn).
  unfold bind at 1. unfold ret at 1. unfold bind. rewrite IH. reflexivity.
Qed.

(** X7. Integers survive the writer and the reader. What [writeLoop]
    writes for the cells of an integer column, [convertLoopValues]
    converts back to the same integers; and what [valToStr] writes for
    an integer item, [parseValue] reads back, from an integer token with
    that text, as the same integer. This holds for the 64-bit integers. *)
Theorem integers_round_trip (ns : list Z) (p : parser) :
  Forall (fun n => minInt64 <= n <= maxInt64) ns ->
  (exists strs, Writer.columnStrs (cifInts ns) = Ok strs /\
                Parser.convertInts strs p = Ok (ns, p)) /\
  (forall (n : Z) (ln : Z) (bname name : string),
     In n ns ->
     exists s, (forall (S : Type) (st : S), Writer.valToStr (cifInt n) st = (st, Ok s)) /\
               Parser.parseValue (mkItem itemDataInteger s ln) bname name p
               = Ok (cifInt n, p)).
Proof.
  intros H. split.
  - exists (List.map itoa ns). split; [reflexivity | apply convertInts_itoa, H].
  - intros n ln bname name Hin. exists (itoa n). split; [reflexivity|].
    unfold Parser.parseValue. cbn [typ val].
    rewrite Atoi_itoa; [reflexivity|].
    rewrite List.Forall_forall in H. apply H, Hin.
Qed.

Lemma integers_round_trip_witness :
  Parser.convertInts ["-7"; "0"; "9223372036854775807"] noParser
  = Ok ([-7; 0; maxInt64], noParser).
Proof.
  destruct (proj1 (integers_round_trip [-7; 0; maxInt64] noParser
                     ltac:(repeat constructor; vm_compute; discriminate)))
    as (strs & Hs & Hc).
  injection Hs as <-. exact Hc.
Defined.

(** ** How [Read] builds a document *)

(** The value that [parseValue] makes of a token. *)
Definition valueOf (t : item) (v : Value) : Prop :=
  match typ t with
  | itemDataOmitted => v = cifString "."
  | itemDataMissing => v = cifString "?"
  | itemDataInteger => exists n, Atoi (val t) = Some n /\ v = cifInt n
  | itemDataFloat => exists f, ParseFloat (val t) = Some f /\ v = cifFloat f
  | itemDataString => v = cifString (val t)
  | _ => False
  end.

Lemma parseValue_valueOf (t : item) (bname name : string) (p p' : parser) (v : Value) :
  Parser.parseValue t bname name p = Ok (v, p') -> valueOf t v.
Proof.
  unfold Parser.parseValue, valueOf.
  destruct (typ t); intros H;
    try (exfalso; exact (typeName_errf _ _ _ _ H));
    try (apply ret_Ok in H as [-> _]; reflexivity).
  - destruct (Atoi (val t)) as [n|]; [|discriminate H].
    apply ret_Ok in H as [-> _]. exists n. split; reflexivity.
  - destruct (ParseFloat (val t)) as [f|]; [|discriminate H].
    apply ret_Ok in H as [-> _]. exists f. split; reflexivity.
Qed.

Lemma parseItemValue_step (fuel : nat) (b : blockRef) (name : string)
    (p p' : parser) (u : unit) :
  Parser.parseItemValue fuel b name p = Ok (u, p') ->
  exists t v, valueOf t v /\
    Items (getBlock b (cif p)) !! name = None /\
    Loops (getBlock b (cif p)) !! name = None /\
    cif p' = alterBlock (setItem name v) b (cif p).
Proof.
  unfold Parser.parseItemValue. intros H.
  bind_inv H as (u1 & p1 & Hu & H). apply assertUniqueTag_Ok in Hu as (-> & Hi & Hl).
  bind_inv H as (t & p2 & Hn & H). apply next_cif in Hn.
  bind_inv H as (bname & p3 & Hg & H). apply gets_Ok in Hg as [-> ->].
  bind_inv H as (v & p4 & Hv & H).
  pose proof (parseValue_valueOf _ _ _ _ _ _ Hv) as Hval.
  apply parseValue_Ok in Hv as ->.
  apply modify_Ok in H as ->. exists t, v. cbn. rewrite Hn.
  repeat split; assumption.
Qed.

(** A column as the tags loop of [parseLoop] declares it. *)
Definition declared (blk : Block) (v : loopValues) : Prop :=
  (exists raw, lv_name v = ToLower raw) /\
  Items blk !! lv_name v = None /\ Loops blk !! lv_name v = None.

Lemma parseLoopTags_names (fuel : nat) (b : blockRef) (t t' : item) (i : Z)
    (vals vals' : list loopValues) (p p' : parser) :
  Parser.parseLoopTags fuel b t i vals p = Ok ((t', vals'), p') ->
  exists new, vals' = (vals ++ new)%list /\
    Forall (fun v => declared (getBlock b (cif p)) v /\
                     lv_strs v = [] /\ lv_typ v = itemDataNone) new.
Proof.
  revert t i vals p. induction fuel as [|f IH]; intros t i vals p H; simpl in H.
  - destruct (itemType_eqb (typ t) itemDataTag) eqn:E; [discriminate H|].
    apply ret_Ok in H as [H ->]. injection H as -> ->.
    exists []. rewrite app_nil_r. split; [reflexivity | constructor].
  - destruct (itemType_eqb (typ t) itemDataTag) eqn:E.
    + bind_inv H as (u & p1 & Hu & H). apply assertUniqueTag_Ok in Hu as (-> & Hi & Hl).
      bind_inv H as (t1 & p2 & Hn & H). apply next_cif in Hn.
      apply IH in H as (new & -> & Hnew).
      exists (mkLoopValues (ToLower (val t)) [] itemDataNone :: new).
      split; [rewrite <- app_assoc; reflexivity|].
      constructor.
      * split; [|split; reflexivity]. split; [exists (val t); reflexivity|].
        split; assumption.
      * rewrite Hn in Hnew. exact Hnew.
    + apply ret_Ok in H as [H ->]. injection H as -> ->.
      exists []. rewrite app_nil_r. split; [reflexivity | constructor].
Qed.

(** The column [v] has the type that the values of the types [ts] give
    it, one type for each of its texts. *)
Definition typedBy (v : loopValues) (ts : list itemType) : Prop :=
  lv_typ v = columnTyp ts /\ length ts = length (lv_strs v) /\
  Forall (fun t => isValueType t = true) ts.

Lemma addValue_typed (t : item) (i : nat) (vals vals' : list loopValues) (p p' : parser) :
  Parser.addValue t i vals p = Ok (vals', p') ->
  isValueType (typ t) = true ->
  Forall (fun v => exists ts, typedBy v ts) vals ->
  Forall (fun v => exists ts, typedBy v ts) vals'.
Proof.
  unfold Parser.addValue. intros H Ht Hall.
  destruct (length vals) as [|m] eqn:El; [discriminate H|].
  destruct (vals !! (i mod S m)%nat) as [v|] eqn:Ev; [|discriminate H].
  apply ret_Ok in H as [-> _].
  apply Forall_insert; [exact Hall|].
  rewrite Forall_forall in Hall.
  destruct (Hall v (list_elem_of_lookup_2 _ _ _ Ev)) as (ts & H1 & H2 & H3).
  exists (ts ++ [typ t])%list. split; [|split].
  - cbn [lv_typ]. unfold columnTyp. rewrite fold_left_app. cbn [fold_left].
    rewrite H1. reflexivity.
  - cbn [lv_strs]. rewrite !length_app, H2. reflexivity.
  - apply Forall_app. split; [exact H3|]. constructor; [exact Ht | constructor].
Qed.

Lemma parseLoopValues_typed (fuel : nat) (t t' : item) (i count count' : nat)
    (vals vals' : list loopValues) (p p' : parser) :
  Parser.parseLoopValues fuel t i count vals p = Ok ((t', count', vals'), p') ->
  Forall (fun v => exists ts, typedBy v ts) vals ->
  Forall (fun v => exists ts, typedBy v ts) vals'.
Proof.
  revert t i count vals p. induction fuel as [|f IH]; intros t i count vals p H Hall;
    simpl in H; destruct (isValueType (typ t)) eqn:Et; try discriminate H;
    try (apply ret_Ok in H as [H _]; injection H as _ _ <-; exact Hall).
  bind_inv H as (vals1 & p1 & Ha & H).
  bind_inv H as (t1 & p2 & Hn & H).
  exact (IH _ _ _ _ _ H (addValue_typed _ _ _ _ _ _ Ha Et Hall)).
Qed.

Lemma convertColumns_converted (bname : string) (vals : list loopValues) (p p' : parser)
    (cols : list ValueLoop) :
  Parser.convertColumns bname vals p = Ok (cols, p') -> Forall2 converted vals cols.
Proof.
  revert cols p p'. induction vals as [|v vals IH]; intros cols p p' H; simpl in H.
  - apply ret_Ok in H as [-> _]. constructor.
  - bind_inv H as (c & p1 & Hc & H). bind_inv H as (cs & p2 & Hcs & H).
    apply ret_Ok in H as [-> _].
    constructor; [exact (convertColumn_converted _ _ _ _ _ Hc) | exact (IH _ _ _ Hcs)].
Qed.

(** The columns [vals], read for a table of the block [blk], and the
    columns [cols] made of them: the tags are new to the block, there is
    at least one column, all columns have the same number of values, at
    least one, and each column is converted by its type. *)
Record loopRead (blk : Block) (vals : list loopValues) (cols : list ValueLoop) : Prop :=
  mk_loopRead {
    lr_declared : Forall (declared blk) vals;
    lr_some : vals <> [];
    lr_rows : exists L : nat, (1 <= L)%nat /\ Forall (fun v => length (lv_strs v) = L) vals;
    lr_typed : Forall (fun v => exists ts, typedBy v ts) vals;
    lr_cols : Forall2 converted vals cols
  }.

Lemma parseLoop_read (fuel : nat) (b : blockRef) (p p' : parser) (t' : item) :
  Parser.parseLoop fuel b p = Ok (t', p') ->
  exists vals cols,
    loopRead (getBlock b (cif p)) vals cols /\
    cif p' = alterBlock (Parser.bindLoop (length (heap (cif p))) vals) b
               (snd (allocLoop {| Columns := Parser.columnIndex 0 vals ∅; Values := cols |}
                               (cif p))).
Proof.
  unfold Parser.parseLoop. intros H.
  bind_inv H as (loopLine & p0' & Hg & H). apply gets_Ok in Hg as [-> ->].
  bind_inv H as (t0 & p0 & Hn & H).
  bind_inv H as (u1 & p0'' & Hc1 & H).
  destruct (itemType_eqb (typ t0) itemDataTag) eqn:Et0; simpl in Hc1;
    [|exfalso; exact (typeName_errf _ _ _ _ Hc1)].
  apply ret_Ok in Hc1 as [_ ->].
  bind_inv H as ([t1 vals] & p1 & Htags & H).
  bind_inv H as (u2 & p1' & Hc2 & H).
  destruct (isValueType (typ t1)) eqn:Et1; simpl in Hc2;
    [|exfalso; exact (typeName_errf _ _ _ _ Hc2)].
  apply ret_Ok in Hc2 as [_ ->].
  bind_inv H as ([[t2 count] vals2] & p2 & Hvals & H).
  destruct (length vals2) as [|m] eqn:El; [discriminate H|].
  bind_inv H as (u3 & p2' & Hc3 & H).
  destruct ((count mod S m)%nat =? 0)%nat eqn:Emod; simpl in Hc3; [|discriminate Hc3].
  apply ret_Ok in Hc3 as [_ ->].
  bind_inv H as (l & p3 & Hconv & H). apply ret_Ok in H as [-> ->].
  (* the tags *)
  pose proof (next_cif _ _ _ _ Hn) as Hcif0.
  destruct (parseLoopTags_spec _ _ _ _ _ _ _ _ _ Htags) as (Hcif1 & new & Hnew & Hne & Hfresh).
  destruct (parseLoopTags_names _ _ _ _ _ _ _ _ _ Htags) as (new' & Hnew' & Hdecl).
  simpl in Hnew, Hnew'. subst new new'.
  apply itemType_eqb_eq in Et0. specialize (Hne Et0).
  (* the values *)
  assert (Hd0 : dealt (length vals) 0 0 vals).
  { split; [reflexivity|]. split; [destruct vals; [contradiction | simpl; lia]|].
    intros j v Hj. simpl. rewrite Forall_forall in Hfresh.
    apply list_elem_of_lookup_2 in Hj. apply Hfresh in Hj as [-> _]. reflexivity. }
  destruct (parseLoopValues_spec _ _ _ _ _ _ _ _ _ _ _ _ _ Hvals eq_refl Hd0 eq_refl)
    as (Hcif2 & Hnames & (q' & r' & (Hlen2 & Hr' & Hd2) & Hcount) & Hpos).
  specialize (Hpos Et1).
  assert (Hm : S m = length vals) by congruence.
  rewrite Hm in Emod. apply Nat.eqb_eq in Emod.
  assert (r' = 0)%nat as ->.
  { rewrite Hcount, Nat.add_comm, Nat.Div0.mod_add, Nat.mod_small in Emod by exact Hr'.
    exact Emod. }
  assert (Hq : (1 <= q')%nat) by (destruct q'; [simpl in Hcount; lia | lia]).
  assert (Htyped : Forall (fun v => exists ts, typedBy v ts) vals2).
  { apply (parseLoopValues_typed _ _ _ _ _ _ _ _ _ _ Hvals).
    eapply Forall_impl; [exact Hdecl|]. intros v (_ & Hs & Ht). exists [].
    split; [exact Ht|]. split; [rewrite Hs; reflexivity | constructor]. }
  (* the conversion *)
  unfold Parser.convertLoopValues in Hconv.
  bind_inv Hconv as (bname & q1 & Hg & Hconv). apply gets_Ok in Hg as [-> ->].
  bind_inv Hconv as (cols & q2 & Hc & Hconv).
  pose proof (convertColumns_converted _ _ _ _ _ Hc) as Hcols.
  apply convertColumns_Ok in Hc as [-> _].
  bind_inv Hconv as (l1 & q3 & Ha & Hconv). simpl in Ha. injection Ha as <- <-.
  bind_inv Hconv as (u & q4 & Hmo & Hconv). apply modify_Ok in Hmo as ->.
  apply ret_Ok in Hconv as [-> ->].
  assert (Hcp : cif p2 = cif p) by congruence.
  exists vals2, cols. split; [|cbn; rewrite Hcp; reflexivity].
  split.
  - (* the names are those of the tags loop *)
    apply Forall_forall. intros v2 Hv2.
    assert (Hin : In (lv_name v2) (names vals2)).
    { unfold names. apply in_map, list_elem_of_In, Hv2. }
    rewrite Hnames in Hin. unfold names in Hin.
    apply in_map_iff in Hin as (v & Hv & Hin).
    apply list_elem_of_In in Hin. rewrite Forall_forall in Hdecl.
    destruct (Hdecl v Hin) as (Hd & _ & _). unfold declared in *.
    rewrite <- Hv, <- Hcif0. exact Hd.
  - intros ->. discriminate El.
  - exists q'. split; [exact Hq|]. apply Forall_lookup. intros j v Hj.
    rewrite (Hd2 _ _ Hj). simpl. lia.
  - exact Htyped.
  - exact Hcols.
Qed.

(** An induction principle for the documents of [Read]: a property of
    the empty document that is kept by the five steps by which the parser
    changes its document (the version, a new data block, a new save
    frame, a new item, a new table) holds for every document that [Read]
    returns. *)
Section ReadInduction.

Variable I : CIF -> Prop.

Hypothesis I_empty : I emptyCIF.

Hypothesis I_version : forall (c : CIF) (v : string), I c -> I (set_Version v c).

Hypothesis I_block : forall (c : CIF) (raw : string),
  Blocks c !! ToLower raw = None -> wfDoc c -> I c ->
  I (set_Blocks (<[ToLower raw := newDataBlock (ToLower raw)]> (Blocks c)) c).

Hypothesis I_frame : forall (c : CIF) (dblock raw : string) (db : DataBlock),
  Blocks c !! dblock = Some db -> Frames db !! ToLower raw = None -> wfDoc c -> I c ->
  I (set_Blocks (alter (Parser.insertFrame (ToLower raw)
                          (mkSaveFrame (emptyBlock (ToLower raw)))) dblock (Blocks c)) c).

Hypothesis I_item : forall (c : CIF) (b : blockRef) (raw : string) (t : item) (v : Value),
  validRef b c -> valueOf t v ->
  Items (getBlock b c) !! ToLower raw = None ->
  Loops (getBlock b c) !! ToLower raw = None ->
  wfDoc c -> I c -> I (alterBlock (setItem (ToLower raw) v) b c).

Hypothesis I_loop : forall (c : CIF) (b : blockRef) (vals : list loopValues)
    (cols : list ValueLoop),
  validRef b c -> loopRead (getBlock b c) vals cols -> wfDoc c -> I c ->
  I (alterBlock (Parser.bindLoop (length (heap c)) vals) b
       (snd (allocLoop {| Columns := Parser.columnIndex 0 vals ∅; Values := cols |} c))).

Lemma parseLoop_I (fuel : nat) (b : blockRef) (p p' : parser) (t' : item) :
  Parser.parseLoop fuel b p = Ok (t', p') ->
  wfDoc (cif p) -> validRef b (cif p) -> I (cif p) -> I (cif p').
Proof.
  intros H Hwf Hv HI.
  destruct (parseLoop_read _ _ _ _ _ H) as (vals & cols & Hr & ->).
  apply I_loop; assumption.
Qed.

Lemma parseItemValue_I (fuel : nat) (b : blockRef) (raw : string) (p p' : parser) (u : unit) :
  Parser.parseItemValue fuel b (ToLower raw) p = Ok (u, p') ->
  wfDoc (cif p) -> validRef b (cif p) -> I (cif p) -> I (cif p').
Proof.
  intros H Hwf Hv HI.
  destruct (parseItemValue_step _ _ _ _ _ _ H) as (t & v & Hval & Hi & Hl & ->).
  eapply I_item; eassumption.
Qed.

Lemma parseSaveFrameLoop_I (fuel : nat) (frame : blockRef) (t : item)
    (p p' : parser) (u : unit) :
  Parser.parseSaveFrameLoop fuel frame t p = Ok (u, p') ->
  wfDoc (cif p) -> validRef frame (cif p) -> I (cif p) -> I (cif p').
Proof.
  revert t p. induction fuel as [|f IH]; intros t p H Hwf Hv HI; simpl in H;
    [discriminate H|].
  destruct (typ t);
    try (exfalso; exact (typeName_errf _ _ _ _ H)).
  - apply ret_Ok in H as [_ ->]. exact HI.
  - bind_inv H as (t1 & p1 & Hl & H).
    destruct (parseLoop_wf _ _ _ _ _ Hl Hwf Hv) as [Hwf1 Hext1].
    exact (IH _ _ H Hwf1 (Hext1 _ Hv) (parseLoop_I _ _ _ _ _ Hl Hwf Hv HI)).
  - bind_inv H as (u1 & p1 & Hi & H).
    destruct (parseItemValue_spec _ _ _ _ _ _ Hi Hwf) as [Hwf1 Hext1].
    pose proof (parseItemValue_I _ _ _ _ _ _ Hi Hwf Hv HI) as HI1.
    bind_inv H as (t1 & p2 & Hn & H). apply next_cif in Hn.
    rewrite <- Hn in Hwf1, Hext1, HI1.
    exact (IH _ _ H Hwf1 (Hext1 _ Hv) HI1).
Qed.

Lemma parseSaveFrame_I (fuel : nat) (dblock raw : string) (p p' : parser) (u : unit) :
  Parser.parseSaveFrame fuel dblock (ToLower raw) p = Ok (u, p') ->
  wfDoc (cif p) -> is_Some (Blocks (cif p) !! dblock) -> I (cif p) -> I (cif p').
Proof.
  unfold Parser.parseSaveFrame. intros H Hwf [db Hdb] HI.
  bind_inv H as (odb & p1 & Hg & H). apply gets_Ok in Hg as [-> ->].
  rewrite Hdb in H.
  bind_inv H as (u1 & p1 & Hc & H).
  destruct (bool_decide (is_Some (Frames db !! ToLower raw))) eqn:E; [discriminate Hc|].
  apply ret_Ok in Hc as [_ ->].
  apply bool_decide_eq_false in E. apply eq_None_not_Some in E.
  bind_inv H as (u2 & p2 & Hm & H). apply modify_Ok in Hm as ->.
  bind_inv H as (t & p3 & Hn & H). apply next_cif in Hn. simpl in Hn.
  pose proof (wfDoc_new_frame dblock (ToLower raw) db (cif p) Hdb E Hwf) as Hwf1.
  pose proof (I_frame (cif p) dblock raw db Hdb E Hwf HI) as HI1.
  rewrite <- Hn in Hwf1, HI1.
  assert (Hv : validRef (inFrame dblock (ToLower raw)) (cif p3)).
  { rewrite Hn. simpl. rewrite lookup_alter_eq, Hdb. eexists. split; [reflexivity|].
    simpl. rewrite lookup_insert_eq. eauto. }
  exact (parseSaveFrameLoop_I _ _ _ _ _ _ H Hwf1 Hv HI1).
Qed.

Lemma parseDataBlockLoop_I (fuel : nat) (dblock : string) (t t' : item) (p p' : parser) :
  Parser.parseDataBlockLoop fuel dblock t p = Ok (t', p') ->
  wfDoc (cif p) -> is_Some (Blocks (cif p) !! dblock) -> I (cif p) -> I (cif p').
Proof.
  revert t p. induction fuel as [|f IH]; intros t p H Hwf Hv HI; simpl in H;
    [discriminate H|].
  destruct (typ t);
    try (exfalso; exact (unexpectedInBlock_Ok _ _ _ H));
    try (apply ret_Ok in H as [_ ->]; exact HI).
  - bind_inv H as (u1 & p1 & Hs & H).
    destruct (parseSaveFrame_wf _ _ _ _ _ _ Hs Hwf Hv) as [Hwf1 Hext1].
    pose proof (parseSaveFrame_I _ _ _ _ _ _ Hs Hwf Hv HI) as HI1.
    bind_inv H as (t1 & p2 & Hn & H). apply next_cif in Hn.
    rewrite <- Hn in Hwf1, Hext1, HI1.
    exact (IH _ _ H Hwf1 (Hext1 (inData dblock) Hv) HI1).
  - bind_inv H as (t1 & p1 & Hl & H).
    destruct (parseLoop_wf _ _ _ _ _ Hl Hwf Hv) as [Hwf1 Hext1].
    exact (IH _ _ H Hwf1 (Hext1 (inData dblock) Hv)
              (parseLoop_I _ _ _ _ _ Hl Hwf Hv HI)).
  - bind_inv H as (u1 & p1 & Hi & H).
    destruct (parseItemValue_spec _ _ _ _ _ _ Hi Hwf) as [Hwf1 Hext1].
    pose proof (parseItemValue_I _ _ _ _ _ _ Hi Hwf Hv HI) as HI1.
    bind_inv H as (t1 & p2 & Hn & H). apply next_cif in Hn.
    rewrite <- Hn in Hwf1, Hext1, HI1.
    exact (IH _ _ H Hwf1 (Hext1 (inData dblock) Hv) HI1).
Qed.

Lemma parseDataBlock_I (fuel : nat) (raw : string) (t' : item) (p p' : parser) :
  Parser.parseDataBlock fuel (ToLower raw) p = Ok (t', p') ->
  wfDoc (cif p) -> I (cif p) -> I (cif p').
Proof.
  unfold Parser.parseDataBlock. intros H Hwf HI.
  bind_inv H as (blocks & p1 & Hg & H). apply gets_Ok in Hg as [-> ->].
  bind_inv H as (u1 & p1 & Hc & H).
  destruct (bool_decide (is_Some (Blocks (cif p) !! ToLower raw))) eqn:E; [discriminate Hc|].
  apply ret_Ok in Hc as [_ ->].
  apply bool_decide_eq_false in E. apply eq_None_not_Some in E.
  bind_inv H as (u2 & p2 & Hm & H). apply modify_Ok in Hm as ->.
  bind_inv H as (t & p3 & Hn & H). apply next_cif in Hn.
  assert (Hwf1 : wfDoc (cif p3)).
  { rewrite Hn. exact (wfDoc_new_block (ToLower raw) (cif p) E Hwf). }
  assert (HI1 : I (cif p3)).
  { rewrite Hn. exact (I_block (cif p) raw E Hwf HI). }
  assert (Hv : is_Some (Blocks (cif p3) !! ToLower raw)).
  { rewrite Hn. simpl. rewrite lookup_insert_eq. eauto. }
  exact (parseDataBlockLoop_I _ _ _ _ _ _ H Hwf1 Hv HI1).
Qed.

Lemma parseLoopTop_I (fuel : nat) (t : item) (p p' : parser) (c : CIF) :
  Parser.parseLoopTop fuel t p = Ok (c, p') ->
  wfDoc (cif p) -> I (cif p) -> I c.
Proof.
  revert t p. induction fuel as [|f IH]; intros t p H Hwf HI; simpl in H;
    [discriminate H|].
  destruct (typ t);
    try (exfalso; exact (unexpectedInBlock_Ok _ _ _ H)).
  - apply gets_Ok in H as [-> _]. exact HI.
  - bind_inv H as (v & p1 & Hs & H).
    assert (p1 = p) as ->.
    { unfold sliceFrom in Hs. destruct (3 <=? String.length (val t))%nat;
        [apply ret_Ok in Hs as [_ ->]; reflexivity | discriminate Hs]. }
    bind_inv H as (u & p2 & Hm & H). apply modify_Ok in Hm as ->.
    bind_inv H as (t1 & p3 & Hn & H). apply next_cif in Hn.
    apply (IH _ _ H); rewrite Hn.
    + exact (wfDoc_set_Version v _ Hwf).
    + exact (I_version _ v HI).
  - bind_inv H as (t1 & p1 & Hd & H).
    exact (IH _ _ H (parseDataBlock_wf _ _ _ _ _ Hd Hwf) (parseDataBlock_I _ _ _ _ _ Hd Hwf HI)).
Qed.

Lemma Read_ind (fuel : nat) (inp : string) (c : CIF) (e : option string) :
  Read fuel inp = Some (Some c, e) -> I c.
Proof.
  unfold Read, Parser.parse.
  destruct (Parser.parseBody fuel inp _) as [[c' p']|[]|] eqn:E; intros H; try discriminate H.
  injection H as <- _.
  unfold Parser.parseBody in E.
  bind_inv E as (u & p1 & Hm & E). apply modify_Ok in Hm as ->.
  bind_inv E as (t & p2 & Hn & E). apply next_cif in Hn.
  apply (parseLoopTop_I _ _ _ _ _ E); rewrite Hn; [exact wfDoc_empty | exact I_empty].
Qed.

End ReadInduction.

(** ** Properties of the blocks and of the tables, one at a time *)

Lemma validRef_new_block (c : CIF) (name : string) (b : blockRef) :
  Blocks c !! name = None ->
  let c' := set_Blocks (<[name := newDataBlock name]> (Blocks c)) c in
  validRef b c' ->
  (b = inData name /\ getBlock b c' = emptyBlock name) \/
  (validRef b c /\ getBlock b c' = getBlock b c).
Proof.
  intros Hn c' Hv. destruct b as [bn|bn fn]; cbn in *.
  - destruct (decide (name = bn)) as [->|Hne].
    + left. rewrite lookup_insert_eq. split; reflexivity.
    + right. rewrite lookup_insert_ne in Hv |- * by exact Hne. split; [exact Hv | reflexivity].
  - destruct Hv as (db & Hdb & Hf). destruct (decide (name = bn)) as [->|Hne].
    + rewrite lookup_insert_eq in Hdb. injection Hdb as <-. cbn in Hf.
      rewrite lookup_empty in Hf. destruct Hf as [x Hx]. discriminate Hx.
    + right. rewrite lookup_insert_ne in Hdb |- * by exact Hne.
      split; [exists db; split; assumption | reflexivity].
Qed.

Lemma validRef_new_frame (c : CIF) (dblock name : string) (db : DataBlock) (b : blockRef) :
  Blocks c !! dblock = Some db -> Frames db !! name = None ->
  let c' := set_Blocks (alter (Parser.insertFrame name (mkSaveFrame (emptyBlock name)))
                              dblock (Blocks c)) c in
  validRef b c' ->
  (b = inFrame dblock name /\ getBlock b c' = emptyBlock name) \/
  (validRef b c /\ getBlock b c' = getBlock b c).
Proof.
  intros Hdb Hn c' Hv. destruct b as [bn|bn fn]; cbn in *.
  - right. destruct (decide (dblock = bn)) as [->|Hne].
    + rewrite lookup_alter_eq, Hdb. cbn. split; [eauto | reflexivity].
    + rewrite lookup_alter_ne in Hv |- * by exact Hne. split; [exact Hv | reflexivity].
  - destruct Hv as (d & Hd & Hf). destruct (decide (dblock = bn)) as [->|Hne].
    + rewrite lookup_alter_eq, Hdb in Hd |- *. cbn in Hd. injection Hd as <-. cbn in Hf |- *.
      destruct (decide (name = fn)) as [->|Hnf].
      * left. rewrite lookup_insert_eq. split; reflexivity.
      * right. rewrite lookup_insert_ne in Hf |- * by exact Hnf.
        split; [exists db; split; [reflexivity | exact Hf] | reflexivity].
    + right. rewrite lookup_alter_ne in Hd |- * by exact Hne.
      split; [exists d; split; assumption | reflexivity].
Qed.

(** A property of blocks that the empty block has and that a new item
    and a new table keep holds for every block of a document of [Read]. *)
Section BlockInduction.

Variable P : blockRef -> Block -> Prop.

Hypothesis P_data : forall raw : string, P (inData (ToLower raw)) (emptyBlock (ToLower raw)).

Hypothesis P_frame : forall dblock raw : string,
  P (inFrame dblock (ToLower raw)) (emptyBlock (ToLower raw)).

Hypothesis P_item : forall (b : blockRef) (blk : Block) (raw : string) (t : item) (v : Value),
  valueOf t v -> Items blk !! ToLower raw = None -> Loops blk !! ToLower raw = None ->
  P b blk -> P b (setItem (ToLower raw) v blk).

Hypothesis P_loop : forall (b : blockRef) (blk : Block) (l : loc) (vals : list loopValues)
    (cols : list ValueLoop),
  loopRead blk vals cols -> P b blk -> P b (Parser.bindLoop l vals blk).

Lemma Read_blocks (fuel : nat) (inp : string) (c : CIF) (e : option string) :
  Read fuel inp = Some (Some c, e) ->
  forall b, validRef b c -> P b (getBlock b c).
Proof.
  apply (Read_ind (fun c => forall b, validRef b c -> P b (getBlock b c))).
  - intros [bn|bn fn]; cbn.
    + intros [x Hx]. rewrite lookup_empty in Hx. discriminate Hx.
    + intros (db & Hdb & _). rewrite lookup_empty in Hdb. discriminate Hdb.
  - intros c0 v H b Hv. apply (H b). destruct b; exact Hv.
  - intros c0 raw Hn _ H b Hv.
    destruct (validRef_new_block c0 (ToLower raw) b Hn Hv) as [[-> ->]|[Hv0 ->]].
    + apply P_data.
    + apply H, Hv0.
  - intros c0 dblock raw db Hdb Hn _ H b Hv.
    destruct (validRef_new_frame c0 dblock (ToLower raw) db b Hdb Hn Hv) as [[-> ->]|[Hv0 ->]].
    + apply P_frame.
    + apply H, Hv0.
  - intros c0 b raw t v Hb Hval Hi Hl _ H b' Hv'.
    apply validRef_alterBlock in Hv'.
    destruct (decide (b' = b)) as [->|Hne].
    + rewrite getBlock_alterBlock by exact Hb. eapply P_item; eauto.
    + rewrite getBlock_alterBlock_ne by exact Hne. apply H, Hv'.
  - intros c0 b vals cols Hb Hr _ H b' Hv'.
    apply validRef_alterBlock in Hv'.
    assert (Hv0 : validRef b' c0) by (destruct b'; exact Hv').
    destruct (decide (b' = b)) as [->|Hne].
    + rewrite getBlock_alterBlock by (destruct b; exact Hb).
      apply P_loop with (cols := cols); [exact Hr | apply H, Hb].
    + rewrite getBlock_alterBlock_ne by exact Hne. apply H, Hv0.
Qed.

End BlockInduction.

(** A property that every table has when it is made holds for every
    table of a document of [Read]. *)
Section TableInduction.

Variable Q : Loop -> Prop.

Hypothesis Q_table : forall (blk : Block) (vals : list loopValues) (cols : list ValueLoop),
  loopRead blk vals cols ->
  Q {| Columns := Parser.columnIndex 0 vals ∅; Values := cols |}.

Lemma Read_tables (fuel : nat) (inp : string) (c : CIF) (e : option string) :
  Read fuel inp = Some (Some c, e) ->
  forall l lp, heap c !! l = Some lp -> Q lp.
Proof.
  apply (Read_ind (fun c => forall l lp, heap c !! l = Some lp -> Q lp)).
  - intros l lp H. discriminate H.
  - intros c0 v H. exact H.
  - intros c0 raw _ _ H. exact H.
  - intros c0 dblock raw db _ _ _ H. exact H.
  - intros c0 b raw t v _ _ _ _ _ H. exact H.
  - intros c0 b vals cols _ Hr _ H l lp Hl. cbn in Hl.
    apply lookup_snoc_Some in Hl as [[_ Hl]|[_ E]].
    + exact (H _ _ Hl).
    + rewrite <- E. exact (Q_table _ _ _ Hr).
Qed.

End TableInduction.

(** ** Names and tags are stored in lower case *)

Lemma lowerRune_idem (c : rune) : lowerRune (lowerRune c) = lowerRune c.
Proof. destruct c as [[] [] [] [] [] [] [] []]; vm_compute; reflexivity. Qed.

Lemma ToLower_idem (s : string) : ToLower (ToLower s) = ToLower s.
Proof.
  induction s as [|c s IH]; [reflexivity|].
  cbn [ToLower]. rewrite lowerRune_idem, IH. reflexivity.
Qed.

(** The key under which a block is stored. *)
Definition refKey (b : blockRef) : string :=
  match b with
  | inData bn => bn
  | inFrame _ fn => fn
  end.

Lemma declared_lowered (blk : Block) (vals : list loopValues) (tag : string) :
  Forall (declared blk) vals -> In tag (names vals) -> ToLower tag = tag.
Proof.
  intros Hd Hin. unfold names in Hin. apply in_map_iff in Hin as (v & <- & Hv).
  rewrite List.Forall_forall in Hd. destruct (Hd v Hv) as ((raw & ->) & _).
  apply ToLower_idem.
Qed.

Lemma bindLoop_is_Some (l : loc) (vals : list loopValues) (blk : Block) (tag : string) :
  is_Some (Loops (Parser.bindLoop l vals blk) !! tag) ->
  In tag (names vals) \/ is_Some (Loops blk !! tag).
Proof.
  intros H. destruct (in_dec string_dec tag (names vals)) as [Hin|Hout].
  - left. exact Hin.
  - right. rewrite bindLoop_lookup_out in H by exact Hout. exact H.
Qed.

(** X8. Everything is stored in lower case and under its own name. In a
    document that [Read] returns, a data block and a save frame are
    stored under a key that is their [Name] and is in lower case, and
    every item tag, every table tag and every column name is in lower
    case. *)
Theorem Read_stores_lower_case (fuel : nat) (inp : string) (c : CIF) (e : option string) :
  Read fuel inp = Some (Some c, e) ->
  (forall b, validRef b c ->
     Name (getBlock b c) = refKey b /\ ToLower (refKey b) = refKey b /\
     forall tag, is_Some (Items (getBlock b c) !! tag) \/
                 is_Some (Loops (getBlock b c) !! tag) -> ToLower tag = tag) /\
  (forall l lp tag, heap c !! l = Some lp -> is_Some (Columns lp !! tag) ->
                    ToLower tag = tag).
Proof.
  intros H. split.
  - revert H.
    apply (Read_blocks (fun b blk =>
             Name blk = refKey b /\ ToLower (refKey b) = refKey b /\
             forall tag, is_Some (Items blk !! tag) \/ is_Some (Loops blk !! tag) ->
                         ToLower tag = tag)).
    + intros raw. cbn. split; [reflexivity|]. split; [apply ToLower_idem|].
      intros tag [[x Hx]|[x Hx]]; rewrite lookup_empty in Hx; discriminate Hx.
    + intros dblock raw. cbn. split; [reflexivity|]. split; [apply ToLower_idem|].
      intros tag [[x Hx]|[x Hx]]; rewrite lookup_empty in Hx; discriminate Hx.
    + intros b blk raw t v _ _ _ (H1 & H2 & H3). cbn.
      split; [exact H1|]. split; [exact H2|].
      intros tag [Ht|Ht].
      * apply lookup_insert_is_Some in Ht as [<-|[_ Ht]]; [apply ToLower_idem|].
        apply H3. left. exact Ht.
      * apply H3. right. exact Ht.
    + intros b blk l vals cols Hr (H1 & H2 & H3).
      rewrite bindLoop_Name, bindLoop_Items.
      split; [exact H1|]. split; [exact H2|].
      intros tag [Ht|Ht].
      * apply H3. left. exact Ht.
      * apply bindLoop_is_Some in Ht as [Ht|Ht].
        -- exact (declared_lowered _ _ _ (lr_declared _ _ _ Hr) Ht).
        -- apply H3. right. exact Ht.
  - intros l lp tag Hl. revert tag. revert l lp Hl. revert H.
    apply (Read_tables (fun lp => forall tag, is_Some (Columns lp !! tag) ->
                                              ToLower tag = tag)).
    intros blk vals cols Hr tag Ht. cbn in Ht.
    apply columnIndex_is_Some in Ht as [Ht|[x Hx]].
    + exact (declared_lowered _ _ _ (lr_declared _ _ _ Hr) Ht).
    + rewrite lookup_empty in Hx. discriminate Hx.
Qed.

(** A table read under tags in capitals. *)
Definition capitalsInput : string :=
  "data_ABC" +:+ nl +:+ "_Item 1" +:+ nl +:+ "loop_" +:+ nl +:+ "_Tag" +:+ nl +:+ "x" +:+ nl.

Definition capitalsDoc : CIF :=
  {| Version := "";
     Blocks := {[ "abc" := {| dataBlock := {| Name := "abc";
                                               Items := {[ "item" := cifInt 1 ]};
                                               Loops := {[ "tag" := 0%nat ]} |};
                              Frames := ∅ |} ]};
     heap := [ {| Columns := {[ "tag" := 0 ]}; Values := [cifStrings ["x"]] |} ] |}.

Example Read_capitalsInput : Read 200 capitalsInput = Some (Some capitalsDoc, None).
Proof. vm_compute. reflexivity. Qed.

Lemma Read_stores_lower_case_witness :
  Name (getBlock (inData "abc") capitalsDoc) = "abc".
Proof.
  exact (proj1 (proj1 (Read_stores_lower_case 200 capitalsInput capitalsDoc None
                         Read_capitalsInput)
                      (inData "abc") ltac:(vm_compute; eexists; reflexivity))).
Defined.

(** ** A tag names one thing in its block *)

(** X9. In every block of a document that [Read] returns, no tag is both
    the tag of an item and a tag of a table. *)
Theorem Read_tags_are_unique (fuel : nat) (inp : string) (c : CIF) (e : option string)
    (b : blockRef) (tag : string) :
  Read fuel inp = Some (Some c, e) -> validRef b c ->
  is_Some (Items (getBlock b c) !! tag) -> Loops (getBlock b c) !! tag = None.
Proof.
  intros H Hv. revert tag.
  revert b Hv. revert H.
  apply (Read_blocks (fun _ blk => forall tag, is_Some (Items blk !! tag) ->
                                               Loops blk !! tag = None)).
  - intros raw tag [x Hx]. cbn in Hx. rewrite lookup_empty in Hx. discriminate Hx.
  - intros dblock raw tag [x Hx]. cbn in Hx. rewrite lookup_empty in Hx. discriminate Hx.
  - intros b blk raw t v _ Hi Hl H tag Ht. cbn in *.
    apply lookup_insert_is_Some in Ht as [<-|[_ Ht]]; [exact Hl | exact (H _ Ht)].
  - intros b blk l vals cols Hr H tag Ht. rewrite bindLoop_Items in Ht.
    destruct (in_dec string_dec tag (names vals)) as [Hin|Hout].
    + exfalso. unfold names in Hin. apply in_map_iff in Hin as (v & <- & Hv).
      pose proof (lr_declared _ _ _ Hr) as Hd. rewrite List.Forall_forall in Hd.
      destruct (Hd v Hv) as (_ & Hi & _). rewrite Hi in Ht. destruct Ht as [x Hx].
      discriminate Hx.
    + rewrite bindLoop_lookup_out by exact Hout. exact (H _ Ht).
Qed.

Lemma Read_tags_are_unique_witness :
  Loops (getBlock (inData "abc") capitalsDoc) !! "item" = None.
Proof.
  exact (Read_tags_are_unique 200 capitalsInput capitalsDoc None (inData "abc") "item"
           Read_capitalsInput ltac:(vm_compute; eexists; reflexivity)
           ltac:(vm_compute; eexists; reflexivity)).
Defined.

(** ** What is stored as a value *)

Lemma Atoi_range (s : string) (n : Z) : Atoi s = Some n -> minInt64 <= n <= maxInt64.
Proof.
  unfold Atoi. destruct (readSign s) as [neg s1].
  destruct (readDigits s1 0 0) as [[v k] rest].
  destruct k as [|k]; [discriminate|]. destruct rest; [|discriminate].
  destruct (Z.leb_spec minInt64 (if neg then - v else v)) as [H1|H1]; [|discriminate].
  destruct (Z.leb_spec (if neg then - v else v) maxInt64) as [H2|H2]; [|discriminate].
  intros H. injection H as <-. split; assumption.
Qed.

Lemma ParseFloat_finite (s : string) (f : float64) (sg : bool) :
  ParseFloat s = Some f -> f <> S754_infinity sg.
Proof.
  unfold ParseFloat. destruct (readDecimal s) as [[[neg m] e]|]; [|discriminate].
  destruct (roundDecimal neg m e); intros H; try discriminate H;
    injection H as <-; discriminate.
Qed.

(** The values of the package's own three types, with the numbers that
    the conversions of the parser can return. *)
Definition storable (v : Value) : Prop :=
  match v with
  | cifString _ => True
  | cifInt n => minInt64 <= n <= maxInt64
  | cifFloat f => forall sg, f <> S754_infinity sg
  | foreignValue _ => False
  end.

Definition storableColumn (col : ValueLoop) : Prop :=
  match col with
  | cifStrings _ => True
  | cifInts ns => Forall (fun n => minInt64 <= n <= maxInt64) ns
  | cifFloats fs => Forall (fun f => forall sg, f <> S754_infinity sg) fs
  | foreignValues _ => False
  end.

Lemma valueOf_storable (t : item) (v : Value) : valueOf t v -> storable v.
Proof.
  unfold valueOf. destruct (typ t); try contradiction; try (intros ->; exact I).
  - intros (n & Hn & ->). exact (Atoi_range _ _ Hn).
  - intros (f & Hf & ->) sg. exact (ParseFloat_finite _ _ sg Hf).
Qed.

Lemma converted_storable (v : loopValues) (col : ValueLoop) :
  converted v col -> storableColumn col.
Proof.
  unfold converted. destruct (lv_typ v); try contradiction; try (intros ->; exact I).
  - intros (nums & -> & H). cbn. induction H as [|s n strs nums Hc _ IH]; constructor; [|exact IH].
    unfold intCell in Hc. destruct (isNullText s); [subst n; vm_compute; split; discriminate|].
    exact (Atoi_range _ _ Hc).
  - intros (nums & -> & H). cbn. induction H as [|s n strs nums Hc _ IH]; constructor; [|exact IH].
    unfold floatCell in Hc. destruct (isNullText s); [subst n; intros sg; discriminate|].
    intros sg. exact (ParseFloat_finite _ _ sg Hc).
Qed.

Lemma converted_lookup (vals : list loopValues) (cols : list ValueLoop) (col : ValueLoop) :
  Forall2 converted vals cols -> In col cols ->
  exists j v, vals !! j = Some v /\ cols !! j = Some col /\ converted v col.
Proof.
  intros H Hin. apply list_elem_of_In, list_elem_of_lookup in Hin as [j Hj].
  destruct (Forall2_lookup_r _ _ _ _ _ H Hj) as (v & Hv & Hc).
  exists j, v. repeat split; assumption.
Qed.

Lemma Read_items_storable (fuel : nat) (inp : string) (c : CIF) (e : option string) :
  Read fuel inp = Some (Some c, e) ->
  forall b tag v, validRef b c -> Items (getBlock b c) !! tag = Some v -> storable v.
Proof.
  intros H b tag v Hv. revert tag v. revert b Hv. revert H.
  apply (Read_blocks (fun _ blk => forall tag v, Items blk !! tag = Some v -> storable v)).
  - intros raw tag v Hx. cbn in Hx. rewrite lookup_empty in Hx. discriminate Hx.
  - intros dblock raw tag v Hx. cbn in Hx. rewrite lookup_empty in Hx. discriminate Hx.
  - intros b blk raw t v Hval _ _ H tag v' Ht. cbn in Ht.
    apply lookup_insert_Some in Ht as [[_ <-]|[_ Ht]];
      [exact (valueOf_storable _ _ Hval) | exact (H _ _ Ht)].
  - intros b blk l vals cols _ H tag v Ht. rewrite bindLoop_Items in Ht. exact (H _ _ Ht).
Qed.

Lemma Read_columns_storable (fuel : nat) (inp : string) (c : CIF) (e : option string) :
  Read fuel inp = Some (Some c, e) ->
  forall l lp col, heap c !! l = Some lp -> In col (Values lp) -> storableColumn col.
Proof.
  intros H l lp col Hl. revert col. revert l lp Hl. revert H.
  apply (Read_tables (fun lp => forall col, In col (Values lp) -> storableColumn col)).
  intros blk vals cols Hr col Hin. cbn in Hin.
  destruct (converted_lookup _ _ _ (lr_cols _ _ _ Hr) Hin) as (j & v & _ & _ & Hc).
  exact (converted_storable _ _ Hc).
Qed.

(** X10. [Read] stores strings, 64-bit integers and finite floats only.
    In a document that [Read] returns, the value of an item is a string,
    an integer within the 64-bit range or a float that is not an
    infinity, and so is every cell of every column of every table; no
    value and no column is of a type other than the package's own. *)
Theorem Read_values_are_storable (fuel : nat) (inp : string) (c : CIF) (e : option string) :
  Read fuel inp = Some (Some c, e) ->
  (forall b tag v, validRef b c -> Items (getBlock b c) !! tag = Some v -> storable v) /\
  (forall l lp col, heap c !! l = Some lp -> In col (Values lp) -> storableColumn col).
Proof.
  intros H. split.
  - exact (Read_items_storable _ _ _ _ H).
  - exact (Read_columns_storable _ _ _ _ H).
Qed.

Lemma Read_values_are_storable_witness : storableColumn (cifInts [1; 2; 3]).
Proof.
  exact (proj2 (Read_values_are_storable 200 tableInput tableDoc None Read_tableInput)
           0%nat tableLoop (cifInts [1; 2; 3]) eq_refl ltac:(left; reflexivity)).
Defined.

(** * Further properties of the writer *)

(** ** Writing what was read *)

Lemma formatStrs_Ok (l : list string) :
  exists out, Writer.formatStrs l = Ok out /\ length out = length l.
Proof.
  induction l as [|s l (out & E & Hlen)]; [exists []; split; reflexivity|].
  cbn [Writer.formatStrs]. rewrite formatStr_spec, E.
  eexists. split; [reflexivity|]. cbn. rewrite Hlen. reflexivity.
Qed.

Lemma columnStrs_Ok (col : ValueLoop) :
  storableColumn col ->
  exists strs, Writer.columnStrs col = Ok strs /\ length strs = columnLen col.
Proof.
  destruct col as [l|l|l|t]; cbn; intros H.
  - apply formatStrs_Ok.
  - eexists. split; [reflexivity | apply length_map].
  - eexists. split; [reflexivity | apply length_map].
  - contradiction.
Qed.

Lemma allColumnStrs_Ok (vs : list ValueLoop) :
  Forall storableColumn vs ->
  exists strs, Writer.allColumnStrs vs = Ok strs /\
               Forall2 (fun v s => length s = columnLen v) vs strs.
Proof.
  induction 1 as [|v vs Hv _ (strs & E & HF)]; [exists []; split; [reflexivity | constructor]|].
  destruct (columnStrs_Ok _ Hv) as (s & Es & Hs).
  cbn [Writer.allColumnStrs]. rewrite Es, E.
  eexists. split; [reflexivity|]. constructor; assumption.
Qed.

Section WriterCompletes.

Context {S : Type} (sinkWrite : string -> S -> S * option string).

(** The sink accepts every write. *)
Hypothesis sink_accepts : forall s st, snd (sinkWrite s st) = None.

(** The computation returns, whatever the state of the sink. *)
Definition wok {A} (c : @Writer.W S A) : Prop :=
  forall st, exists st' a, c st = (st', Ok a).

Lemma wok_ret {A} (a : A) : wok (Writer.wret a).
Proof. intros st. exists st, a. reflexivity. Qed.

Lemma wok_bind {A B} (c : @Writer.W S A) (k : A -> @Writer.W S B) (R : A -> Prop) :
  (forall st, exists st' a, c st = (st', Ok a) /\ R a) ->
  (forall a, R a -> wok (k a)) -> wok (Writer.wbind c k).
Proof.
  intros Hc Hk st. destruct (Hc st) as (st1 & a & E & Ha).
  unfold Writer.wbind. rewrite E. apply Hk, Ha.
Qed.

Lemma wok_seq {A B} (c : @Writer.W S A) (k : A -> @Writer.W S B) :
  wok c -> (forall a, wok (k a)) -> wok (Writer.wbind c k).
Proof.
  intros Hc Hk. apply (wok_bind c k (fun _ => True)).
  - intros st. destruct (Hc st) as (st1 & a & E). exists st1, a. split; [exact E | exact I].
  - intros a _. apply Hk.
Qed.

Lemma wok_pf (s : string) : wok (Writer.pf sinkWrite s).
Proof.
  intros st. unfold Writer.pf. pose proof (sink_accepts s st) as H.
  destruct (sinkWrite s st) as [st' o]. cbn in H. subst o. exists st', tt. reflexivity.
Qed.

Lemma wok_forEach {A} (l : list A) (body : A -> @Writer.W S unit) :
  (forall a, In a l -> wok (body a)) -> wok (Writer.forEach l body).
Proof.
  induction l as [|a l IH]; intros Hb; cbn [Writer.forEach].
  - apply wok_ret.
  - apply wok_seq; [apply Hb; left; reflexivity|].
    intros _. apply IH. intros a' Ha'. apply Hb. right. exact Ha'.
Qed.

Lemma wok_valToStr (v : Value) : storable v -> wok (@Writer.valToStr S v).
Proof.
  destruct v; cbn; intros H; try contradiction; try apply wok_ret.
  intros st. unfold Writer.ofRes. rewrite formatStr_spec. eexists _, _. reflexivity.
Qed.

Lemma wok_writeRow (strs : list (list string)) (row : nat) (before : string) :
  Forall (fun col => (row < length col)%nat) strs ->
  wok (Writer.writeRow sinkWrite strs row before).
Proof.
  intros H. revert before. induction H as [|col strs Hc _ IH]; intros before;
    cbn [Writer.writeRow]; [apply wok_ret|].
  destruct (lookup_lt_is_Some_2 col row Hc) as [s ->].
  apply wok_seq; [apply wok_pf | intros _; apply IH].
Qed.

(** A table that [writeLoop] can write: it has the shape of the tables
    of [Read], and its columns are of the package's types. *)
Definition writable (lp : Loop) : Prop :=
  tableShape lp /\ Forall storableColumn (Values lp).

Lemma wok_writeLoop (lp : Loop) : writable lp -> wok (Writer.writeLoop sinkWrite lp).
Proof.
  intros [((L & HL & Hlen) & Hne & _) Hst]. unfold Writer.writeLoop.
  apply wok_seq; [apply wok_pf | intros _].
  apply wok_seq; [apply wok_forEach; intros i _; apply wok_pf | intros _].
  destruct (allColumnStrs_Ok _ Hst) as (strs & E & HF).
  apply (wok_bind _ _ (fun s => s = strs)).
  - intros st. exists st, strs. unfold Writer.ofRes. rewrite E. split; reflexivity.
  - intros s ->.
    assert (HL' : Forall (fun col => length col = L) strs).
    { apply Forall_lookup. intros j s Hj.
      destruct (Forall2_lookup_r _ _ _ _ _ HF Hj) as (v & Hv & Hs).
      rewrite Forall_lookup in Hlen. rewrite Hs. exact (Hlen _ _ Hv). }
    destruct strs as [|col0 strs].
    { apply Forall2_length in HF. destruct (Values lp); [contradiction | discriminate HF]. }
    apply wok_forEach. intros row Hrow. apply in_seq in Hrow.
    apply wok_seq; [|intros _; apply wok_pf].
    apply wok_writeRow. pose proof (Forall_inv HL') as H0. cbn in H0.
    eapply Forall_impl; [exact HL'|]. intros col Hcol. cbn in Hcol. lia.
Qed.

Lemma wok_writeLoops (h : list Loop) (ls : list (string * loc)) (written : list Loop) :
  (forall tag l, In (tag, l) ls -> exists lp, h !! l = Some lp /\ writable lp) ->
  wok (Writer.writeLoops sinkWrite h ls written).
Proof.
  revert written. induction ls as [|[tag l] ls IH]; intros written H;
    cbn [Writer.writeLoops]; [apply wok_ret|].
  destruct (H tag l (or_introl eq_refl)) as (lp & -> & Hw).
  assert (H' : forall tag l, In (tag, l) ls -> exists lp, h !! l = Some lp /\ writable lp).
  { intros tag' l' Hin. apply (H tag' l'). right. exact Hin. }
  destruct (loopWritten written lp); [apply IH, H'|].
  apply wok_seq; [apply wok_writeLoop, Hw | intros _; apply IH, H'].
Qed.

(** A block that [writeBlock] can write, with the tables of the heap [h]. *)
Definition writableBlock (h : list Loop) (blk : Block) : Prop :=
  (forall tag v, Items blk !! tag = Some v -> storable v) /\
  (forall tag l, Loops blk !! tag = Some l -> exists lp, h !! l = Some lp /\ writable lp).

Lemma wok_writeBlock (h : list Loop) (blk : Block) :
  writableBlock h blk -> wok (Writer.writeBlock sinkWrite h blk).
Proof.
  intros [Hi Hl]. unfold Writer.writeBlock. apply wok_seq.
  - apply wok_forEach. intros [tag v] Hin.
    apply list_elem_of_In, elem_of_map_to_list in Hin.
    apply wok_seq; [apply wok_valToStr; exact (Hi _ _ Hin) | intros s; apply wok_pf].
  - intros _. apply wok_writeLoops. intros tag l Hin.
    apply list_elem_of_In, elem_of_map_to_list in Hin. exact (Hl _ _ Hin).
Qed.

Lemma wok_writeBody (c : CIF) :
  (forall b, validRef b c -> writableBlock (heap c) (getBlock b c)) ->
  wok (Writer.writeBody sinkWrite c).
Proof.
  intros H. unfold Writer.writeBody. apply wok_seq.
  - destruct (0 <? String.length (Version c))%nat; [apply wok_pf | apply wok_ret].
  - intros _. apply wok_forEach. intros [k db] Hin.
    apply list_elem_of_In, elem_of_map_to_list in Hin.
    unfold Writer.writeDataBlock.
    apply wok_seq; [apply wok_pf | intros _]. apply wok_seq.
    + apply wok_forEach. intros [fk frame] Hf.
      apply list_elem_of_In, elem_of_map_to_list in Hf.
      apply wok_seq; [apply wok_pf | intros _].
      apply wok_seq; [|intros _; apply wok_pf].
      apply wok_writeBlock.
      specialize (H (inFrame k fk)). cbn in H. rewrite Hin, Hf in H.
      apply H. exists db. split; [reflexivity | eauto].
    + intros _. apply wok_writeBlock.
      specialize (H (inData k)). cbn in H. rewrite Hin in H. apply H. eauto.
Qed.

End WriterCompletes.

Lemma Read_writable (fuel : nat) (inp : string) (c : CIF) (e : option string) :
  Read fuel inp = Some (Some c, e) ->
  forall b, validRef b c -> writableBlock (heap c) (getBlock b c).
Proof.
  intros H b Hv. split.
  - intros tag v Ht. exact (Read_items_storable _ _ _ _ H b tag v Hv Ht).
  - intros tag l Hl. pose proof (Read_wf _ _ _ _ H) as [Hs Hb _].
    destruct (Hb b tag l Hv Hl) as (lp & Hlp & _ & _).
    exists lp. split; [exact Hlp|]. split; [exact (Hs _ _ Hlp)|].
    apply List.Forall_forall. intros col Hc.
    exact (Read_columns_storable _ _ _ _ H l lp col Hlp Hc).
Qed.

(** X12. [Write] writes the whole of a document that [Read] has
    returned: on a sink that accepts every write, the body of [write]
    runs to its end without a panic, so that no value is of an
    unsupported type, no table is missing and no cell of a table is
    out of range. *)
Theorem Write_completes_after_Read (S : Type) (sinkWrite : string -> S -> S * option string)
    (fuel : nat) (inp : string) (c : CIF) (e : option string) (st : S) :
  (forall s st, snd (sinkWrite s st) = None) ->
  Read fuel inp = Some (Some c, e) ->
  exists st', Writer.writeBody sinkWrite c st = (st', Ok tt).
Proof.
  intros Hs H.
  destruct (wok_writeBody sinkWrite Hs c (Read_writable _ _ _ _ H) st) as (st' & [] & E).
  exists st'. exact E.
Qed.

Lemma Write_completes_after_Read_witness :
  exists out, Writer.writeBody bufferWrite tableDoc "" = (out, Ok tt).
Proof.
  exact (Write_completes_after_Read string bufferWrite 200 tableInput tableDoc None ""
           (fun s st => eq_refl) Read_tableInput).
Defined.

(** * Further properties of [Read] *)

(** ** An input that does not start a document *)

(** The input starts with a comment, with white space or with the
    heading of a data block, in small letters or capitals. *)
Definition startsDocument (inp : string) : bool :=
  match inp with
  | EmptyString => false
  | String c _ =>
      req c commentStart || isWhiteSpace c || streq (ToLower (substring 0 5 inp)) "data_"
  end.

Lemma nextItem_unfold (f : nat) (lx : lexer) (s : stateFn) :
  emitted lx = None -> state lx = Some s ->
  nextItem (S f) lx = (runState s ;; nextItem f)%go lx.
Proof. intros He Hs. cbn [nextItem]. rewrite He, Hs. reflexivity. Qed.

Lemma nextItem_nil (f : nat) (lx : lexer) :
  state lx = None -> nextItem f lx = Ok (mkItem itemEOF "" 0, lx).
Proof. intros Hs. destruct f; cbn [nextItem]; rewrite Hs; destruct (emitted lx); reflexivity. Qed.

Lemma nextItem_junk (f : nat) (inp : string) :
  startsDocument inp = false ->
  exists lx', nextItem (S (S f)) (lex inp) = Ok (mkItem itemEOF "" 0, lx').
Proof.
  intros Hj. destruct inp as [|c rest].
  - eexists. destruct f; vm_compute; reflexivity.
  - cbn [startsDocument] in Hj.
    apply orb_false_iff in Hj as [Hj Hd]. apply orb_false_iff in Hj as [Hc Hw].
    rewrite (nextItem_unfold _ _ St.lexCifInitial) by reflexivity.
    destruct (next_then_backup (lex (String c rest))) as (lx1 & w & Hn & Hb).
    change (ahead (lex (String c rest))) with c in Hn.
    unfold runState. cbn [call]. unfold lexCifInitial.
    unfold bind at 1. unfold bind at 1. unfold bind at 1. rewrite Hn, Hc.
    unfold bind at 1. rewrite Hb. cbn [ret modify].
    set (lx2 := set_state (Some St.lexCif) (set_width w (lex (String c rest)))).
    rewrite (nextItem_unfold _ lx2 St.lexCif) by reflexivity.
    unfold runState. cbn [call]. unfold lexCif.
    assert (Hp : peek lx2 = Ok (c, lx2)) by reflexivity.
    unfold bind at 1. unfold bind at 1. unfold bind at 1. rewrite Hp.
    destruct (req c eof) eqn:Ee.
    + assert (Hs : exists lx3, stop lx2 = Ok (None, lx3)).
      { eexists. unfold stop, ignore, emit, current, bind, modify, ret. cbn. reflexivity. }
      destruct Hs as (lx3 & ->). cbn [modify]. eexists. apply nextItem_nil. reflexivity.
    + rewrite Hc, Hw. cbn [orb].
      assert (Hpk : peekAt 5 lx2 = Ok (substring 0 5 (String c rest), lx2)) by reflexivity.
      unfold bind at 1. rewrite Hpk, Hd. cbn [ret modify].
      eexists. apply nextItem_nil. reflexivity.
Qed.

(** X13. An input that does not start a document is read as the empty
    document. When the input is empty, or its first byte is neither the
    start of a comment nor white space and its first five bytes are not
    [data_] in any case, the scanner stops at once without an error
    item, and [Read] returns the empty document and no error, whatever
    follows. *)
Theorem Read_accepts_junk (f : nat) (inp : string) :
  startsDocument inp = false ->
  Read (S (S f)) inp = Some (Some emptyCIF, None).
Proof.
  intros Hj. destruct (nextItem_junk f inp Hj) as (lx' & Hn).
  unfold Read, Parser.parse, Parser.parseBody.
  rewrite (bind_step _ _ _ _ tt eq_refl).
  set (p0 := Parser.set_lx (lex inp) _).
  assert (Hnext : Parser.next (S (S f)) p0 =
                  Ok (mkItem itemEOF "" 0, Parser.set_p_line 0 (Parser.set_lx lx' p0))).
  { rewrite next_unfold.
    rewrite (bind_step _ _ _ _ _ (onLexer_step (nextItem (S (S f))) p0 (lex inp) lx' _
                                    eq_refl Hn)).
    reflexivity. }
  rewrite (bind_step _ _ _ _ _ Hnext). reflexivity.
Qed.

Lemma Read_accepts_junk_witness :
  Read 2 "this is not a CIF file" = Some (Some emptyCIF, None).
Proof. exact (Read_accepts_junk 0 "this is not a CIF file" eq_refl). Defined.

(** * The errors of [Read] *)

(** ** The panics of the scanner and of the parser *)

(** Every panic of the computation satisfies [R]. *)
Definition raises {S A : Type} (c : M S A) (R : panic -> Prop) : Prop :=
  forall s e, c s = Panic e -> R e.

Lemma raises_ret {S A} (a : A) (R : panic -> Prop) : raises (@ret S A a) R.
Proof. intros s e H. discriminate H. Qed.

Lemma raises_gets {S A} (f : S -> A) (R : panic -> Prop) : raises (gets f) R.
Proof. intros s e H. discriminate H. Qed.

Lemma raises_modify {S} (f : S -> S) (R : panic -> Prop) : raises (modify f) R.
Proof. intros s e H. discriminate H. Qed.

Lemma raises_outOfFuel {S A} (R : panic -> Prop) : raises (@outOfFuel S A) R.
Proof. intros s e H. discriminate H. Qed.

Lemma raises_raise {S A} (e : panic) (R : panic -> Prop) : R e -> raises (@raise S A e) R.
Proof. intros HR s e' H. injection H as <-. exact HR. Qed.

Lemma raises_bind {S A B} (c : M S A) (k : A -> M S B) (R : panic -> Prop) :
  raises c R -> (forall a, raises (k a) R) -> raises (bind c k) R.
Proof.
  intros Hc Hk s e H. unfold bind in H.
  destruct (c s) as [[a s1]|e1|] eqn:E; [|injection H as <-|discriminate H].
  - exact (Hk a _ _ H).
  - exact (Hc _ _ E).
Qed.

(** A panic that is not one of the parser's errors. *)
Definition notCifError (e : panic) : Prop :=
  match e with
  | cifError _ => False
  | _ => True
  end.

Create HintDb raisesdb.

Ltac raises_step :=
  lazymatch goal with
  | |- raises (ret _) _ => apply raises_ret
  | |- raises (bind _ _) _ => apply raises_bind; [raises_step | intros ?; raises_step]
  | |- raises (gets _) _ => apply raises_gets
  | |- raises (modify _) _ => apply raises_modify
  | |- raises outOfFuel _ => apply raises_outOfFuel
  | |- raises (raise _) _ => apply raises_raise; exact I
  | |- raises (if ?b then _ else _) _ => destruct b; raises_step
  | |- raises (match ?x with _ => _ end) _ => destruct x; raises_step
  | |- _ => solve [auto with raisesdb]
  end.

Lemma raises_lex_errf (msg : string) : raises (errf msg) notCifError.
Proof. intros s e H. discriminate H. Qed.

Lemma raises_pop : raises pop notCifError.
Proof. intros s e H. unfold pop in H. destruct (stack s); discriminate H. Qed.

Lemma raises_current : raises current notCifError.
Proof.
  intros s e H. unfold current in H.
  destruct (_ && _); [discriminate H | injection H as <-; exact I].
Qed.

Lemma raises_emit (t : itemType) : raises (emit t) notCifError.
Proof.
  intros s e H. unfold emit in H. destruct (emitted s); [injection H as <-; exact I|].
  revert s e H. change (raises (cur <- current ;;
    modify (fun lx => set_start (pos lx)
                        (set_emitted (Some (mkItem t cur (lx_line lx))) lx)))%go notCifError).
  apply raises_bind; [exact raises_current | intros cur; apply raises_modify].
Qed.

Lemma raises_lex_next : raises next notCifError.
Proof. intros s e H. unfold next in H. destruct (String.get _ _); discriminate H. Qed.

#[local] Hint Resolve raises_lex_errf raises_pop raises_current raises_emit
  raises_lex_next : raisesdb.

Lemma raises_acceptRunes (rs whole : string) : raises (acceptRunes rs whole) notCifError.
Proof.
  induction rs as [|r rs IH]; cbn [acceptRunes]; unfold accept, backup, peek; raises_step.
Qed.

#[local] Hint Resolve raises_acceptRunes : raisesdb.

Lemma raises_lexVersionLetters (letters : list rune) :
  raises (lexVersionLetters letters) notCifError.
Proof.
  induction letters as [|r rs IH]; cbn [lexVersionLetters]; unfold push; raises_step.
Qed.

Lemma raises_lexValueQuotedLoop (fuel : nat) (quote : rune) :
  raises (lexValueQuotedLoop fuel quote) notCifError.
Proof.
  induction fuel as [|f IH]; cbn [lexValueQuotedLoop];
    unfold lexSpaceOrEof, accept, backup, ignore, push, peekAt; raises_step.
Qed.

#[local] Hint Resolve raises_lexVersionLetters raises_lexValueQuotedLoop : raisesdb.

(** No state function of the scanner panics with an error of the parser. *)
Lemma raises_call (s : stateFn) : raises (call s) notCifError.
Proof.
  destruct s; cbn [call];
    unfold lexCifInitial, lexCif, lexDataBlockHeading, lexSaveFrameHeading, lexDataBlocks,
      lexFirstSaveDataItem, lexSaveDataItems, lexSaveFrameEnd, lexDataItem,
      lexLoopStartWhiteSpace, lexLoopStart, lexLoopTags, lexLoopStartValue, lexLoopValues,
      lexDataTag, lexOneOrMore, lexPred, lexVersion, lexSpaceOrEofContinue,
      lexWhiteSpaceContinue, lexComment, lexValue, lexValueEnd, lexValueIntegerStart,
      lexValueInteger, lexValueExponentFirst, lexValueExponent, lexValueFloatAfterDecimal,
      lexValueTextFieldFirstLine, lexValueTextField, lexValueUnquotedEnd, lexValueQuoted,
      fallBackUnquoted, lexSpaceOrEof, lexWhiteSpace, acceptStr, chars, stop, aheadMatch,
      accept, backup, ignore, push, peek, peekAt;
    raises_step.
Qed.

Lemma raises_nextItem (fuel : nat) : raises (nextItem fuel) notCifError.
Proof.
  induction fuel as [|f IH]; intros lx e H; cbn [nextItem] in H.
  - destruct (emitted lx), (state lx); discriminate H.
  - destruct (emitted lx), (state lx) as [s|]; try discriminate H.
    revert lx e H. change (raises (runState s ;; nextItem f)%go notCifError).
    apply raises_bind; [|intros _; exact IH].
    unfold runState. apply raises_bind; [apply raises_call | intros nx; apply raises_modify].
Qed.

(** A panic of the parser: when it carries an error of the parser, the
    error was made by [errf], with the line of the parser in front. *)
Definition parseError (e : panic) : Prop :=
  match e with
  | cifError t => exists ln msg, t = parseErrorText ln msg
  | _ => True
  end.

Lemma raises_onLexer {A} (c : L A) :
  raises c notCifError -> raises (Parser.onLexer c) parseError.
Proof.
  intros Hc p e H. unfold Parser.onLexer in H.
  destruct (c (lx p)) as [[a l]|e1|] eqn:E; try discriminate H.
  injection H as <-. specialize (Hc _ _ E). destruct e1; [contradiction | exact I | exact I].
Qed.

Lemma raises_parse_errf {A} (msg : string) : raises (@Parser.errf A msg) parseError.
Proof. intros p e H. injection H as <-. eexists _, _. reflexivity. Qed.

Lemma raises_AsValue (a : any) : raises (@AsValue parser a) parseError.
Proof. destruct a; cbn [AsValue]; raises_step. Qed.

Lemma raises_AsValues (a : any) : raises (@AsValues parser a) parseError.
Proof. destruct a; cbn [AsValues]; raises_step. Qed.

Lemma raises_sliceFrom (s : string) (i : nat) : raises (@sliceFrom parser s i) parseError.
Proof. unfold sliceFrom. raises_step. Qed.

#[local] Hint Resolve raises_parse_errf raises_AsValue raises_AsValues raises_sliceFrom
  raises_onLexer raises_nextItem : raisesdb.

Lemma raises_ext {S A} (c c' : M S A) (R : panic -> Prop) :
  (forall s, c s = c' s) -> raises c' R -> raises c R.
Proof. intros E H s e Hc. rewrite E in Hc. exact (H _ _ Hc). Qed.

Lemma raises_parse_next (fuel : nat) : raises (Parser.next fuel) parseError.
Proof.
  induction fuel as [|f IH]; [apply raises_outOfFuel|].
  apply (raises_ext _ _ _ (next_unfold f)). raises_step.
Qed.

Lemma raises_typeName (t : itemType) : raises (Parser.typeName t) parseError.
Proof. unfold Parser.typeName. raises_step. Qed.

#[local] Hint Resolve raises_parse_next raises_typeName : raisesdb.

Lemma raises_parseValue (t : item) (bname name : string) :
  raises (Parser.parseValue t bname name) parseError.
Proof. unfold Parser.parseValue. raises_step. Qed.

Lemma raises_assertUniqueTag (b : blockRef) (name : string) :
  raises (Parser.assertUniqueTag b name) parseError.
Proof. unfold Parser.assertUniqueTag. raises_step. Qed.

#[local] Hint Resolve raises_parseValue raises_assertUniqueTag : raisesdb.

Lemma raises_parseItemValue (fuel : nat) (b : blockRef) (name : string) :
  raises (Parser.parseItemValue fuel b name) parseError.
Proof. unfold Parser.parseItemValue. raises_step. Qed.

Lemma raises_convertInts (strs : list string) : raises (Parser.convertInts strs) parseError.
Proof.
  induction strs as [|s strs IH]; [apply raises_ret|].
  rewrite convertInts_cons. raises_step.
Qed.

Lemma raises_convertFloats (strs : list string) :
  raises (Parser.convertFloats strs) parseError.
Proof.
  induction strs as [|s strs IH]; [apply raises_ret|].
  rewrite convertFloats_cons. raises_step.
Qed.

#[local] Hint Resolve raises_parseItemValue raises_convertInts raises_convertFloats
  : raisesdb.

Lemma raises_convertColumn (bname : string) (v : loopValues) :
  raises (Parser.convertColumn bname v) parseError.
Proof. unfold Parser.convertColumn. raises_step. Qed.

#[local] Hint Resolve raises_convertColumn : raisesdb.

Lemma raises_convertColumns (bname : string) (vals : list loopValues) :
  raises (Parser.convertColumns bname vals) parseError.
Proof. induction vals as [|v vals IH]; cbn [Parser.convertColumns]; raises_step. Qed.

#[local] Hint Resolve raises_convertColumns : raisesdb.

Lemma raises_convertLoopValues (b : blockRef) (vals : list loopValues) :
  raises (Parser.convertLoopValues b vals) parseError.
Proof.
  unfold Parser.convertLoopValues.
  apply raises_bind; [apply raises_gets | intros bname].
  apply raises_bind; [apply raises_convertColumns | intros cols].
  apply raises_bind; [intros p e H; discriminate H | intros l].
  raises_step.
Qed.

Lemma raises_parseLoopTags (fuel : nat) (b : blockRef) (t : item) (i : Z)
    (vals : list loopValues) :
  raises (Parser.parseLoopTags fuel b t i vals) parseError.
Proof.
  revert t i vals. induction fuel as [|f IH]; intros t i vals;
    cbn [Parser.parseLoopTags]; raises_step.
Qed.

Lemma raises_addValue (t : item) (i : nat) (vals : list loopValues) :
  raises (Parser.addValue t i vals) parseError.
Proof. unfold Parser.addValue. raises_step. Qed.

#[local] Hint Resolve raises_convertLoopValues raises_parseLoopTags raises_addValue
  : raisesdb.

Lemma raises_parseLoopValues (fuel : nat) (t : item) (i count : nat)
    (vals : list loopValues) :
  raises (Parser.parseLoopValues fuel t i count vals) parseError.
Proof.
  revert t i count vals. induction fuel as [|f IH]; intros t i count vals;
    cbn [Parser.parseLoopValues]; raises_step.
Qed.

#[local] Hint Resolve raises_parseLoopValues : raisesdb.

Lemma raises_parseLoop (fuel : nat) (b : blockRef) : raises (Parser.parseLoop fuel b) parseError.
Proof. unfold Parser.parseLoop. raises_step. Qed.

Lemma raises_unexpectedInBlock {A} (t : item) :
  raises (@Parser.unexpectedInBlock A t) parseError.
Proof. unfold Parser.unexpectedInBlock. raises_step. Qed.

#[local] Hint Resolve raises_parseLoop raises_unexpectedInBlock : raisesdb.

Lemma raises_parseSaveFrameLoop (fuel : nat) (frame : blockRef) (t : item) :
  raises (Parser.parseSaveFrameLoop fuel frame t) parseError.
Proof.
  revert t. induction fuel as [|f IH]; intros t;
    cbn [Parser.parseSaveFrameLoop]; raises_step.
Qed.

#[local] Hint Resolve raises_parseSaveFrameLoop : raisesdb.

Lemma raises_parseSaveFrame (fuel : nat) (dblock name : string) :
  raises (Parser.parseSaveFrame fuel dblock name) parseError.
Proof. unfold Parser.parseSaveFrame. raises_step. Qed.

#[local] Hint Resolve raises_parseSaveFrame : raisesdb.

Lemma raises_parseDataBlockLoop (fuel : nat) (dblock : string) (t : item) :
  raises (Parser.parseDataBlockLoop fuel dblock t) parseError.
Proof.
  revert t. induction fuel as [|f IH]; intros t;
    cbn [Parser.parseDataBlockLoop]; raises_step.
Qed.

#[local] Hint Resolve raises_parseDataBlockLoop : raisesdb.

Lemma raises_parseDataBlock (fuel : nat) (name : string) :
  raises (Parser.parseDataBlock fuel name) parseError.
Proof. unfold Parser.parseDataBlock. raises_step. Qed.

#[local] Hint Resolve raises_parseDataBlock : raisesdb.

Lemma raises_parseLoopTop (fuel : nat) (t : item) :
  raises (Parser.parseLoopTop fuel t) parseError.
Proof.
  revert t. induction fuel as [|f IH]; intros t;
    cbn [Parser.parseLoopTop]; raises_step.
Qed.

#[local] Hint Resolve raises_parseLoopTop : raisesdb.

Lemma raises_parseBody (fuel : nat) (inp : string) :
  raises (Parser.parseBody fuel inp) parseError.
Proof. unfold Parser.parseBody. raises_step. Qed.

(** What [ioutil.ReadAll] makes of the reader that [Read] is given: the
    bytes that the reader delivers, or the error that stops it. *)
Inductive readerResult : Type :=
| delivers (bytes : string)
| failsWith (err : string).

(** [Read] on any reader: when [ReadAll] returns an error, [Read] returns
    it as it is, with no document; otherwise it parses the bytes. *)
Definition ReadFrom (fuel : nat) (r : readerResult) : option Parser.result :=
  match r with
  | delivers inp => Read fuel inp
  | failsWith err => Some (None, Some err)
  end.

(** X14. Every error that [Read] returns is the error of its reader or an
    error of the parser with a line number: when [Read] returns an error
    it returns no document, and the error is the one that stopped the
    reader, or else its text is [CIF parse error (line N): ] followed by
    a message; the scanner and the conversions raise no error of their
    own. *)
Theorem Read_errors_are_located (fuel : nat) (r : readerResult) (oc : option CIF)
    (e : string) :
  ReadFrom fuel r = Some (oc, Some e) ->
  oc = None /\
  (r = failsWith e \/
   exists (inp : string) (ln : Z) (msg : string),
     r = delivers inp /\ e = "CIF parse error (line " +:+ itoa ln +:+ "): " +:+ msg).
Proof.
  destruct r as [inp|err]; cbn [ReadFrom].
  - unfold Read, Parser.parse.
    destruct (Parser.parseBody fuel inp _) as [[c p]|[t|t|t]|] eqn:E; intros H;
      try discriminate H.
    injection H as <- <-. split; [reflexivity|]. right.
    destruct (raises_parseBody fuel inp _ _ E) as (ln & msg & Hm).
    exists inp, ln, msg. split; [reflexivity | exact Hm].
  - intros H. injection H as <- <-. split; [reflexivity|]. left. reflexivity.
Qed.

Lemma Read_errors_are_located_witness :
  delivers arityInput = failsWith arityError \/
  exists (inp : string) (ln : Z) (msg : string),
    delivers arityInput = delivers inp /\
    arityError = "CIF parse error (line " +:+ itoa ln +:+ "): " +:+ msg.
Proof.
  exact (proj2 (Read_errors_are_located 100 (delivers arityInput) None arityError
                  Read_arityInput)).
Defined.

(** ** A data block heading *)

Definition headingInput (name : string) : string := "data_" +:+ name.

(** The lexer inside the name of a heading: [k] bytes of the name have
    been read. *)
Definition inName (inp : string) (k w : nat) (s : stateFn) : lexer :=
  {| input := inp; start := 5; pos := 5 + k; width := w; lx_line := 1;
     state := Some s; emitted := None; stack := [Some St.lexDataBlockHeading];
     pred := predNonBlankChar |}.

(** The lexer after the heading. *)
Definition afterHeading (inp : string) (n : nat) : lexer :=
  {| input := inp; start := 5 + n; pos := 5 + n; width := 0; lx_line := 1;
     state := Some St.lexSpaceOrEofContinue; emitted := None;
     stack := [Some St.lexDataBlocks]; pred := predNonBlankChar |}.

Lemma heading_start (name : string) :
  (runState St.lexCifInitial ;; runState St.lexCif)%go (lex (headingInput name))
  = Ok (tt, inName (headingInput name) 0 1 St.lexOneOrMore).
Proof. destruct name; vm_compute; reflexivity. Qed.

Lemma get_heading (k : nat) (name : string) :
  String.get (5 + k) (headingInput name) = String.get k name.
Proof. reflexivity. Qed.

Lemma nonBlank_plain (c : rune) :
  isNonBlankChar c = true -> req c newline = false.
Proof.
  destruct c as [[] [] [] [] [] [] [] []]; vm_compute; intros H;
    first [discriminate H | reflexivity].
Qed.

Lemma heading_step (name : string) (k w : nat) (c : rune) (s : stateFn) :
  s = St.lexOneOrMore \/ s = St.lexPred ->
  String.get k name = Some c -> isNonBlankChar c = true ->
  runState s (inName (headingInput name) k w s)
  = Ok (tt, inName (headingInput name) (S k) 1 St.lexPred).
Proof.
  intros Hs Hg Hc.
  assert (Hn : next (inName (headingInput name) k w s)
               = Ok (c, set_pos (5 + k + 1) (set_width 1 (inName (headingInput name) k w s)))).
  { unfold next. cbn [pos input inName]. rewrite get_heading, Hg, (nonBlank_plain _ Hc).
    reflexivity. }
  unfold runState.
  destruct Hs as [-> | ->]; cbn [call]; unfold lexOneOrMore, lexPred;
    unfold bind at 1; unfold bind at 1; rewrite Hn;
    unfold bind at 1; cbn [gets pred set_pos set_width inName applyPred];
    rewrite Hc; cbn [negb]; unfold ret, modify; f_equal; f_equal;
    apply lexer_eq; cbn; try reflexivity; lia.
Qed.

Lemma substring_heading (name : string) :
  substring 5 (String.length name) (headingInput name) = name.
Proof.
  change (substring 0 (String.length name) name = name).
  induction name as [|c name IH]; [reflexivity|].
  cbn [String.length substring]. rewrite IH. reflexivity.
Qed.

Definition headingItem (name : string) : item := mkItem itemDataBlockStart name 1.

Lemma next_eof (lx : lexer) :
  String.get (pos lx) (input lx) = None -> next lx = Ok (eof, set_width 0 lx).
Proof. intros H. unfold next. rewrite H. reflexivity. Qed.

Lemma backup_eof (lx : lexer) :
  width lx = 0%nat -> String.get (pos lx) (input lx) = None -> backup lx = Ok (tt, lx).
Proof.
  intros Hw Hg. unfold backup, modify. f_equal. f_equal.
  cbn [pos input set_pos]. rewrite Hw. replace (pos lx - 0)%nat with (pos lx) by lia.
  rewrite Hg. apply lexer_eq; cbn; try reflexivity; lia.
Qed.

Lemma get_length (s : string) : String.get (String.length s) s = None.
Proof. induction s as [|c s IH]; [reflexivity | exact IH]. Qed.

Lemma heading_end (name : string) (w f : nat) :
  nextItem (S (S f)) (inName (headingInput name) (String.length name) w St.lexPred)
  = Ok (headingItem name, afterHeading (headingInput name) (String.length name)).
Proof.
  rewrite (nextItem_unfold _ _ St.lexPred) by reflexivity.
  assert (Hg : forall w' s, String.get (pos (inName (headingInput name) (String.length name) w' s))
                 (input (inName (headingInput name) (String.length name) w' s)) = None).
  { intros w' s. cbn [pos input inName]. rewrite get_heading. apply get_length. }
  assert (H1 : runState St.lexPred (inName (headingInput name) (String.length name) w St.lexPred)
               = Ok (tt, {| input := headingInput name; start := 5;
                            pos := 5 + String.length name; width := 0; lx_line := 1;
                            state := Some St.lexDataBlockHeading; emitted := None;
                            stack := []; pred := predNonBlankChar |})).
  { unfold runState. cbn [call]. unfold lexPred.
    unfold bind at 1. unfold bind at 1. rewrite (next_eof _ (Hg w St.lexPred)).
    unfold bind at 1. cbn [gets]. cbn [pred set_width inName applyPred].
    change (isNonBlankChar eof) with false. cbn [negb].
    unfold bind at 1.
    change (set_width 0 (inName (headingInput name) (String.length name) w St.lexPred))
      with (inName (headingInput name) (String.length name) 0 St.lexPred).
    rewrite (backup_eof (inName (headingInput name) (String.length name) 0 St.lexPred)
               eq_refl (Hg 0%nat St.lexPred)).
    reflexivity. }
  rewrite (bind_step _ _ _ _ _ H1).
  rewrite (nextItem_unfold _ _ St.lexDataBlockHeading) by reflexivity.
  assert (H2 : runState St.lexDataBlockHeading
                 {| input := headingInput name; start := 5;
                    pos := 5 + String.length name; width := 0; lx_line := 1;
                    state := Some St.lexDataBlockHeading; emitted := None;
                    stack := []; pred := predNonBlankChar |}
               = Ok (tt, set_emitted (Some (headingItem name))
                           (afterHeading (headingInput name) (String.length name)))).
  { unfold runState. cbn [call].
    unfold lexDataBlockHeading, lexSpaceOrEof, emit, current, push, bind, modify, ret.
    cbn [emitted start pos input].
    change (String.length (headingInput name)) with (5 + String.length name)%nat.
    destruct (Nat.leb_spec 5 (5 + String.length name)) as [_|Hx]; [|lia].
    destruct (Nat.leb_spec (5 + String.length name) (5 + String.length name)) as [_|Hx];
      [|lia].
    cbn [andb]. replace (5 + String.length name - 5)%nat with (String.length name) by lia.
    rewrite substring_heading. reflexivity. }
  rewrite (bind_step _ _ _ _ _ H2).
  destruct f; reflexivity.
Qed.

Lemma heading_loop (name rest : string) (k w f : nat) :
  (forall i, String.get (k + i) name = String.get i rest) ->
  (k + String.length rest = String.length name)%nat ->
  allChar isNonBlankChar rest = true ->
  nextItem (String.length rest + S (S f)) (inName (headingInput name) k w St.lexPred)
  = Ok (headingItem name, afterHeading (headingInput name) (String.length name)).
Proof.
  revert k w. induction rest as [|c rest IH]; intros k w Hg Hlen Hall.
  - cbn [String.length] in Hlen |- *. replace k with (String.length name) by lia.
    apply heading_end.
  - cbn [allChar] in Hall. apply andb_true_iff in Hall as [Hc Hall].
    cbn [String.length Nat.add].
    rewrite (nextItem_unfold _ _ St.lexPred) by reflexivity.
    assert (Hk : String.get k name = Some c).
    { specialize (Hg 0%nat). rewrite Nat.add_0_r in Hg. exact Hg. }
    rewrite (bind_step _ _ _ _ _ (heading_step name k w c St.lexPred (or_intror eq_refl) Hk Hc)).
    apply IH; [|cbn [String.length] in Hlen; lia|exact Hall].
    intros i. specialize (Hg (S i)). rewrite Nat.add_succ_r in Hg. exact Hg.
Qed.

(** The scanner on a heading: its first item is the heading, with the
    name as it is written. *)
Lemma nextItem_heading (c0 : rune) (rest0 : string) (f : nat) :
  allChar isNonBlankChar (String c0 rest0) = true ->
  nextItem (String.length rest0 + 5 + f) (lex (headingInput (String c0 rest0)))
  = Ok (headingItem (String c0 rest0),
        afterHeading (headingInput (String c0 rest0)) (String.length (String c0 rest0))).
Proof.
  intros Hall. set (name := String c0 rest0) in *.
  replace (String.length rest0 + 5 + f)%nat
    with (S (S (S (String.length rest0 + S (S f))))) by lia.
  rewrite (nextItem_unfold _ _ St.lexCifInitial) by reflexivity.
  assert (H1 : runState St.lexCifInitial (lex (headingInput name))
               = Ok (tt, set_state (Some St.lexCif) (set_width 1 (lex (headingInput name)))))
    by (unfold name; destruct rest0; vm_compute; reflexivity).
  rewrite (bind_step _ _ _ _ _ H1).
  rewrite (nextItem_unfold _ _ St.lexCif) by reflexivity.
  assert (H2 : runState St.lexCif
                 (set_state (Some St.lexCif) (set_width 1 (lex (headingInput name))))
               = Ok (tt, inName (headingInput name) 0 1 St.lexOneOrMore))
    by (unfold name; destruct rest0; vm_compute; reflexivity).
  rewrite (bind_step _ _ _ _ _ H2).
  rewrite (nextItem_unfold _ _ St.lexOneOrMore) by reflexivity.
  cbn [allChar] in Hall. apply andb_true_iff in Hall as [Hc Hall].
  rewrite (bind_step _ _ _ _ _
             (heading_step name 0 1 c0 St.lexOneOrMore (or_introl eq_refl) eq_refl Hc)).
  apply heading_loop; [intros i; reflexivity | reflexivity | exact Hall].
Qed.

Lemma nextItem_afterHeading (name : string) (f : nat) :
  exists lx', nextItem (S f) (afterHeading (headingInput name) (String.length name))
              = Ok (mkItem itemEOF "" 0, lx').
Proof.
  rewrite (nextItem_unfold _ _ St.lexSpaceOrEofContinue) by reflexivity.
  assert (H : exists lx', runState St.lexSpaceOrEofContinue
                            (afterHeading (headingInput name) (String.length name))
                          = Ok (tt, lx') /\ state lx' = None).
  { assert (Hp : peek (afterHeading (headingInput name) (String.length name))
                 = Ok (eof, afterHeading (headingInput name) (String.length name))).
    { unfold peek, gets. cbn [pos input afterHeading]. rewrite get_heading, get_length.
      reflexivity. }
    unfold runState. cbn [call]. unfold lexSpaceOrEofContinue.
    unfold bind at 1. rewrite (bind_step _ _ _ _ _ Hp).
    change (negb (isWhiteSpace eof) && negb (req eof eof)) with false. cbv iota.
    change (req eof eof) with true. cbv iota.
    unfold stop, ignore, emit, current, bind, modify, ret.
    cbn [emitted start pos input set_start afterHeading].
    change (String.length (headingInput name)) with (5 + String.length name)%nat.
    destruct (Nat.leb_spec (5 + String.length name) (5 + String.length name)) as [_|Hx];
      [|lia].
    cbn [andb]. eexists. split; reflexivity. }
  destruct H as (lx' & H & Hs). rewrite (bind_step _ _ _ _ _ H).
  exists lx'. apply nextItem_nil, Hs.
Qed.

Lemma next_token (F : nat) (p : parser) (it : item) (l' : lexer) :
  nextItem (S F) (lx p) = Ok (it, l') ->
  itemType_eqb (typ it) itemComment = false ->
  itemType_eqb (typ it) itemError = false ->
  Parser.next (S F) p = Ok (it, Parser.set_p_line (line it) (Parser.set_lx l' p)).
Proof.
  intros Hn Hc He. rewrite next_unfold.
  rewrite (bind_step _ _ _ _ _ (onLexer_step (nextItem (S F)) p (lx p) l' it eq_refl Hn)).
  rewrite Hc, He. reflexivity.
Qed.

(** The document with the one data block [name] and nothing in it. *)
Definition headingDoc (name : string) : CIF :=
  {| Version := ""; Blocks := {[ name := newDataBlock name ]}; heap := [] |}.

(** X15. A data block heading is read as an empty data block under its
    name in lower case: for every name of one or more characters that are
    not blank, [Read] of the input [data_] followed by the name returns
    the document that holds this one block, and no error, as soon as the
    fuel exceeds the length of the input. *)
Theorem Read_heading (c0 : rune) (rest0 : string) (f : nat) :
  allChar isNonBlankChar (String c0 rest0) = true ->
  Read (String.length rest0 + 5 + f) (headingInput (String c0 rest0))
  = Some (Some (headingDoc (ToLower (String c0 rest0))), None).
Proof.
  intros Hall. set (name := String c0 rest0) in *.
  pose proof (nextItem_heading c0 rest0 f Hall) as Hh. fold name in Hh.
  replace (String.length rest0 + 5 + f)%nat
    with (S (S (String.length rest0 + 3 + f))) in * by lia.
  set (G := (String.length rest0 + 3 + f)%nat) in *.
  unfold Read, Parser.parse, Parser.parseBody.
  rewrite (bind_step _ _ _ _ tt eq_refl).
  set (p0 := Parser.set_lx (lex (headingInput name)) _).
  rewrite (bind_step _ _ _ _ _ (next_token (S G) p0 _ _ Hh eq_refl eq_refl)).
  set (p1 := Parser.set_p_line _ _).
  change (Parser.parseLoopTop (S (S G)) (headingItem name) p1)
    with ((t' <- Parser.parseDataBlock (S G) (ToLower name) ;; Parser.parseLoopTop (S G) t')%go p1).
  destruct (nextItem_afterHeading name G) as (lx' & Hn).
  set (p2 := Parser.set_cif (set_Blocks (<[ToLower name := newDataBlock (ToLower name)]>
                                           (Blocks (cif p1))) (cif p1)) p1).
  assert (Hd : Parser.parseDataBlock (S G) (ToLower name) p1
               = Ok (mkItem itemEOF "" 0, Parser.set_p_line 0 (Parser.set_lx lx' p2))).
  { unfold Parser.parseDataBlock.
    rewrite (bind_step _ _ p1 p1 (Blocks (cif p1)) eq_refl).
    assert (Hfresh : bool_decide (is_Some (Blocks (cif p1) !! ToLower name)) = false).
    { apply bool_decide_eq_false. cbn. rewrite lookup_empty. intros [x Hx]. discriminate Hx. }
    rewrite Hfresh. rewrite (bind_step _ _ p1 p1 tt eq_refl).
    rewrite (bind_step _ _ p1 p2 tt eq_refl).
    rewrite (bind_step _ _ _ _ _ (next_token G p2 _ _ Hn eq_refl eq_refl)).
    reflexivity. }
  rewrite (bind_step _ _ _ _ _ Hd).
  cbn [Parser.parseLoopTop typ]. unfold gets. cbn.
  unfold headingDoc. rewrite insert_empty. reflexivity.
Qed.

Lemma Read_heading_witness :
  Read 7 "data_Ab" = Some (Some (headingDoc "ab"), None).
Proof. exact (Read_heading "A"%char "b" 1 eq_refl). Defined.

(** ** The columns that the tags of a table name *)

Lemma columnIndex_name (vals : list loopValues) (i : Z) (m : gmap string Z)
    (tag : string) (j : Z) :
  Parser.columnIndex i vals m !! tag = Some j ->
  m !! tag = Some j \/ (i <= j /\ names vals !! Z.to_nat (j - i) = Some tag).
Proof.
  revert i m. induction vals as [|v vals IH]; intros i m H; cbn [Parser.columnIndex] in H.
  - left. exact H.
  - apply IH in H as [H|[Hle Hn]].
    + destruct (decide (lv_name v = tag)) as [E|Hne].
      * rewrite E, lookup_insert_eq in H. injection H as <-. right.
        split; [lia|]. rewrite Z.sub_diag. cbn. rewrite E. reflexivity.
      * rewrite lookup_insert_ne in H by exact Hne. left. exact H.
    + right. split; [lia|].
      replace (Z.to_nat (j - i)) with (S (Z.to_nat (j - (i + 1)))) by lia.
      exact Hn.
Qed.

(** X16. Different tags of a table name different columns: in a table of
    a document that [Read] returns, two tags that are mapped to the same
    position are the same tag, so that [Get] with different tags of the
    table returns different columns of it. *)
Theorem Read_tags_name_distinct_columns (fuel : nat) (inp : string) (c : CIF)
    (e : option string) (l : loc) (lp : Loop) (tag1 tag2 : string) (i : Z) :
  Read fuel inp = Some (Some c, e) -> heap c !! l = Some lp ->
  Columns lp !! tag1 = Some i -> Columns lp !! tag2 = Some i -> tag1 = tag2.
Proof.
  intros H Hl. revert tag1 tag2 i. revert l lp Hl. revert H.
  apply (Read_tables (fun lp => forall tag1 tag2 i,
           Columns lp !! tag1 = Some i -> Columns lp !! tag2 = Some i -> tag1 = tag2)).
  intros blk vals cols _ tag1 tag2 i H1 H2. cbn in H1, H2.
  apply columnIndex_name in H1 as [H1|[_ H1]]; [rewrite lookup_empty in H1; discriminate H1|].
  apply columnIndex_name in H2 as [H2|[_ H2]]; [rewrite lookup_empty in H2; discriminate H2|].
  congruence.
Qed.

Lemma Read_tags_name_distinct_columns_witness :
  Columns tableLoop !! "y" = Some 1 /\ "y" = "y".
Proof.
  assert (Hy : Columns tableLoop !! "y" = Some 1) by (vm_compute; reflexivity).
  split; [exact Hy|].
  exact (Read_tags_name_distinct_columns 200 tableInput tableDoc None 0%nat tableLoop
           "y" "y" 1 Read_tableInput eq_refl Hy Hy).
Defined.

(** * Further properties of the scanner: runs of characters *)

Lemma pred_plain (p : predFn) (c : rune) : applyPred p c = true -> req c newline = false.
Proof.
  destruct p; destruct c as [[] [] [] [] [] [] [] []]; vm_compute; intros H;
    first [discriminate H | reflexivity].
Qed.

(** The lexer [lx] after a run of [n] bytes: the position is behind the
    run, and the state [s] has been taken from the stack, which is left
    as [stk]. *)
Definition afterRun (lx : lexer) (n w : nat) (s : option stateFn)
    (stk : list (option stateFn)) : lexer :=
  set_stack stk (set_state s (set_width w (set_pos (pos lx + n) lx))).

Lemma lexPred_step (lx : lexer) (c : rune) :
  String.get (pos lx) (input lx) = Some c -> applyPred (pred lx) c = true ->
  runState St.lexPred lx
  = Ok (tt, set_state (Some St.lexPred) (set_pos (pos lx + 1) (set_width 1 lx))).
Proof.
  intros Hg Hc. unfold runState. cbn [call]. unfold lexPred, next.
  unfold bind at 1. unfold bind at 1. rewrite Hg, (pred_plain _ _ Hc).
  unfold bind at 1. cbn [gets pred set_pos set_width]. rewrite Hc. reflexivity.
Qed.

Lemma lexPred_stop (lx : lexer) (s : option stateFn) (stk : list (option stateFn)) :
  stack lx = s :: stk -> applyPred (pred lx) (ahead lx) = false ->
  exists w, runState St.lexPred lx = Ok (tt, afterRun lx 0 w s stk).
Proof.
  intros Hstk Hend.
  destruct (next_then_backup lx) as (lx1 & w & Hn & Hb).
  assert (Hp : pred lx1 = pred lx).
  { unfold next in Hn. destruct (String.get (pos lx) (input lx)) as [c|];
      injection Hn as _ <-; [destruct (req c newline)|]; reflexivity. }
  exists w. unfold runState. cbn [call]. unfold lexPred.
  unfold bind at 1. unfold bind at 1. rewrite Hn.
  unfold bind at 1. cbn [gets]. rewrite Hp, Hend. cbn [negb].
  unfold bind at 1. rewrite Hb. unfold pop. cbn [stack set_width]. rewrite Hstk.
  unfold modify. f_equal. f_equal. unfold afterRun.
  apply lexer_eq; cbn; try reflexivity; lia.
Qed.

(** X17. [lexPred] consumes the longest run of characters that satisfy
    the predicate set by [chars] and then returns to the state on top of
    the stack: when the bytes in front of the lexer are the run, all of
    which satisfy the predicate, and the byte behind it (or the end of
    the input) does not, then after one step for every byte of the run
    and one more the position is behind the run, the state is the one
    popped from the stack, and the start, the line count and the pending
    item are as before. *)
Theorem lexPred_consumes_run (run : string) (f : nat) (s : option stateFn)
    (stk : list (option stateFn)) (lx : lexer) :
  state lx = Some St.lexPred -> emitted lx = None -> stack lx = s :: stk ->
  allChar (applyPred (pred lx)) run = true ->
  (forall i, (i < String.length run)%nat ->
             String.get (pos lx + i) (input lx) = String.get i run) ->
  applyPred (pred lx) (ahead (set_pos (pos lx + String.length run) lx)) = false ->
  exists w, nextItem (String.length run + S f) lx
            = nextItem f (afterRun lx (String.length run) w s stk).
Proof.
  revert lx. induction run as [|c run IH]; intros lx Hst Hem Hstk Hall Hget Hend.
  - cbn [String.length Nat.add] in *.
    rewrite (nextItem_unfold _ _ St.lexPred Hem Hst).
    assert (Ha : ahead (set_pos (pos lx + 0) lx) = ahead lx).
    { unfold ahead. cbn [pos input set_pos]. rewrite Nat.add_0_r. reflexivity. }
    rewrite Ha in Hend.
    destruct (lexPred_stop lx s stk Hstk Hend) as (w & H1).
    exists w. rewrite (bind_step _ _ _ _ _ H1). reflexivity.
  - cbn [allChar] in Hall. apply andb_true_iff in Hall as [Hc Hall].
    cbn [String.length Nat.add].
    rewrite (nextItem_unfold _ _ St.lexPred Hem Hst).
    assert (Hg : String.get (pos lx) (input lx) = Some c).
    { specialize (Hget 0%nat ltac:(cbn; lia)). rewrite Nat.add_0_r in Hget. exact Hget. }
    set (lx1 := set_state (Some St.lexPred) (set_pos (pos lx + 1) (set_width 1 lx))).
    rewrite (bind_step _ _ _ _ _ (lexPred_step lx c Hg Hc)). fold lx1.
    destruct (IH lx1 eq_refl Hem Hstk Hall) as (w & Hw).
    + intros i Hi. cbn [pos lx1 set_state set_pos].
      specialize (Hget (S i) ltac:(cbn; lia)).
      replace (pos lx + 1 + i)%nat with (pos lx + S i)%nat by lia. exact Hget.
    + cbn [String.length] in Hend.
      replace (set_pos (pos lx1 + String.length run) lx1)
        with (set_state (Some St.lexPred)
                (set_width 1 (set_pos (pos lx + S (String.length run)) lx)));
        [exact Hend|].
      apply lexer_eq; cbn; try reflexivity; lia.
    + exists w. rewrite Hw. f_equal. unfold afterRun.
      apply lexer_eq; cbn; try reflexivity; lia.
Qed.

Lemma lexPred_consumes_run_witness :
  exists w, nextItem 3 (inName (headingInput "ab") 0 1 St.lexPred)
            = nextItem 0 (afterRun (inName (headingInput "ab") 0 1 St.lexPred) 2 w
                            (Some St.lexDataBlockHeading) []).
Proof.
  refine (lexPred_consumes_run "ab" 0 (Some St.lexDataBlockHeading) []
            (inName (headingInput "ab") 0 1 St.lexPred)
            eq_refl eq_refl eq_refl eq_refl _ eq_refl).
  intros i Hi. destruct i as [|[|i]]; [reflexivity | reflexivity | cbn in Hi; lia].
Defined.

(** ** Every table of a block is written once *)

Section TablesOnce.

Context {S : Type} (sinkWrite : string -> S -> S * option string).
Variables (h : list Loop) (blk : Block).

Hypothesis tables_bound : forall tag l,
  Loops blk !! tag = Some l ->
  exists lp, h !! l = Some lp /\ is_Some (Columns lp !! tag) /\ boundTo blk l lp.

(** The table [lp] lives at the address [l], to which a tag of the block is
    bound. *)
Definition tableAt (e : loc * Loop) : Prop :=
  h !! e.1 = Some e.2 /\ exists tag, Loops blk !! tag = Some e.1.

Lemma tableAt_equal (e1 e2 : loc * Loop) :
  tableAt e1 -> tableAt e2 -> (loopEqual e1.2 e2.2 = true <-> e1.1 = e2.1).
Proof.
  destruct e1 as [l1 lp1], e2 as [l2 lp2]. unfold tableAt. simpl.
  intros [Hh1 [tag1 H1]] [Hh2 [tag2 H2]].
  destruct (tables_bound _ _ H1) as (lp1' & Hh1' & Ht1 & Hb1).
  destruct (tables_bound _ _ H2) as (lp2' & Hh2' & Ht2 & Hb2).
  assert (lp1' = lp1) by congruence. assert (lp2' = lp2) by congruence. subst lp1' lp2'.
  rewrite loopEqual_true. split.
  - intros (tag & Ha & Hb'). apply Hb1 in Ha. apply Hb2 in Hb'. congruence.
  - intros <-. assert (lp2 = lp1) by congruence. subst lp2.
    exists tag1. split; exact Ht1.
Qed.

Lemma loopWritten_seen (seen : list (loc * Loop)) (e : loc * Loop) :
  Forall tableAt seen -> tableAt e ->
  (loopWritten (seen.*2) e.2 = true <-> e.1 ∈ seen.*1).
Proof.
  intros Hs He. unfold loopWritten. rewrite existsb_exists. split.
  - intros (lp' & Hin & Heq). apply list_elem_of_In, list_elem_of_fmap in Hin.
    destruct Hin as (e' & -> & Hin).
    rewrite Forall_forall in Hs. pose proof (Hs _ Hin) as He'.
    apply (tableAt_equal e' e He' He) in Heq. rewrite <- Heq.
    apply list_elem_of_fmap. exists e'. split; [reflexivity | exact Hin].
  - intros Hin. apply list_elem_of_fmap in Hin. destruct Hin as (e' & Heq & Hin).
    rewrite Forall_forall in Hs. pose proof (Hs _ Hin) as He'.
    exists e'.2. split.
    + apply list_elem_of_In, list_elem_of_fmap. exists e'. split; [reflexivity | exact Hin].
    + apply (tableAt_equal e' e He' He). symmetry. exact Heq.
Qed.

Lemma writeLoops_once (ls : list (string * loc)) (seen : list (loc * Loop)) :
  Forall tableAt seen -> NoDup (seen.*1) ->
  (forall tag l, (tag, l) ∈ ls -> Loops blk !! tag = Some l) ->
  exists new : list (loc * Loop),
    Forall tableAt new /\ NoDup ((seen ++ new)%list.*1) /\
    (forall l, l ∈ new.*1 <-> (l ∉ seen.*1) /\ exists tag, (tag, l) ∈ ls) /\
    forall st, Writer.writeLoops sinkWrite h ls (seen.*2) st
               = Writer.forEach new (fun e => Writer.writeLoop sinkWrite e.2) st.
Proof.
  revert seen. induction ls as [|[tag l] rest IH]; intros seen Hs Hn Hls.
  - exists []. rewrite app_nil_r. split; [constructor|]. split; [exact Hn|].
    split; [|reflexivity]. intros l. split.
    + intros H. apply elem_of_nil in H. destruct H.
    + intros [_ [t H]]. apply elem_of_nil in H. destruct H.
  - assert (Hl : Loops blk !! tag = Some l) by (apply Hls; left).
    destruct (tables_bound _ _ Hl) as (lp & Hh & _ & _).
    assert (He : tableAt (l, lp)) by (split; [exact Hh | exists tag; exact Hl]).
    assert (Hrest : forall tag0 l0, (tag0, l0) ∈ rest -> Loops blk !! tag0 = Some l0)
      by (intros tag0 l0 H; apply Hls; right; exact H).
    pose proof (loopWritten_seen seen (l, lp) Hs He) as Hw. simpl in Hw.
    cbn [Writer.writeLoops]. rewrite Hh.
    destruct (loopWritten (seen.*2) lp) eqn:Ew.
    + assert (Hin : l ∈ seen.*1) by (apply Hw; reflexivity).
      destruct (IH seen Hs Hn Hrest) as (new & Hf & Hd & Hm & Heq).
      exists new. repeat split; try assumption.
      * apply Hm; assumption.
      * apply Hm in H. destruct H as [_ [t H]]. exists t. right. exact H.
      * intros [Hns [t H]]. apply Hm. split; [exact Hns|].
        apply elem_of_cons in H as [H|H]; [|exists t; exact H].
        injection H as _ ->. contradiction.
    + assert (Hnin : l ∉ seen.*1) by (intros H; apply Hw in H; discriminate H).
      assert (Hs' : Forall tableAt (seen ++ [(l, lp)])%list)
        by (apply Forall_app; split; [exact Hs | constructor; [exact He | constructor]]).
      assert (Hn' : NoDup ((seen ++ [(l, lp)])%list.*1)).
      { rewrite fmap_app. apply NoDup_app. split; [exact Hn|]. split.
        - intros x Hx Hx'. apply list_elem_of_singleton in Hx'. subst x. contradiction.
        - apply NoDup_singleton. }
      destruct (IH (seen ++ [(l, lp)])%list Hs' Hn' Hrest) as (new & Hf & Hd & Hm & Heq).
      exists ((l, lp) :: new). split; [constructor; assumption|].
      split; [rewrite <- app_assoc in Hd; exact Hd|]. split.
      * intros l0. rewrite fmap_cons, elem_of_cons, Hm, fmap_app, elem_of_app. simpl.
        rewrite list_elem_of_singleton. split.
        -- intros [->|[Hns [t H]]].
           ++ split; [exact Hnin | exists tag; left].
           ++ split; [intros H'; apply Hns; left; exact H' | exists t; right; exact H].
        -- intros [Hns [t H]]. destruct (decide (l0 = l)) as [->|Hne]; [left; reflexivity|].
           right. split; [intros [H'|H']; contradiction|].
           apply elem_of_cons in H as [H|H]; [injection H as _ ->; contradiction|].
           exists t. exact H.
      * intros st. rewrite fmap_app in Heq. simpl in Heq.
        cbn [Writer.forEach]. unfold Writer.wbind. cbn [snd].
        destruct (Writer.writeLoop sinkWrite lp st) as [st' [[]| |]]; try reflexivity.
        apply Heq.
Qed.

End TablesOnce.

(** X18. [writeBlock] writes every table of a block once, however many
    tags the table has: on a block of a document that [Read] returns, the
    loop over [b.Loops], which skips a table when [loopWritten] finds it
    among those written, does what one [writeLoop] for each table of the
    block does. The tables are the addresses to which a tag of the block
    is bound, each listed once. *)
Theorem writeBlock_writes_each_table_once {S : Type}
    (sinkWrite : string -> S -> S * option string)
    (fuel : nat) (inp : string) (c : CIF) (e : option string) (b : blockRef) :
  Read fuel inp = Some (Some c, e) ->
  validRef b c ->
  exists tables : list (loc * Loop),
    NoDup (tables.*1) /\
    (forall l lp, (l, lp) ∈ tables <->
                  heap c !! l = Some lp /\ exists tag, Loops (getBlock b c) !! tag = Some l) /\
    forall st, Writer.writeLoops sinkWrite (heap c) (map_to_list (Loops (getBlock b c))) [] st
               = Writer.forEach tables (fun t => Writer.writeLoop sinkWrite t.2) st.
Proof.
  intros HR Hv. apply Read_wf in HR. destruct HR as [_ Hb _].
  destruct (writeLoops_once sinkWrite (heap c) (getBlock b c) (fun tag l => Hb b tag l Hv)
              (map_to_list (Loops (getBlock b c))) [])
    as (tables & Hf & Hd & Hm & Heq).
  - constructor.
  - constructor.
  - intros tag l H. apply elem_of_map_to_list in H. exact H.
  - exists tables. split; [exact Hd|]. split; [|exact Heq].
    rewrite Forall_forall in Hf. intros l lp. split.
    + intros H. exact (Hf _ H).
    + intros [Hh [tag Ht]].
      assert (Hin : l ∈ tables.*1).
      { apply Hm. split; [intros H; apply elem_of_nil in H; destruct H|].
        exists tag. apply elem_of_map_to_list. exact Ht. }
      apply list_elem_of_fmap in Hin. destruct Hin as ([l' lp'] & Heq' & Hin). simpl in Heq'.
      subst l'. destruct (Hf _ Hin) as [Hh' _]. simpl in Hh'.
      assert (lp' = lp) by congruence. subst lp'. exact Hin.
Qed.

Lemma writeBlock_writes_each_table_once_witness :
  exists tables : list (loc * Loop),
    NoDup (tables.*1) /\
    (forall l lp, (l, lp) ∈ tables <->
                  heap tableDoc !! l = Some lp /\
                  exists tag, Loops (getBlock (inData "a") tableDoc) !! tag = Some l) /\
    forall st, Writer.writeLoops bufferWrite (heap tableDoc)
                 (map_to_list (Loops (getBlock (inData "a") tableDoc))) [] st
               = Writer.forEach tables (fun t => Writer.writeLoop bufferWrite t.2) st.
Proof.
  exact (writeBlock_writes_each_table_once bufferWrite 200 tableInput tableDoc None
           (inData "a") Read_tableInput (ltac:(vm_compute; eexists; reflexivity))).
Defined.

(** ** An item whose value is a run of digits *)

(** The scanner inside an integer that starts at the offset [o], with
    [k] of its bytes read, and behind a value that ends at [e]; both are
    on the second line, in a data block. *)
Definition inInteger (inp : string) (o k : nat) : lexer :=
  {| input := inp; start := o; pos := o + k; width := 1; lx_line := 2;
     state := Some St.lexValueInteger; emitted := None;
     stack := [Some St.lexDataBlocks]; pred := predNonBlankChar |}.

Definition afterValue (inp : string) (e : nat) : lexer :=
  {| input := inp; start := e; pos := e; width := 1; lx_line := 2;
     state := Some St.lexSpaceOrEofContinue; emitted := None;
     stack := [Some St.lexValueEnd; Some St.lexDataBlocks]; pred := predNonBlankChar |}.

(** The byte at the offset [i], [eof] behind the input: what [peek] sees. *)
Definition byteAt (inp : string) (i : nat) : rune :=
  match String.get i inp with
  | None => eof
  | Some c => c
  end.

Definition endsValue (r : rune) : bool := isWhiteSpace r || req r eof.

Lemma digit_not_newline (c : rune) : isDigit c = true -> req c newline = false.
Proof.
  destruct c as [[] [] [] [] [] [] [] []]; vm_compute; intros H;
    first [discriminate H | reflexivity].
Qed.

Lemma endsValue_plain (r : rune) :
  endsValue r = true ->
  isDigit r = false /\ req r "." = false /\ req r "e" || req r "E" = false.
Proof.
  destruct r as [[] [] [] [] [] [] [] []]; vm_compute; intros H;
    first [discriminate H | repeat split].
Qed.

Lemma req_refl (c : rune) : req c c = true.
Proof. apply Ascii.eqb_refl. Qed.

Lemma peek_byteAt (lx : lexer) : peek lx = Ok (byteAt (input lx) (pos lx), lx).
Proof. reflexivity. Qed.

Lemma next_plain (lx : lexer) (c : rune) :
  String.get (pos lx) (input lx) = Some c -> req c newline = false ->
  next lx = Ok (c, set_pos (pos lx + 1) (set_width 1 lx)).
Proof. intros Hg Hc. unfold next. rewrite Hg, Hc. reflexivity. Qed.

Lemma integer_step (inp : string) (o k : nat) (c : rune) :
  String.get (o + k) inp = Some c -> isDigit c = true ->
  runState St.lexValueInteger (inInteger inp o k) = Ok (tt, inInteger inp o (S k)).
Proof.
  intros Hg Hc.
  assert (Hp : peek (inInteger inp o k) = Ok (c, inInteger inp o k)).
  { rewrite peek_byteAt. unfold byteAt. cbn [pos input inInteger]. rewrite Hg. reflexivity. }
  pose proof (next_plain (inInteger inp o k) c Hg (digit_not_newline _ Hc)) as Hn.
  unfold runState. cbn [call]. unfold lexValueInteger.
  unfold bind at 1. rewrite (bind_step _ _ _ _ _ Hp). rewrite Hc.
  unfold accept. unfold bind at 1. rewrite (bind_step _ _ _ _ _ Hn).
  rewrite req_refl. unfold ret, modify. f_equal. f_equal.
  apply lexer_eq; cbn; try reflexivity; lia.
Qed.

Lemma integer_end (inp : string) (o k : nat) :
  endsValue (byteAt inp (o + k)) = true -> (o + k <= String.length inp)%nat ->
  runState St.lexValueInteger (inInteger inp o k)
  = Ok (tt, set_emitted (Some (mkItem itemDataInteger (substring o k inp) 2))
              (afterValue inp (o + k))).
Proof.
  intros He Hlen.
  destruct (endsValue_plain _ He) as (H1 & H2 & H3).
  unfold runState. cbn [call]. unfold lexValueInteger.
  unfold bind at 1. rewrite (bind_step _ _ _ _ _ (peek_byteAt _)).
  cbn [pos input inInteger]. rewrite H1, H2, H3. unfold endsValue in He. rewrite He.
  unfold lexSpaceOrEof, emit, current, push, bind, modify, ret.
  cbn [emitted start pos input inInteger].
  destruct (Nat.leb_spec o (o + k)) as [_|Hx]; [|lia].
  destruct (Nat.leb_spec (o + k) (String.length inp)) as [_|Hx]; [|lia].
  cbn [andb]. replace (o + k - o)%nat with k by lia. reflexivity.
Qed.

Lemma integer_loop (inp rest : string) (o k f : nat) :
  (forall i, (i < String.length rest)%nat -> String.get (o + k + i) inp = String.get i rest) ->
  allChar isDigit rest = true ->
  endsValue (byteAt inp (o + k + String.length rest)) = true ->
  (o + k + String.length rest <= String.length inp)%nat ->
  nextItem (String.length rest + S f) (inInteger inp o k)
  = Ok (mkItem itemDataInteger (substring o (k + String.length rest) inp) 2,
        afterValue inp (o + k + String.length rest)).
Proof.
  revert k. induction rest as [|c rest IH]; intros k Hg Hall He Hlen.
  - cbn [String.length Nat.add] in *. rewrite !Nat.add_0_r in *.
    rewrite (nextItem_unfold _ _ St.lexValueInteger) by reflexivity.
    rewrite (bind_step _ _ _ _ _ (integer_end inp o k He Hlen)).
    destruct f; reflexivity.
  - cbn [allChar] in Hall. apply andb_true_iff in Hall as [Hc Hall].
    cbn [String.length Nat.add] in *.
    rewrite (nextItem_unfold _ _ St.lexValueInteger) by reflexivity.
    assert (Hk : String.get (o + k) inp = Some c).
    { specialize (Hg 0%nat ltac:(lia)). rewrite Nat.add_0_r in Hg. exact Hg. }
    rewrite (bind_step _ _ _ _ _ (integer_step inp o k c Hk Hc)).
    replace (k + S (String.length rest))%nat with (S k + String.length rest)%nat by lia.
    replace (o + k + S (String.length rest))%nat
      with (o + S k + String.length rest)%nat in * by lia.
    apply IH; [|exact Hall|exact He|exact Hlen].
    intros i Hi. specialize (Hg (S i) ltac:(lia)).
    replace (o + S k + i)%nat with (o + k + S i)%nat by lia. exact Hg.
Qed.

(** Behind a value at the end of the input the scanner stops. *)
Lemma afterValue_eof (inp : string) (e f : nat) :
  String.get e inp = None -> (e <= String.length inp)%nat ->
  exists lx', nextItem (S f) (afterValue inp e) = Ok (mkItem itemEOF "" 0, lx').
Proof.
  intros Hg Hlen.
  rewrite (nextItem_unfold _ _ St.lexSpaceOrEofContinue) by reflexivity.
  assert (H : exists lx', runState St.lexSpaceOrEofContinue (afterValue inp e)
                          = Ok (tt, lx') /\ state lx' = None).
  { unfold runState. cbn [call]. unfold lexSpaceOrEofContinue.
    unfold bind at 1. rewrite (bind_step _ _ _ _ _ (peek_byteAt _)).
    unfold byteAt. cbn [pos input afterValue]. rewrite Hg.
    change (negb (isWhiteSpace eof) && negb (req eof eof)) with false. cbv iota.
    change (req eof eof) with true. cbv iota.
    unfold stop, ignore, emit, current, bind, modify, ret.
    cbn [emitted start pos input set_start afterValue].
    destruct (Nat.leb_spec e e) as [_|Hx]; [|lia].
    destruct (Nat.leb_spec e (String.length inp)) as [_|Hx]; [|lia].
    cbn [andb]. eexists. split; reflexivity. }
  destruct H as (lx' & H & Hs). rewrite (bind_step _ _ _ _ _ H).
  exists lx'. apply nextItem_nil, Hs.
Qed.

(** The input: the block [a] with the item [_x] and the digits. *)
Definition digitsInput (ds : string) : string := "data_a" +:+ nl +:+ "_x " +:+ ds.

(** The scanner behind the heading [data_a] and behind the tag [_x]. *)
Definition afterBlockA (inp : string) : lexer :=
  {| input := inp; start := 6; pos := 6; width := 1; lx_line := 1;
     state := Some St.lexSpaceOrEofContinue; emitted := None;
     stack := [Some St.lexDataBlocks]; pred := predNonBlankChar |}.

Definition afterTagX (inp : string) : lexer :=
  {| input := inp; start := 9; pos := 10; width := 1; lx_line := 2;
     state := Some St.lexWhiteSpaceContinue; emitted := None;
     stack := [Some St.lexValue; Some St.lexDataBlocks]; pred := predNonBlankChar |}.

Lemma nextItem_blockA (ds : string) (f : nat) :
  nextItem (6 + f) (lex (digitsInput ds))
  = Ok (headingItem "a", afterBlockA (digitsInput ds)).
Proof. vm_compute. reflexivity. Qed.

Lemma nextItem_tagX (ds : string) (f : nat) :
  nextItem (10 + f) (afterBlockA (digitsInput ds))
  = Ok (mkItem itemDataTag "x" 2, afterTagX (digitsInput ds)).
Proof. vm_compute. reflexivity. Qed.

Lemma value_start (d : rune) (ds : string) :
  isDigit d = true ->
  exists lx1,
    runState St.lexWhiteSpaceContinue (afterTagX (digitsInput (String d ds))) = Ok (tt, lx1) /\
    emitted lx1 = None /\ state lx1 = Some St.lexValue /\
    runState St.lexValue lx1 = Ok (tt, inInteger (digitsInput (String d ds)) 10 1).
Proof.
  intros Hd.
  destruct d as [[] [] [] [] [] [] [] []]; vm_compute in Hd; try discriminate Hd;
    eexists; (split; [vm_compute; reflexivity|]); repeat split.
Qed.

Lemma get_digits (k : nat) (ds : string) :
  String.get (10 + k) (digitsInput ds) = String.get k ds.
Proof. reflexivity. Qed.

Lemma substring_whole (s : string) : substring 0 (String.length s) s = s.
Proof.
  induction s as [|c s IH]; [reflexivity|].
  cbn [String.length substring]. rewrite IH. reflexivity.
Qed.

(** The scanner on the digits: the value is one integer item. *)
Lemma nextItem_digits (d : rune) (ds : string) (f : nat) :
  allChar isDigit (String d ds) = true ->
  nextItem (String.length ds + 3 + f) (afterTagX (digitsInput (String d ds)))
  = Ok (mkItem itemDataInteger (String d ds) 2,
        afterValue (digitsInput (String d ds)) (10 + String.length (String d ds))).
Proof.
  intros Hall. cbn [allChar] in Hall. apply andb_true_iff in Hall as [Hd Hall].
  replace (String.length ds + 3 + f)%nat with (S (S (String.length ds + S f))) by lia.
  destruct (value_start d ds Hd) as (lx1 & E1 & He1 & He2 & E2).
  rewrite (nextItem_unfold _ _ St.lexWhiteSpaceContinue) by reflexivity.
  rewrite (bind_step _ _ _ _ _ E1).
  rewrite (nextItem_unfold _ _ St.lexValue He1 He2).
  rewrite (bind_step _ _ _ _ _ E2).
  rewrite (integer_loop (digitsInput (String d ds)) ds 10 1 f).
  - change (substring 10 (1 + String.length ds) (digitsInput (String d ds)))
      with (substring 0 (String.length (String d ds)) (String d ds)).
    rewrite substring_whole. reflexivity.
  - intros i _. reflexivity.
  - exact Hall.
  - unfold byteAt. replace (10 + 1 + String.length ds)%nat with (10 + S (String.length ds))%nat
      by lia.
    rewrite get_digits. change (String.get (S (String.length ds)) (String d ds))
      with (String.get (String.length ds) ds). rewrite get_length. reflexivity.
  - change (String.length (digitsInput (String d ds))) with (10 + S (String.length ds))%nat.
    lia.
Qed.

Lemma nextItem_afterDigits (ds : string) (f : nat) :
  exists lx', nextItem (S f) (afterValue (digitsInput ds) (10 + String.length ds))
              = Ok (mkItem itemEOF "" 0, lx').
Proof.
  apply afterValue_eof.
  - rewrite get_digits. apply get_length.
  - change (String.length (digitsInput ds)) with (10 + String.length ds)%nat. lia.
Qed.

(** X19. An item whose value is written as a run of digits is read as an
    integer, and it must fit one: for every run of one or more digits,
    [Read] of a block with the one item [_x] and these digits as its
    value stores under [x] the integer that [Atoi] makes of the digits;
    when [Atoi] refuses them, as it does for a number that is out of the
    range of an [int], [Read] returns no document and a parse error for
    line 2, and the digits are not kept as a string. This holds for every
    fuel above the length of the input. *)
Theorem Read_digits (d : rune) (ds : string) (f : nat) :
  allChar isDigit (String d ds) = true ->
  Read (String.length ds + 12 + f) (digitsInput (String d ds))
  = match Atoi (String d ds) with
    | Some n => Some (Some (itemDoc (cifInt n)), None)
    | None =>
        Some (None, Some (parseErrorText 2 ("Could not parse '" +:+ String d ds +:+
                                            "' as integer: " +:+ AtoiError (String d ds))))
    end.
Proof.
  intros Hall. set (digits := String d ds) in *.
  set (inp := digitsInput digits).
  replace (String.length ds + 12 + f)%nat
    with (S (S (S (String.length ds + 9 + f)))) by lia.
  set (H := S (String.length ds + 9 + f)).
  assert (H1 : nextItem (S (S H)) (lex inp) = Ok (headingItem "a", afterBlockA inp)).
  { replace (S (S H)) with (6 + (String.length ds + 6 + f))%nat by (unfold H; lia).
    apply nextItem_blockA. }
  assert (H2 : nextItem (S H) (afterBlockA inp)
               = Ok (mkItem itemDataTag "x" 2, afterTagX inp)).
  { replace (S H) with (10 + (String.length ds + 1 + f))%nat by (unfold H; lia).
    apply nextItem_tagX. }
  assert (H3 : nextItem H (afterTagX inp)
               = Ok (mkItem itemDataInteger digits 2,
                     afterValue inp (10 + String.length digits))).
  { replace H with (String.length ds + 3 + (7 + f))%nat by (unfold H; lia).
    apply nextItem_digits, Hall. }
  destruct (nextItem_afterDigits digits (String.length ds + 9 + f)) as (lxe & H4).
  fold H in H4. fold inp in H4.
  unfold Read, Parser.parse, Parser.parseBody.
  rewrite (bind_step _ _ _ _ tt eq_refl).
  set (p0 := Parser.set_lx (lex inp) _).
  rewrite (bind_step _ _ _ _ _ (next_token (S H) p0 _ _ H1 eq_refl eq_refl)).
  set (p1 := Parser.set_p_line _ _).
  change (Parser.parseLoopTop (S (S H)) (headingItem "a") p1)
    with ((t' <- Parser.parseDataBlock (S H) "a" ;; Parser.parseLoopTop (S H) t')%go p1).
  set (p2 := Parser.set_cif (set_Blocks (<["a" := newDataBlock "a"]> (Blocks (cif p1)))
                               (cif p1)) p1).
  set (tag := mkItem itemDataTag "x" 2).
  set (p3 := Parser.set_p_line 2 (Parser.set_lx (afterTagX inp) p2)).
  assert (Hd : Parser.parseDataBlock (S H) "a" p1
               = (Parser.parseItemValue H (inData "a") "x" ;;
                  t' <- Parser.next H ;; Parser.parseDataBlockLoop H "a" t')%go p3).
  { unfold Parser.parseDataBlock.
    rewrite (bind_step _ _ p1 p1 (Blocks (cif p1)) eq_refl).
    assert (Hfresh : bool_decide (is_Some (Blocks (cif p1) !! "a")) = false).
    { apply bool_decide_eq_false. cbn. rewrite lookup_empty. intros [x Hx]. discriminate Hx. }
    rewrite Hfresh. rewrite (bind_step _ _ p1 p1 tt eq_refl).
    rewrite (bind_step _ _ p1 p2 tt eq_refl).
    rewrite (bind_step _ _ _ _ _ (next_token H p2 _ _ H2 eq_refl eq_refl)).
    reflexivity. }
  set (p4 := Parser.set_p_line 2 (Parser.set_lx (afterValue inp (10 + String.length digits)) p3)).
  assert (Hv : Parser.parseItemValue H (inData "a") "x" p3
               = (v <- Parser.parseValue (mkItem itemDataInteger digits 2) "a" "x" ;;
                  modify (fun p => Parser.set_cif
                                     (alterBlock (setItem "x" v) (inData "a") (cif p)) p))%go p4).
  { unfold Parser.parseItemValue.
    assert (Hu : Parser.assertUniqueTag (inData "a") "x" p3 = Ok (tt, p3))
      by (vm_compute; reflexivity).
    rewrite (bind_step _ _ _ _ _ Hu).
    rewrite (bind_step _ _ _ _ _
               (next_token (String.length ds + 9 + f) p3 _ _ H3 eq_refl eq_refl)).
    rewrite (bind_step _ _ p4 p4 "a" eq_refl). reflexivity. }
  unfold bind at 1. rewrite Hd. unfold bind at 1. rewrite Hv.
  unfold bind at 1. unfold Parser.parseValue. cbn [typ val].
  destruct (Atoi digits) as [n|] eqn:Ea.
  - cbn [AsValue]. unfold ret at 1. unfold modify at 1.
    set (p5 := Parser.set_cif _ p4).
    rewrite (bind_step _ _ _ _ _
               (next_token (String.length ds + 9 + f) p5 _ _ H4 eq_refl eq_refl)).
    vm_compute. reflexivity.
  - vm_compute. reflexivity.
Qed.

Lemma Read_digits_witness :
  Read 13 (digitsInput "42") = Some (Some (itemDoc (cifInt 42)), None).
Proof. exact (Read_digits "4"%char "2" 0 eq_refl). Defined.

(** ** An integer item, written and read back *)

(** What [Write] makes of the block [a] with the one item [x], whose
    value is rendered as [body]. *)
Definition writtenItem (body : string) : string :=
  "data_a" +:+ nl +:+ "_x    " +:+ body +:+ nl.

(** The scanner behind the first byte [c] of a number that starts at the
    offset [o]: a sign leads to [lexValueIntegerStart]. *)
Definition inNumber (inp : string) (o : nat) (c : rune) : lexer :=
  {| input := inp; start := o; pos := o + 1; width := 1; lx_line := 2;
     state := Some (if isDigit c then St.lexValueInteger else St.lexValueIntegerStart);
     emitted := None; stack := [Some St.lexDataBlocks]; pred := predNonBlankChar |}.

Lemma written_blockA (body : string) (f : nat) :
  nextItem (6 + f) (lex (writtenItem body))
  = Ok (headingItem "a", afterBlockA (writtenItem body)).
Proof. vm_compute. reflexivity. Qed.

Lemma written_tagX (body : string) (f : nat) :
  nextItem (10 + f) (afterBlockA (writtenItem body))
  = Ok (mkItem itemDataTag "x" 2, afterTagX (writtenItem body)).
Proof. vm_compute. reflexivity. Qed.

Lemma nextItem_step (f : nat) (lx lx' : lexer) (s : stateFn) :
  emitted lx = None -> state lx = Some s -> runState s lx = Ok (tt, lx') ->
  nextItem (S f) lx = nextItem f lx'.
Proof.
  intros He Hs Hr. rewrite (nextItem_unfold _ _ s He Hs).
  rewrite (bind_step _ _ _ _ _ Hr). reflexivity.
Qed.

(** The scanner in the white space before the value, and at the value. *)
Definition inGap (inp : string) (k : nat) : lexer :=
  {| input := inp; start := 10 + k; pos := 10 + k; width := 1; lx_line := 2;
     state := Some St.lexWhiteSpaceContinue; emitted := None;
     stack := [Some St.lexValue; Some St.lexDataBlocks]; pred := predNonBlankChar |}.

Definition atNumber (inp : string) (o : nat) : lexer :=
  {| input := inp; start := o; pos := o; width := 1; lx_line := 2;
     state := Some St.lexValue; emitted := None;
     stack := [Some St.lexDataBlocks]; pred := predNonBlankChar |}.

Lemma written_start (c : rune) (body : string) (f : nat) :
  isDigit c || req c "-" = true ->
  nextItem (5 + f) (afterTagX (writtenItem (String c body)))
  = nextItem f (inNumber (writtenItem (String c body)) 13 c).
Proof.
  intros Hc. set (inp := writtenItem (String c body)).
  change (5 + f)%nat with (S (S (S (S (S f))))).
  rewrite (nextItem_step _ (afterTagX inp) (inGap inp 1) St.lexWhiteSpaceContinue)
    by (vm_compute; reflexivity).
  rewrite (nextItem_step _ (inGap inp 1) (inGap inp 2) St.lexWhiteSpaceContinue)
    by (vm_compute; reflexivity).
  rewrite (nextItem_step _ (inGap inp 2) (inGap inp 3) St.lexWhiteSpaceContinue)
    by (vm_compute; reflexivity).
  rewrite (nextItem_step _ (inGap inp 3) (atNumber inp 13) St.lexWhiteSpaceContinue).
  - apply (nextItem_step _ (atNumber inp 13) (inNumber inp 13 c) St.lexValue);
      [reflexivity | reflexivity |].
    unfold inp. clear inp.
    destruct c as [[] [] [] [] [] [] [] []]; vm_compute in Hc; try discriminate Hc;
      vm_compute; reflexivity.
  - reflexivity.
  - reflexivity.
  - unfold inp. clear inp.
    destruct c as [[] [] [] [] [] [] [] []]; vm_compute in Hc; try discriminate Hc;
      vm_compute; reflexivity.
Qed.

Definition minusSign : rune := "-"%char.

Lemma sign_step (inp : string) (o : nat) (c : rune) :
  String.get (o + 1) inp = Some c -> isDigit c = true ->
  runState St.lexValueIntegerStart (inNumber inp o minusSign) = Ok (tt, inInteger inp o 2).
Proof.
  intros Hg Hc.
  assert (Hp : peek (inNumber inp o minusSign) = Ok (c, inNumber inp o minusSign)).
  { rewrite peek_byteAt. unfold byteAt. cbn [pos input inNumber]. rewrite Hg. reflexivity. }
  pose proof (next_plain (inNumber inp o minusSign) c Hg (digit_not_newline _ Hc)) as Hn.
  unfold runState. cbn [call]. unfold lexValueIntegerStart.
  unfold bind at 1. rewrite (bind_step _ _ _ _ _ Hp). rewrite Hc.
  unfold accept. unfold bind at 1. rewrite (bind_step _ _ _ _ _ Hn).
  rewrite req_refl. unfold ret, modify. f_equal. f_equal.
  apply lexer_eq; cbn; try reflexivity; lia.
Qed.

(** A number as [%d] writes it: digits, after a minus sign or not. *)
Definition isNumeral (s : string) : bool :=
  match s with
  | String c rest =>
      if req c "-" then
        match rest with
        | String _ _ => allChar isDigit rest
        | EmptyString => false
        end
      else allChar isDigit s
  | EmptyString => false
  end.

Lemma get_written (k : nat) (body : string) :
  String.get (13 + k) (writtenItem body) = String.get k (body +:+ nl).
Proof. reflexivity. Qed.

Lemma get_append_l (s t : string) (i : nat) :
  (i < String.length s)%nat -> String.get i (s +:+ t) = String.get i s.
Proof.
  revert i. induction s as [|c s IH]; intros i Hi; [cbn in Hi; lia|].
  destruct i as [|i]; [reflexivity|]. cbn [String.length] in Hi.
  cbn [append String.get]. apply IH. lia.
Qed.

Lemma get_append_r (s t : string) (i : nat) :
  String.get (String.length s + i) (s +:+ t) = String.get i t.
Proof. induction s as [|c s IH]; [reflexivity | exact IH]. Qed.

Lemma length_append (s t : string) :
  String.length (s +:+ t) = (String.length s + String.length t)%nat.
Proof. induction s as [|c s IH]; [reflexivity|]. simpl. f_equal. exact IH. Qed.

Lemma length_written (body : string) :
  String.length (writtenItem body) = (13 + String.length body + 1)%nat.
Proof.
  change (S (S (S (S (S (S (S (S (S (S (S (S (S (String.length (body +:+ nl))))))))))))))
          = (13 + String.length body + 1)%nat).
  rewrite length_append. cbn [String.length nl str1]. lia.
Qed.

Lemma substring_append_l (s t : string) :
  substring 0 (String.length s) (s +:+ t) = s.
Proof.
  induction s as [|c s IH]; [destruct t; reflexivity|].
  simpl. f_equal. exact IH.
Qed.

(** The scanner on a numeral that [Write] has written: one integer item. *)
Lemma nextItem_numeral (body : string) (f : nat) :
  isNumeral body = true ->
  nextItem (String.length body + 6 + f) (afterTagX (writtenItem body))
  = Ok (mkItem itemDataInteger body 2,
        afterValue (writtenItem body) (13 + String.length body)).
Proof.
  intros Hb. set (inp := writtenItem body).
  assert (Hsub : forall k, k = String.length body -> substring 13 k inp = body).
  { intros k ->. change (substring 0 (String.length body) (body +:+ nl) = body).
    apply substring_append_l. }
  assert (Hend : endsValue (byteAt inp (13 + String.length body)) = true).
  { unfold byteAt, inp. rewrite get_written.
    replace (String.length body) with (String.length body + 0)%nat by lia.
    rewrite get_append_r. reflexivity. }
  assert (Hlen : (13 + String.length body <= String.length inp)%nat)
    by (unfold inp; rewrite length_written; lia).
  destruct body as [|c body]; [discriminate Hb|].
  cbn [isNumeral] in Hb. destruct (req c "-") eqn:Ec.
  - apply Ascii.eqb_eq in Ec. subst c.
    destruct body as [|d ds]; [discriminate Hb|].
    cbn [allChar] in Hb. apply andb_true_iff in Hb as [Hd Hall].
    replace (String.length (String "-" (String d ds)) + 6 + f)%nat
      with (5 + S (String.length ds + S (S f)))%nat by (cbn [String.length]; lia).
    unfold inp at 1. rewrite written_start by reflexivity. fold inp.
    rewrite (nextItem_step _ (inNumber inp 13 minusSign) (inInteger inp 13 2)
               St.lexValueIntegerStart eq_refl eq_refl (sign_step inp 13 d eq_refl Hd)).
    rewrite (integer_loop inp ds 13 2 (S f)).
    + rewrite Hsub by reflexivity. reflexivity.
    + intros i Hi. unfold inp.
      replace (13 + 2 + i)%nat with (13 + (2 + i))%nat by lia. rewrite get_written.
      change (String.get i (ds +:+ nl) = String.get i ds). apply get_append_l, Hi.
    + exact Hall.
    + replace (13 + 2 + String.length ds)%nat
        with (13 + String.length (String "-" (String d ds)))%nat
        by (cbn [String.length]; lia).
      exact Hend.
    + cbn [String.length] in Hlen. lia.
  - pose proof Hb as Hall. cbn [allChar] in Hb. apply andb_true_iff in Hb as [Hd Hds].
    replace (String.length (String c body) + 6 + f)%nat
      with (5 + (String.length body + S (S f)))%nat by (cbn [String.length]; lia).
    unfold inp at 1. rewrite written_start by (rewrite Hd; reflexivity). fold inp.
    replace (inNumber inp 13 c) with (inInteger inp 13 1)
      by (unfold inNumber; rewrite Hd; reflexivity).
    rewrite (integer_loop inp body 13 1 (S f)).
    + rewrite Hsub by reflexivity. reflexivity.
    + intros i Hi. unfold inp.
      replace (13 + 1 + i)%nat with (13 + (1 + i))%nat by lia. rewrite get_written.
      change (String.get i (body +:+ nl) = String.get i body). apply get_append_l, Hi.
    + exact Hds.
    + replace (13 + 1 + String.length body)%nat
        with (13 + String.length (String c body))%nat by (cbn [String.length]; lia).
      exact Hend.
    + cbn [String.length] in Hlen. lia.
Qed.

(** Behind a value that a line end and the end of the input follow, the
    scanner passes the line end and stops. *)
Lemma afterValue_newline (inp : string) (e w f : nat) :
  String.get e inp = Some newline -> String.get (S e) inp = None ->
  (S e <= String.length inp)%nat ->
  exists lx', nextItem (4 + f) (set_width w (afterValue inp e))
              = Ok (mkItem itemEOF "" 0, lx').
Proof.
  intros Hg Hn Hlen.
  set (lx1 := {| input := inp; start := e; pos := e; width := w; lx_line := 2;
                 state := Some St.lexValueEnd; emitted := None;
                 stack := [Some St.lexDataBlocks]; pred := predNonBlankChar |}).
  set (lx2 := {| input := inp; start := e; pos := S e; width := 1; lx_line := 3;
                 state := Some St.lexWhiteSpaceContinue; emitted := None;
                 stack := [Some St.lexDataBlocks]; pred := predNonBlankChar |}).
  set (lx3 := {| input := inp; start := S e; pos := S e; width := 0; lx_line := 3;
                 state := Some St.lexDataBlocks; emitted := None;
                 stack := []; pred := predNonBlankChar |}).
  assert (H1 : runState St.lexSpaceOrEofContinue (set_width w (afterValue inp e))
               = Ok (tt, lx1)).
  { unfold runState. cbn [call]. unfold lexSpaceOrEofContinue.
    unfold bind at 1. rewrite (bind_step _ _ _ _ _ (peek_byteAt _)).
    unfold byteAt. cbn [pos input afterValue set_width]. rewrite Hg. reflexivity. }
  assert (H2 : runState St.lexValueEnd lx1 = Ok (tt, lx2)).
  { unfold runState. cbn [call]. unfold lexValueEnd, lexWhiteSpace, pop.
    unfold bind at 1. unfold bind at 1. cbn [stack lx1].
    unfold bind at 1. unfold next. cbn [pos input set_stack lx1]. rewrite Hg.
    unfold push, bind, modify, ret. cbn. f_equal. f_equal.
    apply lexer_eq; cbn; try reflexivity; lia. }
  assert (H3 : runState St.lexWhiteSpaceContinue lx2 = Ok (tt, lx3)).
  { unfold runState. cbn [call]. unfold lexWhiteSpaceContinue.
    unfold bind at 1. unfold bind at 1. unfold next at 1. cbn [pos input lx2]. rewrite Hn.
    change (req eof commentStart) with false. cbv iota.
    change (negb (isWhiteSpace eof)) with true. cbv iota.
    unfold backup, ignore, pop, bind, modify. cbn [pos input width set_pos set_width lx2].
    replace (S e - 0)%nat with (S e) by lia. rewrite Hn. cbn.
    f_equal. }
  assert (H4 : exists lx', runState St.lexDataBlocks lx3 = Ok (tt, lx') /\ state lx' = None).
  { unfold runState. cbn [call]. unfold lexDataBlocks.
    unfold bind at 1. rewrite (bind_step _ _ _ _ _ (peek_byteAt _)).
    unfold byteAt. cbn [pos input lx3]. rewrite Hn.
    change (isWhiteSpace eof) with false. cbv iota.
    change (req eof eof) with true. cbv iota.
    unfold stop, ignore, emit, current, bind, modify, ret.
    cbn [emitted start pos input set_start lx3].
    destruct (Nat.leb_spec (S e) (S e)) as [_|Hx]; [|lia].
    destruct (Nat.leb_spec (S e) (String.length inp)) as [_|Hx]; [|lia].
    cbn [andb]. eexists. split; reflexivity. }
  destruct H4 as (lx' & H4 & Hs). exists lx'.
  change (4 + f)%nat with (S (S (S (S f)))).
  rewrite (nextItem_step _ (set_width w (afterValue inp e)) lx1 St.lexSpaceOrEofContinue
             eq_refl eq_refl H1).
  rewrite (nextItem_step _ lx1 lx2 St.lexValueEnd eq_refl eq_refl H2).
  rewrite (nextItem_step _ lx2 lx3 St.lexWhiteSpaceContinue eq_refl eq_refl H3).
  rewrite (nextItem_unfold _ _ St.lexDataBlocks) by reflexivity.
  rewrite (bind_step _ _ _ _ _ H4). apply nextItem_nil, Hs.
Qed.

Lemma nextItem_afterNumeral (body : string) (f : nat) :
  exists lx', nextItem (4 + f) (afterValue (writtenItem body) (13 + String.length body))
              = Ok (mkItem itemEOF "" 0, lx').
Proof.
  apply (afterValue_newline (writtenItem body) (13 + String.length body) 1 f).
  - rewrite get_written. replace (String.length body) with (String.length body + 0)%nat by lia.
    rewrite get_append_r. reflexivity.
  - change (S (13 + String.length body)) with (13 + S (String.length body))%nat.
    rewrite get_written. replace (S (String.length body)) with (String.length body + 1)%nat by lia.
    rewrite get_append_r. reflexivity.
  - rewrite length_written. lia.
Qed.

Lemma digitsOf_digits (fuel : nat) (n : Z) (acc : string) :
  0 <= n -> allChar isDigit acc = true -> allChar isDigit (digitsOf fuel n acc) = true.
Proof.
  revert n acc. induction fuel as [|fuel IH]; intros n acc Hn Hacc; [exact Hacc|].
  cbn [digitsOf].
  assert (Hd : allChar isDigit (String (ascii_of_N (Z.to_N (48 + n mod 10))) acc) = true).
  { cbn [allChar]. rewrite Hacc.
    destruct (digit_char (n mod 10) ltac:(apply Z.mod_pos_bound; lia)) as [Hc _].
    cbv zeta in Hc. rewrite Hc. reflexivity. }
  destruct (n / 10 =? 0); [exact Hd|].
  apply IH; [apply Z.div_pos; lia | exact Hd].
Qed.

Lemma digitsOf_some (fuel : nat) (n : Z) (acc : string) :
  digitsOf (S fuel) n acc <> EmptyString.
Proof.
  revert n acc. induction fuel as [|fuel IH]; intros n acc.
  - cbn [digitsOf]. destruct (n / 10 =? 0); discriminate.
  - change (digitsOf (S (S fuel)) n acc)
      with (let acc' := String (ascii_of_N (Z.to_N (48 + n mod 10))) acc in
            if n / 10 =? 0 then acc' else digitsOf (S fuel) (n / 10) acc').
    cbv zeta. destruct (n / 10 =? 0); [discriminate | apply IH].
Qed.

Lemma itoa_numeral (n : Z) : isNumeral (itoa n) = true.
Proof.
  unfold itoa. destruct (Z.ltb_spec n 0) as [Hneg|Hpos].
  - pose proof (digitsOf_digits (S (Z.to_nat (Z.log2 (- n)))) (- n) "" ltac:(lia) eq_refl) as Hd.
    pose proof (digitsOf_some (Z.to_nat (Z.log2 (- n))) (- n) "") as Hs.
    destruct (digitsOf (S (Z.to_nat (Z.log2 (- n)))) (- n) "") as [|c rest];
      [contradiction|]. exact Hd.
  - pose proof (digitsOf_digits (S (Z.to_nat (Z.log2 n))) n "" Hpos eq_refl) as Hd.
    pose proof (digitsOf_some (Z.to_nat (Z.log2 n)) n "") as Hs.
    destruct (digitsOf (S (Z.to_nat (Z.log2 n))) n "") as [|c rest]; [contradiction|].
    cbn [isNumeral]. pose proof Hd as Hd'. cbn [allChar] in Hd'.
    apply andb_true_iff in Hd' as [Hc _].
    destruct (isDigit_plain _ Hc) as (H1 & _). rewrite H1. exact Hd.
Qed.


Lemma Write_integer_item (n : Z) :
  Write bufferWrite (itemDoc (cifInt n)) "" = (writtenItem (itoa n), None).
Proof.
  set (blk := {| Name := "a"; Items := {[ "x" := cifInt n ]}; Loops := ∅ |}).
  set (db := {| dataBlock := blk; Frames := ∅ |}).
  assert (Hb : map_to_list (Blocks (itemDoc (cifInt n))) = [("a", db)])
    by (vm_compute; reflexivity).
  assert (Hf : map_to_list (Frames db) = []) by (vm_compute; reflexivity).
  assert (Hi : map_to_list (Items blk) = [("x", cifInt n)]) by (vm_compute; reflexivity).
  assert (Hl : map_to_list (Loops blk) = []) by (vm_compute; reflexivity).
  unfold Write, Writer.write, Writer.writeBody. rewrite Hb.
  cbn [Version itemDoc String.length Nat.ltb Nat.leb Writer.forEach].
  unfold Writer.writeDataBlock. rewrite Hf. cbn [dataBlock db Writer.forEach].
  unfold Writer.writeBlock. rewrite Hi, Hl.
  cbn [Writer.forEach Writer.writeLoops Writer.valToStr Name blk].
  unfold Writer.wbind, Writer.wret, Writer.pf, bufferWrite.
  reflexivity.
Qed.

Lemma Read_numeral (body : string) (n : Z) (f : nat) :
  isNumeral body = true -> Atoi body = Some n ->
  Read (String.length body + 12 + f) (writtenItem body)
  = Some (Some (itemDoc (cifInt n)), None).
Proof.
  intros Hb Ha. set (inp := writtenItem body).
  replace (String.length body + 12 + f)%nat
    with (S (S (S (String.length body + 9 + f)))) by lia.
  set (H := S (String.length body + 9 + f)).
  assert (H1 : nextItem (S (S H)) (lex inp) = Ok (headingItem "a", afterBlockA inp)).
  { replace (S (S H)) with (6 + (String.length body + 6 + f))%nat by (unfold H; lia).
    apply written_blockA. }
  assert (H2 : nextItem (S H) (afterBlockA inp)
               = Ok (mkItem itemDataTag "x" 2, afterTagX inp)).
  { replace (S H) with (10 + (String.length body + 1 + f))%nat by (unfold H; lia).
    apply written_tagX. }
  assert (H3 : nextItem H (afterTagX inp)
               = Ok (mkItem itemDataInteger body 2,
                     afterValue inp (13 + String.length body))).
  { replace H with (String.length body + 6 + (4 + f))%nat by (unfold H; lia).
    apply nextItem_numeral, Hb. }
  assert (H4 : exists lxe, nextItem H (afterValue inp (13 + String.length body))
                           = Ok (mkItem itemEOF "" 0, lxe)).
  { replace H with (4 + (String.length body + 6 + f))%nat by (unfold H; lia).
    apply nextItem_afterNumeral. }
  destruct H4 as (lxe & H4).
  unfold Read, Parser.parse, Parser.parseBody.
  rewrite (bind_step _ _ _ _ tt eq_refl).
  set (p0 := Parser.set_lx (lex inp) _).
  rewrite (bind_step _ _ _ _ _ (next_token (S H) p0 _ _ H1 eq_refl eq_refl)).
  set (p1 := Parser.set_p_line _ _).
  change (Parser.parseLoopTop (S (S H)) (headingItem "a") p1)
    with ((t' <- Parser.parseDataBlock (S H) "a" ;; Parser.parseLoopTop (S H) t')%go p1).
  set (p2 := Parser.set_cif (set_Blocks (<["a" := newDataBlock "a"]> (Blocks (cif p1)))
                               (cif p1)) p1).
  set (p3 := Parser.set_p_line 2 (Parser.set_lx (afterTagX inp) p2)).
  assert (Hd : Parser.parseDataBlock (S H) "a" p1
               = (Parser.parseItemValue H (inData "a") "x" ;;
                  t' <- Parser.next H ;; Parser.parseDataBlockLoop H "a" t')%go p3).
  { unfold Parser.parseDataBlock.
    rewrite (bind_step _ _ p1 p1 (Blocks (cif p1)) eq_refl).
    assert (Hfresh : bool_decide (is_Some (Blocks (cif p1) !! "a")) = false).
    { apply bool_decide_eq_false. cbn. rewrite lookup_empty. intros [x Hx]. discriminate Hx. }
    rewrite Hfresh. rewrite (bind_step _ _ p1 p1 tt eq_refl).
    rewrite (bind_step _ _ p1 p2 tt eq_refl).
    rewrite (bind_step _ _ _ _ _ (next_token H p2 _ _ H2 eq_refl eq_refl)).
    reflexivity. }
  set (p4 := Parser.set_p_line 2
               (Parser.set_lx (afterValue inp (13 + String.length body)) p3)).
  assert (Hv : Parser.parseItemValue H (inData "a") "x" p3
               = (v <- Parser.parseValue (mkItem itemDataInteger body 2) "a" "x" ;;
                  modify (fun p => Parser.set_cif
                                     (alterBlock (setItem "x" v) (inData "a") (cif p)) p))%go p4).
  { unfold Parser.parseItemValue.
    assert (Hu : Parser.assertUniqueTag (inData "a") "x" p3 = Ok (tt, p3))
      by (vm_compute; reflexivity).
    rewrite (bind_step _ _ _ _ _ Hu).
    rewrite (bind_step _ _ _ _ _
               (next_token (String.length body + 9 + f) p3 _ _ H3 eq_refl eq_refl)).
    rewrite (bind_step _ _ p4 p4 "a" eq_refl). reflexivity. }
  unfold bind at 1. rewrite Hd. unfold bind at 1. rewrite Hv.
  unfold bind at 1. unfold Parser.parseValue. cbn [typ val]. rewrite Ha.
  cbn [AsValue]. unfold ret at 1. unfold modify at 1.
  set (p5 := Parser.set_cif _ p4).
  rewrite (bind_step _ _ _ _ _
             (next_token (String.length body + 9 + f) p5 _ _ H4 eq_refl eq_refl)).
  vm_compute. reflexivity.
Qed.

(** X20. An integer item survives [Write] and [Read]: for every integer
    [n] of the range of an [int], [Write] of the document with the block
    [a] and the one item [x] of the value [n] puts the heading, then the
    tag, four spaces and [n] as [%d] prints it into the buffer and
    returns no error, and [Read] of what it wrote returns the same
    document and no error. *)
Theorem integer_item_round_trip (n : Z) (f : nat) :
  minInt64 <= n <= maxInt64 ->
  Write bufferWrite (itemDoc (cifInt n)) "" = (writtenItem (itoa n), None) /\
  Read (String.length (itoa n) + 12 + f) (writtenItem (itoa n))
  = Some (Some (itemDoc (cifInt n)), None).
Proof.
  intros Hr. split; [apply Write_integer_item|].
  apply Read_numeral; [apply itoa_numeral | apply Atoi_itoa, Hr].
Qed.

Lemma integer_item_round_trip_witness :
  Write bufferWrite (itemDoc (cifInt (-42))) "" = (writtenItem "-42", None) /\
  Read 15 (writtenItem "-42") = Some (Some (itemDoc (cifInt (-42))), None).
Proof.
  exact (integer_item_round_trip (-42) 0 ltac:(unfold minInt64, maxInt64; lia)).
Defined.

(** ** A word of letters, written and read back *)

Definition isLetter (r : rune) : bool := between "A" "Z" r || between "a" "z" r.

Definition underscore : rune := "_"%char.

(** What a letter is and is not, for the tests of [formatStr], [lexValue]
    and [lexPred]. *)
Lemma letter_plain (c : rune) :
  isLetter c = true ->
  isOrdinaryChar c = true /\ isNonBlankChar c = true /\ isDigit c = false /\
  isNL c = false /\ req c dquote = false /\ req c squote = false /\
  req c underscore = false /\ req (lowerRune c) underscore = false.
Proof.
  destruct c as [[] [] [] [] [] [] [] []]; vm_compute; intros H;
    first [discriminate H | repeat split].
Qed.

Lemma letters_anyChar (p : rune -> bool) (s : string) :
  (forall c, isLetter c = true -> p c = false) ->
  allChar isLetter s = true -> anyChar p s = false.
Proof.
  intros Hp. induction s as [|c s IH]; intros Hs; [reflexivity|].
  cbn [allChar] in Hs. apply andb_true_iff in Hs as [Hc Hs].
  cbn [anyChar]. rewrite (Hp c Hc), (IH Hs). reflexivity.
Qed.

Lemma formatStr_letters (s : string) : allChar isLetter s = true -> formatStr s = Ok s.
Proof.
  intros Hs. rewrite formatStr_spec. unfold chosenQuoting, quotingOf.
  unfold hasDigit, hasNL, hasDouble, hasSingle, hasOther.
  rewrite !(letters_anyChar _ s) by
    (assumption || (intros c Hc; destruct (letter_plain c Hc) as (H1 & H2 & H3 & H4 & H5 & H6 & _);
                    rewrite ?H1, ?H3, ?H4, ?H5, ?H6; reflexivity)).
  reflexivity.
Qed.

(** The scanner inside an unquoted value that starts at the offset [o],
    with [k] of its bytes read, and at its end. *)
Definition inWord (inp : string) (o k w : nat) : lexer :=
  {| input := inp; start := o; pos := o + k; width := w; lx_line := 2;
     state := Some St.lexPred; emitted := None;
     stack := [Some St.lexValueUnquotedEnd; Some St.lexDataBlocks];
     pred := predNonBlankChar |}.

Definition atWordEnd (inp : string) (o n w : nat) : lexer :=
  {| input := inp; start := o; pos := o + n; width := w; lx_line := 2;
     state := Some St.lexValueUnquotedEnd; emitted := None;
     stack := [Some St.lexDataBlocks]; pred := predNonBlankChar |}.

Lemma written_gap (c : rune) (body : string) (f : nat) :
  isLetter c = true ->
  nextItem (4 + f) (afterTagX (writtenItem (String c body)))
  = nextItem f (atNumber (writtenItem (String c body)) 13).
Proof.
  intros Hc. set (inp := writtenItem (String c body)).
  change (4 + f)%nat with (S (S (S (S f)))).
  rewrite (nextItem_step _ (afterTagX inp) (inGap inp 1) St.lexWhiteSpaceContinue)
    by (vm_compute; reflexivity).
  rewrite (nextItem_step _ (inGap inp 1) (inGap inp 2) St.lexWhiteSpaceContinue)
    by (vm_compute; reflexivity).
  rewrite (nextItem_step _ (inGap inp 2) (inGap inp 3) St.lexWhiteSpaceContinue)
    by (vm_compute; reflexivity).
  apply (nextItem_step _ (inGap inp 3) (atNumber inp 13) St.lexWhiteSpaceContinue);
    [reflexivity | reflexivity |].
  unfold inp. clear inp.
  destruct c as [[] [] [] [] [] [] [] []]; vm_compute in Hc; try discriminate Hc;
    vm_compute; reflexivity.
Qed.

Definition plainByte (r : rune) : bool := negb (req r underscore).

Lemma allChar_substring (p : rune -> bool) (n : nat) (t : string) :
  allChar p t = true -> allChar p (substring 0 n t) = true.
Proof.
  revert t. induction n as [|n IH]; intros t Ht; [destruct t; reflexivity|].
  destruct t as [|c t]; [reflexivity|].
  cbn [allChar] in Ht. apply andb_true_iff in Ht as [Hc Ht].
  cbn [substring allChar]. rewrite Hc, (IH t Ht). reflexivity.
Qed.

Lemma allChar_append (p : rune -> bool) (s t : string) :
  allChar p s = true -> allChar p t = true -> allChar p (s +:+ t) = true.
Proof.
  intros Hs Ht. induction s as [|c s IH]; [exact Ht|].
  cbn [allChar] in Hs. apply andb_true_iff in Hs as [Hc Hs].
  simpl. rewrite Hc, (IH Hs). reflexivity.
Qed.

Lemma allChar_impl (p q : rune -> bool) (s : string) :
  (forall c, p c = true -> q c = true) -> allChar p s = true -> allChar q s = true.
Proof.
  intros Hpq. induction s as [|c s IH]; intros Hs; [reflexivity|].
  cbn [allChar] in Hs. apply andb_true_iff in Hs as [Hc Hs].
  cbn [allChar]. rewrite (Hpq c Hc), (IH Hs). reflexivity.
Qed.

Lemma letter_plainByte (c : rune) : isLetter c = true -> plainByte c = true.
Proof.
  intros Hc. destruct (letter_plain c Hc) as (_ & _ & _ & _ & _ & _ & H & _).
  unfold plainByte. rewrite H. reflexivity.
Qed.

Lemma streq_plain (p word : string) :
  allChar plainByte p = true -> allChar plainByte word = false -> streq p word = false.
Proof.
  intros Hp Hw. unfold streq. destruct (String.eqb p word) eqn:E; [|reflexivity].
  apply String.eqb_eq in E. subst p. congruence.
Qed.

(** A keyword with an underscore is not ahead where only letters and a
    line end are. *)
Lemma aheadMatch_plain (word : string) (lx : lexer) :
  allChar plainByte word = false ->
  allChar plainByte (substring (pos lx) (String.length word) (input lx)) = true ->
  aheadMatch word lx = Ok (false, lx).
Proof.
  intros Hw Hp. unfold aheadMatch, peekAt, gets, bind, ret.
  rewrite (streq_plain _ _ Hp Hw). reflexivity.
Qed.

Lemma word_start (c : rune) (body : string) :
  allChar isLetter (String c body) = true ->
  runState St.lexValue (atNumber (writtenItem (String c body)) 13)
  = Ok (tt, inWord (writtenItem (String c body)) 13 1 1).
Proof.
  intros Hall. set (inp := writtenItem (String c body)).
  assert (Hplain : forall n, allChar plainByte (substring 13 n inp) = true).
  { intros n. change (substring 13 n inp) with (substring 0 n (String c body +:+ nl)).
    apply allChar_substring, allChar_append; [|reflexivity].
    exact (allChar_impl _ _ _ letter_plainByte Hall). }
  assert (Hb : backup (atNumber inp 13) = Ok (tt, set_pos 12 (atNumber inp 13)))
    by (vm_compute; reflexivity).
  assert (Hn : next (set_pos 12 (atNumber inp 13)) = Ok (" "%char, atNumber inp 13))
    by (vm_compute; reflexivity).
  pose proof (aheadMatch_plain "data_" (atNumber inp 13) eq_refl (Hplain 5%nat)) as Hd.
  pose proof (aheadMatch_plain "save_" (atNumber inp 13) eq_refl (Hplain 5%nat)) as Hs.
  unfold runState. cbn [call]. unfold lexValue.
  unfold bind at 1.
  rewrite (bind_step _ _ _ _ _ Hb), (bind_step _ _ _ _ _ Hn), (bind_step _ _ _ _ _ Hd),
    (bind_step _ _ _ _ _ Hs).
  cbn [allChar] in Hall. apply andb_true_iff in Hall as [Hc _].
  revert Hc. unfold inp. clear.
  destruct c as [[] [] [] [] [] [] [] []]; intros Hc; vm_compute in Hc; try discriminate Hc;
    vm_compute; reflexivity.
Qed.

Lemma nextItem_run (f : nat) (lx lx' : lexer) (s : stateFn) :
  runState s lx = Ok (tt, lx') -> emitted lx = None -> state lx = Some s ->
  nextItem (S f) lx = nextItem f lx'.
Proof. intros Hr He Hs. exact (nextItem_step f lx lx' s He Hs Hr). Qed.

Lemma word_loop (inp rest : string) (o k w f : nat) :
  (forall i, (i < String.length rest)%nat -> String.get (o + k + i) inp = String.get i rest) ->
  allChar isNonBlankChar rest = true ->
  isNonBlankChar (byteAt inp (o + k + String.length rest)) = false ->
  exists w', nextItem (String.length rest + S f) (inWord inp o k w)
             = nextItem f (atWordEnd inp o (k + String.length rest) w').
Proof.
  revert k w. induction rest as [|c rest IH]; intros k w Hg Hall Hend.
  - cbn [String.length Nat.add] in *. rewrite !Nat.add_0_r in *.
    destruct (lexPred_stop (inWord inp o k w) (Some St.lexValueUnquotedEnd)
                [Some St.lexDataBlocks] eq_refl Hend) as (w' & H1).
    exists w'.
    rewrite (nextItem_run _ _ _ _ H1 eq_refl eq_refl). f_equal.
    unfold afterRun. apply lexer_eq; cbn; try reflexivity; lia.
  - cbn [allChar] in Hall. apply andb_true_iff in Hall as [Hc Hall].
    cbn [String.length Nat.add] in *.
    assert (Hk : String.get (o + k) inp = Some c).
    { specialize (Hg 0%nat ltac:(lia)). rewrite Nat.add_0_r in Hg. exact Hg. }
    rewrite (nextItem_run _ _ _ _ (lexPred_step (inWord inp o k w) c Hk Hc) eq_refl eq_refl).
    destruct (IH (S k) 1%nat) as (w' & Hw).
    + intros i Hi. specialize (Hg (S i) ltac:(lia)).
      replace (o + S k + i)%nat with (o + k + S i)%nat by lia. exact Hg.
    + exact Hall.
    + replace (o + S k + String.length rest)%nat
        with (o + k + S (String.length rest))%nat by lia. exact Hend.
    + exists w'.
      replace (k + S (String.length rest))%nat with (S k + String.length rest)%nat by lia.
      rewrite <- Hw. f_equal. apply lexer_eq; cbn; try reflexivity; lia.
Qed.

Lemma ToLower_plain (s : string) :
  allChar isLetter s = true -> allChar plainByte (ToLower s) = true.
Proof.
  induction s as [|c s IH]; intros Hs; [reflexivity|].
  cbn [allChar] in Hs. apply andb_true_iff in Hs as [Hc Hs].
  destruct (letter_plain c Hc) as (_ & _ & _ & _ & _ & _ & _ & H).
  cbn [ToLower allChar]. unfold plainByte at 1. rewrite H, (IH Hs). reflexivity.
Qed.

(** A word of letters is none of the reserved words, which all end in an
    underscore. *)
Lemma reserved_letters (s : string) :
  allChar isLetter s = true ->
  List.find (fun word => streq word (ToLower s)) reservedUnquoted = None.
Proof.
  intros Hs. pose proof (ToLower_plain s Hs) as Hp.
  assert (H : forall word, allChar plainByte word = false -> streq word (ToLower s) = false).
  { intros word Hw. unfold streq. destruct (String.eqb word (ToLower s)) eqn:E; [|reflexivity].
    apply String.eqb_eq in E. subst word. congruence. }
  cbn [List.find reservedUnquoted]. rewrite !H by reflexivity. reflexivity.
Qed.

Lemma word_end (inp : string) (o n w : nat) :
  (o + n <= String.length inp)%nat ->
  allChar isLetter (substring o n inp) = true ->
  runState St.lexValueUnquotedEnd (atWordEnd inp o n w)
  = Ok (tt, set_emitted (Some (mkItem itemDataString (substring o n inp) 2))
              (set_width w (afterValue inp (o + n)))).
Proof.
  intros Hlen Hall.
  assert (Hcur : current (atWordEnd inp o n w) = Ok (substring o n inp, atWordEnd inp o n w)).
  { unfold current. cbn [start pos input atWordEnd].
    destruct (Nat.leb_spec o (o + n)) as [_|Hx]; [|lia].
    destruct (Nat.leb_spec (o + n) (String.length inp)) as [_|Hx]; [|lia].
    cbn [andb]. replace (o + n - o)%nat with n by lia. reflexivity. }
  unfold runState. cbn [call]. unfold lexValueUnquotedEnd.
  unfold bind at 1. rewrite (bind_step _ _ _ _ _ Hcur).
  rewrite (reserved_letters _ Hall).
  unfold emit. unfold bind at 1. cbn [emitted atWordEnd].
  unfold bind at 1. rewrite Hcur.
  unfold lexSpaceOrEof, push, bind, modify, ret. reflexivity.
Qed.

(** The scanner on a word of letters that [Write] has written: one string
    item. *)
Lemma nextItem_word (c : rune) (body : string) (f : nat) :
  allChar isLetter (String c body) = true ->
  exists w,
    nextItem (String.length body + 7 + f) (afterTagX (writtenItem (String c body)))
    = Ok (mkItem itemDataString (String c body) 2,
          set_width w (afterValue (writtenItem (String c body))
                         (13 + String.length (String c body)))).
Proof.
  intros Hall. set (s := String c body). set (inp := writtenItem s).
  assert (Hsub : substring 13 (String.length s) inp = s).
  { change (substring 0 (String.length s) (s +:+ nl) = s). apply substring_append_l. }
  pose proof Hall as Hall'. cbn [allChar] in Hall'. apply andb_true_iff in Hall' as [Hc Hb].
  replace (String.length body + 7 + f)%nat
    with (4 + S (String.length body + S (S f)))%nat by lia.
  unfold inp, s. rewrite (written_gap c body _ Hc). fold s. fold inp.
  rewrite (nextItem_run _ _ _ _ (word_start c body Hall) eq_refl eq_refl).
  fold s. fold inp.
  destruct (word_loop inp body 13 1 1 (S f)) as (w & Hw).
  - intros i Hi. unfold inp.
    replace (13 + 1 + i)%nat with (13 + (1 + i))%nat by lia. rewrite get_written.
    change (String.get i (body +:+ nl) = String.get i body). apply get_append_l, Hi.
  - apply (allChar_impl isLetter); [|exact Hb].
    intros r Hr. destruct (letter_plain r Hr) as (_ & H & _). exact H.
  - unfold byteAt, inp.
    replace (13 + 1 + String.length body)%nat with (13 + (String.length s + 0))%nat
      by (unfold s; cbn [String.length]; lia).
    rewrite get_written, get_append_r. reflexivity.
  - exists w. rewrite Hw.
    assert (He : runState St.lexValueUnquotedEnd (atWordEnd inp 13 (String.length s) w)
                 = Ok (tt, set_emitted (Some (mkItem itemDataString s 2))
                             (set_width w (afterValue inp (13 + String.length s))))).
    { rewrite <- Hsub at 2. apply word_end.
      - unfold inp. rewrite length_written. lia.
      - rewrite Hsub. exact Hall. }
    change (1 + String.length body)%nat with (String.length s).
    rewrite (nextItem_run _ _ _ _ He eq_refl eq_refl).
    destruct f; reflexivity.
Qed.

Lemma nextItem_afterWord (body : string) (w f : nat) :
  exists lx', nextItem (4 + f) (set_width w (afterValue (writtenItem body)
                                               (13 + String.length body)))
              = Ok (mkItem itemEOF "" 0, lx').
Proof.
  apply (afterValue_newline (writtenItem body) (13 + String.length body) w f).
  - rewrite get_written. replace (String.length body) with (String.length body + 0)%nat by lia.
    rewrite get_append_r. reflexivity.
  - change (S (13 + String.length body)) with (13 + S (String.length body))%nat.
    rewrite get_written. replace (S (String.length body)) with (String.length body + 1)%nat by lia.
    rewrite get_append_r. reflexivity.
  - rewrite length_written. lia.
Qed.

Lemma Read_word (c : rune) (body : string) (f : nat) :
  allChar isLetter (String c body) = true ->
  Read (String.length body + 12 + f) (writtenItem (String c body))
  = Some (Some (itemDoc (cifString (String c body))), None).
Proof.
  intros Hall. set (s := String c body). set (inp := writtenItem s).
  replace (String.length body + 12 + f)%nat
    with (S (S (S (String.length body + 9 + f)))) by lia.
  set (H := S (String.length body + 9 + f)).
  assert (H1 : nextItem (S (S H)) (lex inp) = Ok (headingItem "a", afterBlockA inp)).
  { replace (S (S H)) with (6 + (String.length body + 6 + f))%nat by (unfold H; lia).
    apply written_blockA. }
  assert (H2 : nextItem (S H) (afterBlockA inp)
               = Ok (mkItem itemDataTag "x" 2, afterTagX inp)).
  { replace (S H) with (10 + (String.length body + 1 + f))%nat by (unfold H; lia).
    apply written_tagX. }
  assert (H3 : exists w, nextItem H (afterTagX inp)
                         = Ok (mkItem itemDataString s 2,
                               set_width w (afterValue inp (13 + String.length s)))).
  { replace H with (String.length body + 7 + (3 + f))%nat by (unfold H; lia).
    apply nextItem_word, Hall. }
  destruct H3 as (w & H3).
  assert (H4 : exists lxe, nextItem H (set_width w (afterValue inp (13 + String.length s)))
                           = Ok (mkItem itemEOF "" 0, lxe)).
  { replace H with (4 + (String.length body + 6 + f))%nat by (unfold H; lia).
    apply nextItem_afterWord. }
  destruct H4 as (lxe & H4).
  unfold Read, Parser.parse, Parser.parseBody.
  rewrite (bind_step _ _ _ _ tt eq_refl).
  set (p0 := Parser.set_lx (lex inp) _).
  rewrite (bind_step _ _ _ _ _ (next_token (S H) p0 _ _ H1 eq_refl eq_refl)).
  set (p1 := Parser.set_p_line _ _).
  change (Parser.parseLoopTop (S (S H)) (headingItem "a") p1)
    with ((t' <- Parser.parseDataBlock (S H) "a" ;; Parser.parseLoopTop (S H) t')%go p1).
  set (p2 := Parser.set_cif (set_Blocks (<["a" := newDataBlock "a"]> (Blocks (cif p1)))
                               (cif p1)) p1).
  set (p3 := Parser.set_p_line 2 (Parser.set_lx (afterTagX inp) p2)).
  assert (Hd : Parser.parseDataBlock (S H) "a" p1
               = (Parser.parseItemValue H (inData "a") "x" ;;
                  t' <- Parser.next H ;; Parser.parseDataBlockLoop H "a" t')%go p3).
  { unfold Parser.parseDataBlock.
    rewrite (bind_step _ _ p1 p1 (Blocks (cif p1)) eq_refl).
    assert (Hfresh : bool_decide (is_Some (Blocks (cif p1) !! "a")) = false).
    { apply bool_decide_eq_false. cbn. rewrite lookup_empty. intros [x Hx]. discriminate Hx. }
    rewrite Hfresh. rewrite (bind_step _ _ p1 p1 tt eq_refl).
    rewrite (bind_step _ _ p1 p2 tt eq_refl).
    rewrite (bind_step _ _ _ _ _ (next_token H p2 _ _ H2 eq_refl eq_refl)).
    reflexivity. }
  set (p4 := Parser.set_p_line 2
               (Parser.set_lx (set_width w (afterValue inp (13 + String.length s))) p3)).
  assert (Hv : Parser.parseItemValue H (inData "a") "x" p3
               = (v <- Parser.parseValue (mkItem itemDataString s 2) "a" "x" ;;
                  modify (fun p => Parser.set_cif
                                     (alterBlock (setItem "x" v) (inData "a") (cif p)) p))%go p4).
  { unfold Parser.parseItemValue.
    assert (Hu : Parser.assertUniqueTag (inData "a") "x" p3 = Ok (tt, p3))
      by (vm_compute; reflexivity).
    rewrite (bind_step _ _ _ _ _ Hu).
    rewrite (bind_step _ _ _ _ _
               (next_token (String.length body + 9 + f) p3 _ _ H3 eq_refl eq_refl)).
    rewrite (bind_step _ _ p4 p4 "a" eq_refl). reflexivity. }
  unfold bind at 1. rewrite Hd. unfold bind at 1. rewrite Hv.
  unfold bind at 1. unfold Parser.parseValue. cbn [typ val].
  cbn [AsValue]. unfold ret at 1. unfold modify at 1.
  set (p5 := Parser.set_cif _ p4).
  rewrite (bind_step _ _ _ _ _
             (next_token (String.length body + 9 + f) p5 _ _ H4 eq_refl eq_refl)).
  vm_compute. reflexivity.
Qed.

Lemma Write_word (s : string) :
  allChar isLetter s = true ->
  Write bufferWrite (itemDoc (cifString s)) "" = (writtenItem s, None).
Proof.
  intros Hs.
  set (blk := {| Name := "a"; Items := {[ "x" := cifString s ]}; Loops := ∅ |}).
  set (db := {| dataBlock := blk; Frames := ∅ |}).
  assert (Hb : map_to_list (Blocks (itemDoc (cifString s))) = [("a", db)])
    by (vm_compute; reflexivity).
  assert (Hf : map_to_list (Frames db) = []) by (vm_compute; reflexivity).
  assert (Hi : map_to_list (Items blk) = [("x", cifString s)]) by (vm_compute; reflexivity).
  assert (Hl : map_to_list (Loops blk) = []) by (vm_compute; reflexivity).
  unfold Write, Writer.write, Writer.writeBody. rewrite Hb.
  cbn [Version itemDoc String.length Nat.ltb Nat.leb Writer.forEach].
  unfold Writer.writeDataBlock. rewrite Hf. cbn [dataBlock db Writer.forEach].
  unfold Writer.writeBlock. rewrite Hi, Hl.
  cbn [Writer.forEach Writer.writeLoops Writer.valToStr Name blk].
  rewrite (formatStr_letters s Hs).
  unfold Writer.wbind, Writer.wret, Writer.pf, Writer.ofRes, bufferWrite.
  reflexivity.
Qed.

(** X21. A word of letters survives [Write] and [Read]: for every string
    of one or more letters, [Write] of the document with the block [a]
    and the one item [x] of this string writes the string without quotes
    and returns no error, and [Read] of what it wrote returns the same
    document and no error. The word is scanned as an unquoted string: no
    letter ends it, and it is no reserved word, since these hold an
    underscore. *)
Theorem word_item_round_trip (c : rune) (body : string) (f : nat) :
  allChar isLetter (String c body) = true ->
  Write bufferWrite (itemDoc (cifString (String c body))) ""
  = (writtenItem (String c body), None) /\
  Read (String.length body + 12 + f) (writtenItem (String c body))
  = Some (Some (itemDoc (cifString (String c body))), None).
Proof.
  intros Hall. split; [apply Write_word, Hall | apply Read_word, Hall].
Qed.

Lemma word_item_round_trip_witness :
  Write bufferWrite (itemDoc (cifString "data")) "" = (writtenItem "data", None) /\
  Read 15 (writtenItem "data") = Some (Some (itemDoc (cifString "data")), None).
Proof. exact (word_item_round_trip "d"%char "ata" 0 eq_refl). Defined.

(** * The tokens of a table *)

(** The tokens that the parser takes from the scanner: [reads p ts p']
    when successive calls of [next] return the tokens [ts] and lead from
    the parser [p] to [p']. *)
Inductive reads : parser -> list item -> parser -> Prop :=
| reads_nil (p : parser) : reads p [] p
| reads_cons (fuel : nat) (p p1 p' : parser) (t : item) (ts : list item) :
    Parser.next fuel p = Ok (t, p1) -> reads p1 ts p' -> reads p (t :: ts) p'.

Lemma reads_app (p p1 p2 : parser) (ts us : list item) :
  reads p ts p1 -> reads p1 us p2 -> reads p (ts ++ us)%list p2.
Proof.
  intros H1 H2. induction H1 as [p|fuel p q p' t ts Hn H1 IH]; [exact H2|].
  cbn [app]. exact (reads_cons fuel p q p2 t _ Hn (IH H2)).
Qed.

Lemma reads_cif (p p' : parser) (ts : list item) : reads p ts p' -> cif p' = cif p.
Proof.
  intros H. induction H as [p|fuel p q p' t ts Hn H IH]; [reflexivity|].
  rewrite IH. exact (next_cif _ _ _ _ Hn).
Qed.

(** The column that the tags loop of [parseLoop] opens for a tag. *)
Definition newColumn (t : item) : loopValues :=
  mkLoopValues (ToLower (val t)) [] itemDataNone.

(** The tags loop: it goes through the run of tag tokens in front of the
    parser and opens a column for each. *)
Lemma parseLoopTags_tokens (fuel : nat) (b : blockRef) (t t' : item) (i : Z)
    (vals vals' : list loopValues) (p p' : parser) :
  Parser.parseLoopTags fuel b t i vals p = Ok ((t', vals'), p') ->
  exists tags rest,
    (t :: rest = tags ++ [t'])%list /\ reads p rest p' /\
    Forall (fun tg => typ tg = itemDataTag) tags /\ typ t' <> itemDataTag /\
    vals' = (vals ++ List.map newColumn tags)%list.
Proof.
  revert t i vals p. induction fuel as [|f IH]; intros t i vals p H; simpl in H.
  - destruct (itemType_eqb (typ t) itemDataTag) eqn:E; [discriminate H|].
    apply ret_Ok in H as [H ->]. injection H as -> ->.
    exists [], []. split; [reflexivity|]. split; [constructor|]. split; [constructor|].
    split; [apply itemType_eqb_neq, E | rewrite app_nil_r; reflexivity].
  - destruct (itemType_eqb (typ t) itemDataTag) eqn:E.
    + bind_inv H as (u & p1 & Hu & H). apply assertUniqueTag_Ok in Hu as (-> & _ & _).
      bind_inv H as (t1 & p2 & Hn & H).
      apply IH in H as (tags & rest & Heq & Hr & Htags & Ht' & ->).
      exists (t :: tags), (t1 :: rest).
      split; [cbn [app]; rewrite Heq; reflexivity|].
      split; [exact (reads_cons f p p2 p' t1 rest Hn Hr)|].
      split; [constructor; [apply itemType_eqb_eq, E | exact Htags]|].
      split; [exact Ht'|]. rewrite <- app_assoc. reflexivity.
    + apply ret_Ok in H as [H ->]. injection H as -> ->.
      exists [], []. split; [reflexivity|]. split; [constructor|]. split; [constructor|].
      split; [apply itemType_eqb_neq, E | rewrite app_nil_r; reflexivity].
Qed.

(** The tokens of [toks] that go to the column [j] of [n], when the first
    of them is the value number [i] of the table: the values are dealt to
    the columns in turn, row by row. *)
Fixpoint columnOf (n j i : nat) (toks : list item) : list item :=
  match toks with
  | [] => []
  | t :: rest =>
      if (i mod n =? j)%nat then t :: columnOf n j (S i) rest else columnOf n j (S i) rest
  end.

(** The column [v] after the tokens [toks] have been added to it. *)
Definition extended (v : loopValues) (toks : list item) : loopValues :=
  mkLoopValues (lv_name v) (lv_strs v ++ List.map val toks)%list
               (fold_left mergeTyp (List.map typ toks) (lv_typ v)).

Lemma extended_nil (v : loopValues) : extended v [] = v.
Proof. destruct v. unfold extended. cbn. rewrite app_nil_r. reflexivity. Qed.

Lemma extended_cons (v : loopValues) (t : item) (toks : list item) :
  extended (mkLoopValues (lv_name v) (lv_strs v ++ [val t])%list (mergeTyp (lv_typ v) (typ t)))
           toks
  = extended v (t :: toks).
Proof. unfold extended. cbn. rewrite <- app_assoc. reflexivity. Qed.

(** The values loop: it goes through the run of value tokens in front of
    the parser and adds each to its column. *)
Lemma parseLoopValues_tokens (fuel : nat) (t t' : item) (i count count' : nat)
    (vals vals' : list loopValues) (p p' : parser) :
  Parser.parseLoopValues fuel t i count vals p = Ok ((t', count', vals'), p') ->
  exists values rest,
    (t :: rest = values ++ [t'])%list /\ reads p rest p' /\
    Forall (fun tv => isValueType (typ tv) = true) values /\
    isValueType (typ t') = false /\
    count' = (count + length values)%nat /\
    length vals' = length vals /\
    forall j v, vals !! j = Some v ->
                vals' !! j = Some (extended v (columnOf (length vals) j i values)).
Proof.
  revert t i count vals p. induction fuel as [|f IH]; intros t i count vals p H; simpl in H.
  - destruct (isValueType (typ t)) eqn:E; [discriminate H|].
    apply ret_Ok in H as [H ->]. injection H as -> -> ->.
    exists [], []. split; [reflexivity|]. split; [constructor|]. split; [constructor|].
    split; [exact E|]. split; [cbn; lia|]. split; [reflexivity|].
    intros j v Hj. cbn [columnOf]. rewrite extended_nil. exact Hj.
  - destruct (isValueType (typ t)) eqn:E.
    + bind_inv H as (vals1 & p1 & Ha & H).
      unfold Parser.addValue in Ha.
      destruct (length vals) as [|m] eqn:El; [discriminate Ha|].
      destruct (vals !! (i mod S m)%nat) as [v0|] eqn:Ev; [|discriminate Ha].
      apply ret_Ok in Ha as [-> ->].
      bind_inv H as (t1 & p2 & Hn & H).
      apply IH in H as (values & rest & Heq & Hr & Hvals & Ht' & -> & Hlen & Hcol).
      rewrite length_insert in Hlen, Hcol. rewrite El in Hcol.
      exists (t :: values), (t1 :: rest).
      split; [cbn [app]; rewrite Heq; reflexivity|].
      split; [exact (reads_cons f p p2 p' t1 rest Hn Hr)|].
      split; [constructor; assumption|]. split; [exact Ht'|].
      split; [cbn [length]; lia|]. split; [congruence|].
      intros j v Hj. cbn [columnOf].
      destruct (Nat.eqb_spec (i mod S m) j) as [<-|Hne].
      * assert (v = v0) by congruence. subst v0.
        rewrite <- extended_cons. apply Hcol.
        apply list_lookup_insert_eq. apply lookup_lt_Some in Hj. exact Hj.
      * apply Hcol. rewrite list_lookup_insert_ne by exact Hne. exact Hj.
    + apply ret_Ok in H as [H ->]. injection H as -> -> ->.
      exists [], []. split; [reflexivity|]. split; [constructor|]. split; [constructor|].
      split; [exact E|]. split; [cbn; lia|]. split; [reflexivity|].
      intros j v Hj. cbn [columnOf]. rewrite extended_nil. exact Hj.
Qed.

Lemma succ_mod (i n : nat) :
  (0 < n)%nat ->
  (S i mod n = if (S (i mod n) =? n)%nat then 0 else S (i mod n))%nat.
Proof.
  intros Hn. pose proof (Nat.div_mod_eq i n) as Hi.
  pose proof (Nat.mod_upper_bound i n ltac:(lia)) as Ha.
  destruct (Nat.eqb_spec (S (i mod n)) n) as [E|E].
  - symmetry. apply (Nat.mod_unique _ _ (S (i / n))); [lia|nia].
  - symmetry. apply (Nat.mod_unique _ _ (i / n)); [lia|nia].
Qed.

(** The distance from the value number [i] to the next value of the
    column [j]. *)
Definition ahead_of (n j i : nat) : nat := ((j + n - i mod n) mod n)%nat.

Lemma ahead_of_here (n j i : nat) :
  (j < n)%nat -> (i mod n)%nat = j -> ahead_of n j i = 0%nat /\ ahead_of n j (S i) = (n - 1)%nat.
Proof.
  intros Hj Hi. unfold ahead_of. rewrite succ_mod by lia. rewrite Hi. split.
  - replace (j + n - j)%nat with n by lia. apply Nat.Div0.mod_same.
  - destruct (Nat.eqb_spec (S j) n) as [E|E].
    + replace (j + n - 0)%nat with (j + 1 * n)%nat by lia.
      rewrite Nat.Div0.mod_add. rewrite Nat.mod_small by lia. lia.
    + replace (j + n - S j)%nat with (n - 1)%nat by lia. apply Nat.mod_small. lia.
Qed.

Lemma ahead_of_later (n j i : nat) :
  (j < n)%nat -> (i mod n)%nat <> j -> ahead_of n j i = S (ahead_of n j (S i)).
Proof.
  intros Hj Hi. unfold ahead_of. rewrite succ_mod by lia.
  pose proof (Nat.mod_upper_bound i n ltac:(lia)) as Ha.
  set (a := (i mod n)%nat) in *.
  destruct (Nat.eqb_spec (S a) n) as [E|E].
  - replace (j + n - 0)%nat with (j + 1 * n)%nat by lia.
    rewrite Nat.Div0.mod_add. rewrite (Nat.mod_small j) by lia.
    rewrite Nat.mod_small by lia. lia.
  - destruct (Nat.lt_ge_cases j a) as [Hlt|Hge].
    + rewrite !Nat.mod_small by lia. lia.
    + replace (j + n - a)%nat with ((j - a) + 1 * n)%nat by lia.
      replace (j + n - S a)%nat with ((j - S a) + 1 * n)%nat by lia.
      rewrite !Nat.Div0.mod_add. rewrite !Nat.mod_small by lia. lia.
Qed.

Lemma columnOf_ahead (n j : nat) (toks : list item) (i r : nat) :
  (j < n)%nat ->
  columnOf n j i toks !! r = toks !! (r * n + ahead_of n j i)%nat.
Proof.
  intros Hj. revert i r. induction toks as [|t toks IH]; intros i r; [reflexivity|].
  cbn [columnOf]. destruct (Nat.eqb_spec (i mod n) j) as [E|E].
  - destruct (ahead_of_here n j i Hj E) as [H0 H1]. rewrite H0.
    destruct r as [|r]; [reflexivity|].
    cbn [lookup list_lookup]. rewrite IH, H1.
    replace (S r * n + 0)%nat with (S (r * n + (n - 1)))%nat by lia. reflexivity.
  - rewrite IH, (ahead_of_later n j i Hj E).
    replace (r * n + S (ahead_of n j (S i)))%nat with (S (r * n + ahead_of n j (S i)))%nat by lia.
    reflexivity.
Qed.

(** Row by row: the value of the row [r] in the column [j] of a table
    of [n] columns is the value number [r * n + j]. *)
Lemma columnOf_lookup (n j r : nat) (toks : list item) :
  (j < n)%nat -> columnOf n j 0 toks !! r = toks !! (r * n + j)%nat.
Proof.
  intros Hj. rewrite columnOf_ahead by exact Hj. unfold ahead_of.
  rewrite Nat.Div0.mod_0_l. replace (j + n - 0)%nat with (j + 1 * n)%nat by lia.
  rewrite Nat.Div0.mod_add, Nat.mod_small by lia. reflexivity.
Qed.

Lemma bindLoop_names (l : loc) (vals vals' : list loopValues) (blk : Block) :
  names vals = names vals' -> Parser.bindLoop l vals blk = Parser.bindLoop l vals' blk.
Proof.
  unfold Parser.bindLoop. revert vals' blk.
  induction vals as [|v vals IH]; intros [|v' vals'] blk H; try discriminate H; [reflexivity|].
  cbn in H. injection H as Hn H. cbn [fold_left]. rewrite Hn. apply IH, H.
Qed.

Lemma columnIndex_names (i : Z) (vals vals' : list loopValues) (m : gmap string Z) :
  names vals = names vals' -> Parser.columnIndex i vals m = Parser.columnIndex i vals' m.
Proof.
  revert vals' i m.
  induction vals as [|v vals IH]; intros [|v' vals'] i m H; try discriminate H; [reflexivity|].
  cbn in H. injection H as Hn H. cbn [Parser.columnIndex]. rewrite Hn. apply IH, H.
Qed.

Lemma alterBlock_ext (f g : Block -> Block) (b : blockRef) (c : CIF) :
  (forall blk, f blk = g blk) -> alterBlock f b c = alterBlock g b c.
Proof.
  intros Hfg. unfold alterBlock. f_equal. destruct b as [bn|bn fn].
  - apply alter_ext. intros db _. unfold alterDataBlock. rewrite Hfg. reflexivity.
  - apply alter_ext. intros db _. unfold alterFrame. f_equal.
    apply alter_ext. intros fr _. rewrite Hfg. reflexivity.
Qed.

(** The name and the texts of the column [j] of a table with the tags
    [tags] and the values [values], and the type that the values give it. *)
Definition columnRead (tags values : list item) (j : nat) (tg : item) : loopValues :=
  let toks := columnOf (length tags) j 0 values in
  mkLoopValues (ToLower (val tg)) (List.map val toks) (columnTyp (List.map typ toks)).

(** A successful [parseLoop] by the tokens that it read: one or more
    tags, then the values, [L] for each tag, up to the first token [t']
    that is no value; the table it installed under the tags, at the end of
    the heap, has one column for each tag, made of the values dealt to
    that column. *)
Lemma parseLoop_tokens (fuel : nat) (b : blockRef) (p p' : parser) (t' : item) :
  Parser.parseLoop fuel b p = Ok (t', p') ->
  exists (tags values : list item) (p2 : parser) (cols : list ValueLoop) (L : nat),
    reads p (tags ++ values ++ [t'])%list p2 /\
    Forall (fun tg => typ tg = itemDataTag) tags /\
    Forall (fun tv => isValueType (typ tv) = true) values /\
    isValueType (typ t') = false /\
    tags <> [] /\ (1 <= L)%nat /\ length values = (L * length tags)%nat /\
    Forall (fun tg => Items (getBlock b (cif p)) !! ToLower (val tg) = None /\
                      Loops (getBlock b (cif p)) !! ToLower (val tg) = None) tags /\
    length cols = length tags /\
    (forall j tg, tags !! j = Some tg ->
       exists col, cols !! j = Some col /\ converted (columnRead tags values j tg) col) /\
    cif p' = alterBlock (Parser.bindLoop (length (heap (cif p))) (List.map newColumn tags)) b
               (snd (allocLoop {| Columns := Parser.columnIndex 0 (List.map newColumn tags) ∅;
                                  Values := cols |} (cif p))).
Proof.
  unfold Parser.parseLoop. intros H.
  bind_inv H as (loopLine & p0' & Hg & H). apply gets_Ok in Hg as [-> ->].
  bind_inv H as (t0 & p0 & Hn & H).
  bind_inv H as (u1 & p0'' & Hc1 & H).
  destruct (itemType_eqb (typ t0) itemDataTag) eqn:Et0; simpl in Hc1;
    [|exfalso; exact (typeName_errf _ _ _ _ Hc1)].
  apply ret_Ok in Hc1 as [_ ->].
  bind_inv H as ([t1 vals] & p1 & Htags & H).
  bind_inv H as (u2 & p1' & Hc2 & H).
  destruct (isValueType (typ t1)) eqn:Et1; simpl in Hc2;
    [|exfalso; exact (typeName_errf _ _ _ _ Hc2)].
  apply ret_Ok in Hc2 as [_ ->].
  bind_inv H as ([[t2 count] vals2] & p2 & Hvals & H).
  destruct (length vals2) as [|m] eqn:El; [discriminate H|].
  bind_inv H as (u3 & p2' & Hc3 & H).
  destruct ((count mod S m)%nat =? 0)%nat eqn:Emod; simpl in Hc3; [|discriminate Hc3].
  apply ret_Ok in Hc3 as [_ ->].
  bind_inv H as (l & p3 & Hconv & H). apply ret_Ok in H as [-> ->].
  pose proof (next_cif _ _ _ _ Hn) as Hcif0.
  (* the tags *)
  destruct (parseLoopTags_names _ _ _ _ _ _ _ _ _ Htags) as (new & Hnew & Hdecl).
  destruct (parseLoopTags_tokens _ _ _ _ _ _ _ _ _ Htags)
    as (tags & rest & Heq & Hr1 & Htg & Ht1 & Hvals0).
  cbn [app] in Hnew, Hvals0. subst new.
  assert (Hne : tags <> []).
  { intros ->. cbn in Heq. injection Heq as -> _.
    apply itemType_eqb_eq in Et0. contradiction. }
  pose proof (reads_cif _ _ _ Hr1) as Hcif1.
  (* the values *)
  destruct (parseLoopValues_tokens _ _ _ _ _ _ _ _ _ _ Hvals)
    as (values & rest2 & Heq2 & Hr2 & Hval & Ht2 & Hcount & Hlen2 & Hcol).
  pose proof (reads_cif _ _ _ Hr2) as Hcif2.
  rewrite Hvals0, length_map in Hlen2, Hcol.
  assert (Hm : S m = length tags) by congruence.
  rewrite Hm in Emod. apply Nat.eqb_eq in Emod. cbn [Nat.add] in Hcount. subst count.
  assert (Hvne : values <> []).
  { intros ->. cbn in Heq2. injection Heq2 as -> _. congruence. }
  assert (HL : exists L : nat, (1 <= L)%nat /\ length values = (L * length tags)%nat).
  { exists (length values / length tags)%nat.
    pose proof (Nat.div_mod_eq (length values) (length tags)) as Hd.
    rewrite Emod in Hd. split; [|lia].
    destruct (length values / length tags)%nat eqn:Eq; [|lia].
    destruct values; [contradiction | cbn [length] in Hd; lia]. }
  destruct HL as (L & HL1 & HL2).
  (* the conversion *)
  unfold Parser.convertLoopValues in Hconv.
  bind_inv Hconv as (bname & q1 & Hg & Hconv). apply gets_Ok in Hg as [-> ->].
  bind_inv Hconv as (cols & q2 & Hc & Hconv).
  pose proof (convertColumns_converted _ _ _ _ _ Hc) as Hcv.
  apply convertColumns_Ok in Hc as [-> Hcols].
  bind_inv Hconv as (l1 & q3 & Ha & Hconv). simpl in Ha. injection Ha as <- <-.
  bind_inv Hconv as (u & q4 & Hmod & Hconv). apply modify_Ok in Hmod as ->.
  apply ret_Ok in Hconv as [-> ->].
  assert (Hnames : names vals2 = names (List.map newColumn tags)).
  { apply list_eq. intros j. unfold names.
    rewrite (list_lookup_fmap lv_name vals2), (list_lookup_fmap lv_name (List.map newColumn tags)).
    destruct (List.map newColumn tags !! j) as [v|] eqn:Ej.
    - rewrite (Hcol _ _ Ej). reflexivity.
    - apply lookup_ge_None in Ej. rewrite length_map in Ej.
      rewrite lookup_ge_None_2 by lia. reflexivity. }
  exists tags, values, p2, cols, L.
  split.
  { destruct tags as [|tg0 tags0]; [contradiction|]. cbn [app] in Heq. injection Heq as <- ->.
    cbn [app]. apply (reads_cons fuel p p0 p2 t0 _ Hn).
    destruct values as [|v0 values0]; [contradiction|]. cbn [app] in Heq2.
    injection Heq2 as <- ->.
    pose proof (reads_app _ _ _ _ _ Hr1 Hr2) as Hr. rewrite <- app_assoc in Hr.
    exact Hr. }
  split; [exact Htg|]. split; [exact Hval|]. split; [exact Ht2|].
  split; [exact Hne|]. split; [exact HL1|]. split; [exact HL2|].
  split.
  { rewrite Forall_forall in Hdecl. rewrite Forall_forall. intros tg Hin.
    destruct (Hdecl (newColumn tg)) as [(_ & Hi & Hl) _].
    - rewrite Hvals0. apply list_elem_of_fmap. exists tg. split; [reflexivity | exact Hin].
    - cbn [lv_name newColumn] in Hi, Hl. rewrite Hcif0 in Hi, Hl. split; assumption. }
  assert (Hlc : length cols = length tags).
  { apply Forall2_length in Hcols. congruence. }
  split; [exact Hlc|].
  split.
  { intros j tg Hj.
    assert (Hv : vals2 !! j = Some (columnRead tags values j tg)).
    { rewrite (Hcol j (newColumn tg)) by (rewrite list_lookup_fmap, Hj; reflexivity).
      reflexivity. }
    destruct (Forall2_lookup_l _ _ _ _ _ Hcv Hv) as (col & Hcj & Hconvd).
    exists col. split; assumption. }
  cbn [cif Parser.set_cif]. rewrite Hcif2, Hcif1, Hcif0.
  rewrite (columnIndex_names _ _ _ _ Hnames).
  apply alterBlock_ext. intros blk. apply bindLoop_names, Hnames.
Qed.

(** ** What the parser keeps *)

(** The later document keeps every table of the earlier one at its
    address, and every binding of a tag to a table. *)
Definition kept (c c' : CIF) : Prop :=
  (exists more, heap c' = (heap c ++ more)%list) /\
  forall b tag l, validRef b c -> Loops (getBlock b c) !! tag = Some l ->
                  validRef b c' /\ Loops (getBlock b c') !! tag = Some l.

Lemma kept_refl (c : CIF) : kept c c.
Proof.
  split; [exists []; rewrite app_nil_r; reflexivity|].
  intros b tag l Hv Hl. split; assumption.
Qed.

Lemma kept_trans (c1 c2 c3 : CIF) : kept c1 c2 -> kept c2 c3 -> kept c1 c3.
Proof.
  intros [[m1 H1] K1] [[m2 H2] K2]. split.
  - exists (m1 ++ m2)%list. rewrite H2, H1, app_assoc. reflexivity.
  - intros b tag l Hv Hl. destruct (K1 b tag l Hv Hl) as [Hv2 Hl2]. exact (K2 b tag l Hv2 Hl2).
Qed.

(** A step that allocates no table and touches no [Loops] map of a block
    that is there. *)
Lemma kept_same (c c' : CIF) :
  heap c' = heap c ->
  (forall b, validRef b c -> validRef b c' /\ Loops (getBlock b c') = Loops (getBlock b c)) ->
  kept c c'.
Proof.
  intros Hh Hb. split; [exists []; rewrite app_nil_r; exact Hh|].
  intros b tag l Hv Hl. destruct (Hb b Hv) as [Hv' E]. split; [exact Hv'|].
  rewrite E. exact Hl.
Qed.

Lemma kept_version (c : CIF) (v : string) : kept c (set_Version v c).
Proof. apply kept_same; [reflexivity|]. intros [bn|bn fn] Hv; split; try exact Hv; reflexivity. Qed.

Lemma kept_block (c : CIF) (name : string) :
  Blocks c !! name = None ->
  kept c (set_Blocks (<[name := newDataBlock name]> (Blocks c)) c).
Proof.
  intros Hfresh. apply kept_same; [reflexivity|].
  intros [bn|bn fn]; simpl.
  - intros [db Hdb]. assert (name <> bn) by congruence.
    rewrite lookup_insert_ne by assumption. rewrite Hdb. split; [eauto | reflexivity].
  - intros (db & Hdb & Hf). assert (name <> bn) by congruence.
    rewrite lookup_insert_ne by assumption. rewrite Hdb. split; [eauto | reflexivity].
Qed.

Lemma kept_frame (c : CIF) (dblock name : string) (db : DataBlock) :
  Blocks c !! dblock = Some db -> Frames db !! name = None ->
  kept c (set_Blocks (alter (Parser.insertFrame name (mkSaveFrame (emptyBlock name)))
                            dblock (Blocks c)) c).
Proof.
  intros Hdb Hfresh. apply kept_same; [reflexivity|].
  intros [bn|bn fn]; simpl.
  - intros Hv. rewrite lookup_alter_is_Some. split; [exact Hv|].
    destruct (decide (dblock = bn)) as [->|Hne].
    + rewrite lookup_alter_eq, Hdb. reflexivity.
    + rewrite lookup_alter_ne by assumption. reflexivity.
  - intros (d & Hd & Hf). destruct (decide (dblock = bn)) as [->|Hne].
    + rewrite lookup_alter_eq, Hdb. rewrite Hdb in Hd. injection Hd as <-. simpl.
      assert (name <> fn) by (intros ->; rewrite Hfresh in Hf; destruct Hf; discriminate).
      rewrite lookup_insert_ne by assumption. split; [|reflexivity].
      eexists. split; [reflexivity|]. simpl. rewrite lookup_insert_ne by assumption. exact Hf.
    + rewrite lookup_alter_ne by assumption. rewrite Hd. split; [eauto | reflexivity].
Qed.

Lemma kept_item (c : CIF) (b : blockRef) (name : string) (v : Value) :
  kept c (alterBlock (setItem name v) b c).
Proof.
  apply kept_same; [reflexivity|].
  intros b' Hv. split; [apply validRef_alterBlock; exact Hv|].
  destruct (decide (b' = b)) as [->|Hne].
  - rewrite getBlock_alterBlock by exact Hv. reflexivity.
  - rewrite getBlock_alterBlock_ne by exact Hne. reflexivity.
Qed.

Lemma kept_loop (c : CIF) (b : blockRef) (vals : list loopValues) (lp : Loop) :
  validRef b c ->
  (forall tag, In tag (names vals) -> Loops (getBlock b c) !! tag = None) ->
  kept c (alterBlock (Parser.bindLoop (length (heap c)) vals) b (snd (allocLoop lp c))).
Proof.
  intros Hvb Hfresh. split; [exists [lp]; reflexivity|].
  intros b0 tag l0 Hv0 Hl0.
  assert (Hget1 : forall b1, getBlock b1 (snd (allocLoop lp c)) = getBlock b1 c)
    by (intros [?|? ?]; reflexivity).
  split; [apply validRef_alterBlock; destruct b0; exact Hv0|].
  destruct (decide (b0 = b)) as [->|Hne].
  - rewrite getBlock_alterBlock by (destruct b; exact Hvb). rewrite Hget1.
    rewrite bindLoop_lookup_out; [exact Hl0|].
    intros Hin. rewrite (Hfresh _ Hin) in Hl0. discriminate.
  - rewrite getBlock_alterBlock_ne by exact Hne. rewrite Hget1. exact Hl0.
Qed.

Lemma declared_fresh (blk : Block) (vals : list loopValues) (tag : string) :
  Forall (declared blk) vals -> In tag (names vals) -> Loops blk !! tag = None.
Proof.
  intros Hd Hin. unfold names in Hin. apply in_map_iff in Hin as (v & <- & Hv).
  rewrite Forall_forall in Hd. apply list_elem_of_In in Hv.
  destruct (Hd v Hv) as (_ & _ & H). exact H.
Qed.

(** The loops of the parser keep what is in the document. *)
Lemma parseSaveFrameLoop_kept (fuel : nat) (frame : blockRef) (t : item)
    (p p' : parser) (u : unit) :
  Parser.parseSaveFrameLoop fuel frame t p = Ok (u, p') ->
  wfDoc (cif p) -> validRef frame (cif p) -> kept (cif p) (cif p').
Proof.
  intros H Hwf Hv.
  apply (parseSaveFrameLoop_I (kept (cif p))) with (fuel := fuel) (frame := frame) (t := t)
                                                   (p := p) (u := u);
    try assumption; try apply kept_refl.
  - intros c b raw t0 v _ _ _ _ _ K. exact (kept_trans _ _ _ K (kept_item c b _ v)).
  - intros c b vals cols Hvb Hr _ K.
    apply (kept_trans _ _ _ K). apply kept_loop; [exact Hvb|].
    intros tag. apply declared_fresh, (lr_declared _ _ _ Hr).
Qed.

Lemma parseDataBlockLoop_kept (fuel : nat) (dblock : string) (t t' : item) (p p' : parser) :
  Parser.parseDataBlockLoop fuel dblock t p = Ok (t', p') ->
  wfDoc (cif p) -> is_Some (Blocks (cif p) !! dblock) -> kept (cif p) (cif p').
Proof.
  intros H Hwf Hv.
  apply (parseDataBlockLoop_I (kept (cif p))) with (fuel := fuel) (dblock := dblock) (t := t)
                                                   (t' := t') (p := p);
    try assumption; try apply kept_refl.
  - intros c db raw d Hd Hf _ K. exact (kept_trans _ _ _ K (kept_frame c db _ d Hd Hf)).
  - intros c b raw t0 v _ _ _ _ _ K. exact (kept_trans _ _ _ K (kept_item c b _ v)).
  - intros c b vals cols Hvb Hr _ K.
    apply (kept_trans _ _ _ K). apply kept_loop; [exact Hvb|].
    intros tag. apply declared_fresh, (lr_declared _ _ _ Hr).
Qed.

Lemma parseLoopTop_kept (fuel : nat) (t : item) (p p' : parser) (c : CIF) :
  Parser.parseLoopTop fuel t p = Ok (c, p') -> wfDoc (cif p) -> kept (cif p) c.
Proof.
  intros H Hwf.
  apply (parseLoopTop_I (kept (cif p))) with (fuel := fuel) (t := t) (p := p) (p' := p');
    try assumption; try apply kept_refl.
  - intros c0 v K. exact (kept_trans _ _ _ K (kept_version c0 v)).
  - intros c0 raw Hf _ K. exact (kept_trans _ _ _ K (kept_block c0 _ Hf)).
  - intros c0 db raw d Hd Hf _ K. exact (kept_trans _ _ _ K (kept_frame c0 db _ d Hd Hf)).
  - intros c0 b raw t0 v _ _ _ _ _ K. exact (kept_trans _ _ _ K (kept_item c0 b _ v)).
  - intros c0 b vals cols Hvb Hr _ K.
    apply (kept_trans _ _ _ K). apply kept_loop; [exact Hvb|].
    intros tag. apply declared_fresh, (lr_declared _ _ _ Hr).
Qed.

Lemma columnOf_length (n j L : nat) (toks : list item) :
  (j < n)%nat -> length toks = (L * n)%nat -> length (columnOf n j 0 toks) = L.
Proof.
  intros Hj Hlen.
  destruct (Nat.lt_trichotomy (length (columnOf n j 0 toks)) L) as [H|[H|H]]; [|exact H|].
  - exfalso.
    assert (E : columnOf n j 0 toks !! length (columnOf n j 0 toks) = None)
      by (apply lookup_ge_None; lia).
    rewrite columnOf_lookup in E by exact Hj. apply lookup_ge_None in E. nia.
  - exfalso.
    assert (E : is_Some (columnOf n j 0 toks !! L)) by (apply lookup_lt_is_Some; lia).
    rewrite columnOf_lookup in E by exact Hj. apply lookup_lt_is_Some in E. nia.
Qed.

Lemma converted_len (v : loopValues) (col : ValueLoop) :
  converted v col -> columnLen col = length (lv_strs v).
Proof.
  unfold converted. destruct (lv_typ v); try contradiction.
  - intros ->. reflexivity.
  - intros ->. reflexivity.
  - intros (nums & -> & HF). cbn. symmetry. exact (Forall2_length _ _ _ HF).
  - intros (nums & -> & HF). cbn. symmetry. exact (Forall2_length _ _ _ HF).
  - intros ->. reflexivity.
Qed.

(** ** Table shape and sharing *)

(** C6. Table shape and sharing invariant. (1) In every document returned
    by a successful [Read], every table on the heap has columns of one
    common length [L >= 1] and is bound, under every one of its tags, in
    one block of the document to its own address; conversely every
    binding of a tag in a block's [Loops] map leads to a table that has
    this tag and all of whose tags are bound to the same address in that
    block. (2) A successful [parseLoop] has read one or more tags and
    then [L >= 1] values for each tag, up to the first token that is no
    value; it has put one table at the end of the heap, with one column
    of the length [L] for each tag; the column names of this table are
    the lower-cased tags, and every tag that was declared is bound, in
    the [Loops] map of the block, to the address of this one table and
    names one of its columns. (3) The loops of the parser that go on
    after it keep every table at its address and every binding of a tag,
    up to the document that [parse] returns. *)
Theorem C6_table_shape_and_sharing :
  (forall (fuel : nat) (inp : string) (c : CIF),
     Read fuel inp = Some (Some c, None) ->
     (forall l lp, heap c !! l = Some lp ->
        (exists L : nat, (1 <= L)%nat /\
                         Forall (fun col => columnLen col = L) (Values lp)) /\
        (exists b, validRef b c /\ boundTo (getBlock b c) l lp)) /\
     (forall b tag l, validRef b c -> Loops (getBlock b c) !! tag = Some l ->
        exists lp, heap c !! l = Some lp /\ is_Some (Columns lp !! tag) /\
                   boundTo (getBlock b c) l lp)) /\
  (forall (fuel : nat) (b : blockRef) (p p' : parser) (t' : item),
     Parser.parseLoop fuel b p = Ok (t', p') -> validRef b (cif p) ->
     exists (tags values : list item) (p2 : parser) (lp : Loop) (L : nat),
       reads p (tags ++ values ++ [t'])%list p2 /\
       Forall (fun tg => typ tg = itemDataTag) tags /\
       Forall (fun tv => isValueType (typ tv) = true) values /\
       isValueType (typ t') = false /\
       tags <> [] /\ (1 <= L)%nat /\ length values = (L * length tags)%nat /\
       heap (cif p') = (heap (cif p) ++ [lp])%list /\
       length (Values lp) = length tags /\
       Forall (fun col => columnLen col = L) (Values lp) /\
       (forall tag, is_Some (Columns lp !! tag) <->
                    exists tg, In tg tags /\ tag = ToLower (val tg)) /\
       (forall tg, In tg tags ->
          Loops (getBlock b (cif p')) !! ToLower (val tg) = Some (length (heap (cif p))) /\
          exists i, Columns lp !! ToLower (val tg) = Some i /\
                    0 <= i < Z.of_nat (length (Values lp)))) /\
  ((forall (fuel : nat) (frame : blockRef) (t : item) (p p' : parser) (u : unit),
      Parser.parseSaveFrameLoop fuel frame t p = Ok (u, p') ->
      wfDoc (cif p) -> validRef frame (cif p) -> kept (cif p) (cif p')) /\
   (forall (fuel : nat) (dblock : string) (t t' : item) (p p' : parser),
      Parser.parseDataBlockLoop fuel dblock t p = Ok (t', p') ->
      wfDoc (cif p) -> is_Some (Blocks (cif p) !! dblock) -> kept (cif p) (cif p')) /\
   (forall (fuel : nat) (t : item) (p p' : parser) (c : CIF),
      Parser.parseLoopTop fuel t p = Ok (c, p') -> wfDoc (cif p) -> kept (cif p) c)).
Proof.
  split; [|split].
  - intros fuel inp c H. apply Read_wf in H as [Hs Hb Ho]. split.
    + intros l lp Hl. split; [exact (proj1 (Hs l lp Hl)) | exact (Ho l lp Hl)].
    + exact Hb.
  - intros fuel b p p' t' H Hvb.
    destruct (parseLoop_tokens _ _ _ _ _ H)
      as (tags & values & p2 & cols & L & Hr & Htg & Hval & Ht' & Hne & HL & Hlen & _ & Hlc
          & Hcols & Hcif).
    set (vals := List.map newColumn tags) in *.
    set (lp := {| Columns := Parser.columnIndex 0 vals ∅; Values := cols |}) in *.
    assert (Hnames : forall tag, In tag (names vals) <->
                                 exists tg, In tg tags /\ tag = ToLower (val tg)).
    { intros tag. unfold names, vals. rewrite List.map_map, in_map_iff. split.
      - intros (tg & <- & Hin). exists tg. split; [exact Hin | reflexivity].
      - intros (tg & Hin & ->). exists tg. split; [reflexivity | exact Hin]. }
    assert (Hcol : forall tag, is_Some (Columns lp !! tag) <-> In tag (names vals)).
    { intros tag. cbn [Columns lp]. rewrite columnIndex_is_Some. split; [intros [Hi|[x Hx]]|].
      - exact Hi.
      - rewrite lookup_empty in Hx. discriminate Hx.
      - intros Hi. left. exact Hi. }
    exists tags, values, p2, lp, L.
    repeat (split; [assumption|]).
    split; [rewrite Hcif; reflexivity|].
    split; [exact Hlc|].
    split.
    { apply Forall_lookup. intros j col Hj. cbn [Values lp] in Hj.
      assert (Hjt : (j < length tags)%nat) by (apply lookup_lt_Some in Hj; lia).
      destruct (lookup_lt_is_Some_2 tags j Hjt) as [tg Htgj].
      destruct (Hcols j tg Htgj) as (col' & Hc' & Hconv).
      assert (col' = col) by congruence. subst col'.
      rewrite (converted_len _ _ Hconv). unfold columnRead. cbn [lv_strs].
      rewrite length_map. apply columnOf_length; assumption. }
    split; [intros tag; rewrite Hcol; apply Hnames|].
    intros tg Hin.
    assert (Hn : In (ToLower (val tg)) (names vals))
      by (apply Hnames; exists tg; split; [exact Hin | reflexivity]).
    split.
    + rewrite Hcif. rewrite getBlock_alterBlock by (destruct b; exact Hvb).
      apply bindLoop_lookup_in, Hn.
    + apply Hcol in Hn as [i Hi]. exists i. split; [exact Hi|].
      cbn [Columns lp] in Hi. apply columnIndex_lookup in Hi as [Hi|[_ Hi]].
      * rewrite lookup_empty in Hi. discriminate Hi.
      * cbn [Values lp]. unfold vals in Hi. rewrite length_map in Hi. lia.
  - split; [|split].
    + exact parseSaveFrameLoop_kept.
    + exact parseDataBlockLoop_kept.
    + exact parseLoopTop_kept.
Qed.

(** The invariant at [tableInput]: its one table has two columns of
    length 3, and both tags lead to the address 0. *)
Lemma C6_witness :
  (exists L : nat, (1 <= L)%nat /\
                   Forall (fun col => columnLen col = L) (Values tableLoop)) /\
  (exists lp, heap tableDoc !! 0%nat = Some lp /\ is_Some (Columns lp !! "y") /\
              boundTo (getBlock (inData "a") tableDoc) 0%nat lp).
Proof.
  destruct (proj1 C6_table_shape_and_sharing 200%nat tableInput tableDoc Read_tableInput)
    as [H1 H2].
  split.
  - exact (proj1 (H1 0%nat tableLoop eq_refl)).
  - apply (H2 (inData "a") "y" 0%nat).
    + vm_compute. eauto.
    + vm_compute. reflexivity.
Defined.

(** ** The values of a table, row by row *)

(** X11. [parseLoop] deals the values to the columns row by row and
    types every column by the values dealt to it: when it has read the
    tags [tags] and then the values [values], the table that it puts at
    the end of the heap has one column for each tag; the value of the row
    [r] in the column [j] is the value number [r * n + j] of the [n * L]
    values read, for [n] tags; and the column is one of integers, each
    the [Atoi] of its token or zero for [.] and [?], when the types of
    its tokens resolve to integer by the rule of the values loop, one of
    floats, each the [ParseFloat] of its token or zero, when they resolve
    to float, and otherwise the column of the texts of its tokens. *)
Theorem parseLoop_deals_by_rows (fuel : nat) (b : blockRef) (p p' : parser) (t' : item) :
  Parser.parseLoop fuel b p = Ok (t', p') ->
  exists (tags values : list item) (p2 : parser) (lp : Loop),
    reads p (tags ++ values ++ [t'])%list p2 /\
    Forall (fun tg => typ tg = itemDataTag) tags /\
    Forall (fun tv => isValueType (typ tv) = true) values /\
    isValueType (typ t') = false /\
    heap (cif p') = (heap (cif p) ++ [lp])%list /\
    length (Values lp) = length tags /\
    forall j tg, tags !! j = Some tg ->
      exists (col : ValueLoop) (toks : list item),
        Values lp !! j = Some col /\
        (forall r, toks !! r = values !! (r * length tags + j)%nat) /\
        match columnTyp (List.map typ toks) with
        | itemDataInteger =>
            exists nums, col = cifInts nums /\ Forall2 intCell (List.map val toks) nums
        | itemDataFloat =>
            exists nums, col = cifFloats nums /\ Forall2 floatCell (List.map val toks) nums
        | _ => col = cifStrings (List.map val toks)
        end.
Proof.
  intros H.
  destruct (parseLoop_tokens _ _ _ _ _ H)
    as (tags & values & p2 & cols & L & Hr & Htg & Hval & Ht' & Hne & HL & Hlen & _ & Hlc
        & Hcols & Hcif).
  exists tags, values, p2,
    {| Columns := Parser.columnIndex 0 (List.map newColumn tags) ∅; Values := cols |}.
  repeat (split; [assumption|]).
  split; [rewrite Hcif; reflexivity|].
  split; [exact Hlc|].
  intros j tg Hj. destruct (Hcols j tg Hj) as (col & Hc & Hconv).
  exists col, (columnOf (length tags) j 0 values).
  split; [exact Hc|]. split.
  - intros r. apply columnOf_lookup. apply lookup_lt_Some in Hj. exact Hj.
  - unfold converted, columnRead in Hconv. cbn [lv_typ lv_strs] in Hconv.
    destruct (columnTyp (List.map typ (columnOf (length tags) j 0 values)));
      solve [contradiction | exact Hconv].
Qed.

(** The parser on [tableInput], when it has read the token [loop_]. *)
Definition tableParser : parser :=
  match (Parser.next 50 ;;
         modify (fun p => Parser.set_cif
                            (set_Blocks (<["a" := newDataBlock "a"]> (Blocks (cif p))) (cif p)) p) ;;
         Parser.next 50)%go {| cif := emptyCIF; lx := lex tableInput; p_line := 0 |} with
  | Ok (_, p) => p
  | _ => {| cif := emptyCIF; lx := lex ""; p_line := 0 |}
  end.

(** What [parseLoop] returns there. *)
Definition tableRead : item * parser :=
  match Parser.parseLoop 50 (inData "a") tableParser with
  | Ok r => r
  | _ => (mkItem itemError "" 0, tableParser)
  end.

Lemma parseLoop_deals_by_rows_witness :
  exists (tags values : list item) (p2 : parser) (lp : Loop),
    reads tableParser (tags ++ values ++ [fst tableRead])%list p2 /\
    Forall (fun tg => typ tg = itemDataTag) tags /\
    Forall (fun tv => isValueType (typ tv) = true) values /\
    isValueType (typ (fst tableRead)) = false /\
    heap (cif (snd tableRead)) = (heap (cif tableParser) ++ [lp])%list /\
    length (Values lp) = length tags /\
    forall j tg, tags !! j = Some tg ->
      exists (col : ValueLoop) (toks : list item),
        Values lp !! j = Some col /\
        (forall r, toks !! r = values !! (r * length tags + j)%nat) /\
        match columnTyp (List.map typ toks) with
        | itemDataInteger =>
            exists nums, col = cifInts nums /\ Forall2 intCell (List.map val toks) nums
        | itemDataFloat =>
            exists nums, col = cifFloats nums /\ Forall2 floatCell (List.map val toks) nums
        | _ => col = cifStrings (List.map val toks)
        end.
Proof.
  apply (parseLoop_deals_by_rows 50 (inData "a") tableParser (snd tableRead) (fst tableRead)).
  vm_compute. reflexivity.
Defined.
